(** * qtip_parse: a shallow embedding of [src/qtip_parse.cpp]

    The file follows the C++ source: the [Alignment] record, the CIGAR and
    MD:Z parsers, the two edit-transcript constructions, the quality sums,
    the correctness oracle, the feature-record printers and the pairing loop
    of [sam_pass1].

    Conventions of the embedding.
    - [int] and [size_t] values are integers in [Z].  Arithmetic on a
      [size_t] is reduced modulo 2^64 with [wrap64].  A cast to [int] and
      arithmetic on an [int] that can leave its range are reduced to the
      32-bit two's complement range with [int32], as the compiled code does.
    - A [char*] that the code only reads inside its string is the list of the
      characters before the terminator.  The read name is walked with a moving
      pointer, so [qname] is the list of bytes from the pointer on (the name,
      its terminator, and whatever follows in the line buffer); a read past
      the end of that list is the fault [OutOfBounds].
    - A line is what one call of [fgets] has put in the line buffer, cut at
      its tabs; the newline that [fgets] keeps is part of the last column.
      A pointer behind a column is the list of the columns that follow; with
      none left it stands behind the terminator of the line, and a read
      through it is the fault [OutOfBounds] as well.
    - [assert(c)] aborts the process when [c] is false (fault [AssertFailed]);
      an uncaught [throw 1] terminates it as well (fault [Thrown]).
    - A [double] is kept symbolic (type [dbl]); no floating-point arithmetic
      is evaluated. *)

From Stdlib Require Import ZArith List Ascii String Lia Bool.
From stdpp Require Import base list.
From Equations Require Import Equations.
Import ListNotations.
Local Open Scope Z_scope.

(** ** Faults and the error monad *)

Inductive fault : Type :=
| AssertFailed   (* a failed assert: abort *)
| Thrown         (* throw 1, never caught: terminate *)
| OutOfBounds    (* a read outside the modelled buffer *)
| Diverges.      (* a loop that never advances *)

Inductive result (A : Type) : Type :=
| Ok (a : A)
| Err (f : fault).
Arguments Ok {A} a.
Arguments Err {A} f.

#[export] Instance result_ret : MRet result := fun A a => Ok a.
#[export] Instance result_bind : MBind result := fun A B f m =>
  match m with
  | Ok a => f a
  | Err e => Err e
  end.

Definition assert (c : bool) : result unit :=
  if c then Ok tt else Err AssertFailed.

Definition is_ok {A} (r : result A) : bool :=
  match r with Ok _ => true | Err _ => false end.

(** ** Characters and machine integers *)

Definition NUL : ascii := "000"%char.

Definition code (c : ascii) : Z := Z.of_nat (nat_of_ascii c).

(** [(int)c] for a plain (signed) [char]. *)
Definition char_to_int (c : ascii) : Z :=
  if code c <? 128 then code c else code c - 256.

Definition isdigit (c : ascii) : bool := (48 <=? code c) && (code c <=? 57).

Definition isalpha (c : ascii) : bool :=
  ((65 <=? code c) && (code c <=? 90)) || ((97 <=? code c) && (code c <=? 122)).

Definition isspace (c : ascii) : bool :=
  (code c =? 32) || ((9 <=? code c) && (code c <=? 13)).

Definition ch_eqb (a b : ascii) : bool := Ascii.eqb a b.
Arguments ch_eqb : simpl never.

Definition wrap64 (z : Z) : Z := z mod 2 ^ 64.

Definition int32 (z : Z) : Z := (z + 2 ^ 31) mod 2 ^ 32 - 2 ^ 31.

(** [abs] of an [int]: the negation is taken in 32 bits, so the least [int]
    is its own absolute value and stays negative. *)
Definition c_abs (x : Z) : Z := int32 (Z.abs x).

(** [strlen]: the number of characters before the first terminator. *)
Fixpoint strlen (s : list ascii) : nat :=
  match s with
  | [] => O
  | c :: s' => if ch_eqb c NUL then O else S (strlen s')
  end.

(** [strncmp(a, b, n) == 0]; a pointer at the end of its list reads the
    terminator. *)
Fixpoint strncmp_eq (a b : list ascii) (n : nat) : bool :=
  match n with
  | O => true
  | S n' =>
      let ca := hd NUL a in
      let cb := hd NUL b in
      if negb (ch_eqb ca cb) then false
      else if ch_eqb ca NUL then true
      else strncmp_eq (tl a) (tl b) n'
  end.

(** A [double], kept symbolic. *)
Inductive dbl : Type :=
| DInt (z : Z)               (* the conversion of an integer *)
| DDiv (a b : Z)             (* (double)a / b *)
| DNaN                       (* quiet_NaN() *)
| DScan (tok : list ascii).  (* sscanf(tok, "%lf") *)

(** ** The record types *)

Record OpRunOffset : Type := mkOpRunOffset {
  op : Z;
  run : Z;
  offset : Z
}.

Definition oro_init (_op _run _offset : Z) : OpRunOffset :=
  mkOpRunOffset _op _run _offset.

Record Alignment : Type := mkAlignment {
  rest_of_line : option (list (list ascii));  (* the tab-separated fields not yet tokenized *)
  valid : bool;
  qname : list ascii;                 (* bytes from the qname pointer on *)
  typ : option (list ascii);
  flag : Z;
  rname : list ascii;
  pos : Z;
  mapq : Z;
  cigar : option (list ascii);
  rnext : list ascii;
  pnext : Z;
  seq : list ascii;
  len : Z;
  qual : list ascii;
  tot_clipped_qual : Z;
  tot_aligned_qual : Z;
  avg_clipped_qual : dbl;
  avg_aligned_qual : dbl;
  mdz : option (list ascii);
  cigar_equal_x : bool;
  best_score : Z;
  left_clip : Z;
  right_clip : Z;
  correct : Z;
  line : Z;
  edit_xscript : list ascii;
  cigar_run : list Z;
  cigar_ops : list ascii;
  mdz_oro : list OpRunOffset;
  mdz_char : list ascii
}.

(** Field updates ([al.f = v] in the source). *)

Definition set_rest_of_line (v : option (list (list ascii))) (al : Alignment) : Alignment :=
  mkAlignment v (valid al) (qname al) (typ al) (flag al) (rname al) (pos al) (mapq al) (cigar al) (rnext al) (pnext al) (seq al) (len al) (qual al) (tot_clipped_qual al) (tot_aligned_qual al) (avg_clipped_qual al) (avg_aligned_qual al) (mdz al) (cigar_equal_x al) (best_score al) (left_clip al) (right_clip al) (correct al) (line al) (edit_xscript al) (cigar_run al) (cigar_ops al) (mdz_oro al) (mdz_char al).

Definition set_valid (v : bool) (al : Alignment) : Alignment :=
  mkAlignment (rest_of_line al) v (qname al) (typ al) (flag al) (rname al) (pos al) (mapq al) (cigar al) (rnext al) (pnext al) (seq al) (len al) (qual al) (tot_clipped_qual al) (tot_aligned_qual al) (avg_clipped_qual al) (avg_aligned_qual al) (mdz al) (cigar_equal_x al) (best_score al) (left_clip al) (right_clip al) (correct al) (line al) (edit_xscript al) (cigar_run al) (cigar_ops al) (mdz_oro al) (mdz_char al).

Definition set_qname (v : list ascii) (al : Alignment) : Alignment :=
  mkAlignment (rest_of_line al) (valid al) v (typ al) (flag al) (rname al) (pos al) (mapq al) (cigar al) (rnext al) (pnext al) (seq al) (len al) (qual al) (tot_clipped_qual al) (tot_aligned_qual al) (avg_clipped_qual al) (avg_aligned_qual al) (mdz al) (cigar_equal_x al) (best_score al) (left_clip al) (right_clip al) (correct al) (line al) (edit_xscript al) (cigar_run al) (cigar_ops al) (mdz_oro al) (mdz_char al).

Definition set_typ (v : option (list ascii)) (al : Alignment) : Alignment :=
  mkAlignment (rest_of_line al) (valid al) (qname al) v (flag al) (rname al) (pos al) (mapq al) (cigar al) (rnext al) (pnext al) (seq al) (len al) (qual al) (tot_clipped_qual al) (tot_aligned_qual al) (avg_clipped_qual al) (avg_aligned_qual al) (mdz al) (cigar_equal_x al) (best_score al) (left_clip al) (right_clip al) (correct al) (line al) (edit_xscript al) (cigar_run al) (cigar_ops al) (mdz_oro al) (mdz_char al).

Definition set_flag (v : Z) (al : Alignment) : Alignment :=
  mkAlignment (rest_of_line al) (valid al) (qname al) (typ al) v (rname al) (pos al) (mapq al) (cigar al) (rnext al) (pnext al) (seq al) (len al) (qual al) (tot_clipped_qual al) (tot_aligned_qual al) (avg_clipped_qual al) (avg_aligned_qual al) (mdz al) (cigar_equal_x al) (best_score al) (left_clip al) (right_clip al) (correct al) (line al) (edit_xscript al) (cigar_run al) (cigar_ops al) (mdz_oro al) (mdz_char al).

Definition set_rname (v : list ascii) (al : Alignment) : Alignment :=
  mkAlignment (rest_of_line al) (valid al) (qname al) (typ al) (flag al) v (pos al) (mapq al) (cigar al) (rnext al) (pnext al) (seq al) (len al) (qual al) (tot_clipped_qual al) (tot_aligned_qual al) (avg_clipped_qual al) (avg_aligned_qual al) (mdz al) (cigar_equal_x al) (best_score al) (left_clip al) (right_clip al) (correct al) (line al) (edit_xscript al) (cigar_run al) (cigar_ops al) (mdz_oro al) (mdz_char al).

Definition set_pos (v : Z) (al : Alignment) : Alignment :=
  mkAlignment (rest_of_line al) (valid al) (qname al) (typ al) (flag al) (rname al) v (mapq al) (cigar al) (rnext al) (pnext al) (seq al) (len al) (qual al) (tot_clipped_qual al) (tot_aligned_qual al) (avg_clipped_qual al) (avg_aligned_qual al) (mdz al) (cigar_equal_x al) (best_score al) (left_clip al) (right_clip al) (correct al) (line al) (edit_xscript al) (cigar_run al) (cigar_ops al) (mdz_oro al) (mdz_char al).

Definition set_mapq (v : Z) (al : Alignment) : Alignment :=
  mkAlignment (rest_of_line al) (valid al) (qname al) (typ al) (flag al) (rname al) (pos al) v (cigar al) (rnext al) (pnext al) (seq al) (len al) (qual al) (tot_clipped_qual al) (tot_aligned_qual al) (avg_clipped_qual al) (avg_aligned_qual al) (mdz al) (cigar_equal_x al) (best_score al) (left_clip al) (right_clip al) (correct al) (line al) (edit_xscript al) (cigar_run al) (cigar_ops al) (mdz_oro al) (mdz_char al).

Definition set_cigar (v : option (list ascii)) (al : Alignment) : Alignment :=
  mkAlignment (rest_of_line al) (valid al) (qname al) (typ al) (flag al) (rname al) (pos al) (mapq al) v (rnext al) (pnext al) (seq al) (len al) (qual al) (tot_clipped_qual al) (tot_aligned_qual al) (avg_clipped_qual al) (avg_aligned_qual al) (mdz al) (cigar_equal_x al) (best_score al) (left_clip al) (right_clip al) (correct al) (line al) (edit_xscript al) (cigar_run al) (cigar_ops al) (mdz_oro al) (mdz_char al).

Definition set_rnext (v : list ascii) (al : Alignment) : Alignment :=
  mkAlignment (rest_of_line al) (valid al) (qname al) (typ al) (flag al) (rname al) (pos al) (mapq al) (cigar al) v (pnext al) (seq al) (len al) (qual al) (tot_clipped_qual al) (tot_aligned_qual al) (avg_clipped_qual al) (avg_aligned_qual al) (mdz al) (cigar_equal_x al) (best_score al) (left_clip al) (right_clip al) (correct al) (line al) (edit_xscript al) (cigar_run al) (cigar_ops al) (mdz_oro al) (mdz_char al).

Definition set_pnext (v : Z) (al : Alignment) : Alignment :=
  mkAlignment (rest_of_line al) (valid al) (qname al) (typ al) (flag al) (rname al) (pos al) (mapq al) (cigar al) (rnext al) v (seq al) (len al) (qual al) (tot_clipped_qual al) (tot_aligned_qual al) (avg_clipped_qual al) (avg_aligned_qual al) (mdz al) (cigar_equal_x al) (best_score al) (left_clip al) (right_clip al) (correct al) (line al) (edit_xscript al) (cigar_run al) (cigar_ops al) (mdz_oro al) (mdz_char al).

Definition set_seq (v : list ascii) (al : Alignment) : Alignment :=
  mkAlignment (rest_of_line al) (valid al) (qname al) (typ al) (flag al) (rname al) (pos al) (mapq al) (cigar al) (rnext al) (pnext al) v (len al) (qual al) (tot_clipped_qual al) (tot_aligned_qual al) (avg_clipped_qual al) (avg_aligned_qual al) (mdz al) (cigar_equal_x al) (best_score al) (left_clip al) (right_clip al) (correct al) (line al) (edit_xscript al) (cigar_run al) (cigar_ops al) (mdz_oro al) (mdz_char al).

Definition set_len (v : Z) (al : Alignment) : Alignment :=
  mkAlignment (rest_of_line al) (valid al) (qname al) (typ al) (flag al) (rname al) (pos al) (mapq al) (cigar al) (rnext al) (pnext al) (seq al) v (qual al) (tot_clipped_qual al) (tot_aligned_qual al) (avg_clipped_qual al) (avg_aligned_qual al) (mdz al) (cigar_equal_x al) (best_score al) (left_clip al) (right_clip al) (correct al) (line al) (edit_xscript al) (cigar_run al) (cigar_ops al) (mdz_oro al) (mdz_char al).

Definition set_qual (v : list ascii) (al : Alignment) : Alignment :=
  mkAlignment (rest_of_line al) (valid al) (qname al) (typ al) (flag al) (rname al) (pos al) (mapq al) (cigar al) (rnext al) (pnext al) (seq al) (len al) v (tot_clipped_qual al) (tot_aligned_qual al) (avg_clipped_qual al) (avg_aligned_qual al) (mdz al) (cigar_equal_x al) (best_score al) (left_clip al) (right_clip al) (correct al) (line al) (edit_xscript al) (cigar_run al) (cigar_ops al) (mdz_oro al) (mdz_char al).

Definition set_tot_clipped_qual (v : Z) (al : Alignment) : Alignment :=
  mkAlignment (rest_of_line al) (valid al) (qname al) (typ al) (flag al) (rname al) (pos al) (mapq al) (cigar al) (rnext al) (pnext al) (seq al) (len al) (qual al) v (tot_aligned_qual al) (avg_clipped_qual al) (avg_aligned_qual al) (mdz al) (cigar_equal_x al) (best_score al) (left_clip al) (right_clip al) (correct al) (line al) (edit_xscript al) (cigar_run al) (cigar_ops al) (mdz_oro al) (mdz_char al).

Definition set_tot_aligned_qual (v : Z) (al : Alignment) : Alignment :=
  mkAlignment (rest_of_line al) (valid al) (qname al) (typ al) (flag al) (rname al) (pos al) (mapq al) (cigar al) (rnext al) (pnext al) (seq al) (len al) (qual al) (tot_clipped_qual al) v (avg_clipped_qual al) (avg_aligned_qual al) (mdz al) (cigar_equal_x al) (best_score al) (left_clip al) (right_clip al) (correct al) (line al) (edit_xscript al) (cigar_run al) (cigar_ops al) (mdz_oro al) (mdz_char al).

Definition set_avg_clipped_qual (v : dbl) (al : Alignment) : Alignment :=
  mkAlignment (rest_of_line al) (valid al) (qname al) (typ al) (flag al) (rname al) (pos al) (mapq al) (cigar al) (rnext al) (pnext al) (seq al) (len al) (qual al) (tot_clipped_qual al) (tot_aligned_qual al) v (avg_aligned_qual al) (mdz al) (cigar_equal_x al) (best_score al) (left_clip al) (right_clip al) (correct al) (line al) (edit_xscript al) (cigar_run al) (cigar_ops al) (mdz_oro al) (mdz_char al).

Definition set_avg_aligned_qual (v : dbl) (al : Alignment) : Alignment :=
  mkAlignment (rest_of_line al) (valid al) (qname al) (typ al) (flag al) (rname al) (pos al) (mapq al) (cigar al) (rnext al) (pnext al) (seq al) (len al) (qual al) (tot_clipped_qual al) (tot_aligned_qual al) (avg_clipped_qual al) v (mdz al) (cigar_equal_x al) (best_score al) (left_clip al) (right_clip al) (correct al) (line al) (edit_xscript al) (cigar_run al) (cigar_ops al) (mdz_oro al) (mdz_char al).

Definition set_mdz (v : option (list ascii)) (al : Alignment) : Alignment :=
  mkAlignment (rest_of_line al) (valid al) (qname al) (typ al) (flag al) (rname al) (pos al) (mapq al) (cigar al) (rnext al) (pnext al) (seq al) (len al) (qual al) (tot_clipped_qual al) (tot_aligned_qual al) (avg_clipped_qual al) (avg_aligned_qual al) v (cigar_equal_x al) (best_score al) (left_clip al) (right_clip al) (correct al) (line al) (edit_xscript al) (cigar_run al) (cigar_ops al) (mdz_oro al) (mdz_char al).

Definition set_cigar_equal_x (v : bool) (al : Alignment) : Alignment :=
  mkAlignment (rest_of_line al) (valid al) (qname al) (typ al) (flag al) (rname al) (pos al) (mapq al) (cigar al) (rnext al) (pnext al) (seq al) (len al) (qual al) (tot_clipped_qual al) (tot_aligned_qual al) (avg_clipped_qual al) (avg_aligned_qual al) (mdz al) v (best_score al) (left_clip al) (right_clip al) (correct al) (line al) (edit_xscript al) (cigar_run al) (cigar_ops al) (mdz_oro al) (mdz_char al).

Definition set_best_score (v : Z) (al : Alignment) : Alignment :=
  mkAlignment (rest_of_line al) (valid al) (qname al) (typ al) (flag al) (rname al) (pos al) (mapq al) (cigar al) (rnext al) (pnext al) (seq al) (len al) (qual al) (tot_clipped_qual al) (tot_aligned_qual al) (avg_clipped_qual al) (avg_aligned_qual al) (mdz al) (cigar_equal_x al) v (left_clip al) (right_clip al) (correct al) (line al) (edit_xscript al) (cigar_run al) (cigar_ops al) (mdz_oro al) (mdz_char al).

Definition set_left_clip (v : Z) (al : Alignment) : Alignment :=
  mkAlignment (rest_of_line al) (valid al) (qname al) (typ al) (flag al) (rname al) (pos al) (mapq al) (cigar al) (rnext al) (pnext al) (seq al) (len al) (qual al) (tot_clipped_qual al) (tot_aligned_qual al) (avg_clipped_qual al) (avg_aligned_qual al) (mdz al) (cigar_equal_x al) (best_score al) v (right_clip al) (correct al) (line al) (edit_xscript al) (cigar_run al) (cigar_ops al) (mdz_oro al) (mdz_char al).

Definition set_right_clip (v : Z) (al : Alignment) : Alignment :=
  mkAlignment (rest_of_line al) (valid al) (qname al) (typ al) (flag al) (rname al) (pos al) (mapq al) (cigar al) (rnext al) (pnext al) (seq al) (len al) (qual al) (tot_clipped_qual al) (tot_aligned_qual al) (avg_clipped_qual al) (avg_aligned_qual al) (mdz al) (cigar_equal_x al) (best_score al) (left_clip al) v (correct al) (line al) (edit_xscript al) (cigar_run al) (cigar_ops al) (mdz_oro al) (mdz_char al).

Definition set_correct (v : Z) (al : Alignment) : Alignment :=
  mkAlignment (rest_of_line al) (valid al) (qname al) (typ al) (flag al) (rname al) (pos al) (mapq al) (cigar al) (rnext al) (pnext al) (seq al) (len al) (qual al) (tot_clipped_qual al) (tot_aligned_qual al) (avg_clipped_qual al) (avg_aligned_qual al) (mdz al) (cigar_equal_x al) (best_score al) (left_clip al) (right_clip al) v (line al) (edit_xscript al) (cigar_run al) (cigar_ops al) (mdz_oro al) (mdz_char al).

Definition set_line (v : Z) (al : Alignment) : Alignment :=
  mkAlignment (rest_of_line al) (valid al) (qname al) (typ al) (flag al) (rname al) (pos al) (mapq al) (cigar al) (rnext al) (pnext al) (seq al) (len al) (qual al) (tot_clipped_qual al) (tot_aligned_qual al) (avg_clipped_qual al) (avg_aligned_qual al) (mdz al) (cigar_equal_x al) (best_score al) (left_clip al) (right_clip al) (correct al) v (edit_xscript al) (cigar_run al) (cigar_ops al) (mdz_oro al) (mdz_char al).

Definition set_edit_xscript (v : list ascii) (al : Alignment) : Alignment :=
  mkAlignment (rest_of_line al) (valid al) (qname al) (typ al) (flag al) (rname al) (pos al) (mapq al) (cigar al) (rnext al) (pnext al) (seq al) (len al) (qual al) (tot_clipped_qual al) (tot_aligned_qual al) (avg_clipped_qual al) (avg_aligned_qual al) (mdz al) (cigar_equal_x al) (best_score al) (left_clip al) (right_clip al) (correct al) (line al) v (cigar_run al) (cigar_ops al) (mdz_oro al) (mdz_char al).

Definition set_cigar_run (v : list Z) (al : Alignment) : Alignment :=
  mkAlignment (rest_of_line al) (valid al) (qname al) (typ al) (flag al) (rname al) (pos al) (mapq al) (cigar al) (rnext al) (pnext al) (seq al) (len al) (qual al) (tot_clipped_qual al) (tot_aligned_qual al) (avg_clipped_qual al) (avg_aligned_qual al) (mdz al) (cigar_equal_x al) (best_score al) (left_clip al) (right_clip al) (correct al) (line al) (edit_xscript al) v (cigar_ops al) (mdz_oro al) (mdz_char al).

Definition set_cigar_ops (v : list ascii) (al : Alignment) : Alignment :=
  mkAlignment (rest_of_line al) (valid al) (qname al) (typ al) (flag al) (rname al) (pos al) (mapq al) (cigar al) (rnext al) (pnext al) (seq al) (len al) (qual al) (tot_clipped_qual al) (tot_aligned_qual al) (avg_clipped_qual al) (avg_aligned_qual al) (mdz al) (cigar_equal_x al) (best_score al) (left_clip al) (right_clip al) (correct al) (line al) (edit_xscript al) (cigar_run al) v (mdz_oro al) (mdz_char al).

Definition set_mdz_oro (v : list OpRunOffset) (al : Alignment) : Alignment :=
  mkAlignment (rest_of_line al) (valid al) (qname al) (typ al) (flag al) (rname al) (pos al) (mapq al) (cigar al) (rnext al) (pnext al) (seq al) (len al) (qual al) (tot_clipped_qual al) (tot_aligned_qual al) (avg_clipped_qual al) (avg_aligned_qual al) (mdz al) (cigar_equal_x al) (best_score al) (left_clip al) (right_clip al) (correct al) (line al) (edit_xscript al) (cigar_run al) (cigar_ops al) v (mdz_char al).

Definition set_mdz_char (v : list ascii) (al : Alignment) : Alignment :=
  mkAlignment (rest_of_line al) (valid al) (qname al) (typ al) (flag al) (rname al) (pos al) (mapq al) (cigar al) (rnext al) (pnext al) (seq al) (len al) (qual al) (tot_clipped_qual al) (tot_aligned_qual al) (avg_clipped_qual al) (avg_aligned_qual al) (mdz al) (cigar_equal_x al) (best_score al) (left_clip al) (right_clip al) (correct al) (line al) (edit_xscript al) (cigar_run al) (cigar_ops al) (mdz_oro al) v.

(** ** Construction and flag tests *)

(** [clear()]: every field is reset except the two quality totals, which the
    source leaves as they were. *)
Definition clear (al : Alignment) : Alignment :=
  {| rest_of_line := None; valid := false; qname := []; typ := None;
     flag := 0; rname := []; pos := 0; mapq := 0; cigar := None;
     rnext := []; pnext := 0; seq := []; len := 0; qual := [];
     tot_clipped_qual := tot_clipped_qual al;
     tot_aligned_qual := tot_aligned_qual al;
     avg_clipped_qual := DInt 0; avg_aligned_qual := DInt 0;
     mdz := None; cigar_equal_x := false; best_score := 0;
     left_clip := 0; right_clip := 0; correct := -1; line := 0;
     edit_xscript := []; cigar_run := []; cigar_ops := [];
     mdz_oro := []; mdz_char := [] |}.

(** A freshly constructed [Alignment]; the two totals are not initialised by
    the constructor and are given as arguments. *)
Definition new_Alignment (tc ta : Z) : Alignment :=
  {| rest_of_line := None; valid := false; qname := []; typ := None;
     flag := 0; rname := []; pos := 0; mapq := 0; cigar := None;
     rnext := []; pnext := 0; seq := []; len := 0; qual := [];
     tot_clipped_qual := tc; tot_aligned_qual := ta;
     avg_clipped_qual := DInt 0; avg_aligned_qual := DInt 0;
     mdz := None; cigar_equal_x := false; best_score := 0;
     left_clip := 0; right_clip := 0; correct := -1; line := 0;
     edit_xscript := []; cigar_run := []; cigar_ops := [];
     mdz_oro := []; mdz_char := [] |}.

Definition is_aligned (al : Alignment) : bool := Z.land (flag al) 4 =? 0.

Definition is_fw (al : Alignment) : bool := Z.land (flag al) 16 =? 0.

Definition is_concordant (al : Alignment) : bool := negb (Z.land (flag al) 2 =? 0).

Definition is_paired (al : Alignment) : bool := negb (Z.land (flag al) 1 =? 0).

Definition mate_flag_of (fl : Z) : ascii :=
  if negb (Z.land fl 64 =? 0) then "1"%char
  else if negb (Z.land fl 128 =? 0) then "2"%char
  else "0"%char.

Definition mate_flag (al : Alignment) : ascii := mate_flag_of (flag al).

(** ** Reference span and fragment length *)

Definition is_nil {A} (l : list A) : bool :=
  match l with [] => true | _ => false end.

Definition lpos (al : Alignment) : result Z :=
  _ ← assert (negb (is_nil (cigar_ops al)));
  Ok (wrap64 (pos al - left_clip al)).

(** [while( *xs++ == 'S');]  The pointer is advanced once more than the
    number of leading [S] characters. *)
Fixpoint rpos_skip (xs : list ascii) : result (list ascii) :=
  match xs with
  | [] => Err OutOfBounds
  | c :: xs' => if ch_eqb c "S" then rpos_skip xs' else Ok xs'
  end.

(** [while( *xs != '\0') { if(...) mv++; xs++; }] *)
Fixpoint rpos_count (xs : list ascii) (mv : Z) : result Z :=
  match xs with
  | [] => Err OutOfBounds
  | c :: xs' =>
      if ch_eqb c NUL then Ok mv
      else rpos_count xs'
             (if ch_eqb c "S" || ch_eqb c "D" || ch_eqb c "X" || ch_eqb c "="
              then mv + 1 else mv)
  end.

Definition rpos (al : Alignment) : result Z :=
  _ ← assert (negb (is_nil (edit_xscript al)));
  xs ← rpos_skip (edit_xscript al);
  match xs with
  | [] => Err OutOfBounds
  | c :: _ =>
      _ ← assert (negb (ch_eqb c NUL));
      mv ← rpos_count xs 0;
      Ok (wrap64 (pos al + mv - 1))
  end.

Definition fragment_length (al1 al2 : Alignment) : result Z :=
  let up := if pos al1 <? pos al2 then al1 else al2 in
  let dn := if pos al1 <? pos al2 then al2 else al1 in
  r ← rpos dn;
  l ← lpos up;
  Ok (wrap64 (r - l + 1)).

(** ** Edit transcripts *)

(** [cigar_to_edit_xscript]: the loop over the parallel lists [cigar_ops] and
    [cigar_run].  The inner counter is an [int]. *)
Fixpoint cigar_to_edit_xscript_loop (ops : list ascii) (runs : list Z)
    (xs : list ascii) : result (list ascii) :=
  match runs with
  | [] => Ok xs
  | crun :: runs' =>
      match ops with
      | [] => Err AssertFailed
      | cop :: ops' =>
          _ ← assert (negb (ch_eqb cop "M") && negb (ch_eqb cop "P"));
          cigar_to_edit_xscript_loop ops' runs' (xs ++ repeat cop (Z.to_nat crun))
      end
  end.

Definition cigar_to_edit_xscript (al : Alignment) : result Alignment :=
  _ ← assert (cigar_equal_x al);
  _ ← assert (is_nil (edit_xscript al));
  xs ← cigar_to_edit_xscript_loop (cigar_ops al) (cigar_run al) (edit_xscript al);
  Ok (set_edit_xscript (xs ++ [NUL]) al).

(** The number of iterations of [for(size_t j = 0; j < n; j++)] for an [int]
    bound [n]. *)
Definition size_t_iters (n : Z) : nat := Z.to_nat (wrap64 n).

Definition inspect {A} (a : A) : {b | a = b} := exist _ a eq_refl.

Definition set_run (r : Z) (e : OpRunOffset) : OpRunOffset :=
  mkOpRunOffset (op e) r (offset e).

(** The characters pushed by one iteration of the [while] loop of an [M] run. *)
Definition m_loop_push (e : OpRunOffset) (runleft : Z) (xs : list ascii)
    : result (list ascii) :=
  let op_m := op e in
  let run_m := run e in
  let run_comb := Z.min runleft run_m in
  _ ← assert ((op_m =? 0) || (op_m =? 1));
  if op_m =? 0 then Ok (xs ++ repeat "="%char (size_t_iters run_comb))
  else
    _ ← assert (run_m =? run_comb);
    Ok (xs ++ repeat "X"%char (size_t_iters run_m)).

(** [while(runleft > 0 && mdo < mdz_oro.size())] of an [M] run.  The state is
    the run list (an entry is shortened in place), the cursor [mdo], the read
    offset and the transcript. *)
Equations? m_loop (oro : list OpRunOffset) (mdo : nat) (runleft rdoff : Z)
    (xs : list ascii) : result (list OpRunOffset * nat * Z * list ascii)
    by wf (2 * (length oro - mdo) + (if (0 <? runleft)%Z then 1 else 0))%nat lt :=
  m_loop oro mdo runleft rdoff xs with inspect (0 <? runleft) := {
    | exist _ false _ := Ok (oro, mdo, rdoff, xs)
    | exist _ true Hrl with inspect (oro !! mdo) := {
      | exist _ None _ := Ok (oro, mdo, rdoff, xs)
      | exist _ (Some e) He with m_loop_push e runleft xs := {
        | Err f := Err f
        | Ok xs' with inspect (Z.min runleft (run e) <? run e) := {
          | exist _ true Hlt :=
              if op e =? 0 then
                m_loop (<[mdo := set_run (run e - Z.min runleft (run e)) e]> oro)
                       mdo (runleft - Z.min runleft (run e))
                       (wrap64 (rdoff + Z.min runleft (run e))) xs'
              else Err AssertFailed
          | exist _ false _ :=
              m_loop oro (S mdo) (runleft - Z.min runleft (run e))
                     (wrap64 (rdoff + Z.min runleft (run e))) xs' } } } }.
Proof.
  - rewrite length_insert, Hrl.
    apply Z.ltb_lt in Hlt.
    replace (0 <? runleft - Z.min runleft (run e)) with false
      by (symmetry; apply Z.ltb_ge; lia).
    lia.
  - rewrite Hrl.
    apply lookup_lt_Some in He.
    destruct (0 <? runleft - Z.min runleft (run e)); lia.
Qed.

(** [cigar_and_mdz_to_edit_xscript]: the loop over the CIGAR runs. *)
Fixpoint cigar_and_mdz_loop (ops : list ascii) (runs : list Z)
    (oro : list OpRunOffset) (mdo : nat) (rdoff : Z) (xs : list ascii)
    : result (list OpRunOffset * nat * Z * list ascii) :=
  match runs with
  | [] => Ok (oro, mdo, rdoff, xs)
  | crun :: runs' =>
      match ops with
      | [] => Err AssertFailed
      | cop :: ops' =>
          _ ← assert (negb (ch_eqb cop "X") && negb (ch_eqb cop "="));
          if ch_eqb cop "M" then
            '(oro', mdo', rdoff', xs') ← m_loop oro mdo crun rdoff xs;
            cigar_and_mdz_loop ops' runs' oro' mdo' rdoff' xs'
          else if ch_eqb cop "I" then
            cigar_and_mdz_loop ops' runs' oro mdo (wrap64 (rdoff + crun))
              (xs ++ repeat "I"%char (size_t_iters crun))
          else if ch_eqb cop "D" then
            match oro !! mdo with
            | None => Err AssertFailed
            | Some e =>
                _ ← assert (op e =? 2);
                _ ← assert (crun =? run e);
                _ ← assert (run e =? crun);
                cigar_and_mdz_loop ops' runs' oro (S mdo) rdoff
                  (xs ++ repeat "D"%char (size_t_iters (run e)))
            end
          else if ch_eqb cop "N" then
            cigar_and_mdz_loop ops' runs' oro mdo rdoff
              (xs ++ repeat "N"%char (size_t_iters crun))
          else if ch_eqb cop "S" then
            cigar_and_mdz_loop ops' runs' oro mdo (wrap64 (rdoff + crun))
              (xs ++ repeat "S"%char (size_t_iters crun))
          else if ch_eqb cop "H" then
            cigar_and_mdz_loop ops' runs' oro mdo rdoff xs
          else Err Thrown
      end
  end.

Definition cigar_and_mdz_to_edit_xscript (al : Alignment) : result Alignment :=
  _ ← assert (negb (cigar_equal_x al));
  _ ← assert (is_nil (edit_xscript al));
  '(oro, mdo, _, xs) ← cigar_and_mdz_loop (cigar_ops al) (cigar_run al)
                          (mdz_oro al) 0%nat 0 (edit_xscript al);
  _ ← assert (Nat.eqb mdo (length oro));
  Ok (set_edit_xscript (xs ++ [NUL]) (set_mdz_oro oro al)).

(** ** Parsing the CIGAR and MD:Z strings *)

Definition digit_val (c : ascii) : Z := char_to_int c - char_to_int "0".

(** [parse_cigar]'s loop, one character at a time: [run] is [Some r] while
    the digits of a run are being read, [r] being the [int] that
    [run *= 10; run += digit] has built so far.  A string that ends inside a
    run fails the [isalpha] assertion on the terminator. *)
Fixpoint parse_cigar_loop (s : list ascii) (run : option Z) (al : Alignment)
    : result Alignment :=
  match s with
  | [] => match run with
          | None => Ok al
          | Some _ => Err AssertFailed
          end
  | c :: s' =>
      match run with
      | None =>
          _ ← assert (isdigit c);
          parse_cigar_loop s' (Some (int32 (int32 (0 * 10) + digit_val c))) al
      | Some r =>
          if isdigit c then
            parse_cigar_loop s' (Some (int32 (int32 (r * 10) + digit_val c))) al
          else
            _ ← assert (isalpha c || ch_eqb c "=");
            let al1 :=
              if is_nil (cigar_ops al) && ch_eqb c "S" then set_left_clip r al
              else if is_nil s' && ch_eqb c "S" then set_right_clip r al
              else al in
            let al2 :=
              if ch_eqb c "X" || ch_eqb c "=" then set_cigar_equal_x true al1
              else al1 in
            parse_cigar_loop s' None
              (set_cigar_run (cigar_run al2 ++ [r])
                 (set_cigar_ops (cigar_ops al2 ++ [c]) al2))
      end
  end.

Definition parse_cigar (al : Alignment) : result Alignment :=
  _ ← assert (is_nil (cigar_ops al));
  _ ← assert (is_nil (cigar_run al));
  match cigar al with
  | None => Err AssertFailed
  | Some s =>
      al' ← parse_cigar_loop (take (strlen s) s) None al;
      if cigar_equal_x al' then cigar_to_edit_xscript al' else Ok al'
  end.

(** The value of a run of decimal digits, accumulated as the source does. *)
Definition digits_val (acc : Z) (ds : list ascii) : Z :=
  fold_left (fun a c => a * 10 + digit_val c) ds acc.

(** Where [mdz_to_list] stands inside the MD:Z string: at the top of its
    [while] loop, or inside one of the three inner loops with the run read
    so far. *)
Inductive mdz_mode : Type :=
| MdzTop
| MdzMatch (run : Z)      (* digits *)
| MdzMismatch (run : Z)   (* letters *)
| MdzDeletion (run : Z).  (* letters after ^ *)

(** Whether the inner loop goes on with the character [c]. *)
Definition mdz_continues (m : mdz_mode) (c : ascii) : bool :=
  match m with
  | MdzTop => false
  | MdzMatch _ => isdigit c
  | MdzMismatch _ | MdzDeletion _ => isalpha c
  end.

(** One more turn of the inner loop. *)
Definition mdz_more (m : mdz_mode) (c : ascii) (al : Alignment)
    : mdz_mode * Alignment :=
  match m with
  | MdzTop => (MdzTop, al)
  | MdzMatch r => (MdzMatch (int32 (int32 (r * 10) + digit_val c)), al)
  | MdzMismatch r => (MdzMismatch (r + 1), set_mdz_char (mdz_char al ++ [c]) al)
  | MdzDeletion r => (MdzDeletion (r + 1), set_mdz_char (mdz_char al ++ [c]) al)
  end.

Definition push_oro (o r : Z) (al : Alignment) : Alignment :=
  set_mdz_oro
    (mdz_oro al ++ [oro_init o r (Z.of_nat (length (mdz_char al)) - r)]) al.

(** The end of an inner loop: the run is appended to [mdz_oro]. *)
Definition mdz_close (m : mdz_mode) (al : Alignment) : Alignment :=
  match m with
  | MdzTop => al
  | MdzMatch r =>
      if 0 <? r then set_mdz_oro (mdz_oro al ++ [oro_init 0 r (-1)]) al else al
  | MdzMismatch r => push_oro 1 r al
  | MdzDeletion r => push_oro 2 r al
  end.

(** The top of the [while] loop at the character [c].  A character that is
    neither a digit, a letter nor [^] is reported and never skipped. *)
Definition mdz_open (c : ascii) (al : Alignment) : result (mdz_mode * Alignment) :=
  if isdigit c then Ok (MdzMatch (int32 (int32 (0 * 10) + digit_val c)), al)
  else if isalpha c then
    Ok (MdzMismatch (0 + 1), set_mdz_char (mdz_char al ++ [c]) al)
  else if ch_eqb c "^" then Ok (MdzDeletion 0, al)
  else Err Diverges.

(** [mdz_to_list]'s loops over the MD:Z string, one character at a time. *)
Fixpoint mdz_to_list_loop (s : list ascii) (m : mdz_mode) (al : Alignment)
    : result Alignment :=
  match s with
  | [] => Ok (mdz_close m al)
  | c :: s' =>
      if mdz_continues m c then
        let '(m', al') := mdz_more m c al in mdz_to_list_loop s' m' al'
      else
        '(m', al') ← mdz_open c (mdz_close m al);
        mdz_to_list_loop s' m' al'
  end.

Definition mdz_to_list (al : Alignment) : result Alignment :=
  _ ← assert (is_nil (mdz_char al));
  _ ← assert (is_nil (mdz_oro al));
  match mdz al with
  | None => Err AssertFailed
  | Some s => mdz_to_list_loop (take (strlen s) s) MdzTop al
  end.

(** ** Quality sums *)

(** The [for] loop of [calc_qual_averages]; [q] is the quality string from
    index [i] on, and its end reads as the terminator. *)
Fixpoint calc_qual_loop (n : nat) (i : Z) (q : list ascii) (al : Alignment)
    (tc ta : Z) : result (Z * Z) :=
  match n with
  | O => Ok (tc, ta)
  | S n' =>
      let c := hd NUL q in
      _ ← assert (33 <=? char_to_int c);
      if (i <? wrap64 (left_clip al))
         || (wrap64 (len al - 1 - right_clip al) <=? i)
      then calc_qual_loop n' (i + 1) (tl q) al (wrap64 (tc + (char_to_int c - 33))) ta
      else calc_qual_loop n' (i + 1) (tl q) al tc (wrap64 (ta + (char_to_int c - 33)))
  end.

Definition calc_qual_averages (al : Alignment) : result Alignment :=
  _ ← assert (0 <? len al);
  let nclipped := wrap64 (left_clip al + right_clip al) in
  _ ← assert (nclipped <? len al);
  '(tc, ta) ← calc_qual_loop (Z.to_nat (len al)) 0 (qual al) al 0 0;
  let al1 := set_tot_aligned_qual ta (set_tot_clipped_qual tc al) in
  let al2 := set_avg_aligned_qual (DDiv ta (wrap64 (len al - nclipped))) al1 in
  if 1 <? nclipped then
    Ok (set_avg_clipped_qual (DDiv tc nclipped) al2)
  else
    Ok (set_right_clip 0 (set_left_clip 0
          (set_tot_clipped_qual 0 (set_avg_clipped_qual (DInt 100) al2)))).

(** ** The correctness oracle *)

(** Reads through the moving pointer [qname_cur]. *)
Definition rd (cur : list ascii) : result ascii :=
  match cur with
  | [] => Err OutOfBounds
  | c :: _ => Ok c
  end.

(** [strncmp(cur, s, n) == 0], where [cur] points into the line buffer and
    [s] is a string. *)
Fixpoint mem_strncmp (cur s : list ascii) (n : nat) {struct n} : result bool :=
  match n with
  | O => Ok true
  | S n' =>
      match cur with
      | [] => Err OutOfBounds
      | ca :: cur' =>
          if negb (ch_eqb ca (hd NUL s)) then Ok false
          else if ch_eqb ca NUL then Ok true
          else mem_strncmp cur' (tl s) n'
      end
  end.

(** [strlen(cur)] for a pointer into the line buffer. *)
Fixpoint mem_strlen (cur : list ascii) : result nat :=
  match cur with
  | [] => Err OutOfBounds
  | c :: cur' => if ch_eqb c NUL then Ok O else n ← mem_strlen cur'; Ok (S n)
  end.

(** [if( *(qname_cur++) != c) return;] followed by [k]. *)
Definition expect (c : ascii) (cur : list ascii)
    (k : list ascii → result bool) : result bool :=
  x ← rd cur;
  if negb (ch_eqb x c) then Ok false else k (tl cur).

(** [while(isdigit( *qname_cur)) { v *= 10; v += (int)( *qname_cur++ - '0'); }]
    for a [size_t] accumulator. *)
Fixpoint scan_size_t (cur : list ascii) (v : Z) : result (Z * list ascii) :=
  match cur with
  | [] => Err OutOfBounds
  | c :: cur' =>
      if isdigit c then scan_size_t cur' (wrap64 (wrap64 (v * 10) + digit_val c))
      else Ok (v, cur)
  end.

(** The same loop for an [int] accumulator. *)
Fixpoint scan_int (cur : list ascii) (v : Z) : result (Z * list ascii) :=
  match cur with
  | [] => Err OutOfBounds
  | c :: cur' =>
      if isdigit c then scan_int cur' (int32 (int32 (v * 10) + digit_val c))
      else Ok (v, cur)
  end.

(** A score field: an optional [-], then digits. *)
Definition scan_score (cur : list ascii) : result (Z * list ascii) :=
  c ← rd cur;
  let negative := ch_eqb c "-" in
  '(v, cur') ← scan_int (if negative then tl cur else cur) 0;
  Ok (if negative then int32 (- v) else v, cur').

(** [while(ncolon > 0) { if( *qname_cur++ == ':') ncolon--; }] *)
Fixpoint skip_colons (cur : list ascii) (ncolon : nat) {struct cur}
    : result (list ascii) :=
  match ncolon with
  | O => Ok cur
  | S n' =>
      match cur with
      | [] => Err OutOfBounds
      | c :: cur' => skip_colons cur' (if ch_eqb c ":" then n' else ncolon)
      end
  end.

(** [while(isdigit( *qname_cur++));] *)
Fixpoint skip_number (cur : list ascii) : result (list ascii) :=
  match cur with
  | [] => Err OutOfBounds
  | c :: cur' => if isdigit c then skip_number cur' else Ok cur'
  end.

(** The counting loop over the read name: underscores, and colons seen once
    three underscores have been passed. *)
Fixpoint count_und_colon (s : list ascii) (nund ncolon : Z) : Z * Z :=
  match s with
  | [] => (nund, ncolon)
  | c :: s' =>
      if ch_eqb c "_" then count_und_colon s' (nund + 1) ncolon
      else if ch_eqb c ":" && (3 <=? nund) then count_und_colon s' nund (ncolon + 1)
      else count_und_colon s' nund ncolon
  end.

Section Oracle.

(** [sim_startswith] and [sim_sep] are declared in [simplesim.h]. *)
Variable sim_startswith : list ascii.
Variable sim_sep : ascii.

Definition strand_char (al : Alignment) : ascii :=
  if is_fw al then "+"%char else "-"%char.

(** [abs((int)(refoff - (pos-1)))] *)
Definition off_by (al : Alignment) (refoff : Z) : Z :=
  c_abs (int32 (wrap64 (refoff - wrap64 (pos al - 1)))).

(** The second block of a paired name, checked for mate 2. *)
Definition sim_mate2 (al : Alignment) (wiggle : Z) (cur : list ascii)
    : result bool :=
  let rname_len := strlen (rname al) in
  same ← mem_strncmp cur (rname al) rname_len;
  if negb same then Ok false else
  expect sim_sep (drop rname_len cur) (fun cur =>
  c ← rd cur;
  if negb (ch_eqb c (strand_char al)) then Ok false else
  expect sim_sep (tl cur) (fun cur =>
  '(refoff, cur) ← scan_size_t cur 0;
  if wiggle <=? off_by al refoff then Ok false else
  expect sim_sep cur (fun cur =>
  '(_, cur) ← scan_score cur;
  expect sim_sep cur (fun cur =>
  c ← rd cur;
  _ ← assert (ch_eqb c "b" || ch_eqb c "c" || ch_eqb c "d");
  Ok true)))).

(** The end of the first block: an unpaired read, mate 1, or on to mate 2. *)
Definition sim_tail (al : Alignment) (wiggle : Z) (cur : list ascii)
    : result bool :=
  c0 ← rd cur;
  isu ← (if ch_eqb c0 "u"
         then c1 ← rd (tl cur); Ok (ch_eqb c1 NUL || isspace c1)
         else Ok false);
  if isu : bool then Ok true else
  _ ← assert (negb (ch_eqb (mate_flag al) "0"));
  if negb (ch_eqb (mate_flag al) "2") then Ok true
  else sim_mate2 al wiggle cur.

(** The branch for a name that starts with [sim_startswith]; the result is
    [true] when [correct = 1] is reached. *)
Definition sim_branch (al : Alignment) (wiggle : Z) : result bool :=
  let rname_len := strlen (rname al) in
  let m2 := ch_eqb (mate_flag al) "2" in
  let cur := drop (strlen sim_startswith) (qname al) in
  c ← rd cur;
  _ ← assert (ch_eqb c sim_sep);
  let cur := tl cur in
  same ← (if m2 then Ok true else mem_strncmp cur (rname al) rname_len);
  if negb same then Ok false else
  expect sim_sep (drop rname_len cur) (fun cur =>
  c ← (if m2 then Ok (strand_char al) else rd cur);
  if negb (ch_eqb c (strand_char al)) then Ok false else
  expect sim_sep (tl cur) (fun cur =>
  '(refoff, cur) ← scan_size_t cur 0;
  if negb m2 && (wiggle <=? off_by al refoff) then Ok false else
  expect sim_sep cur (fun cur =>
  '(_, cur) ← scan_score cur;
  expect sim_sep cur (fun cur =>
  sim_tail al wiggle cur)))).

(** The branch for a name in the second (wgsim-like) format, entered once
    the counts of underscores and colons fit. *)
Definition wgsim_branch (al : Alignment) (wiggle : Z) (ncolon : nat)
    : result bool :=
  let rname_len := strlen (rname al) in
  let cur := qname al in
  same ← mem_strncmp cur (rname al) rname_len;
  if negb same then Ok false else
  expect "_" (drop rname_len cur) (fun cur =>
  '(frag_start, cur) ← scan_size_t cur 0;
  expect "_" cur (fun cur =>
  '(frag_end, cur) ← scan_size_t cur 0;
  expect "_" cur (fun cur =>
  cur ← skip_colons cur ncolon;
  cur ← skip_number cur;
  '(len1, cur) ← scan_int cur 0;
  expect "_" cur (fun cur =>
  '(len2, cur) ← scan_int cur 0;
  expect "_" cur (fun cur =>
  c ← rd cur;
  _ ← assert (ch_eqb c "0" || ch_eqb c "1");
  let flip := ch_eqb c "1" in
  let mate1 := negb (ch_eqb (mate_flag al) "2") in
  let len := if mate1 then len1 else len2 in
  if Bool.eqb (negb flip) mate1 then
    Ok (c_abs (int32 (wrap64 (pos al - frag_start))) <? wiggle)
  else
    Ok (c_abs (int32 (wrap64 (pos al - wrap64 (wrap64 (frag_end - len) + 1))))
        <? wiggle)))))).

(** [set_correctness]: the value of [correct] when the call ends, and the
    fault that ended it, if any.  Both branches assign [correct = 0] before
    anything can fail, and [correct = 1] only as their last step. *)
Definition set_correctness_run (al : Alignment) (wiggle : Z)
    : Z * option fault :=
  if negb (correct al =? -1) then (correct al, Some AssertFailed)
  else if negb (is_aligned al) then (correct al, Some AssertFailed)
  else
    match mem_strncmp (qname al) sim_startswith (strlen sim_startswith) with
    | Err f => (correct al, Some f)
    | Ok true =>
        match sim_branch al wiggle with
        | Ok b => (if b then 1 else 0, None)
        | Err f => (0, Some f)
        end
    | Ok false =>
        match mem_strlen (qname al) with
        | Err f => (correct al, Some f)
        | Ok qname_len =>
            let '(nund, ncolon) :=
              count_und_colon (take qname_len (qname al)) 0 0 in
            if (8 <=? nund) && (ncolon =? 4) then
              match wgsim_branch al wiggle (Z.to_nat ncolon) with
              | Ok b => (if b then 1 else 0, None)
              | Err f => (0, Some f)
              end
            else (correct al, None)
        end
    end.

Definition set_correctness (al : Alignment) (wiggle : Z) : result Alignment :=
  match set_correctness_run al wiggle with
  | (c, None) => Ok (set_correct c al)
  | (_, Some f) => Err f
  end.

End Oracle.

(** ** Tokens and numbers *)

(** [strtok(p, "\t")] over the tab-separated fields that are left: empty
    fields are skipped. *)
Fixpoint strtok (fields : list (list ascii))
    : option (list ascii * list (list ascii)) :=
  match fields with
  | [] => None
  | f :: rest => if is_nil f then strtok rest else Some (f, rest)
  end.

(** A token that the source asserts to be there. *)
Definition strtok_some (fields : list (list ascii))
    : result (list ascii * list (list ascii)) :=
  match strtok fields with
  | None => Err AssertFailed
  | Some p => Ok p
  end.

(** The pieces of [s] between occurrences of [d]. *)
Fixpoint split_on (d : ascii) (s : list ascii) : list (list ascii) :=
  match s with
  | [] => [[]]
  | c :: s' =>
      match split_on d s' with
      | [] => [[c]]
      | p :: ps => if ch_eqb c d then [] :: p :: ps else (c :: p) :: ps
      end
  end.

(** The successive results of [strtok(s, d)], [strtok(NULL, d)], ... *)
Definition tokens (d : ascii) (s : list ascii) : list (list ascii) :=
  List.filter (fun t => negb (is_nil t)) (split_on d s).

(** The longest prefix of [s] whose characters satisfy [p], and the rest. *)
Fixpoint span (p : ascii → bool) (s : list ascii) : list ascii * list ascii :=
  match s with
  | [] => ([], [])
  | c :: s' =>
      if p c then let '(a, b) := span p s' in (c :: a, b) else ([], s)
  end.

(** [strtol(s, NULL, 10)]: white space, an optional sign, digits; a value
    outside the range of [long] is replaced by the nearest bound. *)
Definition strtol (s : list ascii) : Z :=
  let s1 := snd (span isspace s) in
  let v :=
    match s1 with
    | c :: r =>
        if ch_eqb c "-" then - digits_val 0 (fst (span isdigit r))
        else if ch_eqb c "+" then digits_val 0 (fst (span isdigit r))
        else digits_val 0 (fst (span isdigit s1))
    | [] => 0
    end in
  Z.max (- 2 ^ 63) (Z.min (2 ^ 63 - 1) v).

(** [atoi(s)] is [(int) strtol(s, NULL, 10)], and [atoll] is [strtoll],
    which has the range of [strtol]. *)
Definition atoi (s : list ascii) : Z := int32 (strtol s).

Definition atoll (s : list ascii) : Z := strtol s.

Definition starts_with (p s : list ascii) : bool :=
  strncmp_eq s p (length p).

Definition chars (s : string) : list ascii := list_ascii_of_string s.

(** ** Parsing one record *)

(** The text behind a token is the list of the columns that follow it.  When
    the token is the last column of its line, no column is left and the
    pointer [token + strlen(token) + 1] stands behind the terminator of the
    line, on bytes that an earlier line left in the buffer: a read through it
    is the fault [OutOfBounds], as every read past the end of a text. *)
Definition in_line (rest : list (list ascii)) : result unit :=
  if is_nil rest then Err OutOfBounds else Ok ().

Definition parse_from_rname_on (al : Alignment)
    : result (Alignment * list (list ascii)) :=
  match rest_of_line al with
  | None => Err AssertFailed
  | Some fs =>
      _ ← in_line fs;
      '(t, fs) ← strtok_some fs;
      let al := set_rname t al in
      '(pos_str, fs) ← strtok_some fs;
      let al := set_pos (wrap64 (atoll pos_str)) al in
      '(mapq_str, fs) ← strtok_some fs;
      let al := set_mapq (atoi mapq_str) al in
      _ ← assert (mapq al <? 256);
      '(t, fs) ← strtok_some fs;
      al ← parse_cigar (set_cigar (Some t) al);
      '(t, fs) ← strtok_some fs;
      let al := set_rnext t al in
      '(pnext_str, fs) ← strtok_some fs;
      let al := set_pnext (atoi pnext_str) al in
      let fs := match strtok fs with Some (_, r) => r | None => [] end in
      '(t, fs) ← strtok_some fs;
      let al := set_len (Z.of_nat (strlen t)) (set_seq t al) in
      '(t, fs) ← strtok_some fs;
      al ← calc_qual_averages (set_qual t al);
      Ok (set_rest_of_line (Some fs) al, fs)
  end.

(** The [while] loop of [parse_extra] over the tags that follow the quality
    string. *)
Fixpoint parse_extra_loop (toks : list (list ascii)) (found_ztz found_mdz : bool)
    (ztz : option (list ascii)) (al : Alignment)
    : result (option (list ascii) * Alignment) :=
  match toks with
  | [] => Ok (ztz, al)
  | extra :: rest =>
      if is_nil extra then parse_extra_loop rest found_ztz found_mdz ztz al
      else if found_mdz && found_ztz then Ok (ztz, al)
      else
        let is_ztz := starts_with (chars "ZT:Z:") extra in
        let ztz := if is_ztz then Some (drop 5 extra) else ztz in
        let found_ztz := is_ztz || found_ztz in
        if starts_with (chars "MD:Z:") extra then
          _ ← assert (match mdz al with None => true | Some _ => false end);
          al ← mdz_to_list (set_mdz (Some (drop 5 extra)) al);
          parse_extra_loop rest found_ztz true ztz al
        else parse_extra_loop rest found_ztz found_mdz ztz al
  end.

Definition is_some {A} (o : option A) : bool :=
  match o with Some _ => true | None => false end.

Definition parse_extra (al : Alignment) (extra : list (list ascii))
    : result (list ascii * Alignment) :=
  '(ztz, al) ← parse_extra_loop extra false false None al;
  al ← (if is_some (cigar al) && is_some (mdz al) && negb (cigar_equal_x al)
        then cigar_and_mdz_to_edit_xscript al else Ok al);
  match ztz with
  | None => Err Thrown
  | Some z => Ok (z, al)
  end.

(** ** Feature records *)

(** The conversion of a [double] that holds the integer [x] to [int]: a
    value outside the range of [int] gives the least [int], as the
    conversion instruction of the processor does. *)
Definition int_of_double (x : Z) : Z :=
  if (- 2 ^ 31 <=? x) && (x <? 2 ^ 31) then x else - 2 ^ 31.

(** The digits of a ZT:Z token that holds no [.]; [None] when a [.] is met.
    [ztz_i *= 10.0] multiplies in [double] and converts back to [int];
    [ztz_i += digit] adds in [int]. *)
Fixpoint ztz_int_loop (buf : list ascii) (ztz_i : Z) : result (option Z) :=
  match buf with
  | [] => Ok (Some ztz_i)
  | c :: buf' =>
      if ch_eqb c NUL || ch_eqb c "013" || ch_eqb c "010" then Ok (Some ztz_i)
      else
        _ ← assert (isdigit c || ch_eqb c ".");
        if negb (ch_eqb c ".") then
          ztz_int_loop buf' (int32 (int_of_double (ztz_i * 10) + digit_val c))
        else Ok None
  end.

(** One ZT:Z token as a [double]. *)
Definition ztz_value (tok : list ascii) : result dbl :=
  if ch_eqb (hd NUL tok) "N" then
    _ ← assert (ch_eqb (hd NUL (tl tok)) "A");
    Ok DNaN
  else
    let neg := ch_eqb (hd NUL tok) "-" in
    r ← ztz_int_loop (if neg then tl tok else tok) 0;
    match r with
    | None => Ok (DScan tok)
    | Some ztz_i => Ok (DInt (if neg then int32 (- ztz_i) else ztz_i))
    end.

Fixpoint ztz_values (toks : list (list ascii)) : result (list dbl) :=
  match toks with
  | [] => Ok []
  | t :: toks' =>
      v ← ztz_value t;
      vs ← ztz_values toks';
      Ok (v :: vs)
  end.

(** The settings of a run: the two constants of [simplesim.h], the globals
    [wiggle] and [max_allowed_fraglen], and whether the record files are open
    ([do_features]). *)
Record config : Type := mkConfig {
  sim_startswith : list ascii;
  sim_sep : ascii;
  wiggle : Z;
  max_allowed_fraglen : Z;
  do_features : bool
}.

(** [print_unpaired] with [fh_model] and [unp_model] null, as [main] passes
    them when no simulation is asked for.  The result is the record after
    parsing and the doubles written to [fh_recs]. *)
Definition print_unpaired (cfg : config) (al : Alignment) (ordlen : Z)
    : result (Alignment * list dbl) :=
  _ ← assert (is_aligned al);
  '(al, extra) ← parse_from_rname_on al;
  al ← set_correctness (sim_startswith cfg) (sim_sep cfg) al (wiggle cfg);
  _ ← in_line extra;
  '(ztz, al) ← parse_extra al extra;
  if is_nil (edit_xscript al) then Err Thrown else
  match tokens "," ztz with
  | [] => Err AssertFailed
  | ztz_tok :: ztz_rest =>
      let al := set_best_score (atoi ztz_tok) al in
      if do_features cfg then
        vs ← ztz_values (ztz_tok :: ztz_rest);
        Ok (al,
            [DInt (line al); DInt (len al);
             DInt (left_clip al + right_clip al);
             DInt (tot_aligned_qual al); DInt (tot_clipped_qual al);
             DInt ordlen]
            ++ vs ++ [DInt (mapq al); DInt (correct al)])
      else Ok (al, [])
  end.

(** [print_paired_helper], under the same settings. *)
Definition print_paired_helper (cfg : config) (al1 al2 : Alignment)
    : result (Alignment * Alignment * list dbl) :=
  _ ← assert (is_aligned al1);
  _ ← assert (is_aligned al2);
  '(al1, extra1) ← parse_from_rname_on al1;
  '(al2, extra2) ← parse_from_rname_on al2;
  al1 ← set_correctness (sim_startswith cfg) (sim_sep cfg) al1 (wiggle cfg);
  al2 ← set_correctness (sim_startswith cfg) (sim_sep cfg) al2 (wiggle cfg);
  _ ← in_line extra1;
  '(ztz1, al1) ← parse_extra al1 extra1;
  if is_nil (edit_xscript al1) then Err Thrown else
  _ ← in_line extra2;
  '(ztz2, al2) ← parse_extra al2 extra2;
  fl ← fragment_length al1 al2;
  let fraglen := Z.min (wrap64 (max_allowed_fraglen cfg)) fl in
  _ ← assert (is_some (cigar al1));
  _ ← assert (is_some (cigar al2));
  match tokens "," ztz1 with
  | [] => Err AssertFailed
  | ztz_tok1 :: ztz_rest1 =>
      let al1 := set_best_score (atoi ztz_tok1) al1 in
      ztz1_buf ← (if do_features cfg then ztz_values (ztz_tok1 :: ztz_rest1)
                  else Ok []);
      match tokens "," ztz2 with
      | [] => Err AssertFailed
      | ztz_tok2 :: ztz_rest2 =>
          let al2 := set_best_score (atoi ztz_tok2) al2 in
          if do_features cfg then
            ztz2_buf ← ztz_values (ztz_tok2 :: ztz_rest2);
            let len1_d := DInt (len al1) in
            let clip1_d := DInt (left_clip al1 + right_clip al1) in
            let alqual1_d := DInt (tot_aligned_qual al1) in
            let clipqual1_d := DInt (tot_clipped_qual al1) in
            let len2_d := DInt (len al2) in
            let clip2_d := DInt (left_clip al2 + right_clip al2) in
            let alqual2_d := DInt (tot_aligned_qual al2) in
            let clipqual2_d := DInt (tot_clipped_qual al2) in
            let fraglen_d := DInt fraglen in
            Ok (al1, al2,
                [DInt (line al1); len1_d; clip1_d; alqual1_d; clipqual1_d]
                ++ ztz1_buf
                ++ [len2_d; clip2_d; alqual2_d; clipqual2_d; fraglen_d]
                ++ ztz2_buf
                ++ [DInt (mapq al1); DInt (correct al1)]
                ++ [DInt (line al2); len2_d; clip2_d; alqual2_d; clipqual2_d]
                ++ ztz2_buf
                ++ [len1_d; clip1_d; alqual1_d; clipqual1_d; fraglen_d]
                ++ ztz1_buf
                ++ [DInt (mapq al2); DInt (correct al2)])
          else Ok (al1, al2, [])
      end
  end.

(** [print_paired]: the record that comes first in the SAM file goes first.
    The result gives the two records back in the order of the arguments. *)
Definition print_paired (cfg : config) (al1 al2 : Alignment)
    : result (Alignment * Alignment * list dbl) :=
  if line al1 <? line al2 then print_paired_helper cfg al1 al2
  else
    '(a2, a1, out) ← print_paired_helper cfg al2 al1;
    Ok (a1, a2, out).

(** [infer_read_length]: the length of the text between the seventh and the
    eighth tab of the untokenized remainder of a line. *)
Definition infer_read_length (rest : option (list (list ascii))) : result Z :=
  match rest with
  | None => Err OutOfBounds
  | Some fs =>
      match drop 7 fs with
      | f :: _ :: _ => Ok (Z.of_nat (length f))
      | _ => Err OutOfBounds
      end
  end.

(** ** The raw text of a line *)

(** The raw text of columns: joined by tabs. *)
Fixpoint tab_joined (fs : list (list ascii)) : list ascii :=
  match fs with
  | [] => []
  | [f] => f
  | f :: fs' => f ++ "009"%char :: tab_joined fs'
  end.

(** The bytes that [rest_of_line] points to while the line is not cut into
    tokens: the columns that are left, the newline that [fgets] keeps being
    part of the last one, and the terminator.  With no column left the
    pointer stands behind the terminator, where every read is out of
    bounds. *)
Definition rest_text (al : Alignment) : list ascii :=
  match rest_of_line al with
  | None | Some [] => []
  | Some fs => tab_joined fs ++ [NUL]
  end.

(** [infer_num_ztzs] walks the raw text of a line from [rest_of_line] on: the
    columns still separated by tabs, the newline that [fgets] keeps, and the
    terminator.  The text is the list of bytes up to and including the
    terminator; a read past it is the fault [OutOfBounds]. *)

(** [while( *cur++ != '\n') { if( *cur == ',') n_ztz_fields++; }] *)
Fixpoint count_to_newline (cur : list ascii) (n : Z) : result (Z * list ascii) :=
  match cur with
  | [] => Err OutOfBounds
  | c :: cur' =>
      if ch_eqb c "010" then Ok (n, cur')
      else
        c' ← rd cur';
        count_to_newline cur' (if ch_eqb c' "," then n + 1 else n)
  end.

(** The outer [while] loop; every round moves [cur] forward, so a round for
    each byte of the text is enough. *)
Fixpoint infer_num_ztzs_loop (rounds : nat) (cur : list ascii) (n : Z)
    : result Z :=
  match rounds with
  | O => Err Diverges
  | S rounds' =>
      c ← rd cur;
      if ch_eqb c NUL then Ok n else
      let cur := tl cur in
      if ch_eqb c "009" then
        c ← rd cur;
        let cur := tl cur in
        if ch_eqb c "Z" then
          c ← rd cur;
          let cur := tl cur in
          if ch_eqb c "T" then
            found ← mem_strncmp cur (chars ":Z:") 3;
            if found : bool then
              '(n, cur) ← count_to_newline cur n;
              infer_num_ztzs_loop rounds' cur n
            else infer_num_ztzs_loop rounds' cur n
          else infer_num_ztzs_loop rounds' cur n
        else infer_num_ztzs_loop rounds' cur n
      else infer_num_ztzs_loop rounds' cur n
  end.

Definition infer_num_ztzs (rest_of_line : list ascii) : result Z :=
  infer_num_ztzs_loop (S (length rest_of_line)) rest_of_line 1.

(** ** The pairing loop of [sam_pass1] *)

(** The counters of [sam_pass1].  They are [int]s in the source and are kept
    here as they count; they agree with the source as long as a file has
    fewer than 2^31 lines, and the statements that need it say so. *)
Record counts : Type := mkCounts {
  nline : Z;
  nhead : Z;
  nsec : Z;
  nsupp : Z;
  npair : Z;
  nunp : Z;
  nunp_al : Z;
  nunp_unal : Z;
  npair_badend : Z;
  npair_conc : Z;
  npair_disc : Z;
  npair_unal : Z;
  ntyp_mismatch : Z
}.

Definition counts_zero : counts :=
  mkCounts 0 0 0 0 0 0 0 0 0 0 0 0 0.

Definition inc_nline (c : counts) : counts :=
  mkCounts (nline c + 1) (nhead c) (nsec c) (nsupp c) (npair c) (nunp c) (nunp_al c) (nunp_unal c) (npair_badend c) (npair_conc c) (npair_disc c) (npair_unal c) (ntyp_mismatch c).

Definition inc_nhead (c : counts) : counts :=
  mkCounts (nline c) (nhead c + 1) (nsec c) (nsupp c) (npair c) (nunp c) (nunp_al c) (nunp_unal c) (npair_badend c) (npair_conc c) (npair_disc c) (npair_unal c) (ntyp_mismatch c).

Definition inc_nsec (c : counts) : counts :=
  mkCounts (nline c) (nhead c) (nsec c + 1) (nsupp c) (npair c) (nunp c) (nunp_al c) (nunp_unal c) (npair_badend c) (npair_conc c) (npair_disc c) (npair_unal c) (ntyp_mismatch c).

Definition inc_nsupp (c : counts) : counts :=
  mkCounts (nline c) (nhead c) (nsec c) (nsupp c + 1) (npair c) (nunp c) (nunp_al c) (nunp_unal c) (npair_badend c) (npair_conc c) (npair_disc c) (npair_unal c) (ntyp_mismatch c).

Definition inc_npair (c : counts) : counts :=
  mkCounts (nline c) (nhead c) (nsec c) (nsupp c) (npair c + 1) (nunp c) (nunp_al c) (nunp_unal c) (npair_badend c) (npair_conc c) (npair_disc c) (npair_unal c) (ntyp_mismatch c).

Definition inc_nunp (c : counts) : counts :=
  mkCounts (nline c) (nhead c) (nsec c) (nsupp c) (npair c) (nunp c + 1) (nunp_al c) (nunp_unal c) (npair_badend c) (npair_conc c) (npair_disc c) (npair_unal c) (ntyp_mismatch c).

Definition inc_nunp_al (c : counts) : counts :=
  mkCounts (nline c) (nhead c) (nsec c) (nsupp c) (npair c) (nunp c) (nunp_al c + 1) (nunp_unal c) (npair_badend c) (npair_conc c) (npair_disc c) (npair_unal c) (ntyp_mismatch c).

Definition inc_nunp_unal (c : counts) : counts :=
  mkCounts (nline c) (nhead c) (nsec c) (nsupp c) (npair c) (nunp c) (nunp_al c) (nunp_unal c + 1) (npair_badend c) (npair_conc c) (npair_disc c) (npair_unal c) (ntyp_mismatch c).

Definition inc_npair_badend (c : counts) : counts :=
  mkCounts (nline c) (nhead c) (nsec c) (nsupp c) (npair c) (nunp c) (nunp_al c) (nunp_unal c) (npair_badend c + 1) (npair_conc c) (npair_disc c) (npair_unal c) (ntyp_mismatch c).

Definition inc_npair_conc (c : counts) : counts :=
  mkCounts (nline c) (nhead c) (nsec c) (nsupp c) (npair c) (nunp c) (nunp_al c) (nunp_unal c) (npair_badend c) (npair_conc c + 1) (npair_disc c) (npair_unal c) (ntyp_mismatch c).

Definition inc_npair_disc (c : counts) : counts :=
  mkCounts (nline c) (nhead c) (nsec c) (nsupp c) (npair c) (nunp c) (nunp_al c) (nunp_unal c) (npair_badend c) (npair_conc c) (npair_disc c + 1) (npair_unal c) (ntyp_mismatch c).

Definition inc_npair_unal (c : counts) : counts :=
  mkCounts (nline c) (nhead c) (nsec c) (nsupp c) (npair c) (nunp c) (nunp_al c) (nunp_unal c) (npair_badend c) (npair_conc c) (npair_disc c) (npair_unal c + 1) (ntyp_mismatch c).

Definition inc_ntyp_mismatch (c : counts) : counts :=
  mkCounts (nline c) (nhead c) (nsec c) (nsupp c) (npair c) (nunp c) (nunp_al c) (nunp_unal c) (npair_badend c) (npair_conc c) (npair_disc c) (npair_unal c) (ntyp_mismatch c + 1).

(** The state carried from one line to the next: the two record slots, which
    of them the next record goes to, the counters, and what has been written
    to the four record files. *)
Record pass_state : Type := mkPassState {
  st_al1 : Alignment;
  st_al2 : Alignment;
  st_al_cur1 : bool;
  st_cnt : counts;
  st_orec_u : list dbl;
  st_orec_b : list dbl;
  st_orec_c : list dbl;
  st_orec_d : list dbl
}.

Definition pass_init (tc1 ta1 tc2 ta2 : Z) : pass_state :=
  mkPassState (new_Alignment tc1 ta1) (new_Alignment tc2 ta2) true counts_zero
    [] [] [] [].

(** The slot that the next record is read into, and the other one. *)
Definition al_cur_of (st : pass_state) : Alignment :=
  if st_al_cur1 st then st_al1 st else st_al2 st.

Definition al_prev_of (st : pass_state) : Alignment :=
  if st_al_cur1 st then st_al2 st else st_al1 st.

(** The state after a line: [cur] and [prev] are put back in their slots and
    the roles of the slots are exchanged. *)
Definition next_state (st : pass_state) (cur prev : Alignment) (c : counts)
    (u b cc d : list dbl) : pass_state :=
  mkPassState (if st_al_cur1 st then cur else prev)
              (if st_al_cur1 st then prev else cur)
              (negb (st_al_cur1 st)) c u b cc d.

(** The simulated type of a read: the text after the last [sim_sep] of its
    name. *)
Fixpoint find_typ (sep : ascii) (cur : list ascii) (typ : option (list ascii))
    : result (option (list ascii)) :=
  match cur with
  | [] => Err OutOfBounds
  | c :: cur' =>
      if ch_eqb c NUL then Ok typ
      else find_typ sep cur' (if ch_eqb c sep then Some cur' else typ)
  end.

Definition typ_is (al : Alignment) (i : nat) (c : ascii) : bool :=
  match typ al with
  | None => false
  | Some t => ch_eqb (nth i t NUL) c
  end.

Definition typ_null (al : Alignment) : bool := negb (is_some (typ al)).

(** [if(n == 0 && orec_fh != NULL) { head = true; nztz = infer_num_ztzs(al.rest_of_line); }],
    before the first record of a lane, [n] being the counter of the lane.
    The count only feeds the metadata file, which is not part of the state;
    the call is kept for the reads that it makes. *)
Definition first_of_lane (cfg : config) (n : Z) (al : Alignment) : result unit :=
  if (n =? 0) && do_features cfg then
    _ ← infer_num_ztzs (rest_text al);
    Ok ()
  else Ok ().

(** The second half of the body of the [while] loop: the record [al_cur],
    alone or mated with [al_prev], is counted and sent to the printer of its
    lane, or left waiting for its mate. *)
Definition sam_pass1_classify (cfg : config) (st : pass_state)
    (al_cur al_prev : Alignment) (mated : bool) (cnt : counts)
    : result pass_state :=
  let cur_is_mate1 := ch_eqb (mate_flag al_cur) "1" in
  let u := st_orec_u st in
  let b := st_orec_b st in
  let c := st_orec_c st in
  let d := st_orec_d st in
  if ch_eqb (mate_flag al_cur) "0" then
    let cnt := inc_nunp cnt in
    if negb (is_aligned al_cur) then
      Ok (next_state st al_cur al_prev (inc_nunp_unal cnt) u b c d)
    else if typ_null al_cur || typ_is al_cur 0 "u" then
      _ ← first_of_lane cfg (nunp_al cnt) al_cur;
      '(al_cur, out) ← print_unpaired cfg al_cur 0;
      Ok (next_state st al_cur al_prev (inc_nunp_al cnt) (u ++ out) b c d)
    else
      Ok (next_state st al_cur al_prev (inc_ntyp_mismatch cnt) u b c d)
  else if mated then
    let mate1 := if cur_is_mate1 then al_cur else al_prev in
    let mate2 := if cur_is_mate1 then al_prev else al_cur in
    (* the two mates go back to the slots they came from *)
    let back (m1 m2 : Alignment) (cn : counts) (u b c d : list dbl) :=
      if cur_is_mate1 then next_state st m1 m2 cn u b c d
      else next_state st m2 m1 cn u b c d in
    if negb (is_aligned mate1) && negb (is_aligned mate2) then
      Ok (back mate1 mate2 (inc_npair_unal cnt) u b c d)
    else if negb (Bool.eqb (is_aligned mate1) (is_aligned mate2)) then
      let m1al := is_aligned mate1 in
      let alm := if m1al then mate1 else mate2 in
      if typ_null alm
         || (typ_is alm 0 "b" && typ_is alm 1 (mate_flag alm)) then
        _ ← first_of_lane cfg (npair_badend cnt) alm;
        ordlen ← infer_read_length
                   (rest_of_line (if m1al then mate2 else mate1));
        '(alm, out) ← print_unpaired cfg alm ordlen;
        Ok (back (if m1al then alm else mate1) (if m1al then mate2 else alm)
              (inc_npair_badend cnt) u (b ++ out) c d)
      else
        Ok (back mate1 mate2 (inc_ntyp_mismatch cnt) u b c d)
    else
      _ ← assert (Bool.eqb (is_concordant mate1) (is_concordant mate2));
      if is_concordant mate1 then
        if typ_null mate1 || typ_is mate1 0 "c" then
          _ ← first_of_lane cfg (npair_conc cnt) mate1;
          '(m1, m2, out) ← print_paired cfg mate1 mate2;
          Ok (back m1 m2 (inc_npair_conc cnt) u b (c ++ out) d)
        else
          Ok (back mate1 mate2 (inc_ntyp_mismatch cnt) u b c d)
      else
        if typ_null mate1 || typ_is mate1 0 "d" then
          _ ← first_of_lane cfg (npair_disc cnt) mate1;
          '(m1, m2, out) ← print_paired cfg mate1 mate2;
          Ok (back m1 m2 (inc_npair_disc cnt) u b c (d ++ out))
        else
          Ok (back mate1 mate2 (inc_ntyp_mismatch cnt) u b c d)
  else
    _ ← assert (negb (ch_eqb (mate_flag al_cur) "0"));
    Ok (next_state st (set_valid true al_cur) al_prev cnt u b c d).

(** The first half of the body, for a record that is neither secondary nor
    supplementary: the record is read into the free slot, mated with the
    waiting record if there is one, and its simulated type is looked up. *)
Definition sam_pass1_mate (cfg : config) (st : pass_state)
    (qname_tok : list ascii) (fl : Z) (fs : list (list ascii)) (cnt : counts)
    : result (Alignment * Alignment * bool * counts) :=
  _ ← assert (negb (valid (al_cur_of st)));
  let al_cur := clear (al_cur_of st) in
  let al_prev := al_prev_of st in
  let al_cur := set_line (nline cnt)
                  (set_flag fl
                     (set_qname (qname_tok ++ [NUL])
                        (set_rest_of_line (Some fs) al_cur))) in
  mated ←
    (if negb (ch_eqb (mate_flag al_cur) "0") && valid al_prev then
       if ch_eqb (mate_flag al_cur) "1" then
         if negb (ch_eqb (mate_flag al_prev) "2") then Err Thrown
         else Ok true
       else
         _ ← assert (ch_eqb (mate_flag al_cur) "2");
         _ ← assert (ch_eqb (mate_flag al_prev) "1");
         Ok true
     else Ok false);
  let al_prev := if mated : bool then set_valid false al_prev else al_prev in
  let al_cur := if mated then set_valid false al_cur else al_cur in
  let cnt := if mated then inc_npair cnt else cnt in
  pfx ← mem_strncmp (qname al_cur) (sim_startswith cfg)
          (strlen (sim_startswith cfg));
  al_cur ←
    (if pfx : bool then
       _ ← assert (typ_null al_cur);
       t ← find_typ (sim_sep cfg) (qname al_cur) None;
       _ ← assert (is_some t);
       Ok (set_typ t al_cur)
     else Ok al_cur);
  Ok (al_cur, al_prev, mated, cnt).

(** The body of the [while] loop for one line: what one call of [fgets]
    has put in the line buffer, given as its tab-separated fields, the
    newline that [fgets] keeps being part of the last one. *)
Definition sam_pass1_line (cfg : config) (st : pass_state)
    (fields : list (list ascii)) : result pass_state :=
  let cnt := inc_nline (st_cnt st) in
  let skip c := Ok (mkPassState (st_al1 st) (st_al2 st) (st_al_cur1 st) c
                      (st_orec_u st) (st_orec_b st) (st_orec_c st) (st_orec_d st)) in
  if ch_eqb (hd NUL (hd [] fields)) "@" then skip (inc_nhead cnt) else
  '(qname_tok, fs) ← strtok_some fields;
  _ ← assert (negb (is_nil (hd [] fields)));
  '(flag_str, fs) ← strtok_some fs;
  let fl := atoi flag_str in
  if negb (Z.land fl 256 =? 0) then skip (inc_nsec cnt) else
  if negb (Z.land fl 2048 =? 0) then skip (inc_nsupp cnt) else
  '(al_cur, al_prev, mated, cnt) ← sam_pass1_mate cfg st qname_tok fl fs cnt;
  sam_pass1_classify cfg st al_cur al_prev mated cnt.

(** [sam_pass1]: the loop over the successive results of
    [fgets(line, BUFSZ, fh)], which are the lines of the file as long as no
    line is longer than the buffer ([fgets_lines] below cuts the text of a
    file as [fgets] does); a fault ends the run. *)
Fixpoint sam_pass1_from (cfg : config) (st : pass_state)
    (lines : list (list (list ascii))) : result pass_state :=
  match lines with
  | [] => Ok st
  | l :: lines' =>
      st' ← sam_pass1_line cfg st l;
      sam_pass1_from cfg st' lines'
  end.

Definition sam_pass1 (cfg : config) (tc1 ta1 tc2 ta2 : Z)
    (lines : list (list (list ascii))) : result pass_state :=
  sam_pass1_from cfg (pass_init tc1 ta1 tc2 ta2) lines.


(** ** Reading the file *)





(** ** What the specification says, for comparison with the code *)

(** The sum of the base qualities of a stretch of the quality string. *)
Definition qual_sum (q : list ascii) : Z :=
  fold_right (fun c acc => (char_to_int c - 33) + acc) 0 q.

(** Spec: the clipped sum ranges over the [lc] leftmost and the [rc]
    rightmost bases, the aligned sum over the bases in between. *)
Definition spec_clipped_qual (lc rc : nat) (q : list ascii) : Z :=
  qual_sum (take lc q) + qual_sum (drop (length q - rc) q).

Definition spec_aligned_qual (lc rc : nat) (q : list ascii) : Z :=
  qual_sum (take (length q - lc - rc) (drop lc q)).

(** Spec: the rightmost reference position of an alignment, soft-clipped
    bases included: every character of the transcript after the leading clip
    that takes up a reference position moves it by one. *)
Definition takes_ref (c : ascii) : bool :=
  ch_eqb c "=" || ch_eqb c "X" || ch_eqb c "D" || ch_eqb c "N" || ch_eqb c "S".

Definition spec_rightmost (p : Z) (xscript : list ascii) : Z :=
  let body := snd (span (fun c => ch_eqb c "S") xscript) in
  p + Z.of_nat (length (List.filter takes_ref body)) - 1.

Definition spec_leftmost (p left : Z) : Z := p - left.

Definition spec_fragment_length (max_len : Z) (up_pos up_left_clip : Z)
    (dn_pos : Z) (dn_xscript : list ascii) : Z :=
  Z.min max_len
    (spec_rightmost dn_pos dn_xscript - spec_leftmost up_pos up_left_clip + 1).

(** Spec: the layout of one record of a pair. *)
Definition paired_layout (own other : Alignment) (fraglen : Z)
    (ztz_own ztz_other : list dbl) : list dbl :=
  [DInt (line own); DInt (len own); DInt (left_clip own + right_clip own);
   DInt (tot_aligned_qual own); DInt (tot_clipped_qual own)]
  ++ ztz_own
  ++ [DInt (len other); DInt (left_clip other + right_clip other);
      DInt (tot_aligned_qual other); DInt (tot_clipped_qual other);
      DInt fraglen]
  ++ ztz_other
  ++ [DInt (mapq own); DInt (correct own)].

(** The record [al'] and the ZT:Z values [vs] are what the printers read from
    the line of [al]: the columns from RNAME on, the label, the tags, and
    the comma-separated values of its own ZT:Z tag. *)
Definition reads_as (cfg : config) (al al' : Alignment) (vs : list dbl) : Prop :=
  ∃ alp extra alc ztz ale,
    parse_from_rname_on al = Ok (alp, extra)
    ∧ set_correctness (sim_startswith cfg) (sim_sep cfg) alp (wiggle cfg) = Ok alc
    ∧ parse_extra alc extra = Ok (ztz, ale)
    ∧ al' = set_best_score (atoi (hd [] (tokens "," ztz))) ale
    ∧ ztz_values (tokens "," ztz) = Ok vs.

(** A record as [sam_pass1] hands it to the printers: read up to its flags. *)
Definition unparsed (name : string) (fl : Z) (ln : Z) (rest : list string)
    : Alignment :=
  set_line ln (set_flag fl (set_qname (chars name ++ [NUL])
    (set_rest_of_line (Some (map chars rest)) (new_Alignment 0 0)))).

(** A line of a SAM file as [fgets] returns it, cut at its tabs: the
    newline is part of the last column. *)
Fixpoint with_newline (fs : list (list ascii)) : list (list ascii) :=
  match fs with
  | [] => []
  | [f] => [f ++ ["010"%char]]
  | f :: fs' => f :: with_newline fs'
  end.

Definition sam_fields (l : list string) : list (list ascii) :=
  with_newline (map chars l).


(** Two records after CIGAR parsing: "3=2M", and "2D" with the MD:Z deletion
    "^A". *)
Definition cigar_3eq_2M : Alignment :=
  set_cigar_equal_x true
    (set_cigar_run [3; 2] (set_cigar_ops (chars "=M") (new_Alignment 0 0))).

Definition cigar_2D_mdz_del1 : Alignment :=
  set_mdz_oro [oro_init 2 1 0]
    (set_cigar_run [2] (set_cigar_ops (chars "D") (new_Alignment 0 0))).

(** The fields of a record that are set when its line is read and that the
    parsing of the remaining columns never touches. *)
Definition head_fields (al : Alignment)
    : bool * list ascii * option (list ascii) * Z * Z :=
  (valid al, qname al, typ al, flag al, line al).

(** The number of records that wait for their mate. *)
Definition pending_slots (st : pass_state) : nat :=
  ((if valid (st_al1 st) then 1 else 0) + (if valid (st_al2 st) then 1 else 0))%nat.

(** A line that [sam_pass1] takes as a primary record with the given name and
    flag column. *)
Definition primary_line (qname_tok flag_str : list ascii) : Prop :=
  qname_tok ≠ [] ∧ flag_str ≠ []
  ∧ hd NUL qname_tok ≠ "@"%char
  ∧ Z.land (atoi flag_str) 256 = 0
  ∧ Z.land (atoi flag_str) 2048 = 0.

(** A configuration for the examples, and the state that a run reaches on
    the given lines. *)
Definition example_cfg : config :=
  mkConfig (chars "qsim") "!"%char 30 50000 true.

Definition state_after (cfg : config) (lines : list (list string)) : pass_state :=
  match sam_pass1 cfg 0 0 0 0 (map sam_fields lines) with
  | Ok st => st
  | Err _ => pass_init 0 0 0 0
  end.

(** A first mate (flag 65) of a pair, aligned to chr1. *)
Definition line_mate1 : list string :=
  ["r1"; "65"; "chr1"; "100"; "60"; "3="; "="; "200"; "0"; "ACG"; "III";
   "ZT:Z:5"]%string.

(** ** The classification of the specification *)

Inductive lane : Type :=
| LaneUnpaired
| LaneBadEnd
| LaneConcordant
| LaneDiscordant.








(** The record file of a lane. *)
Definition lane_file (l : lane) (st : pass_state) : list dbl :=
  match l with
  | LaneUnpaired => st_orec_u st
  | LaneBadEnd => st_orec_b st
  | LaneConcordant => st_orec_c st
  | LaneDiscordant => st_orec_d st
  end.

Definition lane_eqb (a b : lane) : bool :=
  match a, b with
  | LaneUnpaired, LaneUnpaired | LaneBadEnd, LaneBadEnd
  | LaneConcordant, LaneConcordant | LaneDiscordant, LaneDiscordant => true
  | _, _ => false
  end.

(** The state after a record or a pair has been dealt with: the counter of
    the outcome is stepped and [out] is appended to the file of [l]. *)
Definition settle (st : pass_state) (cur prev : Alignment) (c : counts)
    (l : option lane) (out : list dbl) : pass_state :=
  let file l' :=
    match l with
    | Some l0 => if lane_eqb l0 l' then lane_file l' st ++ out else lane_file l' st
    | None => lane_file l' st
    end in
  next_state st cur prev c (file LaneUnpaired) (file LaneBadEnd)
    (file LaneConcordant) (file LaneDiscordant).














(** The two mates of a properly aligned pair (flags 67 and 131). *)
Definition line_conc1 : list string :=
  ["r2"; "67"; "chr1"; "100"; "60"; "2S8M"; "="; "200"; "110"; "ACGTACGTAC";
   "IIIIIIIIII"; "MD:Z:8"; "ZT:Z:5,1"]%string.

Definition line_conc2 : list string :=
  ["r2"; "131"; "chr1"; "200"; "50"; "10="; "="; "100"; "-110"; "ACGTACGTAC";
   "IIIIIIIIII"; "ZT:Z:7,2"]%string.


(** The fields of a record that [calc_qual_averages] computes for the
    feature record. *)
Definition clip_fields (al : Alignment) : Z * Z * Z * dbl :=
  (left_clip al, right_clip al, tot_clipped_qual al, avg_clipped_qual al).

(** An unpaired read with one soft-clipped base (CIGAR 1S9M). *)
Definition one_clipped_base : Alignment :=
  unparsed "r3" 0 1
    ["chr1"; "100"; "60"; "1S9M"; "*"; "0"; "0"; "ACGTACGTAC"; "IIIIIIIIII";
     "ZT:Z:5"; "MD:Z:9"]%string.

(** ** Read names *)

Fixpoint is_prefix (p s : list ascii) : bool :=
  match p, s with
  | [], _ => true
  | _ :: _, [] => false
  | a :: p', b :: s' => ch_eqb a b && is_prefix p' s'
  end.

(** Spec: the name starts with the prefix of simulated reads. *)
Definition sim_named (prefix name : list ascii) : bool :=
  is_prefix (take (strlen prefix) prefix) name.

Definition count_char (c : ascii) (s : list ascii) : nat :=
  length (List.filter (fun x => ch_eqb x c) s).

(** The part of [s] behind its [k]-th underscore; empty when there are
    fewer. *)
Fixpoint after_underscores (k : nat) (s : list ascii) : list ascii :=
  match s with
  | [] => []
  | c :: s' =>
      match k with
      | O => s
      | S k' => if ch_eqb c "_" then after_underscores k' s'
                else after_underscores k s'
      end
  end.

(** Spec: at least 8 underscores, and exactly 4 colons after the third. *)
Definition wgsim_shaped (name : list ascii) : bool :=
  (8 <=? count_char "_" name)%nat
  && Nat.eqb (count_char ":" (after_underscores 3 name)) 4.

(** A record as [set_correctness] finds it: aligned, not labelled yet, with
    the given name in the line buffer. *)
Definition names_record (al : Alignment) (name after : list ascii) : Prop :=
  correct al = -1 ∧ is_aligned al = true
  ∧ qname al = name ++ NUL :: after
  ∧ ¬ In NUL name.


(** ** Names of simulated reads

    Spec: the prefix, then for each end the reference name, the strand, the
    0-based reference offset and the score, each followed by the separator,
    and at the end the type of the read: "u", or "b1", "b2", "c", "d" for
    the ends of a pair. *)
Record sim_block : Type := mkBlock {
  sb_ref : list ascii;
  sb_strand : ascii;
  sb_off : list ascii;
  sb_score : list ascii
}.

Definition block_text (sep : ascii) (b : sim_block) : list ascii :=
  sb_ref b ++ sep :: sb_strand b :: sep :: sb_off b ++ sep :: sb_score b ++ [sep].

Definition unp_name (prefix : list ascii) (sep : ascii) (b : sim_block)
    : list ascii :=
  prefix ++ sep :: block_text sep b ++ chars "u".

Definition pair_name (prefix : list ascii) (sep : ascii) (b1 b2 : sim_block)
    (typ : list ascii) : list ascii :=
  prefix ++ sep :: block_text sep b1 ++ block_text sep b2 ++ typ.

(** The true 0-based offset that a block encodes. *)
Definition block_off (b : sim_block) : Z := digits_val 0 (sb_off b).

(** A character that is part of a field: not the separator, the terminator
    or white space. *)
Definition field_char (sep : ascii) (c : ascii) : Prop :=
  c ≠ sep ∧ c ≠ NUL ∧ isspace c = false.

Definition is_score_char (c : ascii) : bool := isdigit c || ch_eqb c "-".

Definition wf_block (sep : ascii) (b : sim_block) : Prop :=
  Forall (field_char sep) (sb_ref b)
  ∧ (sb_strand b = "+"%char ∨ sb_strand b = "-"%char)
  ∧ Forall (fun c => isdigit c = true) (sb_off b)
  ∧ Forall (fun c => is_score_char c = true) (sb_score b).

(** What is asked of the two constants of [simplesim.h]. *)
Definition wf_sim_constants (prefix : list ascii) (sep : ascii) : Prop :=
  ¬ In NUL prefix
  ∧ isdigit sep = false ∧ isspace sep = false ∧ isalpha sep = false
  ∧ sep ≠ NUL ∧ sep ≠ "+"%char ∧ sep ≠ "-"%char.

(** The name of the read of [al] encodes [b] as the true origin of the end
    that [al] is: the only block of an unpaired read, the first block for
    mate 1, the second for mate 2.  For mate 2 the code steps over the
    reference name of the first block by the length of the reference name of
    the record, without comparing; the first block is then asked to be well
    formed, the type to be one of the four of a pair, and the name to be at
    least as long as that step. *)
Inductive names_origin (prefix : list ascii) (sep : ascii) (al : Alignment)
    (name : list ascii) (b : sim_block) : Prop :=
| origin_unpaired :
    mate_flag al = "0"%char →
    name = unp_name prefix sep b →
    names_origin prefix sep al name b
| origin_mate1 (b2 : sim_block) (typ : list ascii) :
    mate_flag al = "1"%char →
    name = pair_name prefix sep b b2 typ →
    names_origin prefix sep al name b
| origin_mate2 (b1 : sim_block) (typ : list ascii) :
    mate_flag al = "2"%char →
    name = pair_name prefix sep b1 b typ →
    wf_block sep b1 →
    In typ [chars "b1"; chars "b2"; chars "c"; chars "d"] →
    (length (rname al) ≤ length (block_text sep b1 ++ block_text sep b ++ typ))%nat →
    names_origin prefix sep al name b.

(** The distance between the reported and the true position. *)
Definition true_distance (al : Alignment) (b : sim_block) : Z :=
  Z.abs (block_off b - (pos al - 1)).

(** The distance as the code computes it: the difference cast to [int], and
    [abs] of that. *)
Definition pos_error (al : Alignment) (b : sim_block) : Z :=
  c_abs (int32 (block_off b - (pos al - 1))).

(** ** Auxiliary notions of the proofs *)

(** Two integers that agree in their low 32 bits. *)
Definition low32_eq (x y : Z) : Prop := x mod 2 ^ 32 = y mod 2 ^ 32.

(** The digits of a number as the loops over an [int] accumulate them. *)
Definition int_digits (v : Z) (ds : list ascii) : Z :=
  fold_left (fun a c => int32 (int32 (a * 10) + digit_val c)) ds v.

(** The digits of a number as [scan_size_t] accumulates them. *)
Definition wrap_digits (v : Z) (ds : list ascii) : Z :=
  fold_left (fun a c => wrap64 (wrap64 (a * 10) + digit_val c)) ds v.

(** Not a white-space character. *)
Definition no_space (c : ascii) : Prop := isspace c = false.

(** ** Names in the second scheme

    Spec: reference id, true fragment start and end, a run of
    colon-delimited simulation parameters, two mate lengths and an
    orientation-flip flag, joined by underscores, as in
    [11_25006153_25006410_0:0:0_0:0:0_100_100_1_1/1].  The parameters are
    kept as the text up to their fourth colon and the number behind it. *)
Record wgsim_name : Type := mkWgsim {
  wg_ref : list ascii;
  wg_start : list ascii;
  wg_end : list ascii;
  wg_params : list ascii;
  wg_last : list ascii;
  wg_len1 : list ascii;
  wg_len2 : list ascii;
  wg_flip : ascii;
  wg_rest : list ascii
}.

Definition wgsim_text (n : wgsim_name) : list ascii :=
  wg_ref n ++ "_"%char :: wg_start n ++ "_"%char :: wg_end n ++ "_"%char
  :: wg_params n ++ ":"%char :: wg_last n ++ "_"%char
  :: wg_len1 n ++ "_"%char :: wg_len2 n ++ "_"%char :: wg_flip n :: wg_rest n.

Definition all_digits (s : list ascii) : Prop :=
  Forall (fun c => isdigit c = true) s.

Definition wf_wgsim (n : wgsim_name) : Prop :=
  Forall (field_char "_") (wg_ref n)
  ∧ all_digits (wg_start n) ∧ all_digits (wg_end n)
  ∧ count_char ":" (wg_params n) = 3%nat
  ∧ all_digits (wg_last n)
  ∧ all_digits (wg_len1 n) ∧ all_digits (wg_len2 n)
  ∧ (wg_flip n = "0"%char ∨ wg_flip n = "1"%char).

(** Spec: the true position of a mate is the fragment start, or
    [fragment_end - mate_length + 1], depending on orientation and mate
    role: the left end is mate 1 of a fragment that is not flipped and
    mate 2 of a flipped one. *)
Definition wgsim_left_end (al : Alignment) (n : wgsim_name) : bool :=
  Bool.eqb (ch_eqb (wg_flip n) "0") (negb (ch_eqb (mate_flag al) "2")).

Definition wgsim_true_pos (al : Alignment) (n : wgsim_name) : Z :=
  if wgsim_left_end al n then digits_val 0 (wg_start n)
  else digits_val 0 (wg_end n)
       - digits_val 0 (if ch_eqb (mate_flag al) "2" then wg_len2 n
                       else wg_len1 n)
       + 1.

(** The distance between the reported and the true position, and the
    distance as the code computes it, in an [int]. *)
Definition wgsim_distance (al : Alignment) (n : wgsim_name) : Z :=
  Z.abs (pos al - wgsim_true_pos al n).

Definition wgsim_error (al : Alignment) (n : wgsim_name) : Z :=
  c_abs (int32 (pos al - wgsim_true_pos al n)).

(** A read named in the second scheme, reported at position 25006160 of
    reference 11: seven bases off. *)
Definition wgsim_example_name : wgsim_name :=
  mkWgsim (chars "11") (chars "25006153") (chars "25006410")
          (chars "0:0:0_0:0") (chars "0") (chars "100") (chars "100")
          "0" (chars "_1/1").

Definition wgsim_example_record : Alignment :=
  set_rname (chars "11") (set_pos 25006160
    (unparsed "11_25006153_25006410_0:0:0_0:0:0_100_100_0_1/1" 0 1 [])).

(** A simulated unpaired read from offset 99 of chr1, forward strand,
    reported at position 105: five bases off. *)
Definition sim_example_block : sim_block :=
  mkBlock (chars "chr1") "+" (chars "99") (chars "-12").

Definition sim_example_record : Alignment :=
  set_rname (chars "chr1") (set_pos 105
    (unparsed "qsim!chr1!+!99!-12!u" 0 1 [])).

(** The label that a call of [set_correctness] leaves in the record, or the
    fault that ends the call. *)
Definition label_of (r : result Alignment) : result Z :=
  match r with
  | Ok al => Ok (correct al)
  | Err f => Err f
  end.

(** SAM files whose simulated reads are labelled "correct" far from their
    origin.  The only line of the first is an unpaired read from offset
    4294967395 of chr1, reported at position 100 (offset 99): 2^32 bases
    off.  The only line of the second is an unpaired read from offset
    2147483747, reported at position 100: 2^31 bases off.  The third holds a
    pair whose second line carries the name of an unpaired read from offset
    99 of chr1 and is reported as mate 2, at position 5000 of chr7. *)
Definition far_off_block : sim_block :=
  mkBlock (chars "chr1") "+" (chars "4294967395") (chars "0").

Definition far_off_line : list string :=
  ["qsim!chr1!+!4294967395!0!u"; "0"; "chr1"; "100"; "60"; "3="; "*"; "0"; "0";
   "ACG"; "III"; "ZT:Z:5"]%string.

Definition half_range_block : sim_block :=
  mkBlock (chars "chr1") "+" (chars "2147483747") (chars "0").

Definition half_range_line : list string :=
  ["qsim!chr1!+!2147483747!0!u"; "0"; "chr1"; "100"; "60"; "3="; "*"; "0"; "0";
   "ACG"; "III"; "ZT:Z:5"]%string.

Definition other_name_mate1_line : list string :=
  ["r9"; "67"; "chr7"; "4000"; "60"; "3="; "="; "5000"; "0"; "ACG"; "III";
   "ZT:Z:5"]%string.

Definition unpaired_name_mate2_line : list string :=
  ["qsim!chr1!+!99!-12!u"; "131"; "chr7"; "5000"; "60"; "3="; "="; "4000"; "0";
   "ACG"; "III"; "ZT:Z:5"]%string.

(** A score as the simulator prints it: digits, with a sign when negative. *)
Definition signed_digits (s : list ascii) : Prop :=
  ∃ ds, all_digits ds ∧ (s = ds ∨ s = "-"%char :: ds).

(** ** One alignment in two encodings

    A record as [sam_pass1] parses it: the columns from RNAME on, then the
    optional fields. *)
Definition parsed (al : Alignment) : result Alignment :=
  '(al, fs) ← parse_from_rname_on al;
  '(_, al) ← parse_extra al fs;
  Ok al.

(** Three matching bases behind two hard-clipped ones, with an extended
    CIGAR, and with a plain CIGAR and MD:Z. *)
Definition hard_clip_extended : Alignment :=
  unparsed "r" 0 1
    ["chr1"; "100"; "60"; "2H3="; "*"; "0"; "0"; "ACG"; "III"; "ZT:Z:5"]%string.

Definition hard_clip_plain : Alignment :=
  unparsed "r" 0 1
    ["chr1"; "100"; "60"; "2H3M"; "*"; "0"; "0"; "ACG"; "III"; "MD:Z:3";
     "ZT:Z:5"]%string.

(** The same two records after CIGAR and MD:Z parsing, as the two paths
    find them. *)
Definition hard_clip_direct_input : Alignment :=
  set_cigar_equal_x true
    (set_cigar_run [2; 3] (set_cigar_ops (chars "H=") (new_Alignment 0 0))).

Definition hard_clip_reconcile_input : Alignment :=
  set_mdz_oro [oro_init 0 3 (-1)]
    (set_cigar_run [2; 3] (set_cigar_ops (chars "HM") (new_Alignment 0 0))).

(** ** Alignments without hard clips, and their two encodings

    An alignment as a list of runs over the extended alphabet. *)
Definition ext_cigar : Type := list (ascii * Z).

Definition is_eq_x (c : ascii) : bool := ch_eqb c "=" || ch_eqb c "X".

(** The transcript that the runs stand for. *)
Definition expand (ext : ext_cigar) : list ascii :=
  flat_map (fun cr => repeat (fst cr) (Z.to_nat (snd cr))) ext.

Definition sum_runs (ext : ext_cigar) : Z :=
  fold_right (fun cr s => snd cr + s) 0 ext.

Definition flush_M (n : Z) : ext_cigar :=
  if 0 <? n then [("M"%char, n)] else [].

(** The plain CIGAR of the alignment: adjacent [=] and [X] runs form one [M]
    run; [pending] is the length of the [M] run that is being collected. *)
Fixpoint plain_cigar (ext : ext_cigar) (pending : Z) : ext_cigar :=
  match ext with
  | [] => flush_M pending
  | (c, r) :: ext' =>
      if is_eq_x c then plain_cigar ext' (pending + r)
      else flush_M pending ++ (c, r) :: plain_cigar ext' 0
  end.

Definition flush_match (n : Z) : list (Z * Z) :=
  if 0 <? n then [(0, n)] else [].

(** The MD:Z runs of the alignment, as operation and length: matches are
    joined into one run over insertions, skips and clips, every mismatch is
    a run of its own (MD:Z puts a number between two mismatches, and
    [mdz_to_list] drops the number 0), a deletion is one run. *)
Fixpoint mdz_runs (ext : ext_cigar) (pending : Z) : list (Z * Z) :=
  match ext with
  | [] => flush_match pending
  | (c, r) :: ext' =>
      if ch_eqb c "=" then mdz_runs ext' (pending + r)
      else if ch_eqb c "X" then
        flush_match pending ++ repeat (1, 1) (Z.to_nat r) ++ mdz_runs ext' 0
      else if ch_eqb c "D" then
        flush_match pending ++ (2, r) :: mdz_runs ext' 0
      else mdz_runs ext' pending
  end.

(** Operation and length of the entries of [mdz_oro]. *)
Definition op_run (oro : list OpRunOffset) : list (Z * Z) :=
  map (fun e => (op e, run e)) oro.

(** Runs of positive length over [=], [X], [I], [D], [N] and [S], whose
    lengths add up to an [int]. *)
Definition ext_op (c : ascii) : Prop :=
  In c [("="%char); ("X"%char); ("I"%char); ("D"%char); ("N"%char); ("S"%char)].

Definition wf_ext (ext : ext_cigar) : Prop :=
  Forall (fun cr => ext_op (fst cr) ∧ 0 < snd cr) ext
  ∧ sum_runs ext < 2 ^ 31.

(** The record with the extended CIGAR of the alignment, and a record with
    its plain CIGAR and MD:Z runs, as the two paths find them. *)
Definition extended_record (al : Alignment) (ext : ext_cigar) : Prop :=
  cigar_equal_x al = true ∧ edit_xscript al = []
  ∧ cigar_ops al = map fst ext ∧ cigar_run al = map snd ext.

Definition plain_record (al : Alignment) (ext : ext_cigar) : Prop :=
  cigar_equal_x al = false ∧ edit_xscript al = []
  ∧ cigar_ops al = map fst (plain_cigar ext 0)
  ∧ cigar_run al = map snd (plain_cigar ext 0)
  ∧ op_run (mdz_oro al) = mdz_runs ext 0.

Definition pos_runs (ext : ext_cigar) : Prop :=
  Forall (fun cr => 0 < snd cr) ext.

Definition eq_x_runs (ext : ext_cigar) : Prop :=
  Forall (fun cr => is_eq_x (fst cr) = true ∧ 0 < snd cr) ext.

(** An alignment without hard clips: two clipped bases, three matches, an
    inserted base, two matches, a mismatch, two deleted bases and four
    matches; its records before the transcript is built, with the extended
    CIGAR "2S3=1I2=1X2D4=", and with the CIGAR "2S3M1I3M2D4M" and the runs of
    the MD:Z string "5A^AC4". *)
Definition example_ext : ext_cigar :=
  [("S"%char, 2); ("="%char, 3); ("I"%char, 1); ("="%char, 2); ("X"%char, 1);
   ("D"%char, 2); ("="%char, 4)].

Definition example_extended_input : Alignment :=
  set_cigar_equal_x true
    (set_cigar_run [2; 3; 1; 2; 1; 2; 4]
       (set_cigar_ops (chars "S=I=XD=") (new_Alignment 0 0))).

Definition example_plain_input : Alignment :=
  set_mdz_oro [oro_init 0 5 (-1); oro_init 1 1 0; oro_init 2 2 1;
               oro_init 0 4 (-1)]
    (set_cigar_run [2; 3; 1; 3; 2; 4]
       (set_cigar_ops (chars "SMIMDM") (new_Alignment 0 0))).

(** The same alignment as two SAM records. *)
Definition example_extended_sam : Alignment :=
  unparsed "r" 0 1
    ["chr1"; "100"; "60"; "2S3=1I2=1X2D4="; "*"; "0"; "0"; "ACGTACGTACGTA";
     "IIIIIIIIIIIII"; "ZT:Z:5"]%string.

Definition example_plain_sam : Alignment :=
  unparsed "r" 0 1
    ["chr1"; "100"; "60"; "2S3M1I3M2D4M"; "*"; "0"; "0"; "ACGTACGTACGTA";
     "IIIIIIIIIIIII"; "MD:Z:5A^AC4"; "ZT:Z:5"]%string.

(** The record of a read "2S3M" with five bases of quality 40, before the
    quality sums are taken, and a record with the transcript "===" at
    position 200. *)
Definition clipped_2S3M_input : Alignment :=
  set_qual (chars "IIIII") (set_len 5 (set_left_clip 2 (new_Alignment 0 0))).

Definition three_matches_at_200 : Alignment :=
  set_pos 200 (set_edit_xscript (chars "===" ++ [NUL]) (new_Alignment 0 0)).

(** * Further parts of the source, and notions for their properties *)

(** ** CIGAR strings as text *)

(** A CIGAR string, run by run: the decimal digits of the length and the
    character of the operation. *)
Definition cigar_text (items : list (list ascii * ascii)) : list ascii :=
  flat_map (fun it => fst it ++ [snd it]) items.

Definition cigar_item_ok (it : list ascii * ascii) : Prop :=
  fst it ≠ [] ∧ all_digits (fst it)
  ∧ isalpha (snd it) || ch_eqb (snd it) "=" = true.

(** The run of an item as [parse_cigar] keeps it, in an [int]: the value of
    the number, reduced to 32 bits. *)
Definition item_run (it : list ascii * ascii) : Z :=
  int32 (digits_val 0 (fst it)).

(** The clips that [parse_cigar] records: the run of a leading [S], and the
    run of a closing [S] that is not also the leading one. *)
Definition leading_clip (items : list (list ascii * ascii)) (dflt : Z) : Z :=
  match items with
  | it :: _ => if ch_eqb (snd it) "S" then item_run it else dflt
  | [] => dflt
  end.

Definition closing_clip (items : list (list ascii * ascii)) (dflt : Z) : Z :=
  match rev items with
  | it :: _ :: _ => if ch_eqb (snd it) "S" then item_run it else dflt
  | _ => dflt
  end.

(** What one operation of the CIGAR string does to the record, as
    [parse_cigar] writes it; [last] tells that the string ends here. *)
Definition cigar_push (al : Alignment) (r : Z) (c : ascii) (last : bool)
    : Alignment :=
  let al1 :=
    if is_nil (cigar_ops al) && ch_eqb c "S" then set_left_clip r al
    else if last && ch_eqb c "S" then set_right_clip r al
    else al in
  let al2 :=
    if ch_eqb c "X" || ch_eqb c "=" then set_cigar_equal_x true al1 else al1 in
  set_cigar_run (cigar_run al2 ++ [r]) (set_cigar_ops (cigar_ops al2 ++ [c]) al2).

(** The closing clip when operations have been read before. *)
Definition closing_clip_after (items : list (list ascii * ascii)) (dflt : Z)
    : Z :=
  match rev items with
  | it :: _ => if ch_eqb (snd it) "S" then item_run it else dflt
  | [] => dflt
  end.

(** A record that holds the CIGAR string "2S3M1I" and nothing else yet. *)
Definition cigar_2S3M1I_input : Alignment :=
  set_cigar (Some (chars "2S3M1I")) (new_Alignment 0 0).

(** A record that holds the CIGAR string "4294967298M": the number is
    2^32 + 2. *)
Definition cigar_long_run_input : Alignment :=
  set_cigar (Some (chars "4294967298M")) (new_Alignment 0 0).

(** ** MD:Z strings *)

(** The characters that [mdz_to_list] knows. *)
Definition mdz_char_ok (c : ascii) : bool :=
  isdigit c || isalpha c || ch_eqb c "^".

(** A record that holds the MD:Z string "10" with the newline of the line
    still attached, as it is when MD:Z is the last field of a line. *)
Definition mdz_with_newline_input : Alignment :=
  set_mdz (Some (chars "10" ++ ["010"%char])) (new_Alignment 0 0).

(** An entry of [mdz_oro] is sound for [n] collected letters: a match run is
    positive and has no letters; a mismatch or deletion run lies inside the
    letters. *)
Definition oro_sound (n : Z) (e : OpRunOffset) : Prop :=
  (op e = 0 ∧ 0 < run e ∧ offset e = -1)
  ∨ ((op e = 1 ∨ op e = 2) ∧ 0 ≤ run e ∧ 0 ≤ offset e
     ∧ offset e + run e ≤ n).

(** The letters that the inner loop has collected for the run it is in. *)
Definition mdz_pending (m : mdz_mode) : Z :=
  match m with
  | MdzMismatch r | MdzDeletion r => r
  | MdzTop | MdzMatch _ => 0
  end.

Definition mdz_mode_ok (m : mdz_mode) : Prop :=
  match m with
  | MdzMatch r => - 2 ^ 31 ≤ r < 2 ^ 31
  | _ => True
  end.

(** A record that holds the MD:Z string "5A0C^GT3". *)
Definition mdz_5A0CdelGT3_input : Alignment :=
  set_mdz (Some (chars "5A0C^GT3")) (new_Alignment 0 0).

(** ** Counting in transcripts and run lists *)

(** The character that the reconciliation path writes for an MD:Z
    operation: 0 is a match, 1 a mismatch, 2 a deletion. *)
Definition md_char (o : Z) : ascii :=
  if o =? 0 then "="%char else if o =? 1 then "X"%char else "D"%char.

(** The bases that the runs of operation [o] stand for. *)
Definition md_total (o : Z) (oro : list OpRunOffset) : Z :=
  fold_right (fun e s => (if op e =? o then run e else 0) + s) 0 oro.

Definition runs_in_range (oro : list OpRunOffset) : Prop :=
  Forall (fun e => 0 ≤ run e < 2 ^ 63) oro.

(** The record with the CIGAR "10M" and the MD:Z run "5". *)
Definition short_mdz_input : Alignment :=
  set_mdz_oro [oro_init 0 5 (-1)]
    (set_cigar_run [10] (set_cigar_ops (chars "M") (new_Alignment 0 0))).

(** ** Records for the reference span *)

(** A record whose alignment is a single matched base behind two clipped
    ones. *)
Definition one_base_at_100 : Alignment :=
  set_pos 100 (set_edit_xscript (chars "SS=" ++ [NUL]) (new_Alignment 0 0)).

(** ** Records for the quality sums and the optional fields *)

(** The digits of a ZT:Z value as the printers accumulate them. *)
Definition ztz_digits (v : Z) (ds : list ascii) : Z :=
  fold_left (fun a c => int32 (int_of_double (a * 10) + digit_val c)) ds v.

(** A read of five bases whose quality string is the "*" of a record
    without qualities. *)
Definition no_quality_input : Alignment :=
  set_qual (chars "*") (set_len 5 (new_Alignment 0 0)).

Definition is_ztz_field (t : list ascii) : bool :=
  starts_with (chars "ZT:Z:") t.

(** ** The counters of [sam_pass1] *)






(** An unpaired record (flag 0), for a stream in which it comes between the
    mates of a pair. *)
Definition stray_unpaired_line : list string :=
  ["r9"; "0"; "chr1"; "500"; "40"; "4="; "*"; "0"; "0"; "ACGT"; "IIII";
   "ZT:Z:3"]%string.

(** ** The metadata of the record files *)

From Stdlib Require Import DecimalString.

(** [printf("%d", i)] and [printf("%llu", n)]. *)
Definition print_int (i : Z) : list ascii :=
  chars (NilZero.string_of_int (Z.to_int i)).

Definition print_ull (n : Z) : list ascii :=
  chars (NilZero.string_of_uint (N.to_uint (Z.to_N (wrap64 n)))).

(** [for(int i = 0; i < n_ztz_fields; i++) fprintf(fh, name "%d", i);] from
    [i] on, with [k] rounds left. *)
Fixpoint print_ztz_columns (name : string) (i : Z) (k : nat) : list ascii :=
  match k with
  | O => []
  | S k' => chars name ++ print_int i ++ print_ztz_columns name (i + 1) k'
  end.

Definition print_unpaired_header (n_ztz_fields nrow : Z) : list ascii :=
  chars "id,len,clip,alqual,clipqual,olen"
  ++ print_ztz_columns ",ztz" 0 (Z.to_nat n_ztz_fields)
  ++ chars ",mapq,correct," ++ print_ull nrow ++ ["010"%char].

Definition print_paired_header (n_ztz_fields nrow : Z) : list ascii :=
  chars "id,len,clip,alqual,clipqual"
  ++ print_ztz_columns ",ztz_" 0 (Z.to_nat n_ztz_fields)
  ++ chars ",olen,oclip,oalqual,oclipqual,fraglen"
  ++ print_ztz_columns ",oztz_" 0 (Z.to_nat n_ztz_fields)
  ++ chars ",mapq,correct," ++ print_ull nrow ++ ["010"%char].

(** A column that the scan of [infer_num_ztzs] passes over: not empty, free
    of tabs and terminators, not the single letter Z, and not a ZT:Z tag. *)
Definition text_char (c : ascii) : bool :=
  negb (ch_eqb c "009") && negb (ch_eqb c NUL).

Definition plain_column (f : list ascii) : bool :=
  negb (is_nil f) && forallb text_char f
  && ((1 <? length f)%nat || negb (ch_eqb (hd NUL f) "Z"))
  && negb (is_prefix (chars "ZT:Z:") f).

(** The nine columns from RNAME to QUAL of a record, and two tags. *)
Definition columns_example : list (list ascii) :=
  map chars ["chr1"; "100"; "60"; "10="; "="; "0"; "0"; "ACGTACGTAC";
             "IIIIIIIIII"; "AS:i:-5"; "ZS:i:3"]%string.

(** Every comma-separated piece of a ZT:Z value holds a character. *)
Definition no_empty_value (s : list ascii) : bool :=
  forallb (fun t => negb (is_nil t)) (split_on "," s).

(** The record of [columns_example] with the ZT:Z values 5, 1 and -3 in its
    last column, as line 7 of a file with feature output. *)
Definition three_values_record : Alignment :=
  set_line 7 (set_flag 0 (set_qname (chars "r1" ++ [NUL])
    (set_rest_of_line
       (Some (columns_example ++ [chars "ZT:Z:5,1,-3" ++ ["010"%char]]))
       (new_Alignment 0 0)))).

(** A record whose line, from RNAME on, is nine ordinary columns, ordinary
    tags, and a closing ZT:Z tag with the value [v] and the newline. *)
Definition ztz_closes_line (al : Alignment) (cols tags : list (list ascii))
    (v : list ascii) : Prop :=
  length cols = 9%nat
  ∧ forallb plain_column (cols ++ tags) = true
  ∧ forallb text_char v = true
  ∧ ("010"%char ∉ v)
  ∧ no_empty_value (v ++ ["010"%char]) = true
  ∧ rest_of_line al
    = Some (cols ++ tags ++ [chars "ZT:Z:" ++ v ++ ["010"%char]]).

(** The text that [rest_of_line] points to for such a record. *)
Definition raw_rest (cols tags : list (list ascii)) (v : list ascii)
    : list ascii :=
  tab_joined (cols ++ tags ++ [chars "ZT:Z:" ++ v ++ ["010"%char]]) ++ [NUL].

(** The two mates of a concordant pair, on lines 3 and 4, each with two ZT:Z
    values. *)
Definition pair_columns1 : list (list ascii) :=
  map chars ["chr1"; "100"; "60"; "10="; "="; "200"; "110"; "ACGTACGTAC";
             "IIIIIIIIII"; "AS:i:-5"]%string.

Definition pair_columns2 : list (list ascii) :=
  map chars ["chr1"; "200"; "50"; "10="; "="; "100"; "-110"; "ACGTACGTAC";
             "IIIIIIIIII"]%string.

Definition pair_mate1 : Alignment :=
  set_line 3 (set_flag 67 (set_qname (chars "r2" ++ [NUL])
    (set_rest_of_line
       (Some (pair_columns1 ++ [chars "ZT:Z:5,1" ++ ["010"%char]]))
       (new_Alignment 0 0)))).

Definition pair_mate2 : Alignment :=
  set_line 4 (set_flag 131 (set_qname (chars "r2" ++ [NUL])
    (set_rest_of_line
       (Some (pair_columns2 ++ [chars "ZT:Z:7,2" ++ ["010"%char]]))
       (new_Alignment 0 0)))).

(** A column that is not an MD:Z tag. *)
Definition is_mdz_field (t : list ascii) : bool :=
  starts_with (chars "MD:Z:") t.

(** A record with the plain CIGAR string 10M and no MD:Z tag. *)
Definition plain_cigar_no_mdz_record : Alignment :=
  set_line 1 (set_flag 0 (set_qname (chars "r1" ++ [NUL])
    (set_rest_of_line
       (Some (map chars ["chr1"; "100"; "60"; "10M"; "="; "0"; "0";
                         "ACGTACGTAC"; "IIIIIIIIII"; "ZT:Z:5"]%string))
       (new_Alignment 0 0)))).

(** ** The quality totals that the constructor leaves uninitialised *)

(** The record [al] with other values in its two quality totals. *)
Definition with_totals (tc ta : Z) (al : Alignment) : Alignment :=
  set_tot_aligned_qual ta (set_tot_clipped_qual tc al).

(** Two records, and two states of the pass, that differ at most in the
    quality totals of their records. *)
Definition same_but_totals (a b : Alignment) : Prop :=
  with_totals 0 0 a = with_totals 0 0 b.

Definition same_pass (st st' : pass_state) : Prop :=
  same_but_totals (st_al1 st) (st_al1 st')
  ∧ same_but_totals (st_al2 st) (st_al2 st')
  ∧ st_al_cur1 st = st_al_cur1 st'
  ∧ st_cnt st = st_cnt st'
  ∧ st_orec_u st = st_orec_u st'
  ∧ st_orec_b st = st_orec_b st'
  ∧ st_orec_c st = st_orec_c st'
  ∧ st_orec_d st = st_orec_d st'.

(** Two results that are alike: the same fault, or values related by [R]. *)
Definition alike {A} (R : A → A → Prop) (r r' : result A) : Prop :=
  match r, r' with
  | Ok x, Ok x' => R x x'
  | Err f, Err f' => f = f'
  | _, _ => False
  end.

(** Two runs that end alike: with the same fault, or in states that differ
    at most in the quality totals of the two record slots. *)
Definition same_outcome (r r' : result pass_state) : Prop :=
  alike same_pass r r'.

(** What the first half of the loop body hands to the second. *)
Definition same_mating (x x' : Alignment * Alignment * bool * counts) : Prop :=
  let '(cur, prev, mated, c) := x in
  let '(cur', prev', mated', c') := x' in
  same_but_totals cur cur' ∧ same_but_totals prev prev'
  ∧ mated = mated' ∧ c = c'.

(** ** The command line of [main] *)

(** [sim_function] takes one of three constants of the simulator. *)
Inductive sim_func : Type :=
| FUNC_SQRT
| FUNC_LINEAR
| FUNC_CONST.

(** The variables that the argument loop of [main] sets: the three mode
    flags, the global parameters, and the file names.  A parameter read with
    [atof] is kept as the text it is read from ([None]: the initial value). *)
Record options : Type := mkOptions {
  o_do_simulation : bool;
  o_do_input_model : bool;
  o_do_features : bool;
  o_wiggle : Z;
  o_input_model_size : Z;
  o_fraction_even : option string;
  o_low_score_bias : option string;
  o_max_allowed_fraglen : Z;
  o_sim_factor : option string;
  o_sim_function : sim_func;
  o_sim_unp_min : Z;
  o_sim_conc_min : Z;
  o_sim_disc_min : Z;
  o_sim_bad_end_min : Z;
  o_seed : Z;
  o_sams : list string;
  o_fastas : list string;
  o_prefix : string;
  o_prefix_set : Z;
  o_mod_prefix : string;
  o_mod_prefix_set : Z
}.

(** The initial values of the globals and of the locals of [main];
    [input_model_size] starts as the largest [int]. *)
Definition options_init : options :=
  mkOptions false false false 30 (2 ^ 31 - 1) None None 50000 None FUNC_SQRT
    30000 30000 10000 10000 0 [] [] EmptyString 0 EmptyString 0.

(** The loop over the characters of a mode argument; a character other than
    [s], [i] and [f] only gives a warning. *)
Fixpoint set_modes (cs : list ascii) (o : options) : options :=
  match cs with
  | [] => o
  | c :: cs' =>
      set_modes cs'
        (if ch_eqb c "s" then
           mkOptions true (o_do_input_model o) (o_do_features o) (o_wiggle o)
             (o_input_model_size o) (o_fraction_even o) (o_low_score_bias o)
             (o_max_allowed_fraglen o) (o_sim_factor o) (o_sim_function o)
             (o_sim_unp_min o) (o_sim_conc_min o) (o_sim_disc_min o)
             (o_sim_bad_end_min o) (o_seed o) (o_sams o) (o_fastas o)
             (o_prefix o) (o_prefix_set o) (o_mod_prefix o)
             (o_mod_prefix_set o)
         else if ch_eqb c "i" then
           mkOptions (o_do_simulation o) true (o_do_features o) (o_wiggle o)
             (o_input_model_size o) (o_fraction_even o) (o_low_score_bias o)
             (o_max_allowed_fraglen o) (o_sim_factor o) (o_sim_function o)
             (o_sim_unp_min o) (o_sim_conc_min o) (o_sim_disc_min o)
             (o_sim_bad_end_min o) (o_seed o) (o_sams o) (o_fastas o)
             (o_prefix o) (o_prefix_set o) (o_mod_prefix o)
             (o_mod_prefix_set o)
         else if ch_eqb c "f" then
           mkOptions (o_do_simulation o) (o_do_input_model o) true (o_wiggle o)
             (o_input_model_size o) (o_fraction_even o) (o_low_score_bias o)
             (o_max_allowed_fraglen o) (o_sim_factor o) (o_sim_function o)
             (o_sim_unp_min o) (o_sim_conc_min o) (o_sim_disc_min o)
             (o_sim_bad_end_min o) (o_seed o) (o_sams o) (o_fastas o)
             (o_prefix o) (o_prefix_set o) (o_mod_prefix o)
             (o_mod_prefix_set o)
         else o)
  end.

(** How a run of [main] leaves the argument handling: on to the files, or
    out of the program with a return value. *)
Inductive args_end : Type :=
| Parsed (o : options)
| Returned (code : Z).

(** One name of the parameter section with the argument that follows it:
    [None] for a name that no comparison matches, which is passed over
    without its value. *)
Definition set_parameter (name value : string) (o : options)
    : option args_end :=
  let v := atoi (chars value) in
  if String.eqb name "wiggle" then
    Some (Parsed
      (mkOptions (o_do_simulation o) (o_do_input_model o) (o_do_features o) v
         (o_input_model_size o) (o_fraction_even o) (o_low_score_bias o)
         (o_max_allowed_fraglen o) (o_sim_factor o) (o_sim_function o)
         (o_sim_unp_min o) (o_sim_conc_min o) (o_sim_disc_min o)
         (o_sim_bad_end_min o) (o_seed o) (o_sams o) (o_fastas o)
         (o_prefix o) (o_prefix_set o) (o_mod_prefix o) (o_mod_prefix_set o)))
  else if String.eqb name "input-model-size" then
    Some (Parsed
      (mkOptions (o_do_simulation o) (o_do_input_model o) (o_do_features o)
         (o_wiggle o) v (o_fraction_even o) (o_low_score_bias o)
         (o_max_allowed_fraglen o) (o_sim_factor o) (o_sim_function o)
         (o_sim_unp_min o) (o_sim_conc_min o) (o_sim_disc_min o)
         (o_sim_bad_end_min o) (o_seed o) (o_sams o) (o_fastas o)
         (o_prefix o) (o_prefix_set o) (o_mod_prefix o) (o_mod_prefix_set o)))
  else if String.eqb name "fraction-even" then
    Some (Parsed
      (mkOptions (o_do_simulation o) (o_do_input_model o) (o_do_features o)
         (o_wiggle o) (o_input_model_size o) (Some value) (o_low_score_bias o)
         (o_max_allowed_fraglen o) (o_sim_factor o) (o_sim_function o)
         (o_sim_unp_min o) (o_sim_conc_min o) (o_sim_disc_min o)
         (o_sim_bad_end_min o) (o_seed o) (o_sams o) (o_fastas o)
         (o_prefix o) (o_prefix_set o) (o_mod_prefix o) (o_mod_prefix_set o)))
  else if String.eqb name "low-score-bias" then
    Some (Parsed
      (mkOptions (o_do_simulation o) (o_do_input_model o) (o_do_features o)
         (o_wiggle o) (o_input_model_size o) (o_fraction_even o) (Some value)
         (o_max_allowed_fraglen o) (o_sim_factor o) (o_sim_function o)
         (o_sim_unp_min o) (o_sim_conc_min o) (o_sim_disc_min o)
         (o_sim_bad_end_min o) (o_seed o) (o_sams o) (o_fastas o)
         (o_prefix o) (o_prefix_set o) (o_mod_prefix o) (o_mod_prefix_set o)))
  else if String.eqb name "max-allowed-fraglen" then
    Some (Parsed
      (mkOptions (o_do_simulation o) (o_do_input_model o) (o_do_features o)
         (o_wiggle o) (o_input_model_size o) (o_fraction_even o)
         (o_low_score_bias o) v (o_sim_factor o) (o_sim_function o)
         (o_sim_unp_min o) (o_sim_conc_min o) (o_sim_disc_min o)
         (o_sim_bad_end_min o) (o_seed o) (o_sams o) (o_fastas o)
         (o_prefix o) (o_prefix_set o) (o_mod_prefix o) (o_mod_prefix_set o)))
  else if String.eqb name "sim-factor" then
    Some (Parsed
      (mkOptions (o_do_simulation o) (o_do_input_model o) (o_do_features o)
         (o_wiggle o) (o_input_model_size o) (o_fraction_even o)
         (o_low_score_bias o) (o_max_allowed_fraglen o) (Some value)
         (o_sim_function o) (o_sim_unp_min o) (o_sim_conc_min o)
         (o_sim_disc_min o) (o_sim_bad_end_min o) (o_seed o) (o_sams o)
         (o_fastas o) (o_prefix o) (o_prefix_set o) (o_mod_prefix o)
         (o_mod_prefix_set o)))
  else if String.eqb name "sim-function" then
    let with_function f :=
      Some (Parsed
        (mkOptions (o_do_simulation o) (o_do_input_model o) (o_do_features o)
           (o_wiggle o) (o_input_model_size o) (o_fraction_even o)
           (o_low_score_bias o) (o_max_allowed_fraglen o) (o_sim_factor o) f
           (o_sim_unp_min o) (o_sim_conc_min o) (o_sim_disc_min o)
           (o_sim_bad_end_min o) (o_seed o) (o_sams o) (o_fastas o)
           (o_prefix o) (o_prefix_set o) (o_mod_prefix o)
           (o_mod_prefix_set o))) in
    if String.eqb value "sqrt" then with_function FUNC_SQRT
    else if String.eqb value "linear" then with_function FUNC_LINEAR
    else if String.eqb value "const" then with_function FUNC_CONST
    else Some (Returned (-1))
  else if String.eqb name "sim-unp-min" then
    Some (Parsed
      (mkOptions (o_do_simulation o) (o_do_input_model o) (o_do_features o)
         (o_wiggle o) (o_input_model_size o) (o_fraction_even o)
         (o_low_score_bias o) (o_max_allowed_fraglen o) (o_sim_factor o)
         (o_sim_function o) v (o_sim_conc_min o) (o_sim_disc_min o)
         (o_sim_bad_end_min o) (o_seed o) (o_sams o) (o_fastas o)
         (o_prefix o) (o_prefix_set o) (o_mod_prefix o) (o_mod_prefix_set o)))
  else if String.eqb name "sim-conc-min" then
    Some (Parsed
      (mkOptions (o_do_simulation o) (o_do_input_model o) (o_do_features o)
         (o_wiggle o) (o_input_model_size o) (o_fraction_even o)
         (o_low_score_bias o) (o_max_allowed_fraglen o) (o_sim_factor o)
         (o_sim_function o) (o_sim_unp_min o) v (o_sim_disc_min o)
         (o_sim_bad_end_min o) (o_seed o) (o_sams o) (o_fastas o)
         (o_prefix o) (o_prefix_set o) (o_mod_prefix o) (o_mod_prefix_set o)))
  else if String.eqb name "sim-disc-min" then
    Some (Parsed
      (mkOptions (o_do_simulation o) (o_do_input_model o) (o_do_features o)
         (o_wiggle o) (o_input_model_size o) (o_fraction_even o)
         (o_low_score_bias o) (o_max_allowed_fraglen o) (o_sim_factor o)
         (o_sim_function o) (o_sim_unp_min o) (o_sim_conc_min o) v
         (o_sim_bad_end_min o) (o_seed o) (o_sams o) (o_fastas o)
         (o_prefix o) (o_prefix_set o) (o_mod_prefix o) (o_mod_prefix_set o)))
  else if String.eqb name "sim-bad-end-min" then
    Some (Parsed
      (mkOptions (o_do_simulation o) (o_do_input_model o) (o_do_features o)
         (o_wiggle o) (o_input_model_size o) (o_fraction_even o)
         (o_low_score_bias o) (o_max_allowed_fraglen o) (o_sim_factor o)
         (o_sim_function o) (o_sim_unp_min o) (o_sim_conc_min o)
         (o_sim_disc_min o) v (o_seed o) (o_sams o) (o_fastas o)
         (o_prefix o) (o_prefix_set o) (o_mod_prefix o) (o_mod_prefix_set o)))
  else if String.eqb name "seed" then
    Some (Parsed
      (mkOptions (o_do_simulation o) (o_do_input_model o) (o_do_features o)
         (o_wiggle o) (o_input_model_size o) (o_fraction_even o)
         (o_low_score_bias o) (o_max_allowed_fraglen o) (o_sim_factor o)
         (o_sim_function o) (o_sim_unp_min o) (o_sim_conc_min o)
         (o_sim_disc_min o) (o_sim_bad_end_min o) v (o_sams o) (o_fastas o)
         (o_prefix o) (o_prefix_set o) (o_mod_prefix o) (o_mod_prefix_set o)))
  else None.

(** An argument of one of the file sections. *)
Definition add_file (section : Z) (a : string) (o : options) : options :=
  if section =? 2 then
    mkOptions (o_do_simulation o) (o_do_input_model o) (o_do_features o)
      (o_wiggle o) (o_input_model_size o) (o_fraction_even o)
      (o_low_score_bias o) (o_max_allowed_fraglen o) (o_sim_factor o)
      (o_sim_function o) (o_sim_unp_min o) (o_sim_conc_min o)
      (o_sim_disc_min o) (o_sim_bad_end_min o) (o_seed o) (o_sams o ++ [a])
      (o_fastas o) (o_prefix o) (o_prefix_set o) (o_mod_prefix o)
      (o_mod_prefix_set o)
  else if section =? 3 then
    mkOptions (o_do_simulation o) (o_do_input_model o) (o_do_features o)
      (o_wiggle o) (o_input_model_size o) (o_fraction_even o)
      (o_low_score_bias o) (o_max_allowed_fraglen o) (o_sim_factor o)
      (o_sim_function o) (o_sim_unp_min o) (o_sim_conc_min o)
      (o_sim_disc_min o) (o_sim_bad_end_min o) (o_seed o) (o_sams o)
      (o_fastas o ++ [a]) (o_prefix o) (o_prefix_set o) (o_mod_prefix o)
      (o_mod_prefix_set o)
  else if section =? 4 then
    mkOptions (o_do_simulation o) (o_do_input_model o) (o_do_features o)
      (o_wiggle o) (o_input_model_size o) (o_fraction_even o)
      (o_low_score_bias o) (o_max_allowed_fraglen o) (o_sim_factor o)
      (o_sim_function o) (o_sim_unp_min o) (o_sim_conc_min o)
      (o_sim_disc_min o) (o_sim_bad_end_min o) (o_seed o) (o_sams o)
      (o_fastas o) a (o_prefix_set o + 1) (o_mod_prefix o)
      (o_mod_prefix_set o)
  else
    mkOptions (o_do_simulation o) (o_do_input_model o) (o_do_features o)
      (o_wiggle o) (o_input_model_size o) (o_fraction_even o)
      (o_low_score_bias o) (o_max_allowed_fraglen o) (o_sim_factor o)
      (o_sim_function o) (o_sim_unp_min o) (o_sim_conc_min o)
      (o_sim_disc_min o) (o_sim_bad_end_min o) (o_seed o) (o_sams o)
      (o_fastas o) (o_prefix o) (o_prefix_set o) a (o_mod_prefix_set o + 1).

(** The [for] loop over [argv]: [args] are the arguments from [argv[i]] on.
    A name of the parameter section takes the next argument as its value,
    whatever that argument is; only a name that is the very last argument
    is reported as an error. *)
Fixpoint args_loop (section : Z) (args : list string) (o : options)
    : result args_end :=
  match args with
  | [] => Ok (Parsed o)
  | a :: rest =>
      if String.eqb a "--" then args_loop (section + 1) rest o
      else if section =? 0 then args_loop section rest (set_modes (chars a) o)
      else if section =? 1 then
        match rest with
        | [] => Err Thrown
        | value :: rest' =>
            match set_parameter a value o with
            | Some (Parsed o') => args_loop section rest' o'
            | Some (Returned code) => Ok (Returned code)
            | None => args_loop section rest o
            end
        end
      else args_loop section rest (add_file section a o)
  end.

(** [main] up to the opening of its files; [args] is [argv] without the
    program name. *)
Definition main_args (args : list string) : result args_end :=
  if is_nil args then Ok (Returned 0)
  else
    r ← args_loop 0 args options_init;
    match r with
    | Returned code => Ok (Returned code)
    | Parsed o =>
        if o_do_simulation o && (o_mod_prefix_set o =? 0)
        then Ok (Returned (-1))
        else Ok (Parsed o)
    end.

(** The names that the parameter section knows. *)
Definition parameter_names : list string :=
  ["wiggle"; "input-model-size"; "fraction-even"; "low-score-bias";
   "max-allowed-fraglen"; "sim-factor"; "sim-function"; "sim-unp-min";
   "sim-conc-min"; "sim-disc-min"; "sim-bad-end-min"; "seed"]%string.

Definition known_parameter (name : string) : bool :=
  existsb (String.eqb name) parameter_names.

(** A name with a value that the parameter section accepts. *)
Definition accepted_pair (kv : string * string) : bool :=
  match set_parameter (fst kv) (snd kv) options_init with
  | Some (Parsed _) => true
  | _ => false
  end.

(** The arguments that a list of names and values takes on the command
    line. *)
Definition pair_args (kvs : list (string * string)) : list string :=
  flat_map (fun kv => [fst kv; snd kv]) kvs.

(** Some mode argument holds the letter [c]. *)
Definition has_mode (c : ascii) (modes : list string) : bool :=
  existsb (fun a => existsb (fun x => ch_eqb x c) (chars a)) modes.

(** The fields that the file sections set, and the three mode flags. *)
Definition files_of (o : options)
    : list string * list string * string * Z * string * Z :=
  (o_sams o, o_fastas o, o_prefix o, o_prefix_set o, o_mod_prefix o,
   o_mod_prefix_set o).

Definition modes_of (o : options) : bool * bool * bool :=
  (o_do_simulation o, o_do_input_model o, o_do_features o).

(** ** Lines and the line buffer *)



(** A read whose name starts with the prefix of simulated reads but holds no
    separator. *)
Definition prefixed_name_line : list string :=
  ["qsimread7"; "0"; "chr1"; "500"; "40"; "4="; "*"; "0"; "0"; "ACGT"; "IIII";
   "ZT:Z:3"]%string.

(** ** The stacked alignment *)

(** [cigar_and_mdz_to_stacked] fills the two rows [rd_aln_buf] and
    [rf_aln_buf] of a stacked alignment.  The rows are kept as a pair beside
    the record. *)
Definition rows : Type := list ascii * list ascii.

(** [seq[j]] through the [char*]: the terminator can be read, nothing behind
    it; the empty list stands for the null pointer of a record whose columns
    have not been parsed ([strtok] gives no empty token). *)
Definition seq_at (s : list ascii) (j : Z) : result ascii :=
  if is_nil s then Err OutOfBounds
  else
    match (s ++ [NUL]) !! Z.to_nat j with
    | Some c => Ok c
    | None => Err OutOfBounds
    end.

(** [mdz_char[j]]: the list checks its index. *)
Definition mdz_char_at (mc : list ascii) (j : Z) : result ascii :=
  match mc !! Z.to_nat j with
  | Some c => Ok c
  | None => Err AssertFailed
  end.

(** [for(size_t j = a; j < b; j++) body], from [j] on with [n] rounds left;
    [range_iters a b] is the number of rounds. *)
Fixpoint for_range (n : nat) (j : Z) (body : Z → rows → result rows)
    (r : rows) : result rows :=
  match n with
  | O => Ok r
  | S n' => r' ← body j r; for_range n' (j + 1) body r'
  end.

Definition range_iters (a b : Z) : nat := Z.to_nat (b - a).

(** The bodies of the six loops. *)
Definition push_rd_seq (s : list ascii) (j : Z) (r : rows) : result rows :=
  c ← seq_at s j; Ok (fst r ++ [c], snd r).

Definition push_rf_seq (s : list ascii) (j : Z) (r : rows) : result rows :=
  c ← seq_at s j; Ok (fst r, snd r ++ [c]).

Definition push_rf_mdz (mc : list ascii) (j : Z) (r : rows) : result rows :=
  c ← mdz_char_at mc j; Ok (fst r, snd r ++ [c]).

Definition push_insertion (s : list ascii) (j : Z) (r : rows) : result rows :=
  c ← seq_at s j; Ok (fst r ++ [c], snd r ++ ["-"%char]).

Definition push_deletion (mc : list ascii) (j : Z) (r : rows) : result rows :=
  c ← mdz_char_at mc j; Ok (fst r ++ ["-"%char], snd r ++ [c]).

Definition push_skip (j : Z) (r : rows) : result rows :=
  Ok (fst r ++ ["-"%char], snd r ++ ["-"%char]).

(** What one round of the [while] loop of an [M] run pushes. *)
Definition stacked_push (s mc : list ascii) (e : OpRunOffset)
    (runleft rdoff : Z) (r : rows) : result rows :=
  let op_m := op e in
  let run_m := run e in
  let st_m := offset e in
  let run_comb := Z.min runleft run_m in
  _ ← assert ((op_m =? 0) || (op_m =? 1));
  r ← for_range (range_iters rdoff (wrap64 (rdoff + run_comb))) rdoff
        (push_rd_seq s) r;
  if op_m =? 0 then
    for_range (range_iters rdoff (wrap64 (rdoff + run_comb))) rdoff
      (push_rf_seq s) r
  else
    _ ← assert (run_m =? run_comb);
    for_range (range_iters (wrap64 st_m) (wrap64 (st_m + run_m)))
      (wrap64 st_m) (push_rf_mdz mc) r.

(** The [while] loop of an [M] run, as in the transcript construction. *)
Equations? stacked_m_loop (s mc : list ascii) (oro : list OpRunOffset)
    (mdo : nat) (runleft rdoff : Z) (r : rows)
    : result (list OpRunOffset * nat * Z * rows)
    by wf (2 * (length oro - mdo) + (if (0 <? runleft)%Z then 1 else 0))%nat lt :=
  stacked_m_loop s mc oro mdo runleft rdoff r with inspect (0 <? runleft) := {
    | exist _ false _ := Ok (oro, mdo, rdoff, r)
    | exist _ true Hrl with inspect (oro !! mdo) := {
      | exist _ None _ := Ok (oro, mdo, rdoff, r)
      | exist _ (Some e) He with stacked_push s mc e runleft rdoff r := {
        | Err f := Err f
        | Ok r' with inspect (Z.min runleft (run e) <? run e) := {
          | exist _ true Hlt :=
              if op e =? 0 then
                stacked_m_loop s mc
                  (<[mdo := set_run (run e - Z.min runleft (run e)) e]> oro)
                  mdo (runleft - Z.min runleft (run e))
                  (wrap64 (rdoff + Z.min runleft (run e))) r'
              else Err AssertFailed
          | exist _ false _ :=
              stacked_m_loop s mc oro (S mdo)
                (runleft - Z.min runleft (run e))
                (wrap64 (rdoff + Z.min runleft (run e))) r' } } } }.
Proof.
  - rewrite length_insert, Hrl.
    apply Z.ltb_lt in Hlt.
    replace (0 <? runleft - Z.min runleft (run e)) with false
      by (symmetry; apply Z.ltb_ge; lia).
    lia.
  - rewrite Hrl.
    apply lookup_lt_Some in He.
    destruct (0 <? runleft - Z.min runleft (run e)); lia.
Qed.

(** The loop over the CIGAR runs. *)
Fixpoint stacked_loop (s mc : list ascii) (ops : list ascii) (runs : list Z)
    (oro : list OpRunOffset) (mdo : nat) (rdoff : Z) (r : rows) {struct runs}
    : result (list OpRunOffset * nat * Z * rows) :=
  match runs with
  | [] => Ok (oro, mdo, rdoff, r)
  | crun :: runs' =>
      match ops with
      | [] => Err AssertFailed
      | cop :: ops' =>
          if ch_eqb cop "M" then
            '(oro', mdo', rdoff', r') ←
              stacked_m_loop s mc oro mdo crun rdoff r;
            stacked_loop s mc ops' runs' oro' mdo' rdoff' r'
          else if ch_eqb cop "I" then
            r' ← for_range (range_iters rdoff (wrap64 (rdoff + crun))) rdoff
                   (push_insertion s) r;
            stacked_loop s mc ops' runs' oro mdo (wrap64 (rdoff + crun)) r'
          else if ch_eqb cop "D" then
            match oro !! mdo with
            | None => Err AssertFailed
            | Some e =>
                _ ← assert (op e =? 2);
                _ ← assert (crun =? run e);
                _ ← assert (run e =? crun);
                r' ← for_range
                       (range_iters (wrap64 (offset e))
                          (wrap64 (offset e + run e)))
                       (wrap64 (offset e)) (push_deletion mc) r;
                stacked_loop s mc ops' runs' oro (S mdo) rdoff r'
            end
          else if ch_eqb cop "N" then
            r' ← for_range (range_iters 0 (wrap64 crun)) 0 push_skip r;
            stacked_loop s mc ops' runs' oro mdo rdoff r'
          else if ch_eqb cop "S" then
            stacked_loop s mc ops' runs' oro mdo (wrap64 (rdoff + crun)) r
          else if ch_eqb cop "H" then
            stacked_loop s mc ops' runs' oro mdo rdoff r
          else Err Thrown
      end
  end.

(** [cigar_and_mdz_to_stacked] on a record and the two rows as they are on
    entry; the result is the record with the shortened run list, and the two
    closed rows. *)
Definition cigar_and_mdz_to_stacked (al : Alignment) (r : rows)
    : result (Alignment * rows) :=
  '(oro, mdo, _, r') ← stacked_loop (seq al) (mdz_char al) (cigar_ops al)
                         (cigar_run al) (mdz_oro al) 0%nat 0 r;
  _ ← assert (Nat.eqb mdo (length oro));
  Ok (set_mdz_oro oro al, (fst r' ++ [NUL], snd r' ++ [NUL])).

(** The entries of a run list hold [int]s, and the offsets of the runs with
    letters are not negative. *)
Definition int_entries (oro : list OpRunOffset) : Prop :=
  Forall (fun e => 0 ≤ run e < 2 ^ 31
                   ∧ (op e = 0 ∨ 0 ≤ offset e < 2 ^ 31)) oro.

(** The read bases that CIGAR runs can consume. *)
Definition runs_total (runs : list Z) : Z := fold_right Z.add 0 runs.

(** A record with the read ACGTAC, the CIGAR string 2S3M1D1M and the MD:Z
    string 1G1^T1. *)
Definition stacked_input : Alignment :=
  set_seq (chars "ACGTAC")
    (set_mdz_char (chars "GT")
       (set_mdz_oro [oro_init 0 1 (-1); oro_init 1 1 0; oro_init 0 1 (-1);
                     oro_init 2 1 1; oro_init 0 1 (-1)]
          (set_cigar_run [2; 3; 1; 1]
             (set_cigar_ops (chars "SMDM") (new_Alignment 0 0))))).

(** By how much the read row is longer than the reference row. *)
Definition rows_gap (r : rows) : Z :=
  Z.of_nat (length (fst r)) - Z.of_nat (length (snd r)).

(** ** [infer_read_length] on the text of a line *)

(** The two loops of [infer_read_length] over the bytes that [rest_of_line]
    points to.  Neither loop looks for the terminator; the counters stay far
    below 2^64 in a line buffer of 64K. *)
Fixpoint count_to_tab (cur : list ascii) (len : Z) : result Z :=
  match cur with
  | [] => Err OutOfBounds
  | c :: cur' =>
      if negb (ch_eqb c "009") then count_to_tab cur' (len + 1) else Ok len
  end.

Fixpoint infer_read_length_text (cur : list ascii) (tabs : Z) : result Z :=
  match cur with
  | [] => Err OutOfBounds
  | c :: cur' =>
      if ch_eqb c "009" then
        if tabs + 1 =? 7 then count_to_tab cur' 0
        else infer_read_length_text cur' (tabs + 1)
      else infer_read_length_text cur' tabs
  end.

(** Columns hold no tab. *)
Definition tab_free (f : list ascii) : bool :=
  forallb (fun c => negb (ch_eqb c "009")) f.

(** An unaligned mate: the columns from RNAME on, without tags. *)
Definition unaligned_columns : list (list ascii) :=
  map chars ["*"; "0"; "0"; "*"; "="; "100"; "0"; "ACGTACG"; "IIIIIII"]%string.
(** * Properties *)

(** ** The error monad *)

Lemma bind_Ok_inv {A B} (m : result A) (k : A → result B) (b : B) :
  m ≫= k = Ok b → ∃ a, m = Ok a ∧ k a = Ok b.
Proof. destruct m as [a|f]; simpl; [eauto | discriminate]. Qed.

Lemma bind_Err {A B} (k : A → result B) (f : fault) : Err f ≫= k = Err f.
Proof. reflexivity. Qed.

Lemma assert_Ok_inv (c : bool) (u : unit) : assert c = Ok u → c = true.
Proof. destruct c; simpl; [reflexivity | discriminate]. Qed.

Lemma assert_true (c : bool) : c = true → assert c = Ok tt.
Proof. intros ->. reflexivity. Qed.

(** Splits a successful bind in a hypothesis into its two steps. *)
Ltac bind_inv H :=
  let a := fresh "a" in
  let Ha := fresh "Ha" in
  apply bind_Ok_inv in H; destruct H as (a & Ha & H).

Tactic Notation "binv" hyp(H) "as" simple_intropattern(a) ident(Ha) :=
  apply bind_Ok_inv in H; destruct H as (a & Ha & H).

Lemma ch_eqb_eq (a b : ascii) : ch_eqb a b = true ↔ a = b.
Proof. unfold ch_eqb. apply Ascii.eqb_eq. Qed.

Lemma ch_eqb_neq (a b : ascii) : ch_eqb a b = false ↔ a ≠ b.
Proof. unfold ch_eqb. apply Ascii.eqb_neq. Qed.

Lemma ch_eqb_refl (a : ascii) : ch_eqb a a = true.
Proof. apply ch_eqb_eq. reflexivity. Qed.

Lemma wrap64_idem x : wrap64 (wrap64 x) = wrap64 x.
Proof. unfold wrap64. apply Z.mod_mod. lia. Qed.

Lemma not_in_app {A} (x : A) l k : ¬ In x l → ¬ In x k → ¬ In x (l ++ k).
Proof. intros H1 H2 H. apply in_app_or in H. tauto. Qed.

Lemma not_in_cons {A} (x a : A) l : x ≠ a → ¬ In x l → ¬ In x (a :: l).
Proof. intros H1 H2 [H|H]; [congruence | tauto]. Qed.

(** ** Machine integers *)

Lemma low32_eq_refl x : low32_eq x x.
Proof. reflexivity. Qed.

Lemma low32_eq_sym x y : low32_eq x y → low32_eq y x.
Proof. unfold low32_eq. congruence. Qed.

Lemma low32_eq_trans x y z : low32_eq x y → low32_eq y z → low32_eq x z.
Proof. unfold low32_eq. congruence. Qed.

Lemma low32_eq_add a a' b b' :
  low32_eq a a' → low32_eq b b' → low32_eq (a + b) (a' + b').
Proof.
  unfold low32_eq. intros Ha Hb.
  rewrite (Z.add_mod a), (Z.add_mod a'), Ha, Hb by lia. reflexivity.
Qed.

Lemma low32_eq_sub a a' b b' :
  low32_eq a a' → low32_eq b b' → low32_eq (a - b) (a' - b').
Proof.
  unfold low32_eq. intros Ha Hb.
  rewrite (Zminus_mod a), (Zminus_mod a'), Ha, Hb. reflexivity.
Qed.

Lemma low32_eq_mul a a' b b' :
  low32_eq a a' → low32_eq b b' → low32_eq (a * b) (a' * b').
Proof.
  unfold low32_eq. intros Ha Hb.
  rewrite (Z.mul_mod a), (Z.mul_mod a'), Ha, Hb by lia. reflexivity.
Qed.

Lemma low32_eq_opp a a' : low32_eq a a' → low32_eq (- a) (- a').
Proof.
  intros H. replace (- a) with (0 - a) by lia. replace (- a') with (0 - a') by lia.
  apply low32_eq_sub; [reflexivity | exact H].
Qed.

Lemma low32_eq_int32 x : low32_eq (int32 x) x.
Proof.
  unfold low32_eq, int32.
  rewrite Zminus_mod, Z.mod_mod by lia.
  rewrite <- Zminus_mod. f_equal. lia.
Qed.

Lemma low32_eq_wrap64 x : low32_eq (wrap64 x) x.
Proof.
  unfold low32_eq, wrap64.
  replace (2 ^ 64) with (2 ^ 32 * 2 ^ 32) by reflexivity.
  rewrite Z.rem_mul_r by lia.
  rewrite Z.add_mod, Z.mod_mod by lia.
  rewrite (Z.mul_comm (2 ^ 32)), Z.mod_mul by lia.
  rewrite Z.add_0_r. apply Z.mod_mod. lia.
Qed.

Lemma int32_low32_eq x y : low32_eq x y → int32 x = int32 y.
Proof.
  unfold low32_eq, int32. intros H.
  rewrite (Z.add_mod x), (Z.add_mod y), H by lia. reflexivity.
Qed.

Lemma int32_range x : - 2 ^ 31 ≤ int32 x < 2 ^ 31.
Proof.
  unfold int32. pose proof (Z.mod_pos_bound (x + 2 ^ 31) (2 ^ 32) ltac:(lia)).
  lia.
Qed.

Lemma int32_fits x : - 2 ^ 31 ≤ x < 2 ^ 31 → int32 x = x.
Proof. intros H. unfold int32. rewrite Z.mod_small; lia. Qed.

Lemma int32_idem x : int32 (int32 x) = int32 x.
Proof. apply int32_low32_eq, low32_eq_int32. Qed.

(** One turn of [v *= 10; v += digit] on an [int]. *)
Lemma int32_step v d : int32 (int32 (v * 10) + d) = int32 (v * 10 + d).
Proof.
  apply int32_low32_eq, low32_eq_add; [apply low32_eq_int32 | reflexivity].
Qed.

(** The digits read into an [int] give the decimal value, reduced to 32
    bits. *)
Lemma int_digits_low32 ds : ∀ v v',
  low32_eq v v' → low32_eq (int_digits v ds) (digits_val v' ds).
Proof.
  unfold int_digits, digits_val.
  induction ds as [|c ds IH]; intros v v' E; cbn [fold_left]; [exact E|].
  apply IH. rewrite int32_step.
  eapply low32_eq_trans; [apply low32_eq_int32|].
  apply low32_eq_add; [|reflexivity].
  apply low32_eq_mul; [exact E | reflexivity].
Qed.

Lemma int_digits_range ds : ∀ v,
  - 2 ^ 31 ≤ v < 2 ^ 31 → - 2 ^ 31 ≤ int_digits v ds < 2 ^ 31.
Proof.
  unfold int_digits.
  induction ds as [|c ds IH]; intros v Hv; cbn [fold_left]; [exact Hv|].
  apply IH, int32_range.
Qed.

Lemma int_digits_int32 ds v :
  - 2 ^ 31 ≤ v < 2 ^ 31 → int_digits v ds = int32 (digits_val v ds).
Proof.
  intros Hv.
  rewrite <- (int32_fits (int_digits v ds)) by (apply int_digits_range; exact Hv).
  apply int32_low32_eq, int_digits_low32. reflexivity.
Qed.

(** ** Edit transcripts (C1) *)

Lemma m_loop_push_no_H e runleft xs xs' :
  ¬ In "H"%char xs → m_loop_push e runleft xs = Ok xs' → ¬ In "H"%char xs'.
Proof.
  intros Hx H. unfold m_loop_push in H.
  binv H as [] Ha.
  destruct (op e =? 0).
  - injection H as <-. apply not_in_app; [exact Hx|].
    intros Hin. apply repeat_spec in Hin. discriminate.
  - binv H as [] Hb. injection H as <-. apply not_in_app; [exact Hx|].
    intros Hin. apply repeat_spec in Hin. discriminate.
Qed.

Lemma m_loop_no_H oro mdo runleft rdoff xs :
  ∀ oro' mdo' rdoff' xs',
  ¬ In "H"%char xs →
  m_loop oro mdo runleft rdoff xs = Ok (oro', mdo', rdoff', xs') →
  ¬ In "H"%char xs'.
Proof.
  funelim (m_loop oro mdo runleft rdoff xs).
  - intros ? ? ? ? Hx [= <- <- <- <-]. exact Hx.
  - intros ? ? ? ? Hx [= <- <- <- <-]. exact Hx.
  - discriminate.
  - intros oro' mdo' rdoff' xs'' Hx HH.
    destruct (op e =? 0); [|discriminate].
    eapply H; [|exact HH]. eapply m_loop_push_no_H; eassumption.
  - intros oro' mdo' rdoff' xs'' Hx HH.
    eapply H; [|exact HH]. eapply m_loop_push_no_H; eassumption.
Qed.

Lemma not_in_repeat (c x : ascii) n : x ≠ c → ¬ In x (repeat c n).
Proof. intros Hne Hin. apply repeat_spec in Hin. congruence. Qed.

Lemma cigar_and_mdz_loop_no_H ops : ∀ runs oro mdo rdoff xs oro' mdo' rdoff' xs',
  ¬ In "H"%char xs →
  cigar_and_mdz_loop ops runs oro mdo rdoff xs = Ok (oro', mdo', rdoff', xs') →
  ¬ In "H"%char xs'.
Proof.
  induction ops as [|cop ops IH]; intros runs oro mdo rdoff xs oro' mdo' rdoff' xs'
    Hx H; destruct runs as [|crun runs]; cbn [cigar_and_mdz_loop] in H;
    try discriminate; try (injection H as <- <- <- <-; exact Hx).
  binv H as [] Ha.
  destruct (ch_eqb cop "M").
  { binv H as [[[o1 m1] r1] x1] Hm.
    eapply IH; [|exact H]. eapply m_loop_no_H; eassumption. }
  destruct (ch_eqb cop "I").
  { eapply IH; [|exact H].
    apply not_in_app; [exact Hx | apply not_in_repeat; discriminate]. }
  destruct (ch_eqb cop "D").
  { destruct (oro !! mdo) as [e|]; [|discriminate].
    binv H as [] H1. binv H as [] H2. binv H as [] H3.
    eapply IH; [|exact H].
    apply not_in_app; [exact Hx | apply not_in_repeat; discriminate]. }
  destruct (ch_eqb cop "N").
  { eapply IH; [|exact H].
    apply not_in_app; [exact Hx | apply not_in_repeat; discriminate]. }
  destruct (ch_eqb cop "S").
  { eapply IH; [|exact H].
    apply not_in_app; [exact Hx | apply not_in_repeat; discriminate]. }
  destruct (ch_eqb cop "H"); [|discriminate].
  eapply IH; [exact Hx | exact H].
Qed.

(** The reconciliation path never writes a hard clip. *)
Lemma reconciled_has_no_H al al' :
  cigar_and_mdz_to_edit_xscript al = Ok al' → ¬ In "H"%char (edit_xscript al').
Proof.
  unfold cigar_and_mdz_to_edit_xscript. intros H.
  binv H as [] Ha. binv H as [] Hnil.
  binv H as [[[oro mdo] rdoff] xs] Hloop.
  binv H as [] Hend. injection H as <-.
  destruct (edit_xscript al) eqn:Ex; [|discriminate].
  cbn. apply not_in_app.
  - eapply cigar_and_mdz_loop_no_H; [|exact Hloop]. intros [].
  - intros [E|[]]. discriminate.
Qed.

Lemma cigar_to_edit_xscript_loop_grows ops : ∀ runs xs xs' c,
  cigar_to_edit_xscript_loop ops runs xs = Ok xs' → In c xs → In c xs'.
Proof.
  induction ops as [|cop ops IH]; intros runs xs xs' c H Hin;
    destruct runs as [|crun runs]; cbn [cigar_to_edit_xscript_loop] in H;
    try discriminate; try (injection H as <-; exact Hin).
  binv H as [] Ha.
  eapply IH; [exact H|]. apply in_or_app. left. exact Hin.
Qed.

Lemma cigar_to_edit_xscript_loop_has ops : ∀ runs xs xs' (i : nat) c r,
  cigar_to_edit_xscript_loop ops runs xs = Ok xs' →
  ops !! i = Some c → runs !! i = Some r → 0 < r → In c xs'.
Proof.
  induction ops as [|cop ops IH]; intros runs xs xs' i c r H Hc Hr Hpos;
    [destruct i; discriminate|].
  destruct runs as [|crun runs]; [destruct i; discriminate|].
  cbn [cigar_to_edit_xscript_loop] in H. binv H as [] Ha.
  destruct i as [|i]; cbn in Hc, Hr.
  - injection Hc as ->. injection Hr as ->.
    eapply cigar_to_edit_xscript_loop_grows; [exact H|].
    apply in_or_app. right.
    destruct (Z.to_nat r) eqn:E; [lia|]. left. reflexivity.
  - eapply IH; eassumption.
Qed.

(** The direct path writes every run of positive length, whatever its
    operation. *)
Lemma direct_has_every_op al al' (i : nat) c r :
  cigar_to_edit_xscript al = Ok al' →
  cigar_ops al !! i = Some c → cigar_run al !! i = Some r → 0 < r →
  In c (edit_xscript al').
Proof.
  unfold cigar_to_edit_xscript. intros H Hc Hr Hpos.
  binv H as [] Ha. binv H as [] Hnil. binv H as xs Hloop.
  injection H as <-. cbn. apply in_or_app. left.
  eapply cigar_to_edit_xscript_loop_has; eassumption.
Qed.

Lemma m_loop_done oro mdo runleft rdoff xs :
  runleft ≤ 0 → m_loop oro mdo runleft rdoff xs = Ok (oro, mdo, rdoff, xs).
Proof.
  intros Hle. funelim (m_loop oro mdo runleft rdoff xs); try reflexivity;
    exfalso; pose proof (proj1 (Z.ltb_lt _ _) Hrl); lia.
Qed.

Lemma size_t_iters_small n : 0 ≤ n < 2 ^ 64 → size_t_iters n = Z.to_nat n.
Proof.
  intros H. unfold size_t_iters, wrap64. rewrite Z.mod_small; [reflexivity|lia].
Qed.

Lemma m_loop_push_all en runleft xs :
  run en ≤ runleft → op en = 0 ∨ op en = 1 →
  m_loop_push en runleft xs
  = Ok (xs ++ repeat (if op en =? 0 then "="%char else "X"%char)
                     (size_t_iters (run en))).
Proof.
  intros Hle Hop. unfold m_loop_push.
  rewrite Z.min_r by exact Hle.
  destruct Hop as [-> | ->]; cbn [Z.eqb orb assert mbind result_bind].
  - reflexivity.
  - rewrite Z.eqb_refl. reflexivity.
Qed.

Lemma m_loop_take_all oro mdo runleft rdoff xs en :
  oro !! mdo = Some en → 0 < runleft → run en ≤ runleft →
  op en = 0 ∨ op en = 1 →
  m_loop oro mdo runleft rdoff xs
  = m_loop oro (S mdo) (runleft - run en) (wrap64 (rdoff + run en))
      (xs ++ repeat (if op en =? 0 then "="%char else "X"%char)
                    (size_t_iters (run en))).
Proof.
  intros He Hpos Hle Hop.
  funelim (m_loop oro mdo runleft rdoff xs).
  - exfalso. pose proof (proj1 (Z.ltb_ge _ _) e). lia.
  - congruence.
  - assert (e = en) by congruence. subst e.
    rewrite (m_loop_push_all en runleft xs Hle Hop) in Heq. discriminate.
  - assert (e = en) by congruence. subst e.
    exfalso. pose proof (proj1 (Z.ltb_lt _ _) Hlt). lia.
  - assert (e = en) by congruence. subst e.
    rewrite (m_loop_push_all en runleft xs Hle Hop) in Heq.
    injection Heq as <-. rewrite Z.min_r by exact Hle. reflexivity.
Qed.

Lemma m_loop_take_part oro mdo runleft rdoff xs en :
  oro !! mdo = Some en → 0 < runleft → runleft < run en → op en = 0 →
  m_loop oro mdo runleft rdoff xs
  = Ok (<[mdo := set_run (run en - runleft) en]> oro, mdo,
        wrap64 (rdoff + runleft),
        xs ++ repeat "="%char (size_t_iters runleft)).
Proof.
  intros He Hpos Hlt' Hop.
  funelim (m_loop oro mdo runleft rdoff xs).
  - exfalso. pose proof (proj1 (Z.ltb_ge _ _) e). lia.
  - congruence.
  - assert (e = en) by congruence. subst e.
    unfold m_loop_push in Heq. rewrite Hop in Heq. discriminate.
  - assert (e = en) by congruence. subst e.
    unfold m_loop_push in Heq. rewrite Hop in Heq.
    cbn [Z.eqb orb assert mbind result_bind] in Heq. injection Heq as <-.
    rewrite Hop. cbn [Z.eqb]. rewrite Z.min_l by lia.
    rewrite Z.sub_diag. apply m_loop_done. lia.
  - assert (e = en) by congruence. subst e.
    exfalso.
    destruct (runleft `min` run en <? run en) eqn:E; [discriminate|].
    apply Z.ltb_ge in E. lia.
Qed.

Lemma op_run_drop_cons oro (mdo : nat) o r T :
  drop mdo (op_run oro) = (o, r) :: T →
  ∃ en, oro !! mdo = Some en ∧ op en = o ∧ run en = r
        ∧ drop (S mdo) (op_run oro) = T.
Proof.
  intros H.
  assert (Hl : op_run oro !! mdo = Some (o, r)).
  { replace (op_run oro !! mdo) with (drop mdo (op_run oro) !! 0%nat)
      by (rewrite lookup_drop; f_equal; lia).
    rewrite H. reflexivity. }
  unfold op_run in Hl. rewrite list_lookup_fmap in Hl.
  destruct (oro !! mdo) as [en|] eqn:E; [|discriminate].
  cbn in Hl. injection Hl as Ho Hr.
  exists en. repeat split; try assumption.
  fold (op_run oro).
  replace (S mdo) with (mdo + 1)%nat by lia.
  rewrite <- drop_drop, H. reflexivity.
Qed.

Lemma op_run_insert oro (mdo : nat) en r T :
  oro !! mdo = Some en →
  drop (S mdo) (op_run oro) = T →
  drop mdo (op_run (<[mdo := set_run r en]> oro)) = (op en, r) :: T.
Proof.
  intros He HT. unfold op_run in *.
  rewrite list_fmap_insert.
  apply lookup_lt_Some in He.
  rewrite <- HT.
  rewrite (drop_S (<[mdo:=(op (set_run r en), run (set_run r en))]>
                     (map (λ e, (op e, run e)) oro)) (op en, r) mdo).
  - f_equal. rewrite drop_insert_lt by lia. reflexivity.
  - rewrite list_lookup_insert_eq; [reflexivity|].
    rewrite length_map. exact He.
Qed.

Lemma mdz_runs_pending R :
  pos_runs R →
  ∃ q T, 0 ≤ q ∧ ∀ p, mdz_runs R p = flush_match (p + q) ++ T.
Proof.
  induction R as [|[c r] R IH]; intros HR.
  - exists 0, []. split; [lia|]. intros p. cbn [mdz_runs].
    rewrite Z.add_0_r, app_nil_r. reflexivity.
  - inversion HR as [|? ? Hr HR']; subst. cbn [snd] in Hr.
    destruct (IH HR') as (q & T & Hq & Hm).
    cbn [mdz_runs].
    destruct (ch_eqb c "=").
    { exists (r + q), T. split; [lia|]. intros p.
      rewrite Hm. f_equal. f_equal. lia. }
    destruct (ch_eqb c "X").
    { eexists 0, _. split; [lia|]. intros p. rewrite Z.add_0_r. reflexivity. }
    destruct (ch_eqb c "D").
    { eexists 0, _. split; [lia|]. intros p. rewrite Z.add_0_r. reflexivity. }
    exists q, T. split; [lia|]. exact Hm.
Qed.

Lemma m_loop_mismatches n : ∀ oro mdo runleft rdoff xs T,
  drop mdo (op_run oro) = repeat (1, 1) n ++ T → Z.of_nat n ≤ runleft →
  ∃ rdoff',
    m_loop oro mdo runleft rdoff xs
    = m_loop oro (mdo + n) (runleft - Z.of_nat n) rdoff'
        (xs ++ repeat "X"%char n)
    ∧ drop (mdo + n) (op_run oro) = T.
Proof.
  induction n as [|n IH]; intros oro mdo runleft rdoff xs T Hd Hle.
  - exists rdoff. cbn [repeat app] in *.
    rewrite Nat.add_0_r, Z.sub_0_r, app_nil_r. split; [reflexivity | exact Hd].
  - cbn [repeat app] in Hd.
    destruct (op_run_drop_cons _ _ _ _ _ Hd) as (en & He & Ho & Hr & Hd').
    rewrite (m_loop_take_all oro mdo runleft rdoff xs en He) by lia.
    rewrite Ho, Hr. cbn [Z.eqb].
    destruct (IH oro (S mdo) (runleft - 1) (wrap64 (rdoff + 1))
                (xs ++ repeat "X"%char (size_t_iters 1)) T Hd' ltac:(lia))
      as (rdoff' & Hm & HT).
    exists rdoff'. rewrite Hm.
    replace (mdo + S n)%nat with (S mdo + n)%nat by lia.
    replace (runleft - 1 - Z.of_nat n) with (runleft - Z.of_nat (S n)) by lia.
    split; [|exact HT].
    f_equal. rewrite <- app_assoc. reflexivity.
Qed.

Lemma m_loop_flush oro mdo runleft rdoff xs p T :
  drop mdo (op_run oro) = flush_match p ++ T →
  0 ≤ p → p < runleft → runleft < 2 ^ 64 →
  ∃ mdo1 rdoff1,
    m_loop oro mdo runleft rdoff xs
    = m_loop oro mdo1 (runleft - p) rdoff1 (xs ++ repeat "="%char (Z.to_nat p))
    ∧ drop mdo1 (op_run oro) = T.
Proof.
  intros Hd H0 Hlt Hmax. unfold flush_match in Hd.
  destruct (0 <? p) eqn:Ep.
  - apply Z.ltb_lt in Ep. cbn [app] in Hd.
    destruct (op_run_drop_cons _ _ _ _ _ Hd) as (en & He & Ho & Hr & Hd').
    exists (S mdo), (wrap64 (rdoff + p)).
    rewrite (m_loop_take_all oro mdo runleft rdoff xs en He) by lia.
    rewrite Ho, Hr. cbn [Z.eqb].
    rewrite size_t_iters_small by lia. split; [reflexivity | exact Hd'].
  - apply Z.ltb_ge in Ep. assert (p = 0) by lia. subst p.
    exists mdo, rdoff. cbn [Z.to_nat repeat app] in *.
    rewrite Z.sub_0_r, app_nil_r. split; [reflexivity | exact Hd].
Qed.

Lemma sum_runs_nonneg B : pos_runs B → 0 ≤ sum_runs B.
Proof.
  induction 1 as [|[c r] B Hr _ IH]; cbn [sum_runs fold_right snd] in *;
    [lia|]. fold (sum_runs B). lia.
Qed.

Lemma eq_x_runs_pos B : eq_x_runs B → pos_runs B.
Proof. intros H. eapply Forall_impl; [exact H|]. intros cr [_ Hp]. exact Hp. Qed.

Lemma pos_runs_app B R : pos_runs B → pos_runs R → pos_runs (B ++ R).
Proof. intros H1 H2. apply Forall_app. split; assumption. Qed.

(** One [M] run against the runs of a block of [=] and [X] runs. *)
Lemma m_loop_block B : ∀ R p oro mdo rdoff xs,
  eq_x_runs B → pos_runs R → 0 ≤ p → p + sum_runs B < 2 ^ 31 →
  drop mdo (op_run oro) = mdz_runs (B ++ R) p →
  ∃ oro' mdo' rdoff',
    m_loop oro mdo (p + sum_runs B) rdoff xs
    = Ok (oro', mdo', rdoff',
          xs ++ repeat "="%char (Z.to_nat p) ++ expand B)
    ∧ drop mdo' (op_run oro') = mdz_runs R 0.
Proof.
  induction B as [|[c r] B IH]; intros R p oro mdo rdoff xs HB HR Hp Hmax Hd.
  - cbn [app sum_runs fold_right expand flat_map] in *.
    rewrite Z.add_0_r, app_nil_r.
    destruct (mdz_runs_pending R HR) as (q & T & Hq & Hm).
    destruct (Z.eq_dec p 0) as [-> | Hne].
    { exists oro, mdo, rdoff. rewrite m_loop_done by lia.
      cbn [Z.to_nat repeat]. rewrite app_nil_r.
      split; [reflexivity | exact Hd]. }
    rewrite Hm in Hd. unfold flush_match in Hd.
    replace (0 <? p + q) with true in Hd by (symmetry; apply Z.ltb_lt; lia).
    cbn [app] in Hd.
    destruct (op_run_drop_cons _ _ _ _ _ Hd) as (en & He & Ho & Hr & Hd').
    destruct (Z.eq_dec q 0) as [-> | Hq0].
    + rewrite (m_loop_take_all oro mdo p rdoff xs en He) by lia.
      rewrite Ho, Hr. cbn [Z.eqb]. rewrite m_loop_done by lia.
      rewrite Z.add_0_r, size_t_iters_small by lia.
      eexists _, _, _. split; [reflexivity|].
      rewrite (Hm 0). cbn. exact Hd'.
    + rewrite (m_loop_take_part oro mdo p rdoff xs en He) by lia.
      rewrite size_t_iters_small by lia.
      eexists _, _, _. split; [reflexivity|].
      rewrite (op_run_insert oro mdo en _ T He Hd'), (Hm 0), Ho, Hr.
      unfold flush_match.
      replace (0 <? 0 + q) with true by (symmetry; apply Z.ltb_lt; lia).
      cbn [app]. do 2 f_equal. lia.
  - inversion HB as [|? ? [Hc Hr] HB']; subst. cbn [fst snd] in Hc, Hr.
    pose proof (sum_runs_nonneg B (eq_x_runs_pos B HB')) as HsB.
    cbn [sum_runs fold_right snd] in *. fold (sum_runs B) in *.
    cbn [app mdz_runs] in Hd.
    cbn [expand flat_map fst snd]. fold (expand B).
    unfold is_eq_x in Hc. apply orb_true_iff in Hc.
    destruct (ch_eqb c "=") eqn:Eeq.
    + apply ch_eqb_eq in Eeq. subst c.
      destruct (IH R (p + r) oro mdo rdoff xs HB' HR ltac:(lia) ltac:(lia) Hd)
        as (oro' & mdo' & rdoff' & Hm & HT).
      exists oro', mdo', rdoff'.
      rewrite Z.add_assoc, Hm. split; [|exact HT].
      rewrite Z2Nat.inj_add, repeat_app by lia.
      rewrite <- !app_assoc. reflexivity.
    + destruct Hc as [Hc|Hc]; [discriminate|].
      rewrite Hc in Hd. apply ch_eqb_eq in Hc. subst c.
      destruct (m_loop_flush oro mdo (p + (r + sum_runs B)) rdoff xs p _ Hd
                  Hp ltac:(lia) ltac:(lia))
        as (mdo1 & rdoff1 & Hm1 & Hd1).
      rewrite Hm1.
      destruct (m_loop_mismatches (Z.to_nat r) oro mdo1
                  (p + (r + sum_runs B) - p) rdoff1
                  (xs ++ repeat "="%char (Z.to_nat p)) _ Hd1 ltac:(lia))
        as (rdoff2 & Hm2 & Hd2).
      rewrite Hm2.
      replace (p + (r + sum_runs B) - p - Z.of_nat (Z.to_nat r))
        with (0 + sum_runs B) by lia.
      destruct (IH R 0 oro (mdo1 + Z.to_nat r)%nat rdoff2
                  ((xs ++ repeat "="%char (Z.to_nat p))
                   ++ repeat "X"%char (Z.to_nat r))
                  HB' HR ltac:(lia) ltac:(lia) Hd2)
        as (oro' & mdo' & rdoff' & Hm & HT).
      exists oro', mdo', rdoff'. rewrite Hm. split; [|exact HT].
      cbn [Z.to_nat repeat app]. rewrite <- !app_assoc. reflexivity.
Qed.

Lemma sum_runs_app B R : sum_runs (B ++ R) = sum_runs B + sum_runs R.
Proof.
  induction B as [|[c r] B IH]; cbn [app sum_runs fold_right snd];
    [reflexivity|].
  fold (sum_runs (B ++ R)). fold (sum_runs B). rewrite IH. lia.
Qed.

Lemma expand_app B R : expand (B ++ R) = expand B ++ expand R.
Proof. unfold expand. apply flat_map_app. Qed.

(** The [M] run that is pending when a run other than [=] and [X] is met, or
    at the end. *)
Lemma cigar_and_mdz_loop_flush B0 R P oro mdo rdoff xs :
  eq_x_runs B0 → pos_runs R → sum_runs B0 < 2 ^ 31 →
  drop mdo (op_run oro) = mdz_runs (B0 ++ R) 0 →
  ∃ oro1 mdo1 rdoff1,
    cigar_and_mdz_loop (map fst (flush_M (sum_runs B0) ++ P))
      (map snd (flush_M (sum_runs B0) ++ P)) oro mdo rdoff xs
    = cigar_and_mdz_loop (map fst P) (map snd P) oro1 mdo1 rdoff1
        (xs ++ expand B0)
    ∧ drop mdo1 (op_run oro1) = mdz_runs R 0.
Proof.
  intros HB HR Hmax Hd. unfold flush_M.
  destruct (0 <? sum_runs B0) eqn:Es.
  - destruct (m_loop_block B0 R 0 oro mdo rdoff xs HB HR ltac:(lia)
                ltac:(lia) Hd) as (oro' & mdo' & rdoff' & Hm & HT).
    exists oro', mdo', rdoff'. split; [|exact HT].
    cbn [app map fst snd cigar_and_mdz_loop].
    replace (ch_eqb "M" "X") with false by reflexivity.
    replace (ch_eqb "M" "=") with false by reflexivity.
    replace (ch_eqb "M" "M") with true by reflexivity.
    cbn [negb andb assert mbind result_bind].
    rewrite Z.add_0_l in Hm. rewrite Hm. reflexivity.
  - apply Z.ltb_ge in Es.
    assert (B0 = []).
    { destruct B0 as [|[c r] B0]; [reflexivity|]. exfalso.
      inversion HB as [|? ? [_ Hr] HB']; subst. cbn [snd] in Hr.
      pose proof (sum_runs_nonneg B0 (eq_x_runs_pos B0 HB')).
      cbn [sum_runs fold_right snd] in Es. fold (sum_runs B0) in Es. lia. }
    subst B0. exists oro, mdo, rdoff. cbn [app expand flat_map] in *.
    rewrite app_nil_r. split; [reflexivity | exact Hd].
Qed.

(** The reconciliation of the plain CIGAR with the MD:Z runs. *)
Lemma cigar_and_mdz_loop_plain ext : ∀ B0 oro mdo rdoff xs,
  Forall (fun cr => ext_op (fst cr) ∧ 0 < snd cr) ext →
  eq_x_runs B0 → sum_runs B0 + sum_runs ext < 2 ^ 31 →
  drop mdo (op_run oro) = mdz_runs (B0 ++ ext) 0 →
  ∃ oro' mdo' rdoff',
    cigar_and_mdz_loop (map fst (plain_cigar ext (sum_runs B0)))
      (map snd (plain_cigar ext (sum_runs B0))) oro mdo rdoff xs
    = Ok (oro', mdo', rdoff', xs ++ expand B0 ++ expand ext)
    ∧ drop mdo' (op_run oro') = [].
Proof.
  induction ext as [|[c r] ext IH]; intros B0 oro mdo rdoff xs Hext HB Hmax Hd.
  - cbn [plain_cigar sum_runs fold_right] in *.
    destruct (cigar_and_mdz_loop_flush B0 [] [] oro mdo rdoff xs HB
                ltac:(constructor) ltac:(lia) Hd)
      as (oro1 & mdo1 & rdoff1 & Hm & HT).
    rewrite app_nil_r in Hm. rewrite Hm.
    exists oro1, mdo1, rdoff1. cbn [map cigar_and_mdz_loop expand flat_map].
    rewrite app_nil_r. split; [reflexivity | exact HT].
  - inversion Hext as [|? ? [Hc Hr] Hext']; subst. cbn [fst snd] in Hc, Hr.
    assert (Hpe : pos_runs ext).
    { eapply Forall_impl; [exact Hext'|]. intros cr [_ Hp]. exact Hp. }
    pose proof (sum_runs_nonneg ext Hpe) as Hse.
    pose proof (sum_runs_nonneg B0 (eq_x_runs_pos B0 HB)) as HsB.
    cbn [sum_runs fold_right snd] in Hmax. fold (sum_runs ext) in Hmax.
    cbn [plain_cigar].
    destruct (is_eq_x c) eqn:Ex.
    + assert (HB' : eq_x_runs (B0 ++ [(c, r)])).
      { apply Forall_app. split; [exact HB|].
        constructor; [|constructor]. split; assumption. }
      destruct (IH (B0 ++ [(c, r)]) oro mdo rdoff xs Hext' HB') as
        (oro' & mdo' & rdoff' & Hm & HT).
      { rewrite sum_runs_app. cbn [sum_runs fold_right snd]. lia. }
      { rewrite <- app_assoc. exact Hd. }
      rewrite sum_runs_app in Hm. cbn [sum_runs fold_right snd] in Hm.
      rewrite Z.add_0_r in Hm.
      exists oro', mdo', rdoff'. rewrite Hm. split; [|exact HT].
      change ((c, r) :: ext) with ([(c, r)] ++ ext).
      rewrite !expand_app, <- !app_assoc. reflexivity.
    + destruct (cigar_and_mdz_loop_flush B0 ((c, r) :: ext)
                  ((c, r) :: plain_cigar ext 0) oro mdo rdoff xs HB
                  ltac:(constructor; [exact Hr | exact Hpe]) ltac:(lia) Hd)
        as (oro1 & mdo1 & rdoff1 & Hm & HT).
      rewrite Hm. clear Hm Hd.
      cbn [map fst snd cigar_and_mdz_loop].
      cbn [expand flat_map fst snd]. fold (expand ext).
      unfold is_eq_x in Ex. apply orb_false_iff in Ex. destruct Ex as [Ee Exx].
      rewrite Ee, Exx. cbn [negb andb assert mbind result_bind].
      cbn [mdz_runs] in HT. rewrite Ee, Exx in HT.
      unfold ext_op in Hc. cbn [In] in Hc.
      destruct Hc as [<-|[<-|[<-|[<-|[<-|[<-|[]]]]]]];
        try discriminate.
      * (* I *)
        replace (ch_eqb "I" "M") with false by reflexivity.
        replace (ch_eqb "I" "I") with true by reflexivity.
        replace (ch_eqb "I" "D") with false in HT by reflexivity.
        destruct (IH [] oro1 mdo1 (wrap64 (rdoff1 + r))
                    ((xs ++ expand B0) ++ repeat "I"%char (size_t_iters r))
                    Hext' ltac:(constructor)
                    ltac:(cbn [sum_runs fold_right]; lia) HT)
          as (oro' & mdo' & rdoff' & Hm & HT').
        cbn [sum_runs fold_right] in Hm.
        exists oro', mdo', rdoff'. rewrite Hm. split; [|exact HT'].
        rewrite size_t_iters_small by lia.
        cbn [expand flat_map app]. rewrite <- !app_assoc. reflexivity.
      * (* D *)
        replace (ch_eqb "D" "M") with false by reflexivity.
        replace (ch_eqb "D" "I") with false by reflexivity.
        replace (ch_eqb "D" "D") with true by reflexivity.
        replace (ch_eqb "D" "D") with true in HT by reflexivity.
        cbn [flush_match Z.ltb Z.compare app] in HT.
        destruct (op_run_drop_cons _ _ _ _ _ HT) as (en & He & Ho & Hrn & Hd').
        rewrite He, Ho, Hrn, Z.eqb_refl.
        cbn [Z.eqb Pos.eqb assert mbind result_bind].
        destruct (IH [] oro1 (S mdo1) rdoff1
                    ((xs ++ expand B0) ++ repeat "D"%char (size_t_iters r))
                    Hext' ltac:(constructor)
                    ltac:(cbn [sum_runs fold_right]; lia) Hd')
          as (oro' & mdo' & rdoff' & Hm & HT').
        cbn [sum_runs fold_right] in Hm.
        exists oro', mdo', rdoff'. rewrite Hm. split; [|exact HT'].
        rewrite size_t_iters_small by lia.
        cbn [expand flat_map app]. rewrite <- !app_assoc. reflexivity.
      * (* N *)
        replace (ch_eqb "N" "M") with false by reflexivity.
        replace (ch_eqb "N" "I") with false by reflexivity.
        replace (ch_eqb "N" "D") with false by reflexivity.
        replace (ch_eqb "N" "N") with true by reflexivity.
        replace (ch_eqb "N" "D") with false in HT by reflexivity.
        destruct (IH [] oro1 mdo1 rdoff1
                    ((xs ++ expand B0) ++ repeat "N"%char (size_t_iters r))
                    Hext' ltac:(constructor)
                    ltac:(cbn [sum_runs fold_right]; lia) HT)
          as (oro' & mdo' & rdoff' & Hm & HT').
        cbn [sum_runs fold_right] in Hm.
        exists oro', mdo', rdoff'. rewrite Hm. split; [|exact HT'].
        rewrite size_t_iters_small by lia.
        cbn [expand flat_map app]. rewrite <- !app_assoc. reflexivity.
      * (* S *)
        replace (ch_eqb "S" "M") with false by reflexivity.
        replace (ch_eqb "S" "I") with false by reflexivity.
        replace (ch_eqb "S" "D") with false by reflexivity.
        replace (ch_eqb "S" "N") with false by reflexivity.
        replace (ch_eqb "S" "S") with true by reflexivity.
        replace (ch_eqb "S" "D") with false in HT by reflexivity.
        destruct (IH [] oro1 mdo1 (wrap64 (rdoff1 + r))
                    ((xs ++ expand B0) ++ repeat "S"%char (size_t_iters r))
                    Hext' ltac:(constructor)
                    ltac:(cbn [sum_runs fold_right]; lia) HT)
          as (oro' & mdo' & rdoff' & Hm & HT').
        cbn [sum_runs fold_right] in Hm.
        exists oro', mdo', rdoff'. rewrite Hm. split; [|exact HT'].
        rewrite size_t_iters_small by lia.
        cbn [expand flat_map app]. rewrite <- !app_assoc. reflexivity.
Qed.

Lemma m_loop_cursor oro mdo runleft rdoff xs :
  ∀ oro' mdo' rdoff' xs',
  (mdo ≤ length oro)%nat →
  m_loop oro mdo runleft rdoff xs = Ok (oro', mdo', rdoff', xs') →
  (mdo' ≤ length oro')%nat.
Proof.
  funelim (m_loop oro mdo runleft rdoff xs).
  - intros ? ? ? ? Hle [= <- <- <- <-]. exact Hle.
  - intros ? ? ? ? Hle [= <- <- <- <-]. exact Hle.
  - discriminate.
  - intros oro' mdo' rdoff' xs'' Hle HH.
    destruct (op e =? 0); [|discriminate].
    eapply H; [|exact HH]. rewrite length_insert. exact Hle.
  - intros oro' mdo' rdoff' xs'' Hle HH.
    eapply H; [|exact HH]. pose proof (lookup_lt_Some _ _ _ He). lia.
Qed.

Lemma cigar_and_mdz_loop_cursor ops :
  ∀ runs oro mdo rdoff xs oro' mdo' rdoff' xs',
  (mdo ≤ length oro)%nat →
  cigar_and_mdz_loop ops runs oro mdo rdoff xs = Ok (oro', mdo', rdoff', xs') →
  (mdo' ≤ length oro')%nat.
Proof.
  induction ops as [|cop ops IH];
    intros runs oro mdo rdoff xs oro' mdo' rdoff' xs' Hle H;
    destruct runs as [|crun runs]; cbn [cigar_and_mdz_loop] in H;
    try discriminate; try (injection H as <- <- <- <-; exact Hle).
  binv H as [] Ha.
  destruct (ch_eqb cop "M").
  { binv H as [[[o1 m1] r1] x1] Hm.
    eapply IH; [|exact H]. eapply m_loop_cursor; eassumption. }
  destruct (ch_eqb cop "I"); [eapply IH; eassumption|].
  destruct (ch_eqb cop "D").
  { destruct (oro !! mdo) as [e|] eqn:He; [|discriminate].
    binv H as [] H1. binv H as [] H2. binv H as [] H3.
    eapply IH; [|exact H]. apply lookup_lt_Some in He. lia. }
  destruct (ch_eqb cop "N"); [eapply IH; eassumption|].
  destruct (ch_eqb cop "S"); [eapply IH; eassumption|].
  destruct (ch_eqb cop "H"); [|discriminate].
  eapply IH; eassumption.
Qed.

Lemma cigar_to_edit_xscript_loop_expand ext : ∀ xs,
  Forall (fun cr => ext_op (fst cr) ∧ 0 < snd cr) ext →
  cigar_to_edit_xscript_loop (map fst ext) (map snd ext) xs
  = Ok (xs ++ expand ext).
Proof.
  induction ext as [|[c r] ext IH]; intros xs Hext;
    cbn [map fst snd cigar_to_edit_xscript_loop expand flat_map].
  - rewrite app_nil_r. reflexivity.
  - inversion Hext as [|? ? [Hc Hr] Hext']; subst. cbn [fst snd] in Hc, Hr.
    fold (expand ext).
    assert (Hmp : negb (ch_eqb c "M") && negb (ch_eqb c "P") = true).
    { unfold ext_op in Hc. cbn [In] in Hc.
      destruct Hc as [<-|[<-|[<-|[<-|[<-|[<-|[]]]]]]]; reflexivity. }
    rewrite Hmp. cbn [assert mbind result_bind].
    rewrite IH by exact Hext'. rewrite <- app_assoc. reflexivity.
Qed.

(** Without hard clips the two paths write the same transcript: the runs of
    the alignment, one character per base. *)
Lemma hard_clip_free_paths_agree ext al1 al2 :
  wf_ext ext → extended_record al1 ext → plain_record al2 ext →
  ∃ a b, cigar_to_edit_xscript al1 = Ok a
         ∧ cigar_and_mdz_to_edit_xscript al2 = Ok b
         ∧ edit_xscript a = expand ext ++ [NUL]
         ∧ edit_xscript b = expand ext ++ [NUL].
Proof.
  intros [Hext Hmax] (Hx1 & Hn1 & Ho1 & Hr1) (Hx2 & Hn2 & Ho2 & Hr2 & Hmd).
  unfold cigar_to_edit_xscript, cigar_and_mdz_to_edit_xscript.
  rewrite Hx1, Hn1, Ho1, Hr1, Hx2, Hn2, Ho2, Hr2.
  cbn [negb assert is_nil mbind result_bind].
  rewrite (cigar_to_edit_xscript_loop_expand ext [] Hext).
  cbn [mbind result_bind app].
  destruct (cigar_and_mdz_loop_plain ext [] (mdz_oro al2) 0%nat 0 [] Hext
              ltac:(constructor) ltac:(cbn [sum_runs fold_right]; lia)
              ltac:(exact Hmd))
    as (oro' & mdo' & rdoff' & Hm & HT).
  cbn [sum_runs fold_right] in Hm.
  pose proof (cigar_and_mdz_loop_cursor _ _ _ _ _ _ _ _ _ _
                (Nat.le_0_l _) Hm) as Hle.
  rewrite Hm. cbn [mbind result_bind].
  assert (Hend : mdo' = length oro').
  { apply (f_equal (@length _)) in HT.
    rewrite length_drop in HT. unfold op_run in HT. rewrite length_map in HT.
    cbn [length] in HT. lia. }
  rewrite Hend, Nat.eqb_refl. cbn [assert mbind result_bind].
  eexists _, _. split; [reflexivity|]. split; [reflexivity|].
  cbn. split; reflexivity.
Qed.

(** C1, at one alignment in its two encodings, for every hard clip, and for
    every alignment without one.
    The specification drops hard clips from the transcript on both paths.
    The record with the extended CIGAR "2H3=" gets the transcript "HH===" on
    the direct path, the record with the CIGAR "2H3M" and MD:Z "3" gets "==="
    on the reconciliation path.  In general the direct path writes the
    operation of every run of positive length, so an [H] run puts [H] into
    the transcript, and the reconciliation path never writes [H]: whenever
    the extended CIGAR has a hard clip the two transcripts differ.
    For an alignment without hard clips, given by runs of positive length
    over [=], [X], [I], [D], [N] and [S], both paths return, the direct one
    on the extended CIGAR and the other on the plain CIGAR with the MD:Z
    runs of the alignment, and both write the runs out, one character per
    base. *)
Theorem direct_path_keeps_hard_clips :
  match parsed hard_clip_extended, parsed hard_clip_plain with
  | Ok a, Ok b =>
      cigar_equal_x a = true ∧ cigar_equal_x b = false
      ∧ edit_xscript a = chars "HH===" ++ [NUL]
      ∧ edit_xscript b = chars "===" ++ [NUL]
  | _, _ => False
  end
  ∧ (∀ al1 al2 a b (i : nat) r,
       cigar_to_edit_xscript al1 = Ok a →
       cigar_and_mdz_to_edit_xscript al2 = Ok b →
       cigar_ops al1 !! i = Some "H"%char → cigar_run al1 !! i = Some r →
       0 < r →
       In "H"%char (edit_xscript a) ∧ ¬ In "H"%char (edit_xscript b)
       ∧ edit_xscript a ≠ edit_xscript b)
  ∧ (∀ ext al1 al2,
       wf_ext ext → extended_record al1 ext → plain_record al2 ext →
       ∃ a b, cigar_to_edit_xscript al1 = Ok a
              ∧ cigar_and_mdz_to_edit_xscript al2 = Ok b
              ∧ edit_xscript a = expand ext ++ [NUL]
              ∧ edit_xscript b = edit_xscript a).
Proof.
  split; [vm_compute; repeat split; reflexivity|].
  split.
  - intros al1 al2 a b i r Ha Hb Hop Hrun Hpos.
    pose proof (direct_has_every_op al1 a i _ r Ha Hop Hrun Hpos) as Hin.
    pose proof (reconciled_has_no_H al2 b Hb) as Hnot.
    split; [exact Hin|]. split; [exact Hnot|].
    intros E. apply Hnot. rewrite <- E. exact Hin.
  - intros ext al1 al2 Hext H1 H2.
    destruct (hard_clip_free_paths_agree ext al1 al2 Hext H1 H2)
      as (a & b & Ha & Hb & Ea & Eb).
    exists a, b. rewrite Ea, Eb. repeat split; assumption.
Qed.

(** The two SAM records of the example alignment are parsed into the CIGAR
    runs and MD:Z runs that the specification derives from its runs, and
    both get the transcript of the runs. *)
Lemma example_records_parse :
  match parse_from_rname_on example_extended_sam,
        ('(al, fs) ← parse_from_rname_on example_plain_sam;
         '(_, al) ← parse_extra_loop fs false false None al; Ok al),
        parsed example_extended_sam, parsed example_plain_sam with
  | Ok (a0, _), Ok b0, Ok a, Ok b =>
      cigar_ops a0 = map fst example_ext ∧ cigar_run a0 = map snd example_ext
      ∧ cigar_ops b0 = map fst (plain_cigar example_ext 0)
      ∧ cigar_run b0 = map snd (plain_cigar example_ext 0)
      ∧ op_run (mdz_oro b0) = mdz_runs example_ext 0
      ∧ edit_xscript a = expand example_ext ++ [NUL]
      ∧ edit_xscript b = expand example_ext ++ [NUL]
  | _, _, _, _ => False
  end.
Proof. vm_compute. repeat split; reflexivity. Qed.

(** C1 for the records above, before their transcripts are built: the two
    with the hard clip get different transcripts, the two without get the
    same. *)
Lemma direct_path_keeps_hard_clips_witness :
  match cigar_to_edit_xscript hard_clip_direct_input,
        cigar_and_mdz_to_edit_xscript hard_clip_reconcile_input with
  | Ok a, Ok b => edit_xscript a ≠ edit_xscript b
  | _, _ => False
  end
  ∧ ∃ a b, cigar_to_edit_xscript example_extended_input = Ok a
           ∧ cigar_and_mdz_to_edit_xscript example_plain_input = Ok b
           ∧ edit_xscript a = expand example_ext ++ [NUL]
           ∧ edit_xscript b = edit_xscript a.
Proof.
  pose proof direct_path_keeps_hard_clips as (_ & T & U).
  split.
  - assert (Ha : ∃ a, cigar_to_edit_xscript hard_clip_direct_input = Ok a)
      by (vm_compute; eexists; reflexivity).
    assert (Hb : ∃ b, cigar_and_mdz_to_edit_xscript hard_clip_reconcile_input
                      = Ok b)
      by (vm_compute; eexists; reflexivity).
    destruct Ha as [a Ha]. destruct Hb as [b Hb]. rewrite Ha, Hb.
    specialize (T hard_clip_direct_input hard_clip_reconcile_input a b 0%nat 2
                  Ha Hb eq_refl eq_refl eq_refl).
    destruct T as (_ & _ & Hne). exact Hne.
  - apply (U example_ext).
    + split; [|reflexivity]. unfold example_ext, ext_op.
      repeat (constructor; [split; [cbn; auto 10 | reflexivity]|]).
      constructor.
    + repeat split; reflexivity.
    + repeat split; reflexivity.
Defined.

(** ** Quality sums (C3, C9) *)

Lemma wrap64_add_idem_l a b : wrap64 (wrap64 a + b) = wrap64 (a + b).
Proof. unfold wrap64. apply Zplus_mod_idemp_l. Qed.

Lemma qual_sum_app a b : qual_sum (a ++ b) = qual_sum a + qual_sum b.
Proof.
  unfold qual_sum. induction a as [|c a IH]; cbn [app fold_right]; [lia|].
  rewrite IH. lia.
Qed.

(** A stretch of the quality string that the test of the loop takes as
    clipped goes to the clipped sum, a stretch that it does not to the
    aligned sum. *)
Lemma calc_qual_loop_stretch (clipped : bool) seg : ∀ n i rest al tc ta,
  Forall (fun c => 33 ≤ char_to_int c) seg →
  (∀ k, (k < length seg)%nat →
        (i + Z.of_nat k <? wrap64 (left_clip al))
        || (wrap64 (len al - 1 - right_clip al) <=? i + Z.of_nat k)
        = clipped) →
  wrap64 tc = tc → wrap64 ta = ta →
  calc_qual_loop (length seg + n) i (seg ++ rest) al tc ta
  = calc_qual_loop n (i + Z.of_nat (length seg)) rest al
      (if clipped then wrap64 (tc + qual_sum seg) else tc)
      (if clipped then ta else wrap64 (ta + qual_sum seg)).
Proof.
  induction seg as [|c seg IH]; intros n i rest al tc ta Hq Hcl Htc Hta.
  - cbn [length app plus qual_sum fold_right Z.of_nat].
    rewrite !Z.add_0_r, Htc, Hta. destruct clipped; reflexivity.
  - inversion Hq as [|? ? Hc Hq']; subst.
    cbn [length app plus calc_qual_loop hd tl].
    apply Z.leb_le in Hc. rewrite Hc. cbn [assert mbind result_bind].
    pose proof (Hcl 0%nat ltac:(cbn; lia)) as H0.
    rewrite Z.add_0_r in H0. rewrite H0.
    assert (Hcl' : ∀ k, (k < length seg)%nat →
              (i + 1 + Z.of_nat k <? wrap64 (left_clip al))
              || (wrap64 (len al - 1 - right_clip al) <=? i + 1 + Z.of_nat k)
              = clipped).
    { intros k Hk. specialize (Hcl (S k) ltac:(cbn; lia)).
      replace (i + 1 + Z.of_nat k) with (i + Z.of_nat (S k)) by lia.
      exact Hcl. }
    replace (i + Z.of_nat (S (length seg)))
      with (i + 1 + Z.of_nat (length seg)) by lia.
    change (qual_sum (c :: seg)) with ((char_to_int c - 33) + qual_sum seg).
    destruct clipped.
    + rewrite (IH n (i + 1) rest al _ ta Hq' Hcl' (wrap64_idem _) Hta).
      rewrite wrap64_add_idem_l. do 2 f_equal. lia.
    + rewrite (IH n (i + 1) rest al tc _ Hq' Hcl' Htc (wrap64_idem _)).
      rewrite wrap64_add_idem_l. do 2 f_equal. lia.
Qed.

(** The sums of the loop, in general: the clipped sum takes one base more on
    the right than the record has clipped bases there. *)
Lemma calc_qual_loop_sums al :
  0 ≤ left_clip al → 0 ≤ right_clip al →
  len al = Z.of_nat (length (qual al)) →
  left_clip al + right_clip al < len al →
  len al < 2 ^ 64 →
  Forall (fun c => 33 ≤ char_to_int c) (qual al) →
  calc_qual_loop (Z.to_nat (len al)) 0 (qual al) al 0 0
  = Ok (wrap64 (spec_clipped_qual (Z.to_nat (left_clip al))
                  (Z.to_nat (right_clip al) + 1) (qual al)),
        wrap64 (spec_aligned_qual (Z.to_nat (left_clip al))
                  (Z.to_nat (right_clip al) + 1) (qual al))).
Proof.
  intros Hlc Hrc Hlen Hn Hmax Hq.
  set (lc := Z.to_nat (left_clip al)). set (rc := Z.to_nat (right_clip al)).
  set (q := qual al) in *.
  set (m := (length q - lc - (rc + 1))%nat).
  assert (Hsplit : q = take lc q ++ take m (drop lc q)
                       ++ drop (length q - (rc + 1)) q ++ []).
  { rewrite app_nil_r. rewrite <- (take_drop lc q) at 1. f_equal.
    rewrite <- (take_drop m (drop lc q)) at 1. f_equal.
    rewrite drop_drop. f_equal. unfold m. lia. }
  assert (HA : length (take lc q) = lc) by (rewrite length_take; lia).
  assert (HM : length (take m (drop lc q)) = m).
  { rewrite length_take, length_drop. unfold m. lia. }
  assert (HC : length (drop (length q - (rc + 1)) q) = (rc + 1)%nat).
  { rewrite length_drop. lia. }
  assert (Hw1 : wrap64 (left_clip al) = left_clip al).
  { unfold wrap64. apply Z.mod_small. lia. }
  assert (Hw2 : wrap64 (len al - 1 - right_clip al) = len al - 1 - right_clip al).
  { unfold wrap64. apply Z.mod_small. lia. }
  unfold spec_clipped_qual, spec_aligned_qual. fold q lc rc m.
  replace (length q - lc - (rc + 1))%nat with m by reflexivity.
  set (A := take lc q) in *. set (M := take m (drop lc q)) in *.
  set (C := drop (length q - (rc + 1)) q) in *.
  assert (HqA : Forall (fun c => 33 ≤ char_to_int c) A).
  { rewrite Hsplit in Hq. apply Forall_app in Hq. tauto. }
  assert (HqM : Forall (fun c => 33 ≤ char_to_int c) M).
  { rewrite Hsplit in Hq. apply Forall_app in Hq. destruct Hq as [_ Hq].
    apply Forall_app in Hq. tauto. }
  assert (HqC : Forall (fun c => 33 ≤ char_to_int c) C).
  { rewrite Hsplit, app_nil_r in Hq. apply Forall_app in Hq.
    destruct Hq as [_ Hq]. apply Forall_app in Hq. tauto. }
  replace (Z.to_nat (len al)) with (length A + (length M + (length C + 0)))%nat
    by lia.
  rewrite Hsplit at 1.
  rewrite (calc_qual_loop_stretch true A _ 0 _ al 0 0 HqA); try reflexivity.
  2:{ intros k Hk. rewrite Hw1, Hw2. apply orb_true_iff. left.
      apply Z.ltb_lt. lia. }
  rewrite (calc_qual_loop_stretch false M _ _ _ al _ 0 HqM);
    try reflexivity; try apply wrap64_idem.
  2:{ intros k Hk. rewrite Hw1, Hw2. apply orb_false_iff. split.
      - apply Z.ltb_ge. lia.
      - apply Z.leb_gt. unfold m in *. lia. }
  rewrite (calc_qual_loop_stretch true C _ _ _ al _ _ HqC);
    try apply wrap64_idem.
  2:{ intros k Hk. rewrite Hw1, Hw2. apply orb_true_iff. right.
      apply Z.leb_le. unfold m in *. lia. }
  cbn [calc_qual_loop]. rewrite wrap64_add_idem_l, !Z.add_0_l. reflexivity.
Qed.

Lemma calc_qual_averages_sums al :
  0 ≤ left_clip al → 0 ≤ right_clip al →
  len al = Z.of_nat (length (qual al)) →
  left_clip al + right_clip al < len al →
  len al < 2 ^ 64 →
  Forall (fun c => 33 ≤ char_to_int c) (qual al) →
  ∃ al', calc_qual_averages al = Ok al'
    ∧ tot_aligned_qual al'
      = wrap64 (spec_aligned_qual (Z.to_nat (left_clip al))
                  (Z.to_nat (right_clip al) + 1) (qual al))
    ∧ (1 < left_clip al + right_clip al →
       tot_clipped_qual al'
       = wrap64 (spec_clipped_qual (Z.to_nat (left_clip al))
                   (Z.to_nat (right_clip al) + 1) (qual al))).
Proof.
  intros Hlc Hrc Hlen Hn Hmax Hq.
  unfold calc_qual_averages.
  assert (Hw : wrap64 (left_clip al + right_clip al)
               = left_clip al + right_clip al).
  { unfold wrap64. apply Z.mod_small. lia. }
  rewrite Hw.
  replace (0 <? len al) with true by (symmetry; apply Z.ltb_lt; lia).
  replace (left_clip al + right_clip al <? len al) with true
    by (symmetry; apply Z.ltb_lt; lia).
  cbn [assert mbind result_bind].
  rewrite (calc_qual_loop_sums al Hlc Hrc Hlen Hn Hmax Hq).
  cbn [mbind result_bind].
  destruct (1 <? left_clip al + right_clip al) eqn:E.
  - eexists. split; [reflexivity|]. split; [reflexivity|].
    intros _. reflexivity.
  - eexists. split; [reflexivity|]. split; [reflexivity|].
    intros H. apply Z.ltb_ge in E. lia.
Qed.

(** C3, at a concrete record and in general.  The record "2S3M" with five
    bases of quality 40 has two clipped bases, so the specification asks for
    a clipped sum of 80 and an aligned sum of 120.  The loop of
    [calc_qual_averages] also takes the last base as clipped
    ([i >= len - 1 - right_clip]) and returns 120 and 80.  In general, for a
    record whose quality string has the length of the read and whose clips
    are shorter than the read, [calc_qual_averages] returns, the aligned sum
    is the one that the specification gives for a right clip that is one
    base longer, and so is the clipped sum when more than one base is
    clipped. *)
Theorem calc_qual_averages_counts_one_base_too_many :
  match parse_from_rname_on
          (unparsed "r" 0 1
             ["chr1"; "100"; "60"; "2S3M"; "*"; "0"; "0"; "ACGTA"; "IIIII";
              "MD:Z:3"; "ZT:Z:5"]%string)
  with
  | Ok (al', _) =>
      left_clip al' = 2 ∧ right_clip al' = 0 ∧ len al' = 5
      ∧ tot_clipped_qual al' = 120 ∧ tot_aligned_qual al' = 80
      ∧ spec_clipped_qual 2 0 (qual al') = 80
      ∧ spec_aligned_qual 2 0 (qual al') = 120
  | Err _ => False
  end
  ∧ (∀ al,
       0 ≤ left_clip al → 0 ≤ right_clip al →
       len al = Z.of_nat (length (qual al)) →
       left_clip al + right_clip al < len al →
       len al < 2 ^ 64 →
       Forall (fun c => 33 ≤ char_to_int c) (qual al) →
       ∃ al', calc_qual_averages al = Ok al'
         ∧ tot_aligned_qual al'
           = wrap64 (spec_aligned_qual (Z.to_nat (left_clip al))
                       (Z.to_nat (right_clip al) + 1) (qual al))
         ∧ (1 < left_clip al + right_clip al →
            tot_clipped_qual al'
            = wrap64 (spec_clipped_qual (Z.to_nat (left_clip al))
                        (Z.to_nat (right_clip al) + 1) (qual al)))).
Proof.
  split; [vm_compute; repeat split; reflexivity|].
  exact calc_qual_averages_sums.
Qed.

(** C3 for the record "2S3M" before its sums are taken. *)
Lemma calc_qual_averages_counts_one_base_too_many_witness :
  ∃ al', calc_qual_averages clipped_2S3M_input = Ok al'
    ∧ tot_aligned_qual al'
      = wrap64 (spec_aligned_qual (Z.to_nat (left_clip clipped_2S3M_input))
                  (Z.to_nat (right_clip clipped_2S3M_input) + 1)
                  (qual clipped_2S3M_input))
    ∧ (1 < left_clip clipped_2S3M_input + right_clip clipped_2S3M_input →
       tot_clipped_qual al'
       = wrap64 (spec_clipped_qual (Z.to_nat (left_clip clipped_2S3M_input))
                   (Z.to_nat (right_clip clipped_2S3M_input) + 1)
                   (qual clipped_2S3M_input))).
Proof.
  pose proof calc_qual_averages_counts_one_base_too_many as [_ T].
  apply (T clipped_2S3M_input); try reflexivity.
  - vm_compute. discriminate.
  - cbn. repeat (constructor; [vm_compute; discriminate|]). constructor.
Defined.

(** ** Fragment length (C4) *)

Lemma rpos_skip_clip k : ∀ c rest,
  c ≠ "S"%char → rpos_skip (repeat "S"%char k ++ c :: rest) = Ok rest.
Proof.
  induction k as [|k IH]; intros c rest Hc; cbn [repeat app rpos_skip].
  - rewrite (proj2 (ch_eqb_neq c "S") Hc). reflexivity.
  - replace (ch_eqb "S" "S") with true by reflexivity. apply IH. exact Hc.
Qed.

Lemma span_clip k : ∀ c rest,
  c ≠ "S"%char →
  span (fun x => ch_eqb x "S") (repeat "S"%char k ++ c :: rest)
  = (repeat "S"%char k, c :: rest).
Proof.
  induction k as [|k IH]; intros c rest Hc; cbn [repeat app span].
  - rewrite (proj2 (ch_eqb_neq c "S") Hc). reflexivity.
  - replace (ch_eqb "S" "S") with true by reflexivity.
    rewrite IH by exact Hc. reflexivity.
Qed.

Lemma rpos_count_body body : ∀ mv,
  ¬ In NUL body → ¬ In "N"%char body →
  rpos_count (body ++ [NUL]) mv
  = Ok (mv + Z.of_nat (length (List.filter takes_ref (body ++ [NUL])))).
Proof.
  induction body as [|c body IH]; intros mv Hnul HN; cbn [app rpos_count].
  - replace (ch_eqb NUL NUL) with true by reflexivity.
    cbn. rewrite Z.add_0_r. reflexivity.
  - rewrite (proj2 (ch_eqb_neq c NUL))
      by (intros ->; apply Hnul; left; reflexivity).
    rewrite IH;
      [| intros Hin; apply Hnul; right; exact Hin
       | intros Hin; apply HN; right; exact Hin].
    cbn [List.filter]. unfold takes_ref at 2.
    rewrite (proj2 (ch_eqb_neq c "N"))
      by (intros ->; apply HN; left; reflexivity).
    rewrite orb_false_r.
    replace (ch_eqb c "=" || ch_eqb c "X" || ch_eqb c "D" || ch_eqb c "S")
      with (ch_eqb c "S" || ch_eqb c "D" || ch_eqb c "X" || ch_eqb c "=")
      by (destruct (ch_eqb c "S"), (ch_eqb c "D"), (ch_eqb c "X"),
            (ch_eqb c "="); reflexivity).
    destruct (ch_eqb c "S" || ch_eqb c "D" || ch_eqb c "X" || ch_eqb c "=");
      cbn [length]; f_equal; lia.
Qed.

(** [rpos] in general: when the alignment starts, behind its leading clip,
    with a matched, mismatched or deleted base, that base is stepped over
    and the result is one below the rightmost position. *)
Lemma rpos_one_below al k c body :
  edit_xscript al = repeat "S"%char k ++ c :: body ++ [NUL] →
  c = "="%char ∨ c = "X"%char ∨ c = "D"%char →
  body ≠ [] → ¬ In NUL body → ¬ In "N"%char body →
  rpos al = Ok (wrap64 (spec_rightmost (pos al) (edit_xscript al) - 1)).
Proof.
  intros Hx Hc Hne Hnul HN.
  assert (HcS : c ≠ "S"%char) by (destruct Hc as [->|[->| ->]]; discriminate).
  unfold rpos, spec_rightmost. rewrite Hx.
  rewrite span_clip by exact HcS. cbn [snd].
  rewrite rpos_skip_clip by exact HcS.
  cbn [mbind result_bind].
  replace (is_nil (repeat "S"%char k ++ c :: body ++ [NUL])) with false
    by (destruct k; reflexivity).
  cbn [negb assert mbind result_bind].
  destruct body as [|b body]; [congruence|].
  cbn [app]. rewrite (proj2 (ch_eqb_neq b NUL))
    by (intros ->; apply Hnul; left; reflexivity).
  cbn [negb assert mbind result_bind].
  change (b :: body ++ [NUL]) with ((b :: body) ++ [NUL]).
  rewrite rpos_count_body by assumption. cbn [mbind result_bind].
  cbn [List.filter].
  replace (takes_ref c) with true
    by (destruct Hc as [->|[->| ->]]; reflexivity).
  cbn [length]. do 2 f_equal. lia.
Qed.

(** C4, at a concrete pair and in general.  Mate 1 lies at 100..102 and
    mate 2 at 200..202, so the fragment spans 100..202 and the specification
    asks for a length of 103.  [rpos] steps over the first character after
    the leading clip before it starts counting ([while( *xs++ == 'S');]),
    returns 201 for mate 2, and the record carries 102.  In general, for a
    transcript without reference skips that starts, behind its leading clip,
    with a matched, mismatched or deleted base and goes on after it, [rpos]
    returns one less than the rightmost reference position. *)
Theorem fragment_length_is_one_short :
  (let cfg := mkConfig (chars "!sim!") "!"%char 30 50000 true in
  match print_paired cfg
          (unparsed "r" 67 1
             ["chr1"; "100"; "60"; "3="; "="; "200"; "103"; "ACG"; "III";
              "ZT:Z:5"]%string)
          (unparsed "r" 131 2
             ["chr1"; "200"; "60"; "3="; "="; "100"; "-103"; "ACG"; "III";
              "ZT:Z:7"]%string)
  with
  | Ok (a1, a2, out) =>
      rpos a2 = Ok 201
      ∧ lpos a1 = Ok 100
      ∧ fragment_length a1 a2 = Ok 102
      ∧ out !! 10%nat = Some (DInt 102)
      ∧ out !! 24%nat = Some (DInt 102)
      ∧ spec_rightmost (pos a2) (edit_xscript a2) = 202
      ∧ spec_fragment_length (max_allowed_fraglen cfg) (pos a1) (left_clip a1)
          (pos a2) (edit_xscript a2) = 103
  | Err _ => False
  end)
  ∧ (∀ al (k : nat) c body,
       edit_xscript al = repeat "S"%char k ++ c :: body ++ [NUL] →
       c = "="%char ∨ c = "X"%char ∨ c = "D"%char →
       body ≠ [] → ¬ In NUL body → ¬ In "N"%char body →
       rpos al = Ok (wrap64 (spec_rightmost (pos al) (edit_xscript al) - 1))).
Proof.
  split; [vm_compute; repeat split; reflexivity|].
  exact rpos_one_below.
Qed.

(** C4 for a record with the transcript "===" at position 200. *)
Lemma fragment_length_is_one_short_witness :
  rpos three_matches_at_200
  = Ok (wrap64 (spec_rightmost (pos three_matches_at_200)
                  (edit_xscript three_matches_at_200) - 1)).
Proof.
  pose proof fragment_length_is_one_short as [_ T].
  apply (T three_matches_at_200 0%nat "="%char (chars "==")).
  - reflexivity.
  - left. reflexivity.
  - discriminate.
  - intros [H|[H|[]]]; discriminate.
  - intros [H|[H|[]]]; discriminate.
Defined.

(** ** Illegal CIGAR shapes (C6) *)

Lemma cigar_to_edit_xscript_loop_M_or_P ops runs xs i c :
  ops !! i = Some c → (i < length runs)%nat →
  c = "M"%char ∨ c = "P"%char →
  cigar_to_edit_xscript_loop ops runs xs = Err AssertFailed.
Proof.
  revert runs xs i.
  induction ops as [|cop ops IH]; intros runs xs i Hi Hlt Hc;
    [discriminate|].
  destruct runs as [|crun runs]; [simpl in Hlt; lia|].
  simpl.
  destruct i as [|i]; simpl in Hi.
  - injection Hi as ->.
    destruct Hc as [-> | ->]; reflexivity.
  - destruct (negb (ch_eqb cop "M") && negb (ch_eqb cop "P")); simpl;
      [|reflexivity].
    apply (IH runs _ i Hi); [simpl in Hlt; lia | exact Hc].
Qed.

Lemma cigar_and_mdz_loop_app ops1 runs1 ops2 runs2 oro mdo rdoff xs :
  length ops1 = length runs1 →
  cigar_and_mdz_loop (ops1 ++ ops2) (runs1 ++ runs2) oro mdo rdoff xs =
  cigar_and_mdz_loop ops1 runs1 oro mdo rdoff xs ≫=
    (λ '(oro', mdo', rdoff', xs'),
       cigar_and_mdz_loop ops2 runs2 oro' mdo' rdoff' xs').
Proof.
  revert runs1 oro mdo rdoff xs.
  induction ops1 as [|cop ops1 IH]; intros [|crun runs1] oro mdo rdoff xs Hlen;
    try discriminate; [reflexivity|].
  injection Hlen as Hlen. simpl.
  destruct (negb (ch_eqb cop "X") && negb (ch_eqb cop "=")); simpl;
    [|reflexivity].
  destruct (ch_eqb cop "M").
  { destruct (m_loop oro mdo crun rdoff xs) as [[[[o m] r] x]|f]; simpl;
      [apply IH; exact Hlen | reflexivity]. }
  destruct (ch_eqb cop "I"); [apply IH; exact Hlen|].
  destruct (ch_eqb cop "D").
  { destruct (oro !! mdo) as [e|]; [|reflexivity].
    destruct (op e =? 2); simpl; [|reflexivity].
    destruct (crun =? run e); simpl; [|reflexivity].
    destruct (run e =? crun); simpl; [|reflexivity].
    apply IH; exact Hlen. }
  destruct (ch_eqb cop "N"); [apply IH; exact Hlen|].
  destruct (ch_eqb cop "S"); [apply IH; exact Hlen|].
  destruct (ch_eqb cop "H"); [apply IH; exact Hlen|].
  reflexivity.
Qed.

Lemma cigar_and_mdz_loop_D_mismatch ops runs crun oro mdo rdoff xs e :
  oro !! mdo = Some e → run e ≠ crun →
  cigar_and_mdz_loop ("D"%char :: ops) (crun :: runs) oro mdo rdoff xs
  = Err AssertFailed.
Proof.
  intros He Hne. simpl. rewrite He.
  destruct (op e =? 2); simpl; [|reflexivity].
  destruct (Z.eqb_spec crun (run e)) as [Heq|_]; simpl; [|reflexivity].
  congruence.
Qed.

(** C6.  Building the transcript stops on a failed assertion, and the run
    with it, (1) in the direct path when some CIGAR operation is [M] or [P],
    and (2) in the reconciliation path when a [D] run is reached whose
    length differs from the length of the MD:Z run under the cursor; when an
    earlier operation has already failed, the construction has failed too. *)
Theorem illegal_cigar_shape_is_fatal :
  (∀ al i c,
      cigar_equal_x al = true → edit_xscript al = [] →
      cigar_ops al !! i = Some c → (i < length (cigar_run al))%nat →
      c = "M"%char ∨ c = "P"%char →
      cigar_to_edit_xscript al = Err AssertFailed)
  ∧
  (∀ al ops1 runs1 crun ops2 runs2,
      cigar_equal_x al = false → edit_xscript al = [] →
      cigar_ops al = ops1 ++ "D"%char :: ops2 →
      cigar_run al = runs1 ++ crun :: runs2 →
      length ops1 = length runs1 →
      (∀ oro mdo rdoff xs,
          cigar_and_mdz_loop ops1 runs1 (mdz_oro al) 0%nat 0 [] =
            Ok (oro, mdo, rdoff, xs) →
          ∃ e, oro !! mdo = Some e ∧ op e = 2 ∧ run e ≠ crun) →
      (∃ f, cigar_and_mdz_to_edit_xscript al = Err f)
      ∧ (is_ok (cigar_and_mdz_loop ops1 runs1 (mdz_oro al) 0%nat 0 []) = true →
         cigar_and_mdz_to_edit_xscript al = Err AssertFailed)).
Proof.
  split.
  - intros al i c Heqx Hxs Hi Hlt Hc.
    unfold cigar_to_edit_xscript. rewrite Heqx, Hxs. simpl.
    rewrite (cigar_to_edit_xscript_loop_M_or_P _ _ _ i c Hi Hlt Hc).
    reflexivity.
  - intros al ops1 runs1 crun ops2 runs2 Heqx Hxs Hops Hruns Hlen Hnext.
    unfold cigar_and_mdz_to_edit_xscript.
    rewrite Heqx, Hxs, Hops, Hruns. simpl.
    rewrite (cigar_and_mdz_loop_app _ _ _ _ _ _ _ _ Hlen).
    destruct (cigar_and_mdz_loop ops1 runs1 (mdz_oro al) 0%nat 0 [])
      as [[[[oro mdo] rdoff] xs]|f] eqn:Hpre.
    + destruct (Hnext _ _ _ _ eq_refl) as (e & He & _ & Hne).
      cbn [mbind result_bind].
      rewrite (cigar_and_mdz_loop_D_mismatch _ _ _ _ _ _ _ e He Hne).
      split; [eexists|intros _]; reflexivity.
    + split; [eexists; reflexivity | discriminate].
Qed.

(** The hypotheses of C6 are met by the CIGAR "3=2M", and by the plain CIGAR
    "2D" against the MD:Z deletion "^A". *)
Lemma illegal_cigar_shape_is_fatal_witness :
  cigar_to_edit_xscript cigar_3eq_2M = Err AssertFailed
  ∧ cigar_and_mdz_to_edit_xscript cigar_2D_mdz_del1 = Err AssertFailed.
Proof.
  split.
  - refine (proj1 illegal_cigar_shape_is_fatal cigar_3eq_2M 1%nat "M"%char
              eq_refl eq_refl eq_refl _ (or_introl eq_refl)).
    simpl. lia.
  - refine (proj2 (proj2 illegal_cigar_shape_is_fatal cigar_2D_mdz_del1
                     [] [] 2 [] [] eq_refl eq_refl eq_refl eq_refl eq_refl _)
              eq_refl).
    intros oro mdo rdoff xs H. injection H as <- <- <- <-.
    eexists. split; [reflexivity|]. split; [reflexivity|]. simpl. lia.
Defined.

(** ** The steps of the two printers *)

(** The steps of a call of [parse_extra] that returns. *)
Lemma parse_extra_Ok_unfold al extra r :
  parse_extra al extra = Ok r →
  ('(ztz, al) ← parse_extra_loop extra false false None al;
   al ← (if is_some (cigar al) && is_some (mdz al) && negb (cigar_equal_x al)
         then cigar_and_mdz_to_edit_xscript al else Ok al);
   match ztz with
   | None => Err Thrown
   | Some z => Ok (z, al)
   end) = Ok r.
Proof.
  intros H. exact H.
Qed.

Lemma print_unpaired_inv cfg al ordlen al' out :
  print_unpaired cfg al ordlen = Ok (al', out) →
  ∃ alp extra alc ztz ale tok toks,
    is_aligned al = true
    ∧ parse_from_rname_on al = Ok (alp, extra)
    ∧ set_correctness (sim_startswith cfg) (sim_sep cfg) alp (wiggle cfg) = Ok alc
    ∧ parse_extra alc extra = Ok (ztz, ale)
    ∧ is_nil (edit_xscript ale) = false
    ∧ tokens "," ztz = tok :: toks
    ∧ al' = set_best_score (atoi tok) ale
    ∧ (if do_features cfg then
         ∃ vs, ztz_values (tok :: toks) = Ok vs
               ∧ out = [DInt (line al'); DInt (len al');
                        DInt (left_clip al' + right_clip al');
                        DInt (tot_aligned_qual al'); DInt (tot_clipped_qual al');
                        DInt ordlen]
                       ++ vs ++ [DInt (mapq al'); DInt (correct al')]
       else out = []).
Proof.
  unfold print_unpaired. intros H.
  bind_inv H. apply assert_Ok_inv in Ha.
  bind_inv H. destruct a0 as [alp extra].
  bind_inv H. rename a0 into alc.
  binv H as [] Hin.
  bind_inv H. destruct a0 as [ztz ale].
  destruct (is_nil (edit_xscript ale)) eqn:Hx; [discriminate|].
  destruct (tokens "," ztz) as [|tok toks] eqn:Ht; [discriminate|].
  exists alp, extra, alc, ztz, ale, tok, toks.
  do 6 (split; [assumption || reflexivity|]).
  destruct (do_features cfg).
  - bind_inv H. injection H as <- <-.
    split; [reflexivity|]. exists a0. split; [assumption | reflexivity].
  - injection H as <- <-. split; reflexivity.
Qed.

Lemma print_paired_helper_inv cfg al1 al2 al1' al2' out :
  print_paired_helper cfg al1 al2 = Ok (al1', al2', out) →
  ∃ alp1 extra1 alp2 extra2 alc1 alc2 ztz1 ale1 ztz2 ale2 fl tok1 toks1
    tok2 toks2,
    parse_from_rname_on al1 = Ok (alp1, extra1)
    ∧ parse_from_rname_on al2 = Ok (alp2, extra2)
    ∧ set_correctness (sim_startswith cfg) (sim_sep cfg) alp1 (wiggle cfg) = Ok alc1
    ∧ set_correctness (sim_startswith cfg) (sim_sep cfg) alp2 (wiggle cfg) = Ok alc2
    ∧ parse_extra alc1 extra1 = Ok (ztz1, ale1)
    ∧ parse_extra alc2 extra2 = Ok (ztz2, ale2)
    ∧ fragment_length ale1 ale2 = Ok fl
    ∧ tokens "," ztz1 = tok1 :: toks1
    ∧ tokens "," ztz2 = tok2 :: toks2
    ∧ al1' = set_best_score (atoi tok1) ale1
    ∧ al2' = set_best_score (atoi tok2) ale2
    ∧ (if do_features cfg then
         ∃ vs1 vs2,
           ztz_values (tok1 :: toks1) = Ok vs1
           ∧ ztz_values (tok2 :: toks2) = Ok vs2
           ∧ out =
               paired_layout al1' al2'
                 (Z.min (wrap64 (max_allowed_fraglen cfg)) fl) vs1 vs2
               ++ paired_layout al2' al1'
                    (Z.min (wrap64 (max_allowed_fraglen cfg)) fl) vs2 vs1
       else out = []).
Proof.
  unfold print_paired_helper. intros H.
  bind_inv H. bind_inv H.
  bind_inv H. destruct a1 as [alp1 extra1].
  bind_inv H. destruct a1 as [alp2 extra2].
  bind_inv H. rename a1 into alc1.
  bind_inv H. rename a1 into alc2.
  binv H as [] Hin1.
  bind_inv H. destruct a1 as [ztz1 ale1].
  destruct (is_nil (edit_xscript ale1)); [discriminate|].
  binv H as [] Hin2.
  bind_inv H. destruct a1 as [ztz2 ale2].
  bind_inv H. rename a1 into fl.
  bind_inv H. bind_inv H.
  destruct (tokens "," ztz1) as [|tok1 toks1] eqn:Ht1; [discriminate|].
  bind_inv H. rename a3 into vs1.
  destruct (tokens "," ztz2) as [|tok2 toks2] eqn:Ht2; [discriminate|].
  exists alp1, extra1, alp2, extra2, alc1, alc2, ztz1, ale1, ztz2, ale2, fl,
    tok1, toks1, tok2, toks2.
  do 9 (split; [assumption || reflexivity|]).
  destruct (do_features cfg).
  - bind_inv H. injection H as <- <- <-.
    split; [reflexivity|]. split; [reflexivity|].
    exists vs1, a3. split; [assumption|]. split; [assumption|].
    unfold paired_layout. simpl.
    repeat (rewrite <- app_assoc; simpl). reflexivity.
  - injection H as <- <- <-. repeat split; reflexivity.
Qed.

(** ** Which fields the parsing functions leave alone *)

Section Frame.

Context {T : Type} (p : Alignment → T).

Hypothesis p_left_clip : ∀ v al, p (set_left_clip v al) = p al.
Hypothesis p_right_clip : ∀ v al, p (set_right_clip v al) = p al.
Hypothesis p_cigar_equal_x : ∀ v al, p (set_cigar_equal_x v al) = p al.
Hypothesis p_cigar_run : ∀ v al, p (set_cigar_run v al) = p al.
Hypothesis p_cigar_ops : ∀ v al, p (set_cigar_ops v al) = p al.
Hypothesis p_edit_xscript : ∀ v al, p (set_edit_xscript v al) = p al.
Hypothesis p_mdz : ∀ v al, p (set_mdz v al) = p al.
Hypothesis p_mdz_oro : ∀ v al, p (set_mdz_oro v al) = p al.
Hypothesis p_mdz_char : ∀ v al, p (set_mdz_char v al) = p al.
Hypothesis p_tot_clipped_qual : ∀ v al, p (set_tot_clipped_qual v al) = p al.
Hypothesis p_tot_aligned_qual : ∀ v al, p (set_tot_aligned_qual v al) = p al.
Hypothesis p_avg_clipped_qual : ∀ v al, p (set_avg_clipped_qual v al) = p al.
Hypothesis p_avg_aligned_qual : ∀ v al, p (set_avg_aligned_qual v al) = p al.
Hypothesis p_rname : ∀ v al, p (set_rname v al) = p al.
Hypothesis p_pos : ∀ v al, p (set_pos v al) = p al.
Hypothesis p_mapq : ∀ v al, p (set_mapq v al) = p al.
Hypothesis p_cigar : ∀ v al, p (set_cigar v al) = p al.
Hypothesis p_rnext : ∀ v al, p (set_rnext v al) = p al.
Hypothesis p_pnext : ∀ v al, p (set_pnext v al) = p al.
Hypothesis p_seq : ∀ v al, p (set_seq v al) = p al.
Hypothesis p_len : ∀ v al, p (set_len v al) = p al.
Hypothesis p_qual : ∀ v al, p (set_qual v al) = p al.
Hypothesis p_rest_of_line : ∀ v al, p (set_rest_of_line v al) = p al.
Hypothesis p_correct : ∀ v al, p (set_correct v al) = p al.
Hypothesis p_best_score : ∀ v al, p (set_best_score v al) = p al.

Lemma cigar_to_edit_xscript_frame al al' :
  cigar_to_edit_xscript al = Ok al' → p al' = p al.
Proof using p_edit_xscript.
  unfold cigar_to_edit_xscript. intros H.
  bind_inv H. bind_inv H. bind_inv H.
  injection H as <-. apply p_edit_xscript.
Qed.

Lemma parse_cigar_loop_frame s r al al' :
  parse_cigar_loop s r al = Ok al' → p al' = p al.
Proof using p_left_clip p_right_clip p_cigar_equal_x p_cigar_run p_cigar_ops.
  revert r al.
  induction s as [|c s IH]; intros r al H; simpl in H.
  - destruct r; [discriminate|]. injection H as <-. reflexivity.
  - destruct r as [r|].
    + destruct (isdigit c); [exact (IH _ _ H)|].
      bind_inv H. apply IH in H. rewrite H.
      rewrite p_cigar_run, p_cigar_ops.
      destruct (ch_eqb c "X" || ch_eqb c "="); rewrite ?p_cigar_equal_x;
        destruct (is_nil (cigar_ops al) && ch_eqb c "S");
        rewrite ?p_left_clip; try reflexivity;
        destruct (is_nil s && ch_eqb c "S"); rewrite ?p_right_clip; reflexivity.
    + bind_inv H. exact (IH _ _ H).
Qed.

Lemma parse_cigar_frame al al' :
  parse_cigar al = Ok al' → p al' = p al.
Proof using p_left_clip p_right_clip p_cigar_equal_x p_cigar_run p_cigar_ops
  p_edit_xscript.
  unfold parse_cigar. intros H.
  bind_inv H. bind_inv H.
  destruct (cigar al) as [s|]; [|discriminate].
  bind_inv H. apply parse_cigar_loop_frame in Ha1.
  destruct (cigar_equal_x a1).
  - apply cigar_to_edit_xscript_frame in H. congruence.
  - injection H as <-. exact Ha1.
Qed.

Lemma calc_qual_averages_frame al al' :
  calc_qual_averages al = Ok al' → p al' = p al.
Proof using p_left_clip p_right_clip p_tot_clipped_qual p_tot_aligned_qual
  p_avg_clipped_qual p_avg_aligned_qual.
  unfold calc_qual_averages. intros H.
  bind_inv H. bind_inv H. bind_inv H. destruct a1 as [tc ta].
  destruct (1 <? wrap64 (left_clip al + right_clip al)); injection H as <-.
  - rewrite p_avg_clipped_qual, p_avg_aligned_qual, p_tot_aligned_qual,
      p_tot_clipped_qual. reflexivity.
  - rewrite p_right_clip, p_left_clip, p_tot_clipped_qual, p_avg_clipped_qual,
      p_avg_aligned_qual, p_tot_aligned_qual, p_tot_clipped_qual. reflexivity.
Qed.

Lemma parse_from_rname_on_frame al al' extra :
  parse_from_rname_on al = Ok (al', extra) → p al' = p al.
Proof using p_left_clip p_right_clip p_cigar_equal_x p_cigar_run p_cigar_ops
  p_edit_xscript p_tot_clipped_qual p_tot_aligned_qual p_avg_clipped_qual
  p_avg_aligned_qual p_rname p_pos p_mapq p_cigar p_rnext p_pnext p_seq p_len
  p_qual p_rest_of_line.
  unfold parse_from_rname_on. intros H.
  destruct (rest_of_line al) as [fs|]; [|discriminate].
  repeat (bind_inv H; try match goal with a : (_ * _)%type |- _ => destruct a end).
  injection H as <- <-.
  repeat match goal with
         | H : parse_cigar _ = Ok _ |- _ => apply parse_cigar_frame in H
         | H : calc_qual_averages _ = Ok _ |- _ =>
             apply calc_qual_averages_frame in H
         end.
  rewrite p_rest_of_line.
  repeat match goal with
         | H : p ?a = _ |- context [p ?a] => rewrite H
         end.
  rewrite ?p_qual, ?p_len, ?p_seq, ?p_pnext, ?p_rnext.
  repeat match goal with
         | H : p ?a = _ |- context [p ?a] => rewrite H
         end.
  rewrite ?p_cigar, ?p_mapq, ?p_pos, ?p_rname.
  reflexivity.
Qed.

Lemma set_correctness_frame ss sep al w al' :
  set_correctness ss sep al w = Ok al' → p al' = p al.
Proof using p_correct.
  unfold set_correctness.
  destruct (set_correctness_run ss sep al w) as [c [f|]]; [discriminate|].
  intros H. injection H as <-. apply p_correct.
Qed.

Lemma mdz_close_frame m al : p (mdz_close m al) = p al.
Proof using p_mdz_oro.
  destruct m; simpl; unfold push_oro; rewrite ?p_mdz_oro; try reflexivity.
  destruct (0 <? run0); rewrite ?p_mdz_oro; reflexivity.
Qed.

Lemma mdz_to_list_loop_frame s m al al' :
  mdz_to_list_loop s m al = Ok al' → p al' = p al.
Proof using p_mdz_oro p_mdz_char.
  revert m al.
  induction s as [|c s IH]; intros m al H; simpl in H.
  - injection H as <-. apply mdz_close_frame.
  - destruct (mdz_continues m c).
    + destruct m; simpl in H; apply IH in H; rewrite H, ?p_mdz_char;
        reflexivity.
    + bind_inv H. destruct a as [m' a']. apply IH in H. rewrite H.
      unfold mdz_open in Ha.
      destruct (isdigit c);
        [injection Ha as <- <-; apply mdz_close_frame|].
      destruct (isalpha c);
        [injection Ha as <- <-; rewrite p_mdz_char; apply mdz_close_frame|].
      destruct (ch_eqb c "^"); [|discriminate].
      injection Ha as <- <-. apply mdz_close_frame.
Qed.

Lemma mdz_to_list_frame al al' :
  mdz_to_list al = Ok al' → p al' = p al.
Proof using p_mdz_oro p_mdz_char.
  unfold mdz_to_list. intros H. bind_inv H. bind_inv H.
  destruct (mdz al); [|discriminate].
  exact (mdz_to_list_loop_frame _ _ _ _ H).
Qed.

Lemma cigar_and_mdz_to_edit_xscript_frame al al' :
  cigar_and_mdz_to_edit_xscript al = Ok al' → p al' = p al.
Proof using p_edit_xscript p_mdz_oro.
  unfold cigar_and_mdz_to_edit_xscript. intros H.
  bind_inv H. bind_inv H. bind_inv H.
  destruct a1 as [[[oro mdo] rdoff] xs].
  bind_inv H. injection H as <-.
  rewrite p_edit_xscript, p_mdz_oro. reflexivity.
Qed.

Lemma parse_extra_loop_frame toks fz fm ztz al ztz' al' :
  parse_extra_loop toks fz fm ztz al = Ok (ztz', al') → p al' = p al.
Proof using p_mdz p_mdz_oro p_mdz_char.
  revert fz fm ztz al.
  induction toks as [|t toks IH]; intros fz fm ztz al H;
    cbn [parse_extra_loop] in H.
  - injection H as <- <-. reflexivity.
  - destruct (is_nil t); [eapply IH; eassumption|].
    destruct (fm && fz); [injection H as <- <-; reflexivity|].
    destruct (starts_with (chars "MD:Z:") t); [|eapply IH; eassumption].
    bind_inv H. bind_inv H.
    apply IH in H. apply mdz_to_list_frame in Ha0.
    rewrite H, Ha0. apply p_mdz.
Qed.

Lemma parse_extra_frame al extra ztz al' :
  parse_extra al extra = Ok (ztz, al') → p al' = p al.
Proof using p_mdz p_mdz_oro p_mdz_char p_edit_xscript.
  unfold parse_extra. intros H.
  bind_inv H. destruct a as [z a1].
  apply parse_extra_loop_frame in Ha.
  bind_inv H.
  destruct z; [|discriminate]. injection H as <- <-.
  destruct (is_some (cigar a1) && is_some (mdz a1) && negb (cigar_equal_x a1)).
  - apply cigar_and_mdz_to_edit_xscript_frame in Ha0. congruence.
  - injection Ha0 as <-. exact Ha.
Qed.

Lemma print_unpaired_frame cfg al ordlen al' out :
  print_unpaired cfg al ordlen = Ok (al', out) → p al' = p al.
Proof using p_left_clip p_right_clip p_cigar_equal_x p_cigar_run p_cigar_ops
  p_edit_xscript p_tot_clipped_qual p_tot_aligned_qual p_avg_clipped_qual
  p_avg_aligned_qual p_rname p_pos p_mapq p_cigar p_rnext p_pnext p_seq p_len
  p_qual p_rest_of_line p_mdz p_mdz_oro p_mdz_char p_correct p_best_score.
  intros H. apply print_unpaired_inv in H.
  destruct H as (alp & extra & alc & ztz & ale & tok & toks
                 & _ & H1 & H2 & H3 & _ & _ & -> & _).
  apply parse_from_rname_on_frame in H1.
  apply set_correctness_frame in H2.
  apply parse_extra_frame in H3.
  rewrite p_best_score. congruence.
Qed.

Lemma print_paired_helper_frame cfg al1 al2 al1' al2' out :
  print_paired_helper cfg al1 al2 = Ok (al1', al2', out) →
  p al1' = p al1 ∧ p al2' = p al2.
Proof using p_left_clip p_right_clip p_cigar_equal_x p_cigar_run p_cigar_ops
  p_edit_xscript p_tot_clipped_qual p_tot_aligned_qual p_avg_clipped_qual
  p_avg_aligned_qual p_rname p_pos p_mapq p_cigar p_rnext p_pnext p_seq p_len
  p_qual p_rest_of_line p_mdz p_mdz_oro p_mdz_char p_correct p_best_score.
  intros H. apply print_paired_helper_inv in H.
  destruct H as (alp1 & extra1 & alp2 & extra2 & alc1 & alc2 & ztz1 & ale1
                 & ztz2 & ale2 & fl & tok1 & toks1 & tok2 & toks2
                 & H1 & H2 & H3 & H4 & H5 & H6 & _ & _ & _ & -> & -> & _).
  apply parse_from_rname_on_frame in H1, H2.
  apply set_correctness_frame in H3, H4.
  apply parse_extra_frame in H5, H6.
  rewrite !p_best_score. split; congruence.
Qed.

Lemma print_paired_frame cfg al1 al2 al1' al2' out :
  print_paired cfg al1 al2 = Ok (al1', al2', out) →
  p al1' = p al1 ∧ p al2' = p al2.
Proof using p_left_clip p_right_clip p_cigar_equal_x p_cigar_run p_cigar_ops
  p_edit_xscript p_tot_clipped_qual p_tot_aligned_qual p_avg_clipped_qual
  p_avg_aligned_qual p_rname p_pos p_mapq p_cigar p_rnext p_pnext p_seq p_len
  p_qual p_rest_of_line p_mdz p_mdz_oro p_mdz_char p_correct p_best_score.
  unfold print_paired. intros H.
  destruct (line al1 <? line al2).
  - exact (print_paired_helper_frame _ _ _ _ _ _ H).
  - bind_inv H. destruct a as [[a2 a1] o]. injection H as <- <- <-.
    apply print_paired_helper_frame in Ha. tauto.
Qed.

End Frame.

(** The printers leave [valid], [qname], [typ], [flag] and [line] alone. *)
Lemma print_unpaired_head cfg al ordlen al' out :
  print_unpaired cfg al ordlen = Ok (al', out) →
  head_fields al' = head_fields al.
Proof. apply print_unpaired_frame; reflexivity. Qed.

Lemma print_paired_head cfg al1 al2 al1' al2' out :
  print_paired cfg al1 al2 = Ok (al1', al2', out) →
  head_fields al1' = head_fields al1 ∧ head_fields al2' = head_fields al2.
Proof. apply print_paired_frame; reflexivity. Qed.

Lemma head_fields_valid a b : head_fields a = head_fields b → valid a = valid b.
Proof. unfold head_fields. congruence. Qed.

(** ** Pairing order (C7) *)

Lemma pending_slots_next_state st x y c u b cc d :
  pending_slots (next_state st x y c u b cc d)
  = ((if valid x then 1 else 0) + (if valid y then 1 else 0))%nat.
Proof.
  unfold pending_slots, next_state. simpl.
  destruct (st_al_cur1 st); lia.
Qed.

(** What the first half of the loop body establishes. *)
Lemma sam_pass1_mate_inv cfg st q fl fs cnt cur prev mated cnt' :
  sam_pass1_mate cfg st q fl fs cnt = Ok (cur, prev, mated, cnt') →
  valid (al_cur_of st) = false
  ∧ valid cur = false
  ∧ flag cur = fl
  ∧ line cur = nline cnt
  ∧ rest_of_line cur = Some fs
  ∧ prev = (if mated then set_valid false (al_prev_of st) else al_prev_of st)
  ∧ cnt' = (if mated then inc_npair cnt else cnt)
  ∧ mated = negb (ch_eqb (mate_flag_of fl) "0") && valid (al_prev_of st)
  ∧ (mated = true →
     mate_flag_of fl ≠ mate_flag (al_prev_of st)
     ∧ (mate_flag_of fl = "1"%char ∨ mate_flag_of fl = "2"%char)
     ∧ (mate_flag (al_prev_of st) = "1"%char
        ∨ mate_flag (al_prev_of st) = "2"%char)).
Proof.
  unfold sam_pass1_mate. intros H.
  binv H as [] Hfree. apply assert_Ok_inv in Hfree.
  apply negb_true_iff in Hfree.
  binv H as m Hmated.
  binv H as pfx Hpfx.
  binv H as a1 Htyp. injection H as <- <- <- <-.
  rename Hfree into Ha, Hmated into Ha0, Htyp into Ha2.
  unfold mate_flag in Ha0. cbn [flag set_line set_flag] in Ha0.
  assert (Hm : m = negb (ch_eqb (mate_flag_of fl) "0") && valid (al_prev_of st)
               ∧ (m = true →
                  mate_flag_of fl ≠ mate_flag_of (flag (al_prev_of st))
                  ∧ (mate_flag_of fl = "1"%char ∨ mate_flag_of fl = "2"%char)
                  ∧ (mate_flag_of (flag (al_prev_of st)) = "1"%char
                     ∨ mate_flag_of (flag (al_prev_of st)) = "2"%char))).
  { destruct (negb (ch_eqb (mate_flag_of fl) "0") && valid (al_prev_of st));
      [|injection Ha0 as <-; split; [reflexivity | discriminate]].
    destruct (ch_eqb (mate_flag_of fl) "1") eqn:E1.
    - destruct (ch_eqb (mate_flag_of (flag (al_prev_of st))) "2") eqn:E2;
        simpl in Ha0; [|discriminate].
      injection Ha0 as <-. apply ch_eqb_eq in E1, E2.
      split; [reflexivity|]. intros _. rewrite E1, E2.
      split; [discriminate | split; [left | right]; reflexivity].
    - binv Ha0 as [] A2. binv Ha0 as [] A3. injection Ha0 as <-.
      apply assert_Ok_inv in A2, A3. apply ch_eqb_eq in A2, A3.
      split; [reflexivity|]. intros _. rewrite A2, A3.
      split; [discriminate | split; [right | left]; reflexivity]. }
  destruct Hm as [Hm1 Hm2].
  assert (Hcur : ∀ (P : Alignment → Prop),
             (∀ t a, P a → P (set_typ t a)) →
             P (if m then
                  set_valid false
                    (set_line (nline cnt)
                       (set_flag fl
                          (set_qname (q ++ [NUL])
                             (set_rest_of_line (Some fs) (clear (al_cur_of st))))))
                else
                  set_line (nline cnt)
                    (set_flag fl
                       (set_qname (q ++ [NUL])
                          (set_rest_of_line (Some fs) (clear (al_cur_of st)))))) →
             P a1).
  { intros P HP HP0. destruct pfx.
    - binv Ha2 as [] B1. binv Ha2 as t B2. binv Ha2 as [] B3.
      injection Ha2 as <-. apply HP. exact HP0.
    - injection Ha2 as <-. exact HP0. }
  split; [exact Ha|].
  split; [apply (Hcur (λ a, valid a = false));
            [intros ? ? HH; exact HH | destruct m; reflexivity]|].
  split; [apply (Hcur (λ a, flag a = fl));
            [intros ? ? HH; exact HH | destruct m; reflexivity]|].
  split; [apply (Hcur (λ a, line a = nline cnt));
            [intros ? ? HH; exact HH | destruct m; reflexivity]|].
  split; [apply (Hcur (λ a, rest_of_line a = Some fs));
            [intros ? ? HH; exact HH | destruct m; reflexivity]|].
  split; [reflexivity|]. split; [reflexivity|].
  split; [exact Hm1 | exact Hm2].
Qed.

(** Whatever [sam_pass1_classify] does with a record, at most one record is
    left waiting. *)
Lemma sam_pass1_classify_pending cfg st cur prev mated cnt st' :
  sam_pass1_classify cfg st cur prev mated cnt = Ok st' →
  valid cur = false →
  (mated = true → valid prev = false) →
  (mated = false → ch_eqb (mate_flag cur) "0" = false → valid prev = false) →
  (pending_slots st' ≤ 1)%nat.
Proof.
  unfold sam_pass1_classify. intros H Hc Hm Hn.
  destruct (ch_eqb (mate_flag cur) "0") eqn:E0.
  { destruct (negb (is_aligned cur)).
    - injection H as <-. rewrite pending_slots_next_state, Hc.
      destruct (valid prev); lia.
    - destruct (typ_null cur || typ_is cur 0 "u").
      + binv H as [] Hhead. bind_inv H. destruct a as [cur' out].
        injection H as <-.
        apply print_unpaired_head, head_fields_valid in Ha.
        rewrite pending_slots_next_state, Ha, Hc. destruct (valid prev); lia.
      + injection H as <-. rewrite pending_slots_next_state, Hc.
        destruct (valid prev); lia. }
  destruct mated.
  - specialize (Hm eq_refl).
    assert (Hback : ∀ m1 m2 cn u b c d,
               valid m1 = false → valid m2 = false →
               (pending_slots
                  (if ch_eqb (mate_flag cur) "1"
                   then next_state st m1 m2 cn u b c d
                   else next_state st m2 m1 cn u b c d) ≤ 1)%nat).
    { intros m1 m2 cn u b c d H1 H2.
      destruct (ch_eqb (mate_flag cur) "1");
        rewrite pending_slots_next_state, H1, H2; lia. }
    assert (Hv1 : valid (if ch_eqb (mate_flag cur) "1" then cur else prev) = false)
      by (destruct (ch_eqb (mate_flag cur) "1"); assumption).
    assert (Hv2 : valid (if ch_eqb (mate_flag cur) "1" then prev else cur) = false)
      by (destruct (ch_eqb (mate_flag cur) "1"); assumption).
    set (mate1 := if ch_eqb (mate_flag cur) "1" then cur else prev) in *.
    set (mate2 := if ch_eqb (mate_flag cur) "1" then prev else cur) in *.
    destruct (negb (is_aligned mate1) && negb (is_aligned mate2)).
    { injection H as <-. apply Hback; assumption. }
    destruct (negb (Bool.eqb (is_aligned mate1) (is_aligned mate2))).
    { destruct (typ_null _ || _).
      - binv H as [] Hhead. bind_inv H. bind_inv H. destruct a0 as [alm out].
        injection H as <-.
        apply print_unpaired_head, head_fields_valid in Ha0.
        apply Hback; destruct (is_aligned mate1); congruence.
      - injection H as <-. apply Hback; assumption. }
    bind_inv H.
    destruct (is_concordant mate1).
    + destruct (typ_null mate1 || typ_is mate1 0 "c").
      * binv H as [] Hhead. bind_inv H. destruct a0 as [[m1 m2] out].
        injection H as <-.
        apply print_paired_head in Ha0. destruct Ha0 as [H1 H2].
        apply head_fields_valid in H1, H2. apply Hback; congruence.
      * injection H as <-. apply Hback; assumption.
    + destruct (typ_null mate1 || typ_is mate1 0 "d").
      * binv H as [] Hhead. bind_inv H. destruct a0 as [[m1 m2] out].
        injection H as <-.
        apply print_paired_head in Ha0. destruct Ha0 as [H1 H2].
        apply head_fields_valid in H1, H2. apply Hback; congruence.
      * injection H as <-. apply Hback; assumption.
  - bind_inv H. injection H as <-.
    rewrite pending_slots_next_state, (Hn eq_refl eq_refl). simpl. lia.
Qed.

Lemma sam_pass1_line_pending cfg st fields st' :
  sam_pass1_line cfg st fields = Ok st' →
  (pending_slots st ≤ 1)%nat → (pending_slots st' ≤ 1)%nat.
Proof.
  unfold sam_pass1_line. intros H Hinv.
  destruct (ch_eqb (hd NUL (hd [] fields)) "@"); [injection H as <-; exact Hinv|].
  bind_inv H. destruct a as [q fs].
  bind_inv H.
  bind_inv H. destruct a0 as [flag_str fs'].
  destruct (negb (Z.land (atoi flag_str) 256 =? 0));
    [injection H as <-; exact Hinv|].
  destruct (negb (Z.land (atoi flag_str) 2048 =? 0));
    [injection H as <-; exact Hinv|].
  bind_inv H. destruct a0 as [[[cur prev] mated] cnt].
  apply sam_pass1_mate_inv in Ha2.
  destruct Ha2 as (_ & Hc & Hfl & _ & _ & -> & _ & Hm & _).
  apply (sam_pass1_classify_pending _ _ _ _ _ _ _ H Hc).
  - intros ->. reflexivity.
  - intros -> E0. symmetry in Hm.
    unfold mate_flag in E0. rewrite Hfl in E0. rewrite E0 in Hm. simpl in Hm.
    exact Hm.
Qed.

Lemma sam_pass1_from_pending cfg lines st st' :
  sam_pass1_from cfg st lines = Ok st' →
  (pending_slots st ≤ 1)%nat → (pending_slots st' ≤ 1)%nat.
Proof.
  revert st.
  induction lines as [|l lines IH]; intros st H Hinv; simpl in H.
  - injection H as <-. exact Hinv.
  - bind_inv H. apply (IH _ H).
    exact (sam_pass1_line_pending _ _ _ _ Ha Hinv).
Qed.

Lemma strtok_cons (t : list ascii) fs : t ≠ [] → strtok (t :: fs) = Some (t, fs).
Proof. destruct t; [congruence | reflexivity]. Qed.

(** C7.  (1) When a record waits for its mate and the next primary record
    claims the same mate role, the run stops there: with the thrown
    ordering error for two first mates, on the assertion on the waiting
    record's role for two second mates (and on the assertion that the slot
    is free, should both slots be taken).  (2) At most one record waits at
    any time of a run. *)
Theorem same_mate_role_twice_is_fatal :
  (∀ cfg st qname_tok flag_str rest more,
      primary_line qname_tok flag_str →
      valid (al_prev_of st) = true →
      mate_flag_of (atoi flag_str) = mate_flag (al_prev_of st) →
      mate_flag_of (atoi flag_str) ≠ "0"%char →
      sam_pass1_from cfg st ((qname_tok :: flag_str :: rest) :: more)
      = Err (if valid (al_cur_of st) then AssertFailed
             else if ch_eqb (mate_flag_of (atoi flag_str)) "1" then Thrown
             else AssertFailed))
  ∧ (∀ cfg tc1 ta1 tc2 ta2 lines st,
        sam_pass1 cfg tc1 ta1 tc2 ta2 lines = Ok st →
        (pending_slots st ≤ 1)%nat).
Proof.
  split.
  - intros cfg st q fstr rest more (Hq & Hf & Hhd & H256 & H2048) Hv Hrole Hne.
    cbn [sam_pass1_from]. unfold sam_pass1_line.
    cbn [hd].
    apply ch_eqb_neq in Hhd. rewrite Hhd.
    unfold strtok_some. rewrite (strtok_cons _ _ Hq).
    cbn [mbind result_bind].
    destruct q as [|q0 q]; [congruence|]. cbn [is_nil negb assert].
    rewrite (strtok_cons _ _ Hf). cbn [mbind result_bind].
    rewrite H256, H2048. cbn [Z.eqb negb].
    unfold sam_pass1_mate.
    destruct (valid (al_cur_of st)); [reflexivity|].
    cbn [negb assert mbind result_bind].
    unfold mate_flag in *. cbn [flag set_line set_flag].
    apply ch_eqb_neq in Hne. rewrite Hne, Hv. cbn [negb andb].
    rewrite <- Hrole.
    destruct (ch_eqb (mate_flag_of (atoi fstr)) "1") eqn:E1.
    + apply ch_eqb_eq in E1. rewrite E1. reflexivity.
    + unfold mate_flag_of in *.
      destruct (negb (Z.land (atoi fstr) 64 =? 0)); [discriminate|].
      destruct (negb (Z.land (atoi fstr) 128 =? 0)); [reflexivity|discriminate].
  - intros cfg tc1 ta1 tc2 ta2 lines st H.
    apply (sam_pass1_from_pending _ _ _ _ H).
    unfold pending_slots, pass_init. simpl. lia.
Qed.

(** C7 at a concrete stream: a first mate, then a first mate again. *)
Lemma same_mate_role_twice_is_fatal_witness :
  sam_pass1_from example_cfg (state_after example_cfg [line_mate1])
    [sam_fields line_mate1] = Err Thrown
  ∧ (pending_slots (state_after example_cfg [line_mate1]) ≤ 1)%nat.
Proof.
  split.
  - apply (proj1 same_mate_role_twice_is_fatal example_cfg
             (state_after example_cfg [line_mate1])
             (chars "r1") (chars "65")
             (with_newline (map chars (drop 2 line_mate1))) []).
    + unfold primary_line. repeat split; vm_compute; congruence.
    + vm_compute. reflexivity.
    + vm_compute. reflexivity.
    + vm_compute. congruence.
  - apply (proj2 same_mate_role_twice_is_fatal example_cfg 0 0 0 0
             [sam_fields line_mate1]).
    vm_compute. reflexivity.
Defined.

(** ** Classification (C2) *)

Lemma settle_None st cur prev c :
  settle st cur prev c None []
  = next_state st cur prev c (st_orec_u st) (st_orec_b st) (st_orec_c st)
      (st_orec_d st).
Proof. reflexivity. Qed.





Lemma st_cnt_settle st cur prev c l out :
  st_cnt (settle st cur prev c l out) = c.
Proof. reflexivity. Qed.









Lemma sam_pass1_line_primary cfg st q fstr rest :
  primary_line q fstr →
  sam_pass1_line cfg st (q :: fstr :: rest)
  = sam_pass1_mate cfg st q (atoi fstr) rest (inc_nline (st_cnt st)) ≫=
      (λ '(al_cur, al_prev, mated, cnt),
         sam_pass1_classify cfg st al_cur al_prev mated cnt).
Proof.
  intros (Hq & Hf & Hhd & H256 & H2048).
  unfold sam_pass1_line. cbn [hd].
  apply ch_eqb_neq in Hhd. rewrite Hhd.
  unfold strtok_some. rewrite (strtok_cons _ _ Hq).
  cbn [mbind result_bind].
  destruct q as [|q0 q]; [congruence|]. cbn [is_nil negb assert].
  rewrite (strtok_cons _ _ Hf). cbn [mbind result_bind].
  rewrite H256, H2048. reflexivity.
Qed.




(** ** The clip sentinel (C9) *)

Lemma wrap64_small z : 0 ≤ z < 2 ^ 64 → wrap64 z = z.
Proof. intros H. unfold wrap64. apply Z.mod_small. exact H. Qed.

Lemma calc_qual_loop_ok n : ∀ i q al tc ta,
  (∀ k, (k < n)%nat → 33 ≤ char_to_int (nth k q NUL)) →
  ∃ tc' ta', calc_qual_loop n i q al tc ta = Ok (tc', ta').
Proof.
  induction n as [|n IH]; intros i q al tc ta Hq; simpl.
  - eauto.
  - assert (H0 : 33 ≤ char_to_int (hd NUL q)).
    { specialize (Hq 0%nat ltac:(lia)). destruct q; exact Hq. }
    apply Z.leb_le in H0. rewrite H0. cbn [assert mbind result_bind].
    assert (Htl : ∀ k, (k < n)%nat → 33 ≤ char_to_int (nth k (tl q) NUL)).
    { intros k Hk. specialize (Hq (S k) ltac:(lia)).
      destruct q; [destruct k|]; exact Hq. }
    destruct (_ || _); apply IH; exact Htl.
Qed.

(** The record after [calc_qual_averages] carries the sentinel only when the
    clip has been folded away. *)
Lemma calc_qual_averages_sentinel_inv al al' :
  calc_qual_averages al = Ok al' →
  avg_clipped_qual al' = DInt 100 →
  left_clip al' = 0 ∧ right_clip al' = 0 ∧ tot_clipped_qual al' = 0.
Proof.
  unfold calc_qual_averages. intros H Hs.
  binv H as [] H1. binv H as [] H2. binv H as [tc ta] H3.
  destruct (1 <? wrap64 (left_clip al + right_clip al)); injection H as <-.
  - discriminate.
  - repeat split.
Qed.

Lemma parse_from_rname_on_calc al al' extra :
  parse_from_rname_on al = Ok (al', extra) →
  ∃ x alq, calc_qual_averages x = Ok alq
           ∧ al' = set_rest_of_line (Some extra) alq.
Proof.
  unfold parse_from_rname_on. intros H.
  destruct (rest_of_line al) as [fs|]; [|discriminate].
  repeat (bind_inv H; try match goal with a : (_ * _)%type |- _ => destruct a end).
  injection H as <- <-. eauto.
Qed.

Lemma print_unpaired_clip_fields cfg al ordlen al' out :
  print_unpaired cfg al ordlen = Ok (al', out) →
  ∃ x alq, calc_qual_averages x = Ok alq ∧ clip_fields al' = clip_fields alq.
Proof.
  intros H. apply print_unpaired_inv in H.
  destruct H as (alp & extra & alc & ztz & ale & tok & toks
                 & _ & H1 & H2 & H3 & _ & _ & -> & _).
  apply parse_from_rname_on_calc in H1. destruct H1 as (x & alq & Hq & ->).
  exists x, alq. split; [exact Hq|].
  apply (set_correctness_frame clip_fields) in H2; [|reflexivity].
  apply (parse_extra_frame clip_fields) in H3; try reflexivity.
  change (clip_fields (set_best_score (atoi tok) ale)) with (clip_fields ale).
  rewrite H3, H2. reflexivity.
Qed.

(** C9, as the code has it.  (1) With a clip of at most one base,
    [calc_qual_averages] returns, sets the clipped average to the sentinel
    100.0, the clipped total to 0 and both clip lengths to 0.  (2) The
    feature record of an unpaired read holds the totals, not the averages:
    its column 4 is [tot_clipped_qual]; so a record that carries the
    sentinel reports clip length 0 and clipped quality 0 there. *)
Theorem negligible_clip_is_folded_away :
  (∀ al,
      0 ≤ left_clip al → 0 ≤ right_clip al →
      left_clip al + right_clip al ≤ 1 →
      left_clip al + right_clip al < len al →
      (∀ k, (k < Z.to_nat (len al))%nat → 33 ≤ char_to_int (nth k (qual al) NUL)) →
      ∃ al', calc_qual_averages al = Ok al'
             ∧ avg_clipped_qual al' = DInt 100
             ∧ tot_clipped_qual al' = 0
             ∧ left_clip al' = 0 ∧ right_clip al' = 0)
  ∧ (∀ cfg al ordlen al' out,
        do_features cfg = true →
        print_unpaired cfg al ordlen = Ok (al', out) →
        out !! 2%nat = Some (DInt (left_clip al' + right_clip al'))
        ∧ out !! 4%nat = Some (DInt (tot_clipped_qual al'))
        ∧ (avg_clipped_qual al' = DInt 100 →
           out !! 2%nat = Some (DInt 0) ∧ out !! 4%nat = Some (DInt 0))).
Proof.
  split.
  - intros al Hl Hr H1 Hlen Hq.
    unfold calc_qual_averages.
    assert (Hn : wrap64 (left_clip al + right_clip al)
                 = left_clip al + right_clip al)
      by (apply wrap64_small; lia).
    rewrite Hn.
    replace (0 <? len al) with true by (symmetry; apply Z.ltb_lt; lia).
    replace (left_clip al + right_clip al <? len al) with true
      by (symmetry; apply Z.ltb_lt; lia).
    cbn [assert mbind result_bind].
    destruct (calc_qual_loop_ok (Z.to_nat (len al)) 0 (qual al) al 0 0 Hq)
      as (tc & ta & Hloop).
    rewrite Hloop. cbn [mbind result_bind].
    replace (1 <? left_clip al + right_clip al) with false
      by (symmetry; apply Z.ltb_ge; lia).
    eexists. split; [reflexivity|]. repeat split.
  - intros cfg al ordlen al' out Hf Hp.
    pose proof (print_unpaired_clip_fields _ _ _ _ _ Hp) as (x & alq & Hq & Hc).
    apply print_unpaired_inv in Hp.
    destruct Hp as (alp & extra & alc & ztz & ale & tok & toks
                    & _ & _ & _ & _ & _ & _ & Hal' & Hout).
    rewrite Hf in Hout. destruct Hout as (vs & _ & ->).
    split; [reflexivity|]. split; [reflexivity|].
    intros Hs. unfold clip_fields in Hc.
    injection Hc as Hc1 Hc2 Hc3 Hc4.
    rewrite Hc4 in Hs.
    destruct (calc_qual_averages_sentinel_inv _ _ Hq Hs) as (Z1 & Z2 & Z3).
    cbn [lookup list_lookup app].
    rewrite Hc1, Hc2, Hc3, Z1, Z2, Z3. split; reflexivity.
Qed.

(** C9 at a concrete record: the read "1S9M" has one clipped base. *)
Lemma negligible_clip_is_folded_away_witness :
  (∃ al', calc_qual_averages
            (set_qual (chars "IIIIIIIIII")
               (set_len 10 (set_left_clip 1 (new_Alignment 0 0)))) = Ok al'
          ∧ avg_clipped_qual al' = DInt 100
          ∧ tot_clipped_qual al' = 0
          ∧ left_clip al' = 0 ∧ right_clip al' = 0)
  ∧ match print_unpaired example_cfg one_clipped_base 0 with
    | Ok (al', out) =>
        out !! 2%nat = Some (DInt (left_clip al' + right_clip al'))
        ∧ out !! 4%nat = Some (DInt (tot_clipped_qual al'))
        ∧ (avg_clipped_qual al' = DInt 100 →
           out !! 2%nat = Some (DInt 0) ∧ out !! 4%nat = Some (DInt 0))
    | Err _ => False
    end.
Proof.
  split.
  - apply (proj1 negligible_clip_is_folded_away).
    + simpl. lia.
    + simpl. lia.
    + simpl. lia.
    + simpl. lia.
    + intros k Hk. change (Z.to_nat (len _)) with 10%nat in Hk.
      do 10 (destruct k as [|k]; [vm_compute; congruence|]). lia.
  - destruct (print_unpaired example_cfg one_clipped_base 0)
      as [[al' out]|f] eqn:E.
    + exact (proj2 negligible_clip_is_folded_away example_cfg one_clipped_base
               0 al' out eq_refl E).
    + revert E. vm_compute. discriminate.
Defined.

(** The claim as it was stated fails at this record: the sentinel 100.0 is
    in the record, but the feature record holds 0 in its clipped-quality
    column, and 100.0 in none. *)
Lemma feature_record_has_no_clipped_average :
  match print_unpaired example_cfg one_clipped_base 0 with
  | Ok (al', out) =>
      avg_clipped_qual al' = DInt 100
      ∧ out !! 4%nat = Some (DInt 0)
      ∧ out !! 4%nat ≠ Some (DInt 100)
      ∧ ¬ In (DInt 100) out
  | Err _ => False
  end.
Proof.
  vm_compute.
  split; [reflexivity|]. split; [reflexivity|]. split; [discriminate|].
  intros H. repeat (destruct H as [H|H]; [discriminate|]). exact H.
Qed.

(** ** The layout of paired records (C5) *)

Lemma fragment_length_best_score x y a b :
  fragment_length (set_best_score x a) (set_best_score y b)
  = fragment_length a b.
Proof.
  unfold fragment_length.
  change (pos (set_best_score x a)) with (pos a).
  change (pos (set_best_score y b)) with (pos b).
  destruct (pos a <? pos b); reflexivity.
Qed.

Lemma print_paired_helper_reads cfg al1 al2 al1' al2' out :
  do_features cfg = true →
  print_paired_helper cfg al1 al2 = Ok (al1', al2', out) →
  ∃ fl vs1 vs2,
    reads_as cfg al1 al1' vs1 ∧ reads_as cfg al2 al2' vs2
    ∧ fragment_length al1' al2' = Ok fl
    ∧ out = paired_layout al1' al2'
              (Z.min (wrap64 (max_allowed_fraglen cfg)) fl) vs1 vs2
            ++ paired_layout al2' al1'
                 (Z.min (wrap64 (max_allowed_fraglen cfg)) fl) vs2 vs1.
Proof.
  intros Hf H. apply print_paired_helper_inv in H.
  destruct H as (alp1 & extra1 & alp2 & extra2 & alc1 & alc2 & ztz1 & ale1
                 & ztz2 & ale2 & fl & tok1 & toks1 & tok2 & toks2
                 & P1 & P2 & C1 & C2 & E1 & E2 & Hfl & T1 & T2 & -> & ->
                 & Hout).
  rewrite Hf in Hout. destruct Hout as (vs1 & vs2 & V1 & V2 & ->).
  exists fl, vs1, vs2.
  split.
  { exists alp1, extra1, alc1, ztz1, ale1. rewrite T1.
    repeat split; assumption || reflexivity. }
  split.
  { exists alp2, extra2, alc2, ztz2, ale2. rewrite T2.
    repeat split; assumption || reflexivity. }
  split; [rewrite fragment_length_best_score; exact Hfl | reflexivity].
Qed.

(** C5, as the code has it.  For a pair that is printed, the doubles written
    are two records: first the one of the mate that comes first in the SAM
    file (the smaller [line]), then the one of the other mate.  Each is laid
    out as [paired_layout] says: the columns of the mate itself and the
    values of the ZT:Z tag of its own line, then the columns of the other
    mate, the fragment length, and the values of the ZT:Z tag of the line of
    the other mate, then MAPQ and the label.  So the "other" columns of each
    record are the "own" columns of the other one, and both carry the same
    fragment length, [fragment_length] of the two mates in the order of the
    file, capped at [max_allowed_fraglen]. *)
Theorem paired_records_are_mirrored cfg a b a' b' out :
  do_features cfg = true →
  print_paired cfg a b = Ok (a', b', out) →
  line a' = line a ∧ line b' = line b
  ∧ ∃ fl za zb,
      reads_as cfg a a' za ∧ reads_as cfg b b' zb
      ∧ (if line a <? line b then fragment_length a' b'
         else fragment_length b' a') = Ok fl
      ∧ out = if line a <? line b
              then paired_layout a' b'
                     (Z.min (wrap64 (max_allowed_fraglen cfg)) fl) za zb
                   ++ paired_layout b' a'
                        (Z.min (wrap64 (max_allowed_fraglen cfg)) fl) zb za
              else paired_layout b' a'
                     (Z.min (wrap64 (max_allowed_fraglen cfg)) fl) zb za
                   ++ paired_layout a' b'
                        (Z.min (wrap64 (max_allowed_fraglen cfg)) fl) za zb.
Proof.
  intros Hf H.
  pose proof (print_paired_head _ _ _ _ _ _ H) as [Ha Hb].
  unfold head_fields in Ha, Hb.
  injection Ha as _ _ _ _ La. injection Hb as _ _ _ _ Lb.
  split; [exact La|]. split; [exact Lb|].
  unfold print_paired in H.
  destruct (line a <? line b).
  - destruct (print_paired_helper_reads _ _ _ _ _ _ Hf H)
      as (fl & vs1 & vs2 & R1 & R2 & Hfl & ->).
    exists fl, vs1, vs2. repeat split; assumption.
  - binv H as [[b0 a0] o] Hh. injection H as <- <- <-.
    destruct (print_paired_helper_reads _ _ _ _ _ _ Hf Hh)
      as (fl & vs1 & vs2 & R1 & R2 & Hfl & ->).
    exists fl, vs2, vs1. repeat split; assumption.
Qed.

(** C5 at the pair of the examples, read in the order mate 1, mate 2: the
    first record holds the ZT:Z values 5 and 1 of mate 1 in its own columns
    and 7 and 2 in its "other" columns, the second the other way round, and
    both hold the same fragment length, 111. *)
Lemma paired_records_are_mirrored_witness :
  match print_paired example_cfg
          (unparsed "r2" 67 1 (drop 2 line_conc1))
          (unparsed "r2" 131 2 (drop 2 line_conc2))
  with
  | Ok (a', b', out) =>
      out = paired_layout a' b' 111 [DInt 5; DInt 1] [DInt 7; DInt 2]
            ++ paired_layout b' a' 111 [DInt 7; DInt 2] [DInt 5; DInt 1]
  | Err _ => False
  end.
Proof.
  destruct (print_paired example_cfg (unparsed "r2" 67 1 (drop 2 line_conc1))
              (unparsed "r2" 131 2 (drop 2 line_conc2)))
    as [[[a' b'] out]|f] eqn:E.
  - destruct (paired_records_are_mirrored example_cfg _ _ a' b' out eq_refl E)
      as (_ & _ & fl & za & zb & Ra & Rb & Hfl & Hout).
    change (line (unparsed "r2" 67 1 (drop 2 line_conc1))
            <? line (unparsed "r2" 131 2 (drop 2 line_conc2)))
      with true in Hfl, Hout.
    cbv iota in Hfl, Hout.
    assert (Eza : za = [DInt 5; DInt 1]).
    { destruct Ra as (alp & extra & alc & ztz & ale & P & C & X & _ & V).
      revert P. vm_compute. intros P. injection P as <- <-.
      revert C. vm_compute. intros C. injection C as <-.
      revert X. vm_compute. intros X. injection X as <- <-.
      revert V. vm_compute. intros V. injection V as <-. reflexivity. }
    assert (Ezb : zb = [DInt 7; DInt 2]).
    { destruct Rb as (alp & extra & alc & ztz & ale & P & C & X & _ & V).
      revert P. vm_compute. intros P. injection P as <- <-.
      revert C. vm_compute. intros C. injection C as <-.
      revert X. vm_compute. intros X. injection X as <- <-.
      revert V. vm_compute. intros V. injection V as <-. reflexivity. }
    assert (Efl : fl = 111).
    { clear Ra Rb Hout. revert E. vm_compute. intros E. injection E as <- <- <-.
      revert Hfl. vm_compute. intros Hfl. injection Hfl as <-. reflexivity. }
    rewrite Hout, Efl, Eza, Ezb. reflexivity.
  - revert E. vm_compute. discriminate.
Defined.

(** The claim as it was stated fails when mate 2 comes first in the file:
    the first record written is then the one of mate 2 (line 1, MAPQ 50),
    the second the one of mate 1 (line 2, MAPQ 60). *)
Lemma mate2_record_first_when_read_first :
  match sam_pass1 example_cfg 0 0 0 0 (map sam_fields [line_conc2; line_conc1])
  with
  | Ok st =>
      mate_flag (st_al1 st) = "2"%char ∧ line (st_al1 st) = 1
      ∧ mate_flag (st_al2 st) = "1"%char ∧ line (st_al2 st) = 2
      ∧ length (st_orec_c st) = 32%nat
      ∧ st_orec_c st !! 0%nat = Some (DInt (line (st_al1 st)))
      ∧ st_orec_c st !! 14%nat = Some (DInt (mapq (st_al1 st)))
      ∧ st_orec_c st !! 16%nat = Some (DInt (line (st_al2 st)))
      ∧ st_orec_c st !! 30%nat = Some (DInt (mapq (st_al2 st)))
      ∧ st_orec_c st !! 0%nat ≠ Some (DInt (line (st_al2 st)))
  | Err _ => False
  end.
Proof.
  vm_compute. repeat split; try reflexivity. discriminate.
Qed.

(** ** The correctness oracle: which names are recognised *)

Lemma mem_strncmp_prefix ss : ∀ name after,
  ¬ In NUL name →
  mem_strncmp (name ++ NUL :: after) ss (strlen ss)
  = Ok (is_prefix (take (strlen ss) ss) name).
Proof.
  induction ss as [|c ss IH]; intros name after Hnul; simpl; [reflexivity|].
  destruct (ch_eqb c NUL) eqn:Ec; [reflexivity|].
  destruct name as [|a name]; simpl.
  - rewrite (proj2 (ch_eqb_neq NUL c)); [reflexivity|].
    apply ch_eqb_neq in Ec. congruence.
  - destruct (ch_eqb a c) eqn:Eca; simpl.
    2:{ destruct (ch_eqb c a) eqn:Eac; [|reflexivity].
        apply ch_eqb_eq in Eac. apply ch_eqb_neq in Eca. congruence. }
    apply ch_eqb_eq in Eca. subst a. rewrite ch_eqb_refl. simpl.
    rewrite (proj2 (ch_eqb_neq c NUL)) by (apply ch_eqb_neq; exact Ec).
    apply IH. intros Hin. apply Hnul. right. exact Hin.
Qed.

Lemma mem_strlen_name name after :
  ¬ In NUL name → mem_strlen (name ++ NUL :: after) = Ok (length name).
Proof.
  induction name as [|a name IH]; intros Hnul; simpl; [reflexivity|].
  rewrite (proj2 (ch_eqb_neq a NUL)).
  - rewrite IH; [reflexivity|]. intros Hin. apply Hnul. right. exact Hin.
  - intros ->. apply Hnul. left. reflexivity.
Qed.

Lemma count_char_cons x c s :
  count_char x (c :: s)
  = ((if ch_eqb c x then 1 else 0) + count_char x s)%nat.
Proof.
  unfold count_char. cbn [List.filter].
  destruct (ch_eqb c x); reflexivity.
Qed.

Lemma after_underscores_0 s : after_underscores 0 s = s.
Proof. destruct s; reflexivity. Qed.

Lemma count_und_colon_spec s : ∀ (k : nat) nund ncolon,
  (0 ≤ nund) → Z.to_nat (3 - nund) = k →
  count_und_colon s nund ncolon
  = (nund + Z.of_nat (count_char "_" s),
     ncolon + Z.of_nat (count_char ":" (after_underscores k s))).
Proof.
  induction s as [|c s IH]; intros k nund ncolon Hn Hk;
    cbn [count_und_colon].
  - unfold count_char. simpl. f_equal; lia.
  - rewrite (count_char_cons "_" c s).
    destruct (ch_eqb c "_") eqn:Eu.
    + rewrite (IH (Nat.pred k)) by lia.
      destruct k as [|k']; cbn [after_underscores Nat.pred].
      * rewrite after_underscores_0, count_char_cons.
        apply ch_eqb_eq in Eu. subst c.
        replace (ch_eqb "_" ":") with false by reflexivity.
        f_equal; lia.
      * rewrite Eu. f_equal; lia.
    + destruct (ch_eqb c ":") eqn:Ec; cbn [andb].
      * destruct (3 <=? nund) eqn:E3.
        -- apply Z.leb_le in E3.
           destruct k as [|k']; [|lia].
           rewrite (IH 0%nat) by lia.
           cbn [after_underscores]. rewrite after_underscores_0.
           rewrite (count_char_cons ":" c s), Ec. f_equal; lia.
        -- apply Z.leb_gt in E3.
           destruct k as [|k']; [lia|].
           rewrite (IH (S k')) by lia.
           cbn [after_underscores]. rewrite Eu. f_equal; lia.
      * rewrite (IH k) by lia.
        destruct k as [|k']; cbn [after_underscores].
        -- rewrite after_underscores_0, (count_char_cons ":" c s), Ec.
           f_equal; lia.
        -- rewrite Eu. f_equal; lia.
Qed.

(** [set_correctness_run] on a record whose name is known. *)
Lemma set_correctness_run_unfold ss sep al w name after :
  names_record al name after →
  set_correctness_run ss sep al w
  = if sim_named ss name then
      match sim_branch ss sep al w with
      | Ok b => (if b then 1 else 0, None)
      | Err f => (0, Some f)
      end
    else if wgsim_shaped name then
      match wgsim_branch al w 4 with
      | Ok b => (if b then 1 else 0, None)
      | Err f => (0, Some f)
      end
    else (-1, None).
Proof.
  intros (Hc & Ha & Hq & Hnul).
  unfold set_correctness_run. rewrite Hc, Ha, Hq.
  cbn [Z.eqb negb Pos.eqb].
  rewrite (mem_strncmp_prefix ss name after Hnul).
  fold (sim_named ss name).
  destruct (sim_named ss name); [reflexivity|].
  rewrite (mem_strlen_name name after Hnul), take_app_length.
  rewrite (count_und_colon_spec name 3%nat 0 0) by lia.
  unfold wgsim_shaped.
  replace (8 <=? 0 + Z.of_nat (count_char "_" name))
    with (8 <=? count_char "_" name)%nat.
  2:{ destruct (Nat.leb_spec 8 (count_char "_" name));
      symmetry; [apply Z.leb_le | apply Z.leb_gt]; lia. }
  destruct (8 <=? count_char "_" name)%nat; [|reflexivity].
  cbn [andb].
  destruct (Nat.eqb_spec (count_char ":" (after_underscores 3 name)) 4) as [E|E].
  - rewrite E. reflexivity.
  - replace (0 + Z.of_nat (count_char ":" (after_underscores 3 name)) =? 4)
      with false by (symmetry; apply Z.eqb_neq; lia).
    reflexivity.
Qed.

(** ** The correctness oracle: when the label is "correct" (C8) *)

Lemma split_at_sep_unique (sep : ascii) (x x' y y' : list ascii) :
  ¬ In sep x → ¬ In sep x' →
  x ++ sep :: y = x' ++ sep :: y' → x = x' ∧ y = y'.
Proof.
  revert x'.
  induction x as [|a x IH]; intros [|a' x'] Hx Hx' H; simpl in H.
  - injection H as ->. split; reflexivity.
  - injection H as <- _. exfalso. apply Hx'. left. reflexivity.
  - injection H as -> _. exfalso. apply Hx. left. reflexivity.
  - injection H as -> H.
    destruct (IH x') as [-> ->]; [| |exact H|split; reflexivity].
    + intros Hin. apply Hx. right. exact Hin.
    + intros Hin. apply Hx'. right. exact Hin.
Qed.

Lemma rd_inv cur c : rd cur = Ok c → ∃ cur', cur = c :: cur'.
Proof. destruct cur as [|a cur]; simpl; [discriminate|]. intros [= ->]. eauto. Qed.

Lemma expect_inv c cur k :
  expect c cur k = Ok true → ∃ cur', cur = c :: cur' ∧ k cur' = Ok true.
Proof.
  unfold expect. intros H.
  destruct cur as [|a cur]; [discriminate|]. cbn [rd mbind result_bind tl] in H.
  destruct (ch_eqb a c) eqn:E; cbn [negb] in H; [|discriminate].
  apply ch_eqb_eq in E. subst a. eauto.
Qed.

Lemma scan_size_t_inv cur : ∀ v v' cur',
  scan_size_t cur v = Ok (v', cur') →
  ∃ ds, cur = ds ++ cur'
        ∧ Forall (fun c => isdigit c = true) ds
        ∧ v' = wrap_digits v ds
        ∧ isdigit (hd NUL cur') = false ∧ cur' ≠ [].
Proof.
  induction cur as [|c cur IH]; intros v v' cur' H; simpl in H; [discriminate|].
  destruct (isdigit c) eqn:Ed.
  - destruct (IH _ _ _ H) as (ds & -> & Hds & -> & Hhd & Hne).
    exists (c :: ds). repeat split; try assumption.
    constructor; assumption.
  - injection H as <- <-. exists []. repeat split; try assumption; try constructor.
    discriminate.
Qed.

Lemma scan_int_inv cur : ∀ v v' cur',
  scan_int cur v = Ok (v', cur') →
  ∃ ds, cur = ds ++ cur'
        ∧ Forall (fun c => isdigit c = true) ds
        ∧ v' = int_digits v ds
        ∧ isdigit (hd NUL cur') = false ∧ cur' ≠ [].
Proof.
  induction cur as [|c cur IH]; intros v v' cur' H; cbn [scan_int] in H;
    [discriminate|].
  destruct (isdigit c) eqn:Ed.
  - destruct (IH _ _ _ H) as (ds & -> & Hds & -> & Hhd & Hne).
    exists (c :: ds). repeat split; try assumption.
    constructor; assumption.
  - injection H as <- <-. exists []. repeat split; try assumption; try constructor.
    discriminate.
Qed.

Lemma scan_score_inv cur v cur' :
  scan_score cur = Ok (v, cur') →
  ∃ sc, cur = sc ++ cur'
        ∧ Forall (fun c => is_score_char c = true) sc
        ∧ cur' ≠ [].
Proof.
  unfold scan_score. intros H.
  binv H as c Hc. apply rd_inv in Hc. destruct Hc as [cur0 ->].
  binv H as [v0 cur1] Hs. injection H as _ <-.
  destruct (ch_eqb c "-") eqn:E; cbn [tl] in Hs;
    apply scan_int_inv in Hs; destruct Hs as (ds & Hcur & Hds & _ & _ & Hne).
  - exists (c :: ds). rewrite Hcur. split; [reflexivity|].
    split; [|exact Hne].
    constructor.
    + unfold is_score_char. rewrite E. apply orb_true_r.
    + eapply Forall_impl; [exact Hds|].
      intros a Ha. unfold is_score_char. simpl in Ha. rewrite Ha. reflexivity.
  - exists ds. split; [exact Hcur|]. split; [|exact Hne].
    eapply Forall_impl; [exact Hds|].
    intros a Ha. unfold is_score_char. simpl in Ha. rewrite Ha. reflexivity.
Qed.

Lemma strlen_no_NUL s : ¬ In NUL s → strlen s = length s.
Proof.
  induction s as [|a s IH]; intros H; simpl; [reflexivity|].
  rewrite (proj2 (ch_eqb_neq a NUL)).
  - rewrite IH; [reflexivity|]. intros Hin. apply H. right. exact Hin.
  - intros ->. apply H. left. reflexivity.
Qed.

Lemma mem_strncmp_true_inv r : ∀ cur,
  ¬ In NUL r →
  mem_strncmp cur r (length r) = Ok true → ∃ cur', cur = r ++ cur'.
Proof.
  induction r as [|a r IH]; intros cur Hnul H; [exists cur; reflexivity|].
  simpl in H. destruct cur as [|c cur]; [discriminate|].
  cbn [hd tl] in H.
  destruct (ch_eqb c a) eqn:E; cbn [negb] in H; [|discriminate].
  apply ch_eqb_eq in E. subst c.
  rewrite (proj2 (ch_eqb_neq a NUL)) in H
    by (intros ->; apply Hnul; left; reflexivity).
  destruct (IH cur) as [cur' ->]; [|exact H|exists cur'; reflexivity].
  intros Hin. apply Hnul. right. exact Hin.
Qed.

Lemma field_chars_no_sep sep l : Forall (field_char sep) l → ¬ In sep l.
Proof.
  intros H Hin. rewrite Forall_forall in H.
  apply list_elem_of_In in Hin. destruct (H _ Hin) as [Hne _]. congruence.
Qed.

Lemma field_chars_no_NUL sep l : Forall (field_char sep) l → ¬ In NUL l.
Proof.
  intros H Hin. rewrite Forall_forall in H.
  apply list_elem_of_In in Hin. destruct (H _ Hin) as (_ & Hne & _). congruence.
Qed.

Lemma digits_no_sep sep ds :
  isdigit sep = false → Forall (fun c => isdigit c = true) ds → ¬ In sep ds.
Proof.
  intros Hs H Hin. rewrite Forall_forall in H.
  apply list_elem_of_In in Hin. specialize (H _ Hin). simpl in H. congruence.
Qed.

Lemma score_no_sep sep sc :
  isdigit sep = false → sep ≠ "-"%char →
  Forall (fun c => is_score_char c = true) sc → ¬ In sep sc.
Proof.
  intros Hs Hm H Hin. rewrite Forall_forall in H.
  apply list_elem_of_In in Hin. specialize (H _ Hin). simpl in H.
  unfold is_score_char in H. rewrite Hs in H. simpl in H.
  apply ch_eqb_eq in H. congruence.
Qed.

(** Brings the appends of a hypothesis into right-nested form. *)
Ltac norm_app H :=
  repeat (progress (rewrite <- ?app_assoc in H; cbn [app] in H)).

Lemma drop_prefix_of_qname ss sep N after (q : list ascii) :
  ¬ In NUL ss →
  q = (ss ++ sep :: N) ++ NUL :: after →
  drop (strlen ss) q = sep :: N ++ NUL :: after.
Proof.
  intros Hss ->. rewrite (strlen_no_NUL _ Hss), <- app_assoc.
  rewrite drop_app_length. reflexivity.
Qed.

(** The first block, as checked for an unpaired read and for mate 1. *)
Lemma sim_branch_first_block ss sep al w b tail after :
  wf_sim_constants ss sep → wf_block sep b →
  Forall (field_char sep) (rname al) →
  qname al = (ss ++ sep :: block_text sep b ++ tail) ++ NUL :: after →
  ch_eqb (mate_flag al) "2" = false →
  sim_branch ss sep al w = Ok true →
  sb_ref b = rname al ∧ sb_strand b = strand_char al
  ∧ off_by al (wrap_digits 0 (sb_off b)) < w.
Proof.
  intros (Hss & Hsd & Hsp & Hsa & Hs0 & Hsplus & Hsminus)
    (Href & Hstr & Hoff & Hsc) Hr Hq Hm2 H.
  unfold sim_branch in H.
  rewrite (drop_prefix_of_qname ss sep _ after _ Hss Hq), Hm2 in H.
  cbn [rd mbind result_bind tl] in H.
  rewrite ch_eqb_refl in H. cbn [assert mbind result_bind] in H.
  rewrite (strlen_no_NUL _ (field_chars_no_NUL _ _ Hr)) in H.
  binv H as same Hsame. destruct same; cbn [negb] in H; [|discriminate].
  apply mem_strncmp_true_inv in Hsame; [|exact (field_chars_no_NUL _ _ Hr)].
  destruct Hsame as [cur1 Hcur1].
  rewrite Hcur1, drop_app_length in H.
  apply expect_inv in H. destruct H as (cur2 & -> & H).
  unfold block_text in Hcur1. norm_app Hcur1.
  apply split_at_sep_unique in Hcur1;
    [|exact (field_chars_no_sep _ _ Href)|exact (field_chars_no_sep _ _ Hr)].
  destruct Hcur1 as [Eref Hcur2]. subst cur2.
  cbn [rd mbind result_bind tl] in H.
  destruct (ch_eqb (sb_strand b) (strand_char al)) eqn:Es; cbn [negb] in H;
    [|discriminate].
  apply ch_eqb_eq in Es.
  apply expect_inv in H. destruct H as (cur3 & Hc3 & H).
  injection Hc3 as Hc3. subst cur3.
  binv H as [refoff cur4] Hscan.
  apply scan_size_t_inv in Hscan.
  destruct Hscan as (ds & Hcur & Hds & -> & _ & _).
  cbn [negb andb] in H.
  destruct (w <=? off_by al (wrap_digits 0 ds)) eqn:Ew; [discriminate|].
  apply expect_inv in H. destruct H as (cur5 & -> & _).
  norm_app Hcur.
  apply split_at_sep_unique in Hcur;
    [|exact (digits_no_sep _ _ Hsd Hoff)|exact (digits_no_sep _ _ Hsd Hds)].
  destruct Hcur as [-> _].
  apply Z.leb_gt in Ew. auto.
Qed.

Lemma count_char_app c l k :
  count_char c (l ++ k) = (count_char c l + count_char c k)%nat.
Proof.
  unfold count_char. rewrite List.filter_app, length_app. reflexivity.
Qed.

Lemma count_char_notin c l : ¬ In c l → count_char c l = 0%nat.
Proof.
  induction l as [|a l IH]; intros H; [reflexivity|].
  rewrite count_char_cons, IH by (intros Hin; apply H; right; exact Hin).
  rewrite (proj2 (ch_eqb_neq a c)); [reflexivity|].
  intros ->. apply H. left. reflexivity.
Qed.

Lemma count_char_zero c l : count_char c l = 0%nat → ¬ In c l.
Proof.
  induction l as [|a l IH]; intros H Hin; [destruct Hin|].
  rewrite count_char_cons in H.
  destruct Hin as [->|Hin].
  - rewrite ch_eqb_refl in H. lia.
  - apply IH; [lia | exact Hin].
Qed.

(** A terminator-free prefix of the line buffer lies inside the name. *)
Lemma nul_free_prefix (P : list ascii) : ∀ X after R,
  ¬ In NUL X → ¬ In NUL P →
  X ++ NUL :: after = P ++ R →
  ∃ X', X = P ++ X' ∧ R = X' ++ NUL :: after.
Proof.
  induction P as [|a P IH]; intros X after R HX HP H.
  - exists X. split; [reflexivity | symmetry; exact H].
  - destruct X as [|x X]; simpl in H.
    + injection H as <- _. exfalso. apply HP. left. reflexivity.
    + injection H as -> H.
      destruct (IH X after R) as (X' & -> & ->); [| |exact H|].
      * intros Hin. apply HX. right. exact Hin.
      * intros Hin. apply HP. right. exact Hin.
      * exists X'. split; reflexivity.
Qed.

Lemma digits_no_NUL ds : Forall (fun c => isdigit c = true) ds → ¬ In NUL ds.
Proof.
  intros H Hin. rewrite Forall_forall in H.
  apply list_elem_of_In in Hin. specialize (H _ Hin). discriminate.
Qed.

Lemma score_no_NUL sc : Forall (fun c => is_score_char c = true) sc → ¬ In NUL sc.
Proof.
  intros H Hin. rewrite Forall_forall in H.
  apply list_elem_of_In in Hin. specialize (H _ Hin). discriminate.
Qed.

(** What [sim_mate2] has read when it reaches [correct = 1]. *)
Lemma sim_mate2_inv sep al w cur :
  Forall (field_char sep) (rname al) →
  sim_mate2 sep al w cur = Ok true →
  ∃ D2 S2 t rest,
    cur = rname al ++ sep :: strand_char al :: sep :: D2 ++ sep :: S2
          ++ sep :: t :: rest
    ∧ Forall (fun c => isdigit c = true) D2
    ∧ Forall (fun c => is_score_char c = true) S2
    ∧ (t = "b"%char ∨ t = "c"%char ∨ t = "d"%char)
    ∧ off_by al (wrap_digits 0 D2) < w.
Proof.
  intros Hr H. unfold sim_mate2 in H.
  rewrite (strlen_no_NUL _ (field_chars_no_NUL _ _ Hr)) in H.
  binv H as same Hsame. destruct same; cbn [negb] in H; [|discriminate].
  apply mem_strncmp_true_inv in Hsame; [|exact (field_chars_no_NUL _ _ Hr)].
  destruct Hsame as [cur1 ->]. rewrite drop_app_length in H.
  apply expect_inv in H. destruct H as (cur2 & -> & H).
  binv H as c Hc. apply rd_inv in Hc. destruct Hc as [cur3 ->].
  destruct (ch_eqb c (strand_char al)) eqn:Es; cbn [negb] in H; [|discriminate].
  apply ch_eqb_eq in Es. subst c. cbn [tl] in H.
  apply expect_inv in H. destruct H as (cur4 & -> & H).
  binv H as [refoff cur5] Hscan.
  apply scan_size_t_inv in Hscan.
  destruct Hscan as (D2 & -> & HD2 & -> & _ & _).
  destruct (w <=? off_by al (wrap_digits 0 D2)) eqn:Ew; [discriminate|].
  apply Z.leb_gt in Ew.
  apply expect_inv in H. destruct H as (cur6 & -> & H).
  binv H as [sc cur7] Hscore.
  apply scan_score_inv in Hscore. destruct Hscore as (S2 & -> & HS2 & _).
  apply expect_inv in H. destruct H as (cur8 & -> & H).
  binv H as t Ht. apply rd_inv in Ht. destruct Ht as [rest ->].
  binv H as [] Hbcd. apply assert_Ok_inv in Hbcd.
  exists D2, S2, t, rest.
  split; [reflexivity|]. split; [exact HD2|]. split; [exact HS2|].
  split; [|exact Ew].
  apply orb_true_iff in Hbcd. destruct Hbcd as [Hbcd|Hd].
  - apply orb_true_iff in Hbcd. destruct Hbcd as [Hb|Hc].
    + left. apply ch_eqb_eq. exact Hb.
    + right. left. apply ch_eqb_eq. exact Hc.
  - right. right. apply ch_eqb_eq. exact Hd.
Qed.

Lemma digit_not_space c : isdigit c = true → isspace c = false.
Proof.
  unfold isdigit, isspace. intros H.
  apply andb_true_iff in H. destruct H as [H1 H2].
  apply Z.leb_le in H1, H2.
  apply orb_false_iff. split.
  - apply Z.eqb_neq. lia.
  - apply andb_false_iff. right. apply Z.leb_gt. lia.
Qed.

Lemma score_char_not_space c : is_score_char c = true → isspace c = false.
Proof.
  unfold is_score_char. intros H. apply orb_true_iff in H.
  destruct H as [H|H]; [exact (digit_not_space _ H)|].
  apply ch_eqb_eq in H. subst c. reflexivity.
Qed.

Lemma Forall_app_2' {A} (P : A → Prop) l k :
  Forall P l → Forall P k → Forall P (l ++ k).
Proof. intros H1 H2. apply Forall_app. split; assumption. Qed.

Section BlockText.

Variables (ss : list ascii) (sep : ascii).
Hypothesis Hwf : wf_sim_constants ss sep.

Lemma block_text_no_NUL b : wf_block sep b → ¬ In NUL (block_text sep b).
Proof using Hwf.
  destruct Hwf as (_ & _ & _ & _ & Hs0 & _ & _).
  intros (Href & Hstr & Hoff & Hsc). unfold block_text.
  apply not_in_app; [exact (field_chars_no_NUL _ _ Href)|].
  apply not_in_cons; [congruence|].
  apply not_in_cons; [destruct Hstr as [-> | ->]; discriminate|].
  apply not_in_cons; [congruence|].
  apply not_in_app; [exact (digits_no_NUL _ Hoff)|].
  apply not_in_cons; [congruence|].
  apply not_in_app; [exact (score_no_NUL _ Hsc)|].
  apply not_in_cons; [congruence | intros []].
Qed.

Lemma block_text_no_space b : wf_block sep b → Forall no_space (block_text sep b).
Proof using Hwf.
  destruct Hwf as (_ & _ & Hsp & _).
  intros (Href & Hstr & Hoff & Hsc). unfold block_text.
  apply Forall_app_2'.
  { eapply Forall_impl; [exact Href|]. intros c (_ & _ & Hc). exact Hc. }
  constructor; [exact Hsp|].
  constructor; [destruct Hstr as [-> | ->]; reflexivity|].
  constructor; [exact Hsp|].
  apply Forall_app_2'.
  { eapply Forall_impl; [exact Hoff|]. intros c Hc. exact (digit_not_space _ Hc). }
  constructor; [exact Hsp|].
  apply Forall_app_2'.
  { eapply Forall_impl; [exact Hsc|]. intros c Hc.
    exact (score_char_not_space _ Hc). }
  constructor; [exact Hsp | constructor].
Qed.

Lemma block_text_count b :
  wf_block sep b → count_char sep (block_text sep b) = 4%nat.
Proof using Hwf.
  destruct Hwf as (_ & Hsd & _ & _ & _ & Hplus & Hminus).
  intros (Href & Hstr & Hoff & Hsc). unfold block_text.
  rewrite count_char_app, count_char_cons, count_char_cons, count_char_cons,
    count_char_app, count_char_cons, count_char_app, count_char_cons.
  rewrite (count_char_notin _ _ (field_chars_no_sep _ _ Href)),
    (count_char_notin _ _ (digits_no_sep _ _ Hsd Hoff)),
    (count_char_notin _ _ (score_no_sep _ _ Hsd Hminus Hsc)).
  rewrite ch_eqb_refl.
  replace (ch_eqb (sb_strand b) sep) with false.
  - reflexivity.
  - symmetry. apply ch_eqb_neq. destruct Hstr as [-> | ->]; congruence.
Qed.

(** The type of a paired read: free of separators, terminators and white
    space, and its last character is neither the separator nor [u]. *)
Lemma pair_typ_facts typ :
  In typ [chars "b1"; chars "b2"; chars "c"; chars "d"] →
  ¬ In sep typ ∧ ¬ In NUL typ ∧ Forall no_space typ
  ∧ ∃ t z, typ = t ++ [z] ∧ z ≠ sep ∧ z ≠ "u"%char.
Proof using Hwf.
  destruct Hwf as (_ & Hsd & _ & Hsa & _).
  assert (Hb : sep ≠ "b"%char) by (intros ->; discriminate Hsa).
  assert (Hc : sep ≠ "c"%char) by (intros ->; discriminate Hsa).
  assert (Hd : sep ≠ "d"%char) by (intros ->; discriminate Hsa).
  assert (H1 : sep ≠ "1"%char) by (intros ->; discriminate Hsd).
  assert (H2 : sep ≠ "2"%char) by (intros ->; discriminate Hsd).
  intros [<-|[<-|[<-|[<-|[]]]]]; cbn [chars list_ascii_of_string].
  - split; [intros [E|[E|[]]]; congruence|].
    split; [intros [E|[E|[]]]; discriminate|].
    split; [repeat constructor|].
    exists ["b"%char], "1"%char. repeat split; congruence.
  - split; [intros [E|[E|[]]]; congruence|].
    split; [intros [E|[E|[]]]; discriminate|].
    split; [repeat constructor|].
    exists ["b"%char], "2"%char. repeat split; congruence.
  - split; [intros [E|[]]; congruence|].
    split; [intros [E|[]]; discriminate|].
    split; [repeat constructor|].
    exists [], "c"%char. repeat split; congruence.
  - split; [intros [E|[]]; congruence|].
    split; [intros [E|[]]; discriminate|].
    split; [repeat constructor|].
    exists [], "d"%char. repeat split; congruence.
Qed.

End BlockText.

Lemma last_char_unique {A} (X Y : list A) (y z : A) :
  X ++ [y] = Y ++ [z] → y = z.
Proof. intros H. apply app_inj_tail in H. tauto. Qed.

(** The second block, as checked for mate 2. *)
Lemma sim_branch_second_block ss sep al w b1 b typ after :
  wf_sim_constants ss sep → wf_block sep b1 → wf_block sep b →
  In typ [chars "b1"; chars "b2"; chars "c"; chars "d"] →
  Forall (field_char sep) (rname al) →
  qname al = (ss ++ sep :: block_text sep b1 ++ block_text sep b ++ typ)
             ++ NUL :: after →
  mate_flag al = "2"%char →
  (length (rname al) ≤ length (block_text sep b1 ++ block_text sep b ++ typ))%nat →
  sim_branch ss sep al w = Ok true →
  length (sb_ref b1) = length (rname al)
  ∧ sb_ref b = rname al ∧ sb_strand b = strand_char al
  ∧ off_by al (wrap_digits 0 (sb_off b)) < w.
Proof.
  intros Hwf Hb1 Hb Htyp Hr Hq Hm2 Hlen H.
  pose proof (pair_typ_facts ss sep Hwf typ Htyp)
    as (Htsep & Htnul & Htsp & tt' & z & Htz & Hzsep & Hzu).
  pose proof Hwf as (Hss & Hsd & Hsp & Hsa & Hs0 & Hsplus & Hsminus).
  set (N := block_text sep b1 ++ block_text sep b ++ typ) in *.
  assert (HNnul : ¬ In NUL N).
  { apply not_in_app; [exact (block_text_no_NUL ss sep Hwf _ Hb1)|].
    apply not_in_app; [exact (block_text_no_NUL ss sep Hwf _ Hb) | exact Htnul]. }
  assert (HNsp : Forall no_space N).
  { apply Forall_app_2'; [exact (block_text_no_space ss sep Hwf _ Hb1)|].
    apply Forall_app_2'; [exact (block_text_no_space ss sep Hwf _ Hb) | exact Htsp]. }
  assert (HNcnt : count_char sep N = 8%nat).
  { unfold N. rewrite !count_char_app.
    rewrite (block_text_count ss sep Hwf _ Hb1), (block_text_count ss sep Hwf _ Hb),
      (count_char_notin _ _ Htsep). reflexivity. }
  assert (HNlast : ∀ X y, N = X ++ [y] → y ≠ sep ∧ y ≠ "u"%char).
  { intros X y HX. unfold N in HX. rewrite Htz, !app_assoc in HX.
    apply last_char_unique in HX. subst y. split; assumption. }
  (* the steps of the parse *)
  unfold sim_branch in H.
  assert (Hm2' : ch_eqb (mate_flag al) "2" = true) by (rewrite Hm2; reflexivity).
  rewrite (drop_prefix_of_qname ss sep _ after _ Hss Hq), Hm2' in H.
  cbn [rd mbind result_bind tl] in H.
  rewrite !ch_eqb_refl in H. cbn [assert mbind result_bind negb andb] in H.
  rewrite (strlen_no_NUL _ (field_chars_no_NUL _ _ Hr)) in H.
  apply expect_inv in H. destruct H as (cur2 & Hdrop & H).
  apply expect_inv in H. destruct H as (cur3 & Htl & H).
  destruct cur2 as [|c cur2']; [discriminate|]. cbn [tl] in Htl. subst cur2'.
  binv H as [refoff1 cur4] Hscan1.
  apply scan_size_t_inv in Hscan1.
  destruct Hscan1 as (D1 & -> & HD1 & _ & _ & _).
  apply expect_inv in H. destruct H as (cur5 & -> & H).
  binv H as [sc1 cur6] Hscore1.
  apply scan_score_inv in Hscore1. destruct Hscore1 as (S1 & -> & HS1 & _).
  apply expect_inv in H. destruct H as (cur7 & -> & H).
  (* the text before the second block lies inside the name *)
  rewrite drop_app_le in Hdrop by exact Hlen.
  pose proof (take_drop (length (rname al)) N) as HN.
  set (A := take (length (rname al)) N) in *.
  assert (HA : length A = length (rname al))
    by (unfold A; rewrite length_take; lia).
  assert (HdropNnul : ¬ In NUL (drop (length (rname al)) N)).
  { intros Hin. apply HNnul. rewrite <- HN. apply in_or_app. right. exact Hin. }
  destruct (nul_free_prefix [sep] _ after
              (c :: sep :: D1 ++ sep :: S1 ++ sep :: cur7) HdropNnul
              ltac:(apply not_in_cons; [congruence | intros []]) Hdrop)
    as (X1 & HX1 & Hrest).
  rewrite HX1 in HN, HdropNnul.
  destruct X1 as [|c' X2].
  { exfalso. cbn [app] in Hrest. injection Hrest as -> _.
    destruct (HNlast A sep) as [Hc _]; [|congruence].
    rewrite <- HN. reflexivity. }
  cbn [app] in Hrest. injection Hrest as <- Hrest.
  assert (HX2nul : ¬ In NUL X2).
  { intros Hin. apply HdropNnul. right. right. exact Hin. }
  assert (HP1nul : ¬ In NUL (sep :: D1 ++ sep :: S1 ++ [sep])).
  { apply not_in_cons; [congruence|].
    apply not_in_app; [exact (digits_no_NUL _ HD1)|].
    apply not_in_cons; [congruence|].
    apply not_in_app; [exact (score_no_NUL _ HS1)|].
    apply not_in_cons; [congruence | intros []]. }
  destruct (nul_free_prefix (sep :: D1 ++ sep :: S1 ++ [sep]) X2 after cur7
              HX2nul HP1nul)
    as (X3 & HX3 & Hcur7).
  { rewrite <- Hrest. cbn [app]. repeat (rewrite <- app_assoc; cbn [app]).
    reflexivity. }
  rewrite HX3 in HN, HX2nul. clear Hrest.
  assert (HX3nul : ¬ In NUL X3).
  { intros Hin. apply HX2nul. apply in_or_app. right. exact Hin. }
  (* the end of the first block: not an unpaired name *)
  unfold sim_tail in H.
  binv H as c0 Hc0. apply rd_inv in Hc0. destruct Hc0 as [cur8 Hcur8].
  binv H as isu Hisu.
  destruct isu.
  { exfalso.
    destruct (ch_eqb c0 "u") eqn:Eu; [|discriminate].
    apply ch_eqb_eq in Eu. subst c0.
    binv Hisu as c1 Hc1. rewrite Hcur8 in Hc1. cbn [tl] in Hc1.
    apply rd_inv in Hc1. destruct Hc1 as [cur9 ->].
    injection Hisu as Hisu.
    rewrite Hcur8 in Hcur7.
    destruct X3 as [|u X4]; [discriminate|].
    cbn [app] in Hcur7. injection Hcur7 as <- Hcur7.
    destruct X4 as [|x X5].
    - destruct (HNlast (A ++ sep :: c :: sep :: D1 ++ sep :: S1 ++ [sep]) "u"%char)
        as [_ Hu]; [|congruence].
      rewrite <- HN. repeat (rewrite <- app_assoc; cbn [app]). reflexivity.
    - cbn [app] in Hcur7. injection Hcur7 as <- _.
      assert (Hin : In c1 N).
      { rewrite <- HN. apply in_or_app. right. right. right.
        apply in_or_app. right. right. left. reflexivity. }
      apply orb_true_iff in Hisu. destruct Hisu as [Hnul | Hspace].
      + apply ch_eqb_eq in Hnul. subst c1. exact (HNnul Hin).
      + rewrite Forall_forall in HNsp. apply list_elem_of_In in Hin.
        specialize (HNsp _ Hin). unfold no_space in HNsp. congruence. }
  binv H as [] Hassert.
  rewrite Hm2' in H. cbn [negb] in H.
  apply (sim_mate2_inv sep al w _ Hr) in H.
  destruct H as (D2 & S2 & t & rest & Hcur & HD2 & HS2 & Ht & Hoff).
  (* the second block lies inside the name, too *)
  assert (HP2nul : ¬ In NUL (rname al ++ sep :: strand_char al :: sep :: D2
                              ++ sep :: S2 ++ sep :: [t])).
  { apply not_in_app; [exact (field_chars_no_NUL _ _ Hr)|].
    apply not_in_cons; [congruence|].
    apply not_in_cons; [unfold strand_char; destruct (is_fw al); discriminate|].
    apply not_in_cons; [congruence|].
    apply not_in_app; [exact (digits_no_NUL _ HD2)|].
    apply not_in_cons; [congruence|].
    apply not_in_app; [exact (score_no_NUL _ HS2)|].
    apply not_in_cons; [congruence|].
    apply not_in_cons; [destruct Ht as [->|[->| ->]]; discriminate | intros []]. }
  destruct (nul_free_prefix _ X3 after rest HX3nul HP2nul) as (X5 & HX5 & _).
  { rewrite <- Hcur7, Hcur. cbn [app].
    repeat (rewrite <- app_assoc; cbn [app]). reflexivity. }
  rewrite HX5 in HN. norm_app HN.
  (* eight separators: none is left for [A] or for the unchecked character *)
  assert (Hcount : count_char sep A = 0%nat ∧ ch_eqb c sep = false).
  { pose proof HNcnt as Hc. rewrite <- HN in Hc.
    repeat (rewrite ?count_char_app, ?count_char_cons in Hc).
    rewrite ch_eqb_refl in Hc.
    destruct (ch_eqb c sep); [lia|]. split; [lia | reflexivity]. }
  destruct Hcount as [HAcnt Hcsep].
  apply count_char_zero in HAcnt.
  (* field by field, the two readings of the name agree *)
  unfold N, block_text in HN. norm_app HN.
  destruct Hb1 as (Href1 & Hstr1 & Hoff1 & Hsc1).
  destruct Hb as (Href2 & Hstr2 & Hoff2 & Hsc2).
  apply split_at_sep_unique in HN;
    [|exact HAcnt|exact (field_chars_no_sep _ _ Href1)].
  destruct HN as [EA HN]. injection HN as _ HN.
  apply split_at_sep_unique in HN;
    [|exact (digits_no_sep _ _ Hsd HD1)|exact (digits_no_sep _ _ Hsd Hoff1)].
  destruct HN as [_ HN].
  apply split_at_sep_unique in HN;
    [|exact (score_no_sep _ _ Hsd Hsminus HS1)
     |exact (score_no_sep _ _ Hsd Hsminus Hsc1)].
  destruct HN as [_ HN].
  apply split_at_sep_unique in HN;
    [|exact (field_chars_no_sep _ _ Hr)|exact (field_chars_no_sep _ _ Href2)].
  destruct HN as [Er HN]. injection HN as Es HN.
  apply split_at_sep_unique in HN;
    [|exact (digits_no_sep _ _ Hsd HD2)|exact (digits_no_sep _ _ Hsd Hoff2)].
  destruct HN as [ED2 _].
  split; [rewrite <- EA; exact HA|].
  split; [symmetry; exact Er|].
  split; [symmetry; exact Es|].
  rewrite <- ED2. exact Hoff.
Qed.

(** The [int] cast only looks at the low 32 bits of a [size_t]. *)
Lemma int32_wrap64_eq x y : wrap64 x = wrap64 y → int32 x = int32 y.
Proof.
  unfold wrap64, int32. intros H.
  assert (E : x = y + (x / 2 ^ 64 - y / 2 ^ 64) * 2 ^ 32 * 2 ^ 32).
  { pose proof (Z.div_mod x (2 ^ 64) ltac:(lia)).
    pose proof (Z.div_mod y (2 ^ 64) ltac:(lia)). lia. }
  rewrite E.
  replace (y + (x / 2 ^ 64 - y / 2 ^ 64) * 2 ^ 32 * 2 ^ 32 + 2 ^ 31)
    with (y + 2 ^ 31 + ((x / 2 ^ 64 - y / 2 ^ 64) * 2 ^ 32) * 2 ^ 32) by lia.
  rewrite Z_mod_plus_full. reflexivity.
Qed.

Lemma wrap_digits_digits_val ds : ∀ v v',
  wrap64 v = wrap64 v' →
  wrap64 (wrap_digits v ds) = wrap64 (digits_val v' ds).
Proof.
  unfold wrap_digits, digits_val.
  induction ds as [|c ds IH]; intros v v' E; cbn [fold_left]; [exact E|].
  apply IH. rewrite wrap64_idem. unfold wrap64 in *.
  rewrite Zplus_mod_idemp_l.
  rewrite (Z.add_mod (v * 10)), (Z.add_mod (v' * 10)) by lia.
  rewrite (Z.mul_mod v), (Z.mul_mod v') by lia.
  rewrite E. reflexivity.
Qed.

Lemma off_by_pos_error al b :
  off_by al (wrap_digits 0 (sb_off b)) = pos_error al b.
Proof.
  unfold off_by, pos_error, block_off. f_equal.
  apply int32_wrap64_eq. rewrite wrap64_idem. unfold wrap64.
  rewrite Zminus_mod_idemp_r.
  rewrite (Zminus_mod (wrap_digits 0 (sb_off b))),
    (Zminus_mod (digits_val 0 (sb_off b))).
  fold (wrap64 (wrap_digits 0 (sb_off b))).
  rewrite (wrap_digits_digits_val (sb_off b) 0 0 eq_refl). reflexivity.
Qed.

Lemma int32_small x : - 2 ^ 31 ≤ x < 2 ^ 31 → int32 x = x.
Proof. intros H. unfold int32. rewrite Z.mod_small; lia. Qed.

(** What the label is computed from. *)
Lemma set_correctness_run_inputs ss sep al al' w :
  qname al' = qname al → rname al' = rname al → flag al' = flag al →
  pos al' = pos al → correct al' = correct al →
  set_correctness_run ss sep al' w = set_correctness_run ss sep al w.
Proof.
  destruct al, al'. cbn. intros -> -> -> -> ->. reflexivity.
Qed.

Lemma sim_named_prefix ss sep rest :
  ¬ In NUL ss → sim_named ss (ss ++ sep :: rest) = true.
Proof.
  intros Hnul. unfold sim_named. rewrite (strlen_no_NUL _ Hnul).
  rewrite firstn_all.
  induction ss as [|c ss IH]; [reflexivity|].
  cbn [app is_prefix]. rewrite ch_eqb_refl. cbn [andb].
  apply IH. intros Hin. apply Hnul. right. exact Hin.
Qed.

(** *** The second naming scheme *)

Lemma scan_size_t_digits ds : ∀ v c r,
  all_digits ds → isdigit c = false →
  scan_size_t (ds ++ c :: r) v = Ok (wrap_digits v ds, c :: r).
Proof.
  induction ds as [|d ds IH]; intros v c r Hds Hc; cbn [app scan_size_t].
  - rewrite Hc. reflexivity.
  - inversion Hds as [|? ? Hd Hds']; subst. rewrite Hd.
    rewrite IH by assumption. reflexivity.
Qed.

Lemma scan_int_digits ds : ∀ v c r,
  all_digits ds → isdigit c = false →
  scan_int (ds ++ c :: r) v = Ok (int_digits v ds, c :: r).
Proof.
  induction ds as [|d ds IH]; intros v c r Hds Hc; cbn [app scan_int].
  - rewrite Hc. reflexivity.
  - inversion Hds as [|? ? Hd Hds']; subst. rewrite Hd.
    rewrite IH by assumption. reflexivity.
Qed.

Lemma skip_number_digits ds : ∀ c r,
  all_digits ds → isdigit c = false →
  skip_number (ds ++ c :: r) = Ok r.
Proof.
  induction ds as [|d ds IH]; intros c r Hds Hc; cbn [app skip_number].
  - rewrite Hc. reflexivity.
  - inversion Hds as [|? ? Hd Hds']; subst. rewrite Hd.
    apply IH; assumption.
Qed.

Lemma skip_colons_count e : ∀ n r,
  count_char ":" e = n →
  skip_colons (e ++ ":"%char :: r) (S n) = Ok r.
Proof.
  induction e as [|c e IH]; intros n r Hn; cbn [app skip_colons].
  - rewrite ch_eqb_refl. unfold count_char in Hn. simpl in Hn. subst n.
    destruct r; reflexivity.
  - rewrite count_char_cons in Hn.
    destruct (ch_eqb c ":") eqn:Ec.
    + destruct n as [|n']; [lia|]. apply IH. lia.
    + apply IH. lia.
Qed.

Lemma is_prefix_app p : ∀ s, is_prefix p (p ++ s) = true.
Proof.
  induction p as [|a p IH]; intros s; [reflexivity|].
  cbn [app is_prefix]. rewrite ch_eqb_refl. apply IH.
Qed.

Lemma is_prefix_inv p : ∀ s, is_prefix p s = true → ∃ r, s = p ++ r.
Proof.
  induction p as [|a p IH]; intros s H; [exists s; reflexivity|].
  destruct s as [|b s]; [discriminate|]. cbn [is_prefix] in H.
  apply andb_true_iff in H. destruct H as [Hab H].
  apply ch_eqb_eq in Hab. subst b.
  destruct (IH _ H) as [r ->]. exists r. reflexivity.
Qed.

Lemma wrap64_sub_congr a a' b b' :
  wrap64 a = wrap64 a' → wrap64 b = wrap64 b' → wrap64 (a - b) = wrap64 (a' - b').
Proof.
  unfold wrap64. intros Ha Hb.
  rewrite (Zminus_mod a), (Zminus_mod a'), Ha, Hb. reflexivity.
Qed.

Lemma wrap64_add_congr a a' b b' :
  wrap64 a = wrap64 a' → wrap64 b = wrap64 b' → wrap64 (a + b) = wrap64 (a' + b').
Proof.
  unfold wrap64. intros Ha Hb.
  rewrite (Z.add_mod a), (Z.add_mod a'), Ha, Hb by lia. reflexivity.
Qed.

Lemma mem_strncmp_own_prefix r rest after :
  ¬ In NUL r → ¬ In NUL rest →
  mem_strncmp ((r ++ rest) ++ NUL :: after) r (length r) = Ok true.
Proof.
  intros Hr Hrest.
  pose proof (mem_strncmp_prefix r (r ++ rest) after
                (not_in_app _ _ _ Hr Hrest)) as H.
  rewrite (strlen_no_NUL _ Hr), firstn_all, is_prefix_app in H. exact H.
Qed.

(** With the reference id of the name, the second scheme is read to its end
    and the positions are compared. *)
Lemma wgsim_branch_eval al w n after :
  wf_wgsim n → ¬ In NUL (wgsim_text n) →
  qname al = wgsim_text n ++ NUL :: after →
  wg_ref n = rname al →
  wgsim_branch al w 4 = Ok (wgsim_error al n <? w).
Proof.
  intros (Href & Hstart & Hend & Hpar & Hlast & Hl1 & Hl2 & Hflip) Hnul Hq Er.
  unfold wgsim_branch.
  rewrite <- Er, Hq.
  rewrite (strlen_no_NUL _ (field_chars_no_NUL _ _ Href)).
  unfold wgsim_text in *.
  assert (Hrest : ¬ In NUL ("_"%char :: wg_start n ++ "_"%char :: wg_end n
            ++ "_"%char :: wg_params n ++ ":"%char :: wg_last n ++ "_"%char
            :: wg_len1 n ++ "_"%char :: wg_len2 n ++ "_"%char :: wg_flip n
            :: wg_rest n)).
  { intros Hin. apply Hnul. apply in_or_app. right. exact Hin. }
  rewrite (mem_strncmp_own_prefix _ _ after (field_chars_no_NUL _ _ Href) Hrest).
  cbn [mbind result_bind negb].
  rewrite <- app_assoc, drop_app_length.
  cbn [app expect rd mbind result_bind tl].
  replace (ch_eqb "_" "_") with true by reflexivity. cbn [negb].
  repeat (rewrite <- app_assoc; cbn [app]).
  rewrite (scan_size_t_digits _ 0 "_"%char _ Hstart eq_refl).
  cbn [mbind result_bind expect rd tl].
  replace (ch_eqb "_" "_") with true by reflexivity. cbn [negb].
  rewrite (scan_size_t_digits _ 0 "_"%char _ Hend eq_refl).
  cbn [mbind result_bind expect rd tl].
  replace (ch_eqb "_" "_") with true by reflexivity. cbn [negb].
  rewrite (skip_colons_count _ 3%nat _ Hpar).
  cbn [mbind result_bind].
  rewrite (skip_number_digits _ "_"%char _ Hlast eq_refl).
  cbn [mbind result_bind].
  rewrite (scan_int_digits _ 0 "_"%char _ Hl1 eq_refl).
  cbn [mbind result_bind expect rd tl].
  replace (ch_eqb "_" "_") with true by reflexivity. cbn [negb].
  rewrite (scan_int_digits _ 0 "_"%char _ Hl2 eq_refl).
  cbn [mbind result_bind expect rd tl].
  replace (ch_eqb "_" "_") with true by reflexivity. cbn [negb].
  unfold wgsim_error, wgsim_true_pos, wgsim_left_end.
  assert (E1 : ∀ x, int32 (wrap64 (pos al - wrap_digits 0 x))
                    = int32 (pos al - digits_val 0 x)).
  { intros x. apply int32_wrap64_eq. rewrite wrap64_idem.
    apply wrap64_sub_congr; [reflexivity|].
    apply wrap_digits_digits_val. reflexivity. }
  assert (E0 : ∀ x, low32_eq (wrap_digits 0 x) (digits_val 0 x)).
  { intros x. eapply low32_eq_trans; [apply low32_eq_sym, low32_eq_wrap64|].
    rewrite (wrap_digits_digits_val x 0 0 eq_refl). apply low32_eq_wrap64. }
  assert (E2 : ∀ x l, int32 (wrap64 (pos al
                         - wrap64 (wrap64 (wrap_digits 0 x - int_digits 0 l)
                                   + 1)))
                      = int32 (pos al
                               - (digits_val 0 x - digits_val 0 l + 1))).
  { intros x l. apply int32_low32_eq.
    eapply low32_eq_trans; [apply low32_eq_wrap64|].
    apply low32_eq_sub; [reflexivity|].
    eapply low32_eq_trans; [apply low32_eq_wrap64|].
    apply low32_eq_add; [|reflexivity].
    eapply low32_eq_trans; [apply low32_eq_wrap64|].
    apply low32_eq_sub; [apply E0|].
    apply int_digits_low32. reflexivity. }
  destruct Hflip as [-> | ->];
    replace (ch_eqb "0" "0") with true by reflexivity;
    replace (ch_eqb "0" "1") with false by reflexivity;
    replace (ch_eqb "1" "1") with true by reflexivity;
    replace (ch_eqb "1" "0") with false by reflexivity;
    cbn [orb assert mbind result_bind negb];
    destruct (ch_eqb (mate_flag al) "2"); cbn [negb Bool.eqb];
    rewrite ?E1, ?E2; reflexivity.
Qed.

Lemma wgsim_branch_ref al w n after :
  wf_wgsim n → Forall (field_char "_") (rname al) →
  qname al = wgsim_text n ++ NUL :: after →
  wgsim_branch al w 4 = Ok true →
  wg_ref n = rname al.
Proof.
  intros (Href & _) Hr Hq H.
  unfold wgsim_branch in H.
  rewrite (strlen_no_NUL _ (field_chars_no_NUL _ _ Hr)) in H.
  binv H as same Hsame. destruct same; cbn [negb] in H; [|discriminate].
  apply mem_strncmp_true_inv in Hsame; [|exact (field_chars_no_NUL _ _ Hr)].
  destruct Hsame as [cur1 Hcur1].
  rewrite Hcur1, drop_app_length in H.
  apply expect_inv in H. destruct H as (cur2 & -> & _).
  rewrite Hq in Hcur1. unfold wgsim_text in Hcur1. norm_app Hcur1.
  apply split_at_sep_unique in Hcur1;
    [|exact (field_chars_no_sep _ _ Href)|exact (field_chars_no_sep _ _ Hr)].
  tauto.
Qed.

(** *** When the first block is accepted *)

Lemma mem_strncmp_app r : ∀ x,
  ¬ In NUL r → mem_strncmp (r ++ x) r (length r) = Ok true.
Proof.
  induction r as [|a r IH]; intros x Hnul; [reflexivity|].
  cbn [app length mem_strncmp hd tl]. rewrite ch_eqb_refl. cbn [negb].
  rewrite (proj2 (ch_eqb_neq a NUL)).
  - apply IH. intros Hin. apply Hnul. right. exact Hin.
  - intros ->. apply Hnul. left. reflexivity.
Qed.

Lemma scan_score_signed s c r :
  signed_digits s → isdigit c = false → c ≠ "-"%char →
  ∃ v, scan_score (s ++ c :: r) = Ok (v, c :: r).
Proof.
  intros (ds & Hds & [-> | ->]) Hc Hm; unfold scan_score.
  - destruct ds as [|d ds]; cbn [app rd mbind result_bind].
    + rewrite (proj2 (ch_eqb_neq c "-") Hm).
      cbn [scan_int]. rewrite Hc. cbn [mbind result_bind]. eauto.
    + inversion Hds as [|? ? Hd Hds']; subst.
      assert (Ed : ch_eqb d "-" = false).
      { apply ch_eqb_neq. intros ->. discriminate. }
      rewrite Ed.
      change (d :: ds ++ c :: r) with ((d :: ds) ++ c :: r).
      rewrite (scan_int_digits (d :: ds) 0 c r Hds Hc).
      cbn [mbind result_bind]. eauto.
  - cbn [app rd mbind result_bind tl].
    replace (ch_eqb "-" "-") with true by reflexivity.
    rewrite (scan_int_digits ds 0 c r Hds Hc).
    cbn [mbind result_bind]. eauto.
Qed.

(** A first block that names the reference and the strand of the record is
    read to its end, and the positions are compared on the way. *)
Lemma sim_branch_eval ss sep al w b tail after :
  wf_sim_constants ss sep → wf_block sep b → signed_digits (sb_score b) →
  Forall (field_char sep) (rname al) →
  qname al = (ss ++ sep :: block_text sep b ++ tail) ++ NUL :: after →
  ch_eqb (mate_flag al) "2" = false →
  sb_ref b = rname al → sb_strand b = strand_char al →
  sim_branch ss sep al w
  = if w <=? pos_error al b then Ok false
    else sim_tail sep al w (tail ++ NUL :: after).
Proof.
  intros (Hss & Hsd & Hsp & Hsa & Hs0 & Hsplus & Hsminus)
    (Href & Hstr & Hoff & Hsc) Hsigned Hr Hq Hm2 Eref Estr.
  unfold sim_branch.
  rewrite (drop_prefix_of_qname ss sep _ after _ Hss Hq), Hm2.
  cbn [rd mbind result_bind tl].
  rewrite ch_eqb_refl. cbn [assert mbind result_bind].
  rewrite (strlen_no_NUL _ (field_chars_no_NUL _ _ Hr)).
  unfold block_text. rewrite Eref, Estr.
  repeat (rewrite <- app_assoc; cbn [app]).
  rewrite (mem_strncmp_app _ _ (field_chars_no_NUL _ _ Hr)).
  cbn [mbind result_bind negb]. rewrite drop_app_length.
  cbn [expect rd mbind result_bind tl].
  rewrite !ch_eqb_refl. cbn [negb].
  rewrite (scan_size_t_digits _ 0 sep _ Hoff Hsd).
  cbn [mbind result_bind andb]. rewrite off_by_pos_error.
  destruct (w <=? pos_error al b); [reflexivity|].
  cbn [expect rd mbind result_bind tl]. rewrite ch_eqb_refl. cbn [negb].
  destruct (scan_score_signed (sb_score b) sep (tail ++ NUL :: after)
              Hsigned Hsd Hsminus) as [v Hv].
  rewrite Hv. cbn [mbind result_bind expect rd tl].
  rewrite ch_eqb_refl. reflexivity.
Qed.

Lemma sim_tail_unpaired sep al w after :
  sim_tail sep al w (chars "u" ++ NUL :: after) = Ok true.
Proof. reflexivity. Qed.

Lemma sim_tail_mate1 sep al w tail after :
  mate_flag al = "1"%char →
  sim_tail sep al w (tail ++ NUL :: after) = Ok true.
Proof.
  intros Hm. unfold sim_tail. rewrite Hm.
  replace (ch_eqb "1" "0") with false by reflexivity.
  replace (ch_eqb "1" "2") with false by reflexivity.
  cbn [negb assert mbind result_bind].
  destruct tail as [|c0 tail]; cbn [app rd mbind result_bind tl].
  - reflexivity.
  - destruct (ch_eqb c0 "u"); [|reflexivity].
    destruct tail as [|c1 tail]; cbn [app rd mbind result_bind].
    + reflexivity.
    + destruct (ch_eqb c1 NUL || isspace c1); reflexivity.
Qed.

Lemma label_one_sim ss sep al w name after :
  names_record al name after → sim_named ss name = true →
  fst (set_correctness_run ss sep al w) = 1 →
  sim_branch ss sep al w = Ok true.
Proof.
  intros Hrec Hs H.
  rewrite (set_correctness_run_unfold ss sep al w name after Hrec), Hs in H.
  destruct (sim_branch ss sep al w) as [[|]|f]; cbn [fst] in H;
    [reflexivity | discriminate | discriminate].
Qed.

Lemma label_one_wgsim ss sep al w name after :
  names_record al name after → sim_named ss name = false →
  fst (set_correctness_run ss sep al w) = 1 →
  wgsim_branch al w 4 = Ok true.
Proof.
  intros Hrec Hs H.
  rewrite (set_correctness_run_unfold ss sep al w name after Hrec), Hs in H.
  destruct (wgsim_shaped name); [|discriminate].
  destruct (wgsim_branch al w 4) as [[|]|f]; cbn [fst] in H;
    [reflexivity | discriminate | discriminate].
Qed.

Lemma names_origin_sim_named ss sep al name b :
  ¬ In NUL ss → names_origin ss sep al name b → sim_named ss name = true.
Proof.
  intros Hss [_ -> | b2 typ _ -> | b1 typ _ -> _ _ _];
    apply sim_named_prefix; exact Hss.
Qed.

(** The label "correct" in the tool's own scheme. *)
Lemma sim_label_one ss sep al w name after b :
  wf_sim_constants ss sep → names_record al name after →
  wf_block sep b → Forall (field_char sep) (rname al) →
  names_origin ss sep al name b →
  fst (set_correctness_run ss sep al w) = 1 →
  sb_ref b = rname al ∧ sb_strand b = strand_char al ∧ pos_error al b < w.
Proof.
  intros Hwf Hrec Hb Hr Ho H.
  pose proof Hwf as (Hss & _).
  apply (label_one_sim ss sep al w name after Hrec
           (names_origin_sim_named ss sep al name b Hss Ho)) in H.
  destruct Hrec as (_ & _ & Hq & _).
  rewrite <- off_by_pos_error.
  destruct Ho as [Hm -> | b2 typ Hm -> | b1 typ Hm -> Hb1 Htyp Hlen].
  - apply (sim_branch_first_block ss sep al w b (chars "u") after Hwf Hb Hr Hq);
      [rewrite Hm; reflexivity | exact H].
  - apply (sim_branch_first_block ss sep al w b (block_text sep b2 ++ typ)
             after Hwf Hb Hr);
      [exact Hq | rewrite Hm; reflexivity | exact H].
  - apply (sim_branch_second_block ss sep al w b1 b typ after
             Hwf Hb1 Hb Htyp Hr Hq Hm Hlen H).
Qed.

(** The other way round, for an unpaired read and for mate 1. *)
Lemma sim_label_one_intro ss sep al w name after b :
  wf_sim_constants ss sep → names_record al name after →
  wf_block sep b → signed_digits (sb_score b) →
  Forall (field_char sep) (rname al) →
  names_origin ss sep al name b → mate_flag al ≠ "2"%char →
  sb_ref b = rname al → sb_strand b = strand_char al → pos_error al b < w →
  set_correctness_run ss sep al w = (1, None).
Proof.
  intros Hwf Hrec Hb Hsig Hr Ho Hm2 Eref Estr Herr.
  pose proof Hwf as (Hss & _).
  rewrite (set_correctness_run_unfold ss sep al w name after Hrec),
    (names_origin_sim_named ss sep al name b Hss Ho).
  destruct Hrec as (_ & _ & Hq & _).
  apply Z.leb_gt in Herr.
  destruct Ho as [Hm -> | b2 typ Hm -> | b1 typ Hm -> Hb1 Htyp Hlen];
    [| |contradiction].
  - rewrite (sim_branch_eval ss sep al w b (chars "u") after
               Hwf Hb Hsig Hr Hq ltac:(rewrite Hm; reflexivity) Eref Estr).
    rewrite Herr, sim_tail_unpaired. reflexivity.
  - unfold pair_name in Hq.
    rewrite (sim_branch_eval ss sep al w b (block_text sep b2 ++ typ) after
               Hwf Hb Hsig Hr Hq
               ltac:(rewrite Hm; reflexivity) Eref Estr).
    rewrite Herr, (sim_tail_mate1 sep al w _ after Hm). reflexivity.
Qed.

(** The label "correct" in the second scheme. *)
Lemma wgsim_label_one ss sep al w name after n :
  names_record al name after →
  wf_wgsim n → Forall (field_char "_") (rname al) →
  sim_named ss name = false → name = wgsim_text n →
  fst (set_correctness_run ss sep al w) = 1 →
  wg_ref n = rname al ∧ wgsim_error al n < w.
Proof.
  intros Hrec Hn Hr Hs -> H.
  apply (label_one_wgsim ss sep al w _ after Hrec Hs) in H.
  destruct Hrec as (_ & _ & Hq & Hnul).
  pose proof (wgsim_branch_ref al w n after Hn Hr Hq H) as Eref.
  split; [exact Eref|].
  rewrite (wgsim_branch_eval al w n after Hn Hnul Hq Eref) in H.
  injection H as H. apply Z.ltb_lt. exact H.
Qed.

Lemma wgsim_label_one_intro ss sep al w name after n :
  names_record al name after →
  wf_wgsim n → sim_named ss name = false → wgsim_shaped name = true →
  name = wgsim_text n →
  wg_ref n = rname al → wgsim_error al n < w →
  set_correctness_run ss sep al w = (1, None).
Proof.
  intros Hrec Hn Hs Hshape -> Eref Herr.
  rewrite (set_correctness_run_unfold ss sep al w _ after Hrec), Hs, Hshape.
  destruct Hrec as (_ & _ & Hq & Hnul).
  rewrite (wgsim_branch_eval al w n after Hn Hnul Hq Eref).
  apply Z.ltb_lt in Herr. rewrite Herr. reflexivity.
Qed.

(** The label in the record that [set_correctness] returns is the one that
    the call has computed. *)
Lemma label_of_run ss sep al w :
  label_of (set_correctness ss sep al w)
  = match set_correctness_run ss sep al w with
    | (c, None) => Ok c
    | (_, Some f) => Err f
    end.
Proof.
  unfold set_correctness.
  destruct (set_correctness_run ss sep al w) as [c [f|]]; [reflexivity|].
  cbn [label_of]. destruct al; reflexivity.
Qed.

Lemma set_correctness_label ss sep al w al' :
  set_correctness ss sep al w = Ok al' →
  set_correctness_run ss sep al w = (correct al', None)
  ∧ al' = set_correct (correct al') al.
Proof.
  unfold set_correctness.
  destruct (set_correctness_run ss sep al w) as [c [f|]]; [discriminate|].
  intros H. injection H as <-. destruct al; split; reflexivity.
Qed.

Lemma set_correctness_of_run ss sep al w c :
  set_correctness_run ss sep al w = (c, None) →
  set_correctness ss sep al w = Ok (set_correct c al).
Proof. unfold set_correctness. intros ->. reflexivity. Qed.

Lemma c_abs_fits x : Z.abs x < 2 ^ 31 → c_abs (int32 x) = Z.abs x.
Proof.
  intros H. unfold c_abs. rewrite (int32_fits x) by lia.
  apply int32_fits. lia.
Qed.

(** ** The label that [set_correctness] leaves (C10) *)



(** C8.  The code breaks the claim where the difference between the true and
    the reported position leaves the range of an [int]: the difference is
    cast to [int] before [abs] is taken.
    (1) In a file of one line, a read simulated from offset 4294967395 of
    chr1 and reported at position 100 of chr1, 2^32 bases off, is labelled
    "correct" with the wiggle 30, and its feature record ends in 1.
    (2) So is a read from offset 2147483747 reported at position 100:
    2^31 bases off, where [abs] of the least [int] stays negative.
    (3) A record that carries the name of an unpaired read and is flagged as
    mate 2 is labelled "correct" without any comparison: here it is the
    second line of a pair, on another reference, chr7, at position 5000,
    and the second record of the pair ends in 1.
    (4) What holds, for an aligned record that is not labelled yet and
    carries a read name: the label is a function of the name, the reference
    name, the flag, the position and the wiggle.  If the name is in the
    tool's own scheme and [b] is the block of the end that the record is,
    the label is "correct" only if the reference name and the strand of [b]
    are those of the record and the distance as the code takes it
    ([pos_error]) is below the wiggle; that distance is the distance between
    the two positions whenever this is below 2^31, and the claim holds
    there: a distance equal to the wiggle is not "correct".  For an
    unpaired read and for mate 1 the three conditions also suffice.  The
    same holds of the names in the second scheme. *)
Theorem wiggle_test_wraps_at_32_bits :
  match sam_pass1 example_cfg 0 0 0 0 [sam_fields far_off_line] with
  | Ok st =>
      qname (st_al1 st) = chars "qsim!chr1!+!4294967395!0!u" ++ [NUL]
      ∧ rname (st_al1 st) = sb_ref far_off_block ∧ pos (st_al1 st) = 100
      ∧ true_distance (st_al1 st) far_off_block = 2 ^ 32
      ∧ correct (st_al1 st) = 1 ∧ last (st_orec_u st) = Some (DInt 1)
  | Err _ => False
  end
  ∧ match sam_pass1 example_cfg 0 0 0 0 [sam_fields half_range_line] with
    | Ok st =>
        qname (st_al1 st) = chars "qsim!chr1!+!2147483747!0!u" ++ [NUL]
        ∧ rname (st_al1 st) = sb_ref half_range_block ∧ pos (st_al1 st) = 100
        ∧ true_distance (st_al1 st) half_range_block = 2 ^ 31
        ∧ correct (st_al1 st) = 1 ∧ last (st_orec_u st) = Some (DInt 1)
    | Err _ => False
    end
  ∧ match sam_pass1 example_cfg 0 0 0 0
            (map sam_fields [other_name_mate1_line; unpaired_name_mate2_line])
    with
    | Ok st =>
        qname (st_al2 st) = chars "qsim!chr1!+!99!-12!u" ++ [NUL]
        ∧ mate_flag (st_al2 st) = "2"%char
        ∧ rname (st_al2 st) = chars "chr7" ∧ pos (st_al2 st) = 5000
        ∧ correct (st_al2 st) = 1 ∧ last (st_orec_c st) = Some (DInt 1)
    | Err _ => False
    end
  ∧ ∀ ss sep al w name after,
      wf_sim_constants ss sep →
      names_record al name after →
      (∀ al', qname al' = qname al → rname al' = rname al →
              flag al' = flag al → pos al' = pos al →
              correct al' = correct al →
              label_of (set_correctness ss sep al' w)
              = label_of (set_correctness ss sep al w))
      ∧ (∀ b, wf_block sep b → Forall (field_char sep) (rname al) →
              names_origin ss sep al name b →
              (∀ al', set_correctness ss sep al w = Ok al' →
                      correct al' = 1 →
                      sb_ref b = rname al ∧ sb_strand b = strand_char al
                      ∧ pos_error al b < w)
              ∧ (true_distance al b < 2 ^ 31 →
                 pos_error al b = true_distance al b
                 ∧ ∀ al', set_correctness ss sep al w = Ok al' →
                          (correct al' = 1 → true_distance al b < w)
                          ∧ (true_distance al b = w → correct al' ≠ 1))
              ∧ (mate_flag al ≠ "2"%char → signed_digits (sb_score b) →
                 sb_ref b = rname al → sb_strand b = strand_char al →
                 pos_error al b < w →
                 set_correctness ss sep al w = Ok (set_correct 1 al)))
      ∧ (∀ n, wf_wgsim n → Forall (field_char "_") (rname al) →
              sim_named ss name = false → name = wgsim_text n →
              (∀ al', set_correctness ss sep al w = Ok al' →
                      correct al' = 1 →
                      wg_ref n = rname al ∧ wgsim_error al n < w)
              ∧ (wgsim_distance al n < 2 ^ 31 →
                 wgsim_error al n = wgsim_distance al n
                 ∧ ∀ al', set_correctness ss sep al w = Ok al' →
                          (correct al' = 1 → wgsim_distance al n < w)
                          ∧ (wgsim_distance al n = w → correct al' ≠ 1))
              ∧ (wgsim_shaped name = true → wg_ref n = rname al →
                 wgsim_error al n < w →
                 set_correctness ss sep al w = Ok (set_correct 1 al))).
Proof.
  split; [vm_compute; repeat split; reflexivity|].
  split; [vm_compute; repeat split; reflexivity|].
  split; [vm_compute; repeat split; reflexivity|].
  intros ss sep al w name after Hwf Hrec.
  split.
  { intros al' Hq Hr Hf Hp Hc. rewrite !label_of_run.
    rewrite (set_correctness_run_inputs ss sep al al' w Hq Hr Hf Hp Hc).
    reflexivity. }
  split.
  - intros b Hb Hr Ho.
    assert (Hone : ∀ al', set_correctness ss sep al w = Ok al' →
                          correct al' = 1 →
                          sb_ref b = rname al ∧ sb_strand b = strand_char al
                          ∧ pos_error al b < w).
    { intros al' Hal' H1. apply set_correctness_label in Hal'.
      destruct Hal' as [Hrun _].
      apply (sim_label_one ss sep al w name after b Hwf Hrec Hb Hr Ho).
      rewrite Hrun. exact H1. }
    split; [exact Hone|]. split.
    + intros Hrange.
      assert (E : pos_error al b = true_distance al b).
      { unfold pos_error, true_distance in *. apply c_abs_fits. exact Hrange. }
      split; [exact E|]. intros al' Hal'. split.
      * intros H1. destruct (Hone al' Hal' H1) as (_ & _ & Hlt). lia.
      * intros Hw H1. destruct (Hone al' Hal' H1) as (_ & _ & Hlt). lia.
    + intros Hm2 Hsig Eref Estr Herr.
      apply set_correctness_of_run.
      exact (sim_label_one_intro ss sep al w name after b
               Hwf Hrec Hb Hsig Hr Ho Hm2 Eref Estr Herr).
  - intros n Hn Hr Hs Hname.
    assert (Hone : ∀ al', set_correctness ss sep al w = Ok al' →
                          correct al' = 1 →
                          wg_ref n = rname al ∧ wgsim_error al n < w).
    { intros al' Hal' H1. apply set_correctness_label in Hal'.
      destruct Hal' as [Hrun _].
      apply (wgsim_label_one ss sep al w name after n Hrec Hn Hr Hs Hname).
      rewrite Hrun. exact H1. }
    split; [exact Hone|]. split.
    + intros Hrange.
      assert (E : wgsim_error al n = wgsim_distance al n).
      { unfold wgsim_error, wgsim_distance in *. apply c_abs_fits. exact Hrange. }
      split; [exact E|]. intros al' Hal'. split.
      * intros H1. destruct (Hone al' Hal' H1) as (_ & Hlt). lia.
      * intros Hw H1. destruct (Hone al' Hal' H1) as (_ & Hlt). lia.
    + intros Hshape Eref Herr.
      apply set_correctness_of_run.
      exact (wgsim_label_one_intro ss sep al w name after n
               Hrec Hn Hs Hshape Hname Eref Herr).
Qed.

(** C8 at two reads within the range of an [int]: one named in the tool's
    own scheme and reported five bases off, one named in the second scheme
    and reported seven bases off.  Each is "correct" with a wiggle one above
    its distance and not with a wiggle equal to it. *)
Lemma wiggle_test_wraps_at_32_bits_witness :
  label_of (set_correctness (chars "qsim") "!" sim_example_record 6) = Ok 1
  ∧ label_of (set_correctness (chars "qsim") "!" sim_example_record 5) = Ok 0
  ∧ label_of (set_correctness (chars "qsim") "!" wgsim_example_record 8) = Ok 1
  ∧ label_of (set_correctness (chars "qsim") "!" wgsim_example_record 7) = Ok 0.
Proof.
  assert (Hwf : wf_sim_constants (chars "qsim") "!").
  { unfold wf_sim_constants. repeat split; try reflexivity; try discriminate.
    vm_compute. intros H.
    repeat (destruct H as [H|H]; [discriminate|]). exact H. }
  assert (Hrec1 : names_record sim_example_record
                    (chars "qsim!chr1!+!99!-12!u") []).
  { unfold names_record. repeat split; try reflexivity.
    vm_compute. intros H.
    repeat (destruct H as [H|H]; [discriminate|]). exact H. }
  assert (Hrec2 : names_record wgsim_example_record
                    (wgsim_text wgsim_example_name) []).
  { unfold names_record. repeat split; try reflexivity.
    vm_compute. intros H.
    repeat (destruct H as [H|H]; [discriminate|]). exact H. }
  assert (Hb : wf_block "!" sim_example_block).
  { unfold wf_block, field_char. cbn.
    repeat first [split | constructor | reflexivity | discriminate]. }
  assert (Hr1 : Forall (field_char "!") (rname sim_example_record)).
  { unfold field_char. cbn.
    repeat first [split | constructor | reflexivity | discriminate]. }
  assert (Ho : names_origin (chars "qsim") "!" sim_example_record
                 (chars "qsim!chr1!+!99!-12!u") sim_example_block).
  { apply origin_unpaired; reflexivity. }
  assert (Hn : wf_wgsim wgsim_example_name).
  { unfold wf_wgsim, all_digits, field_char. cbn.
    repeat first [split | constructor | reflexivity | discriminate]. }
  assert (Hr2 : Forall (field_char "_") (rname wgsim_example_record)).
  { unfold field_char. cbn.
    repeat first [split | constructor | reflexivity | discriminate]. }
  pose proof wiggle_test_wraps_at_32_bits as (_ & _ & _ & T).
  split; [|split; [|split]].
  - destruct (T (chars "qsim") "!"%char sim_example_record 6 _ [] Hwf Hrec1)
      as (_ & Hsim & _).
    destruct (Hsim sim_example_block Hb Hr1 Ho) as (_ & _ & Hconv).
    rewrite Hconv; [reflexivity | discriminate | | reflexivity | reflexivity
                    | reflexivity].
    exists (chars "12"). split; [|right; reflexivity].
    repeat constructor.
  - destruct (T (chars "qsim") "!"%char sim_example_record 5 _ [] Hwf Hrec1)
      as (_ & Hsim & _).
    destruct (Hsim sim_example_block Hb Hr1 Ho) as (_ & Hbound & _).
    destruct Hbound as [_ Hb5]; [vm_compute; reflexivity|].
    destruct (set_correctness (chars "qsim") "!" sim_example_record 5)
      as [al'|f] eqn:E; [|revert E; vm_compute; discriminate].
    destruct (Hb5 al' eq_refl) as [_ Hne].
    assert (H01 : correct al' = 0 ∨ correct al' = 1).
    { revert E. vm_compute. intros E. injection E as <-. left. reflexivity. }
    cbn [label_of]. destruct H01 as [-> | H1]; [reflexivity|].
    exfalso. apply Hne; [reflexivity | exact H1].
  - destruct (T (chars "qsim") "!"%char wgsim_example_record 8 _ [] Hwf Hrec2)
      as (_ & _ & Hwg).
    destruct (Hwg wgsim_example_name Hn Hr2 eq_refl eq_refl) as (_ & _ & Hconv).
    rewrite Hconv; reflexivity.
  - destruct (T (chars "qsim") "!"%char wgsim_example_record 7 _ [] Hwf Hrec2)
      as (_ & _ & Hwg).
    destruct (Hwg wgsim_example_name Hn Hr2 eq_refl eq_refl) as (_ & Hbound & _).
    destruct Hbound as [_ Hb7]; [vm_compute; reflexivity|].
    destruct (set_correctness (chars "qsim") "!" wgsim_example_record 7)
      as [al'|f] eqn:E; [|revert E; vm_compute; discriminate].
    destruct (Hb7 al' eq_refl) as [_ Hne].
    assert (H01 : correct al' = 0 ∨ correct al' = 1).
    { revert E. vm_compute. intros E. injection E as <-. left. reflexivity. }
    cbn [label_of]. destruct H01 as [-> | H1]; [reflexivity|].
    exfalso. apply Hne; [reflexivity | exact H1].
Defined.

(** * Further properties of the code *)

(** ** The CIGAR parser *)

Lemma digit_val_nonneg c : isdigit c = true → 0 ≤ digit_val c ≤ 9.
Proof.
  unfold isdigit, digit_val, char_to_int. intros H.
  apply andb_true_iff in H. destruct H as [H1 H2].
  apply Z.leb_le in H1, H2.
  replace (code "0" <? 128) with true by reflexivity.
  replace (code "0") with 48 by reflexivity.
  replace (code c <? 128) with true by (symmetry; apply Z.ltb_lt; lia).
  lia.
Qed.

Lemma digits_val_nonneg ds : ∀ v,
  all_digits ds → 0 ≤ v → 0 ≤ digits_val v ds.
Proof.
  unfold digits_val.
  induction ds as [|d ds IH]; intros v Hds Hv; cbn [fold_left]; [exact Hv|].
  inversion Hds as [|? ? Hd Hds']; subst.
  apply IH; [exact Hds'|].
  pose proof (digit_val_nonneg d Hd). lia.
Qed.

Lemma digits_val_cons c ds v :
  digits_val v (c :: ds) = digits_val (v * 10 + digit_val c) ds.
Proof. reflexivity. Qed.

Lemma parse_cigar_loop_digits ds : ∀ r c s al,
  all_digits ds → isdigit c = false →
  parse_cigar_loop (ds ++ c :: s) (Some r) al
  = parse_cigar_loop (c :: s) (Some (int_digits r ds)) al.
Proof.
  induction ds as [|d ds IH]; intros r c s al Hds Hc; [reflexivity|].
  inversion Hds as [|? ? Hd Hds']; subst.
  cbn [app parse_cigar_loop]. rewrite Hd. rewrite IH by assumption.
  reflexivity.
Qed.

Lemma item_run_int_digits it : item_run it = int_digits 0 (fst it).
Proof. unfold item_run. symmetry. apply int_digits_int32. lia. Qed.

Lemma op_not_digit c : isalpha c || ch_eqb c "=" = true → isdigit c = false.
Proof.
  intros H. unfold isdigit, isalpha in *. apply orb_true_iff in H.
  apply andb_false_iff.
  destruct H as [H | H].
  - apply orb_true_iff in H.
    destruct H as [H | H]; apply andb_true_iff in H; destruct H as [H1 H2];
      apply Z.leb_le in H1, H2; right; apply Z.leb_gt; lia.
  - apply ch_eqb_eq in H. subst c. right. reflexivity.
Qed.

(** One run and its operation. *)
Lemma parse_cigar_loop_item it s al :
  cigar_item_ok it →
  parse_cigar_loop (fst it ++ snd it :: s) None al
  = parse_cigar_loop s None (cigar_push al (item_run it) (snd it) (is_nil s)).
Proof.
  destruct it as [ds c]. intros (Hne & Hds & Hop). cbn [fst snd] in *.
  destruct ds as [|d ds]; [congruence|].
  inversion Hds as [|? ? Hd Hds']; subst.
  cbn [app parse_cigar_loop]. rewrite Hd. cbn [assert mbind result_bind].
  rewrite (parse_cigar_loop_digits ds _ c s al Hds' (op_not_digit c Hop)).
  cbn [parse_cigar_loop]. rewrite (op_not_digit c Hop), Hop.
  cbn [assert mbind result_bind].
  rewrite (item_run_int_digits (d :: ds, c)). reflexivity.
Qed.

Lemma cigar_push_fields al r c last :
  cigar_ops (cigar_push al r c last) = cigar_ops al ++ [c]
  ∧ cigar_run (cigar_push al r c last) = cigar_run al ++ [r]
  ∧ left_clip (cigar_push al r c last)
    = (if is_nil (cigar_ops al) && ch_eqb c "S" then r else left_clip al)
  ∧ right_clip (cigar_push al r c last)
    = (if negb (is_nil (cigar_ops al)) && last && ch_eqb c "S" then r
       else right_clip al)
  ∧ cigar_equal_x (cigar_push al r c last)
    = cigar_equal_x al || is_eq_x c.
Proof.
  unfold cigar_push, is_eq_x.
  destruct (is_nil (cigar_ops al)), last, (ch_eqb c "S"), (ch_eqb c "X"),
    (ch_eqb c "="), al; cbn; rewrite ?orb_true_r, ?orb_false_r;
    repeat split; reflexivity.
Qed.
Lemma cigar_text_nil_iff items :
  Forall cigar_item_ok items → is_nil (cigar_text items) = is_nil items.
Proof.
  intros H. destruct items as [|[ds c] items]; [reflexivity|].
  cbn [cigar_text flat_map fst snd]. destruct ds; reflexivity.
Qed.

Lemma cigar_text_cons it items :
  cigar_text (it :: items) = fst it ++ snd it :: cigar_text items.
Proof.
  unfold cigar_text. cbn [flat_map]. rewrite <- app_assoc. reflexivity.
Qed.

Lemma closing_clip_after_cons it items d :
  items ≠ [] →
  closing_clip_after (it :: items) d = closing_clip_after items d.
Proof.
  intros Hne. unfold closing_clip_after. cbn [rev].
  destruct (rev items) as [|x l] eqn:E.
  - apply (f_equal (@rev _)) in E. rewrite rev_involutive in E.
    cbn in E. congruence.
  - reflexivity.
Qed.

Lemma closing_clip_cons it items d :
  items ≠ [] → closing_clip (it :: items) d = closing_clip_after items d.
Proof.
  intros Hne. unfold closing_clip, closing_clip_after. cbn [rev].
  destruct (rev items) as [|x l] eqn:E.
  - apply (f_equal (@rev _)) in E. rewrite rev_involutive in E.
    cbn in E. congruence.
  - cbn [app]. destruct l; reflexivity.
Qed.

(** The runs that follow operations already read. *)
Lemma parse_cigar_loop_items_after items : ∀ al,
  Forall cigar_item_ok items → cigar_ops al ≠ [] →
  ∃ al', parse_cigar_loop (cigar_text items) None al = Ok al'
    ∧ cigar_ops al' = cigar_ops al ++ map snd items
    ∧ cigar_run al' = cigar_run al ++ map item_run items
    ∧ left_clip al' = left_clip al
    ∧ right_clip al' = closing_clip_after items (right_clip al)
    ∧ cigar_equal_x al' = cigar_equal_x al || existsb is_eq_x (map snd items).
Proof.
  induction items as [|it items IH]; intros al Hok Hne.
  - exists al. cbn. rewrite !app_nil_r, orb_false_r. repeat split.
  - inversion Hok as [|? ? Hit Hok']; subst.
    rewrite cigar_text_cons, (parse_cigar_loop_item it _ al Hit).
    rewrite (cigar_text_nil_iff items Hok').
    destruct (cigar_push_fields al (item_run it) (snd it) (is_nil items))
      as (Fo & Fr & Fl & Frc & Fx).
    assert (Hnil : is_nil (cigar_ops al) = false)
      by (destruct (cigar_ops al); [congruence | reflexivity]).
    rewrite Hnil in Fl, Frc. cbn [andb negb] in Fl, Frc.
    destruct (IH (cigar_push al (item_run it) (snd it) (is_nil items)) Hok')
      as (al' & Hrun & Ho & Hr & Hl & Hrc & Hx).
    { rewrite Fo. destruct (cigar_ops al); discriminate. }
    exists al'. split; [exact Hrun|].
    rewrite Ho, Hr, Hl, Hrc, Hx, Fo, Fr, Fl, Frc, Fx.
    cbn [map existsb]. rewrite <- !app_assoc, orb_assoc. cbn [app].
    repeat split.
    destruct items as [|it2 items].
    + cbn [is_nil closing_clip_after rev app].
      destruct (ch_eqb (snd it) "S"); reflexivity.
    + cbn [is_nil andb].
      rewrite (closing_clip_after_cons it (it2 :: items)) by discriminate.
      reflexivity.
Qed.

(** A whole CIGAR string, read into a record without operations. *)
Lemma parse_cigar_loop_items items al :
  Forall cigar_item_ok items → cigar_ops al = [] → cigar_run al = [] →
  ∃ al', parse_cigar_loop (cigar_text items) None al = Ok al'
    ∧ cigar_ops al' = map snd items
    ∧ cigar_run al' = map item_run items
    ∧ left_clip al' = leading_clip items (left_clip al)
    ∧ right_clip al' = closing_clip items (right_clip al)
    ∧ cigar_equal_x al' = cigar_equal_x al || existsb is_eq_x (map snd items).
Proof.
  intros Hok Ho Hr.
  destruct items as [|it items].
  - exists al. cbn. rewrite Ho, Hr, orb_false_r. repeat split.
  - inversion Hok as [|? ? Hit Hok']; subst.
    rewrite cigar_text_cons, (parse_cigar_loop_item it _ al Hit).
    rewrite (cigar_text_nil_iff items Hok').
    destruct (cigar_push_fields al (item_run it) (snd it) (is_nil items))
      as (Fo & Fr & Fl & Frc & Fx).
    rewrite Ho in Fo, Fl, Frc. rewrite Hr in Fr.
    cbn [is_nil andb negb app] in Fo, Fr, Fl, Frc.
    destruct (parse_cigar_loop_items_after items
                (cigar_push al (item_run it) (snd it) (is_nil items)) Hok')
      as (al' & Hrun & Ho' & Hr' & Hl' & Hrc' & Hx').
    { rewrite Fo. discriminate. }
    exists al'. split; [exact Hrun|].
    rewrite Ho', Hr', Hl', Hrc', Hx', Fo, Fr, Fl, Frc, Fx.
    cbn [map existsb leading_clip app]. rewrite orb_assoc.
    repeat split.
    destruct items as [|it2 items]; [reflexivity|].
    rewrite (closing_clip_cons it (it2 :: items)) by discriminate. reflexivity.
Qed.

(** What [parse_cigar]'s loop has read when it returns. *)
Lemma parse_cigar_loop_inv s : ∀ run al al',
  parse_cigar_loop s run al = Ok al' →
  match run with
  | None => ∃ items, Forall cigar_item_ok items ∧ s = cigar_text items
  | Some _ =>
      ∃ ds c items, all_digits ds ∧ isalpha c || ch_eqb c "=" = true
        ∧ Forall cigar_item_ok items ∧ s = ds ++ c :: cigar_text items
  end.
Proof.
  induction s as [|c s IH]; intros run al al' H; cbn [parse_cigar_loop] in H.
  - destruct run; [discriminate|]. exists []. split; [constructor|reflexivity].
  - destruct run as [r|].
    + destruct (isdigit c) eqn:Ed.
      * destruct (IH _ _ _ H) as (ds & c' & items & Hds & Hc & Hit & ->).
        exists (c :: ds), c', items. repeat split; try assumption.
        constructor; assumption.
      * binv H as [] Ha. apply assert_Ok_inv in Ha.
        destruct (IH _ _ _ H) as (items & Hit & ->).
        exists [], c, items. repeat split; try assumption. constructor.
    + binv H as [] Ha. apply assert_Ok_inv in Ha.
      destruct (IH _ _ _ H) as (ds & c' & items & Hds & Hc & Hit & ->).
      exists ((c :: ds, c') :: items). split.
      * constructor; [|exact Hit]. repeat split; cbn [fst snd].
        -- discriminate.
        -- constructor; assumption.
        -- exact Hc.
      * rewrite cigar_text_cons. reflexivity.
Qed.

Lemma parse_cigar_loop_fault s : ∀ run al f,
  parse_cigar_loop s run al = Err f → f = AssertFailed.
Proof.
  induction s as [|c s IH]; intros run al f H; cbn [parse_cigar_loop] in H.
  - destruct run; congruence.
  - destruct run as [r|].
    + destruct (isdigit c); [eapply IH; exact H|].
      destruct (isalpha c || ch_eqb c "="); cbn in H;
        [eapply IH; exact H | congruence].
    + destruct (isdigit c); cbn in H; [eapply IH; exact H | congruence].
Qed.
Lemma cigar_to_edit_xscript_fault al f :
  cigar_to_edit_xscript al = Err f → f = AssertFailed.
Proof.
  unfold cigar_to_edit_xscript. intros H.
  destruct (cigar_equal_x al); cbn in H; [|congruence].
  destruct (is_nil (edit_xscript al)); cbn in H; [|congruence].
  destruct (cigar_to_edit_xscript_loop (cigar_ops al) (cigar_run al)
              (edit_xscript al)) as [xs|f'] eqn:E; cbn in H; [discriminate|].
  injection H as <-. clear -E.
  revert E. generalize (cigar_run al) (edit_xscript al).
  induction (cigar_ops al) as [|c ops IH]; intros runs xs E;
    destruct runs as [|r runs]; cbn in E; try congruence.
  destruct (negb (ch_eqb c "M") && negb (ch_eqb c "P")); cbn in E;
    [eapply IH; exact E | congruence].
Qed.

(** X1.  [parse_cigar] accepts exactly the strings made of runs, each a
    non-empty decimal number followed by a letter or [=].  When it returns,
    [cigar_ops] and [cigar_run] hold the operations and the runs, in order.
    A run is read into an [int]: it is the value of the number when that is
    below 2^31, and in general the value reduced to 32 bits (the run of
    "4294967298M" is 2).  [left_clip] is the first run when the first
    operation is [S], [right_clip] is the last run when the last operation
    is [S] and is not also the first (a string with the single run [5S] sets
    [left_clip] only).  It returns for every such string without [=] and
    [X]; every other string, such as the "*" of a record without CIGAR,
    fails an assertion. *)
Theorem parse_cigar_reads_runs al s :
  cigar al = Some s → ¬ In NUL s → cigar_ops al = [] → cigar_run al = [] →
  cigar_equal_x al = false →
  (∀ al', parse_cigar al = Ok al' →
     ∃ items, Forall cigar_item_ok items ∧ s = cigar_text items
       ∧ cigar_ops al' = map snd items
       ∧ cigar_run al' = map item_run items
       ∧ left_clip al' = leading_clip items (left_clip al)
       ∧ right_clip al' = closing_clip items (right_clip al)
       ∧ cigar_equal_x al' = existsb is_eq_x (map snd items)
       ∧ Forall (fun it => digits_val 0 (fst it) < 2 ^ 31 →
                           item_run it = digits_val 0 (fst it)) items)
  ∧ (∀ items, Forall cigar_item_ok items → s = cigar_text items →
       existsb is_eq_x (map snd items) = false →
       ∃ al', parse_cigar al = Ok al')
  ∧ ((∀ items, Forall cigar_item_ok items → s ≠ cigar_text items) →
     parse_cigar al = Err AssertFailed).
Proof.
  intros Hc Hnul Ho Hr Hx.
  assert (Hs : take (strlen s) s = s)
    by (rewrite (strlen_no_NUL _ Hnul); apply firstn_all).
  unfold parse_cigar. rewrite Ho, Hr, Hc, Hs.
  cbn [is_nil assert mbind result_bind].
  split; [|split].
  - intros al' H. binv H as al0 Hloop.
    destruct (parse_cigar_loop_inv s None al al0 Hloop) as (items & Hok & ->).
    destruct (parse_cigar_loop_items items al Hok Ho Hr)
      as (al1 & Hrun & Fo & Fr & Fl & Frc & Fx).
    rewrite Hloop in Hrun. injection Hrun as <-.
    rewrite Hx in Fx. cbn [orb] in Fx.
    exists items. split; [exact Hok|]. split; [reflexivity|].
    assert (Hfit : Forall (fun it => digits_val 0 (fst it) < 2 ^ 31 →
                                     item_run it = digits_val 0 (fst it))
                     items).
    { clear -Hok. induction Hok as [|it items Hit _ IH]; constructor; [|exact IH].
      intros Hlt. destruct Hit as (_ & Hds & _).
      unfold item_run. apply int32_fits.
      pose proof (digits_val_nonneg (fst it) 0 Hds ltac:(lia)). lia. }
    destruct (cigar_equal_x al0) eqn:Ex.
    + rewrite (cigar_to_edit_xscript_frame cigar_ops
                 ltac:(intros ? []; reflexivity) _ _ H),
        (cigar_to_edit_xscript_frame cigar_run
                 ltac:(intros ? []; reflexivity) _ _ H),
        (cigar_to_edit_xscript_frame left_clip
                 ltac:(intros ? []; reflexivity) _ _ H),
        (cigar_to_edit_xscript_frame right_clip
                 ltac:(intros ? []; reflexivity) _ _ H),
        (cigar_to_edit_xscript_frame cigar_equal_x
                 ltac:(intros ? []; reflexivity) _ _ H).
      rewrite Ex. repeat split; assumption.
    + injection H as <-. rewrite Ex. repeat split; assumption.
  - intros items Hok -> Hplain.
    destruct (parse_cigar_loop_items items al Hok Ho Hr)
      as (al1 & Hrun & _ & _ & _ & _ & Fx).
    rewrite Hrun. cbn [mbind result_bind].
    rewrite Fx, Hx, Hplain. cbn [orb]. eauto.
  - intros Hnot.
    destruct (parse_cigar_loop s None al) as [al0|f] eqn:Hloop.
    + destruct (parse_cigar_loop_inv s None al al0 Hloop) as (items & Hok & E).
      exfalso. exact (Hnot items Hok E).
    + cbn [mbind result_bind].
      rewrite (parse_cigar_loop_fault _ _ _ _ Hloop). reflexivity.
Qed.

(** X1 for the string "2S3M1I", which is accepted, and for the string
    "4294967298M", whose run is read as 2. *)
Lemma parse_cigar_reads_runs_witness :
  (∃ al', parse_cigar cigar_2S3M1I_input = Ok al')
  ∧ (∃ al', parse_cigar cigar_long_run_input = Ok al' ∧ cigar_run al' = [2]).
Proof.
  split.
  2:{ eexists. split; [vm_compute; reflexivity | reflexivity]. }
  assert (Hnul : ¬ In NUL (chars "2S3M1I")).
  { cbn. intros H. repeat (destruct H as [H|H]; [discriminate|]). exact H. }
  destruct (parse_cigar_reads_runs cigar_2S3M1I_input (chars "2S3M1I")
              eq_refl Hnul eq_refl eq_refl eq_refl) as (_ & T & _).
  apply (T [(chars "2", "S"%char); (chars "3", "M"%char);
            (chars "1", "I"%char)]); [|reflexivity|reflexivity].
  repeat constructor; discriminate.
Defined.

(** ** The MD:Z parser *)

Lemma take_strlen_app pre rest :
  ¬ In NUL pre →
  take (strlen (pre ++ rest)) (pre ++ rest) = pre ++ take (strlen rest) rest.
Proof.
  induction pre as [|a pre IH]; intros Hnul; [reflexivity|].
  cbn [app strlen]. rewrite (proj2 (ch_eqb_neq a NUL))
    by (intros ->; apply Hnul; left; reflexivity).
  cbn [take]. rewrite IH; [reflexivity|].
  intros Hin. apply Hnul. right. exact Hin.
Qed.

Lemma mdz_to_list_loop_stuck pre : ∀ c rest m al,
  Forall (fun x => mdz_char_ok x = true) pre →
  mdz_char_ok c = false →
  mdz_to_list_loop (pre ++ c :: rest) m al = Err Diverges.
Proof.
  induction pre as [|x pre IH]; intros c rest m al Hpre Hc;
    cbn [app mdz_to_list_loop].
  - unfold mdz_char_ok in Hc. apply orb_false_iff in Hc.
    destruct Hc as [Hc Hhat]. apply orb_false_iff in Hc.
    destruct Hc as [Hd Ha].
    assert (Hcont : mdz_continues m c = false)
      by (destruct m; cbn; first [reflexivity | assumption]).
    rewrite Hcont. unfold mdz_open. rewrite Hd, Ha, Hhat. reflexivity.
  - inversion Hpre as [|? ? Hx Hpre']; subst.
    destruct (mdz_continues m x).
    + destruct (mdz_more m x al) as [m' al']. apply IH; assumption.
    + unfold mdz_open. unfold mdz_char_ok in Hx.
      destruct (isdigit x); cbn [mbind result_bind];
        [apply IH; assumption|].
      destruct (isalpha x); cbn [mbind result_bind];
        [apply IH; assumption|].
      cbn [orb] in Hx. rewrite Hx. cbn [mbind result_bind].
      apply IH; assumption.
Qed.

Lemma mdz_char_ok_not_NUL pre :
  Forall (fun x => mdz_char_ok x = true) pre → ¬ In NUL pre.
Proof.
  intros H Hin. rewrite Forall_forall in H. apply list_elem_of_In in Hin.
  specialize (H _ Hin). discriminate.
Qed.

(** X2.  [mdz_to_list] never returns from an MD:Z string that holds a
    character other than a digit, a letter or [^]: the loop reports the
    character and does not step over it.  The newline that ends the line is
    such a character, so a record whose last field is MD:Z stops the run
    there. *)
Theorem mdz_to_list_stuck_at_unknown_character al pre c post :
  mdz al = Some (pre ++ c :: post) →
  mdz_char al = [] → mdz_oro al = [] →
  Forall (fun x => mdz_char_ok x = true) pre →
  mdz_char_ok c = false → c ≠ NUL →
  mdz_to_list al = Err Diverges.
Proof.
  intros Hm Hch Horo Hpre Hc Hc0.
  unfold mdz_to_list. rewrite Hch, Horo, Hm.
  cbn [is_nil assert mbind result_bind].
  rewrite (take_strlen_app pre (c :: post) (mdz_char_ok_not_NUL pre Hpre)).
  cbn [strlen]. rewrite (proj2 (ch_eqb_neq c NUL) Hc0). cbn [take].
  apply mdz_to_list_loop_stuck; assumption.
Qed.

(** X2 for the string "10" followed by a newline. *)
Lemma mdz_to_list_stuck_at_unknown_character_witness :
  mdz_to_list mdz_with_newline_input = Err Diverges.
Proof.
  apply (mdz_to_list_stuck_at_unknown_character mdz_with_newline_input
           (chars "10") "010"%char []); try reflexivity.
  - repeat constructor.
  - discriminate.
Defined.

Lemma op_not_alpha_digit c : isdigit c = true → isalpha c = false.
Proof.
  unfold isdigit, isalpha. intros H.
  apply andb_true_iff in H. destruct H as [H1 H2].
  apply Z.leb_le in H1, H2.
  apply orb_false_iff.
  split; apply andb_false_iff; left; apply Z.leb_gt; lia.
Qed.

Lemma oro_sound_mono n n' e : n ≤ n' → oro_sound n e → oro_sound n' e.
Proof.
  intros Hle [H | (Ho & Hr & Hoff & Hb)]; [left; exact H|].
  right. repeat split; try assumption. lia.
Qed.

(** The loop of [mdz_to_list] keeps the run list sound and collects the
    letters of the string. *)
Lemma mdz_to_list_loop_sound s : ∀ m al,
  Forall (fun x => mdz_char_ok x = true) s →
  Forall (oro_sound (Z.of_nat (length (mdz_char al)) - mdz_pending m))
         (mdz_oro al) →
  0 ≤ mdz_pending m ≤ Z.of_nat (length (mdz_char al)) →
  mdz_mode_ok m →
  ∃ al', mdz_to_list_loop s m al = Ok al'
    ∧ mdz_char al' = mdz_char al ++ List.filter isalpha s
    ∧ Forall (oro_sound (Z.of_nat (length (mdz_char al')))) (mdz_oro al').
Proof.
  assert (Hclose : ∀ m al,
    Forall (oro_sound (Z.of_nat (length (mdz_char al)) - mdz_pending m))
           (mdz_oro al) →
    0 ≤ mdz_pending m ≤ Z.of_nat (length (mdz_char al)) →
    mdz_char (mdz_close m al) = mdz_char al
    ∧ Forall (oro_sound (Z.of_nat (length (mdz_char al))))
             (mdz_oro (mdz_close m al))).
  { intros m al Hs Hp.
    assert (Hs' : Forall (oro_sound (Z.of_nat (length (mdz_char al))))
                    (mdz_oro al)).
    { eapply Forall_impl; [exact Hs|]. intros e. apply oro_sound_mono. lia. }
    destruct m as [|r|r|r]; cbn [mdz_close mdz_pending] in *.
    - split; [reflexivity | exact Hs'].
    - destruct (0 <? r) eqn:E.
      + destruct al; cbn in *. split; [reflexivity|].
        apply Forall_app. split; [exact Hs'|].
        constructor; [|constructor]. left. cbn. apply Z.ltb_lt in E. auto.
      + split; [reflexivity | exact Hs'].
    - unfold push_oro. destruct al; cbn in *. split; [reflexivity|].
      apply Forall_app. split; [exact Hs'|].
      constructor; [|constructor]. right. cbn.
      repeat split; try lia; auto.
    - unfold push_oro. destruct al; cbn in *. split; [reflexivity|].
      apply Forall_app. split; [exact Hs'|].
      constructor; [|constructor]. right. cbn.
      repeat split; try lia; auto. }
  induction s as [|c s IH]; intros m al Hok Hs Hp Hm;
    cbn [mdz_to_list_loop].
  - destruct (Hclose m al Hs Hp) as [Ec Hf].
    eexists. split; [reflexivity|]. rewrite Ec. cbn [List.filter].
    rewrite app_nil_r. split; [reflexivity | exact Hf].
  - inversion Hok as [|? ? Hc Hok']; subst.
    destruct (mdz_continues m c) eqn:Econt.
    + destruct m as [|r|r|r]; cbn [mdz_continues] in Econt;
        [discriminate| | |]; cbn [mdz_more].
      * (* further digits *)
        destruct (IH (MdzMatch (int32 (int32 (r * 10) + digit_val c))) al Hok')
          as (al' & Hrun & Hch & Hf).
        { exact Hs. } { exact Hp. }
        { cbn [mdz_mode_ok]. apply int32_range. }
        exists al'. split; [exact Hrun|]. split; [|exact Hf].
        rewrite Hch. cbn [List.filter].
        rewrite (op_not_alpha_digit c Econt). reflexivity.
      * destruct (IH (MdzMismatch (r + 1))
                    (set_mdz_char (mdz_char al ++ [c]) al) Hok') as
          (al' & Hrun & Hch & Hf).
        { destruct al; cbn in *. rewrite length_app. cbn [length].
          eapply Forall_impl; [exact Hs|]. intros e. apply oro_sound_mono.
          lia. }
        { destruct al; cbn in *. rewrite length_app. cbn [length]. lia. }
        { exact I. }
        exists al'. split; [exact Hrun|]. split; [|exact Hf].
        rewrite Hch. destruct al; cbn [mdz_char set_mdz_char List.filter].
        rewrite Econt, <- app_assoc. reflexivity.
      * destruct (IH (MdzDeletion (r + 1))
                    (set_mdz_char (mdz_char al ++ [c]) al) Hok') as
          (al' & Hrun & Hch & Hf).
        { destruct al; cbn in *. rewrite length_app. cbn [length].
          eapply Forall_impl; [exact Hs|]. intros e. apply oro_sound_mono.
          lia. }
        { destruct al; cbn in *. rewrite length_app. cbn [length]. lia. }
        { exact I. }
        exists al'. split; [exact Hrun|]. split; [|exact Hf].
        rewrite Hch. destruct al; cbn [mdz_char set_mdz_char List.filter].
        rewrite Econt, <- app_assoc. reflexivity.
    + destruct (Hclose m al Hs Hp) as [Ec Hf0].
      unfold mdz_open. unfold mdz_char_ok in Hc.
      destruct (isdigit c) eqn:Ed; cbn [mbind result_bind].
      * destruct (IH (MdzMatch (int32 (int32 (0 * 10) + digit_val c)))
                    (mdz_close m al) Hok')
          as (al' & Hrun & Hch & Hf).
        { cbn [mdz_pending]. rewrite Z.sub_0_r, Ec. exact Hf0. }
        { cbn [mdz_pending]. lia. }
        { cbn [mdz_mode_ok]. apply int32_range. }
        exists al'. split; [exact Hrun|]. split; [|exact Hf].
        rewrite Hch, Ec. cbn [List.filter].
        rewrite (op_not_alpha_digit c Ed). reflexivity.
      * destruct (isalpha c) eqn:Ea; cbn [mbind result_bind].
        -- destruct (IH (MdzMismatch (0 + 1))
                       (set_mdz_char (mdz_char (mdz_close m al) ++ [c])
                          (mdz_close m al)) Hok')
             as (al' & Hrun & Hch & Hf).
           { destruct (mdz_close m al); cbn in *. rewrite length_app.
             cbn [length]. rewrite Ec in *.
             eapply Forall_impl; [exact Hf0|]. intros e.
             apply oro_sound_mono. lia. }
           { destruct (mdz_close m al); cbn in *. rewrite length_app.
             cbn [length]. lia. }
           { exact I. }
           exists al'. split; [exact Hrun|]. split; [|exact Hf].
           rewrite Hch.
           destruct (mdz_close m al);
             cbn [mdz_char set_mdz_char List.filter] in *.
           rewrite Ea, <- app_assoc, Ec. reflexivity.
        -- cbn [orb] in Hc. rewrite Hc. cbn [mbind result_bind].
           destruct (IH (MdzDeletion 0) (mdz_close m al) Hok')
             as (al' & Hrun & Hch & Hf).
           { cbn [mdz_pending]. rewrite Z.sub_0_r, Ec. exact Hf0. }
           { cbn [mdz_pending]. lia. }
           { exact I. }
           exists al'. split; [exact Hrun|]. split; [|exact Hf].
           rewrite Hch, Ec. cbn [List.filter]. rewrite Ea. reflexivity.
Qed.

(** X3.  On an MD:Z string of digits, letters and [^], [mdz_to_list]
    returns; [mdz_char] then holds the letters of the string in order, and
    every entry of [mdz_oro] is sound: a match run is positive, and a
    mismatch or deletion run starts at an offset into [mdz_char] and ends
    inside it. *)
Theorem mdz_to_list_sound al s :
  mdz al = Some s → mdz_char al = [] → mdz_oro al = [] →
  Forall (fun x => mdz_char_ok x = true) s →
  ∃ al', mdz_to_list al = Ok al'
    ∧ mdz_char al' = List.filter isalpha s
    ∧ Forall (oro_sound (Z.of_nat (length (mdz_char al')))) (mdz_oro al').
Proof.
  intros Hm Hch Horo Hok.
  unfold mdz_to_list. rewrite Hch, Horo, Hm.
  cbn [is_nil assert mbind result_bind].
  rewrite (strlen_no_NUL _ (mdz_char_ok_not_NUL s Hok)), firstn_all.
  destruct (mdz_to_list_loop_sound s MdzTop al Hok) as (al' & Hrun & Hc & Hf).
  - rewrite Horo. constructor.
  - cbn [mdz_pending]. lia.
  - exact I.
  - exists al'. rewrite Hch in Hc. auto.
Qed.

(** X3 for the string "5A0C^GT3". *)
Lemma mdz_to_list_sound_witness :
  ∃ al', mdz_to_list mdz_5A0CdelGT3_input = Ok al'
    ∧ mdz_char al' = List.filter isalpha (chars "5A0C^GT3")
    ∧ Forall (oro_sound (Z.of_nat (length (mdz_char al')))) (mdz_oro al').
Proof.
  apply (mdz_to_list_sound mdz_5A0CdelGT3_input (chars "5A0C^GT3"));
    try reflexivity.
  repeat constructor.
Defined.

(** ** The two transcript paths *)

Lemma is_nil_app_cons {A} (l : list A) x : is_nil (l ++ [x]) = false.
Proof. destruct l; reflexivity. Qed.

(** X4.  A transcript is built once: on a record that has come out of
    either path, both paths fail an assertion, the direct path and the
    reconciliation path alike. *)
Theorem transcript_is_built_once al a :
  cigar_to_edit_xscript al = Ok a ∨ cigar_and_mdz_to_edit_xscript al = Ok a →
  cigar_to_edit_xscript a = Err AssertFailed
  ∧ cigar_and_mdz_to_edit_xscript a = Err AssertFailed.
Proof.
  intros [H | H].
  - unfold cigar_to_edit_xscript in H.
    binv H as [] Hx. apply assert_Ok_inv in Hx.
    binv H as [] Hn. binv H as xs Hloop. injection H as <-.
    unfold cigar_to_edit_xscript, cigar_and_mdz_to_edit_xscript.
    destruct al; cbn in *. rewrite Hx, is_nil_app_cons. split; reflexivity.
  - unfold cigar_and_mdz_to_edit_xscript in H.
    binv H as [] Hx. apply assert_Ok_inv in Hx.
    binv H as [] Hn. binv H as [[[oro mdo] rdoff] xs] Hloop.
    binv H as [] Hend. injection H as <-.
    unfold cigar_to_edit_xscript, cigar_and_mdz_to_edit_xscript.
    apply negb_true_iff in Hx.
    destruct al; cbn in *. rewrite Hx, is_nil_app_cons. split; reflexivity.
Qed.

(** X4 for the record with the operations [H] and [=]. *)
Lemma transcript_is_built_once_witness :
  match cigar_to_edit_xscript hard_clip_direct_input with
  | Ok a =>
      cigar_to_edit_xscript a = Err AssertFailed
      ∧ cigar_and_mdz_to_edit_xscript a = Err AssertFailed
  | Err _ => False
  end.
Proof.
  assert (Ha : ∃ a, cigar_to_edit_xscript hard_clip_direct_input = Ok a)
    by (vm_compute; eexists; reflexivity).
  destruct Ha as [a Ha]. rewrite Ha.
  apply (transcript_is_built_once hard_clip_direct_input a).
  left. exact Ha.
Defined.

Lemma count_char_repeat c d n :
  count_char c (repeat d n) = if ch_eqb d c then n else 0%nat.
Proof.
  induction n as [|n IH]; cbn [repeat].
  - destruct (ch_eqb d c); reflexivity.
  - rewrite count_char_cons, IH. destruct (ch_eqb d c); lia.
Qed.

Lemma md_total_app o l k : md_total o (l ++ k) = md_total o l + md_total o k.
Proof.
  unfold md_total. induction l as [|e l IH]; cbn [app fold_right]; [lia|].
  rewrite IH. lia.
Qed.

Lemma md_total_drop_S o oro (mdo : nat) e :
  oro !! mdo = Some e →
  md_total o (drop mdo oro)
  = (if op e =? o then run e else 0) + md_total o (drop (S mdo) oro).
Proof. intros He. rewrite (drop_S _ _ _ He). reflexivity. Qed.

Lemma md_total_drop_insert o oro (mdo : nat) e r :
  oro !! mdo = Some e →
  md_total o (drop mdo (<[mdo := set_run r e]> oro))
  = (if op e =? o then r else 0) + md_total o (drop (S mdo) oro).
Proof.
  intros He. pose proof (lookup_lt_Some _ _ _ He) as Hlt.
  rewrite (drop_S (<[mdo := set_run r e]> oro) (set_run r e) mdo)
    by (apply list_lookup_insert_eq; exact Hlt).
  rewrite drop_insert_lt by lia. reflexivity.
Qed.

Lemma runs_in_range_insert oro (mdo : nat) e r :
  runs_in_range oro → 0 ≤ r < 2 ^ 63 →
  runs_in_range (<[mdo := set_run r e]> oro).
Proof.
  intros H Hr. unfold runs_in_range in *.
  apply Forall_insert; [exact H | exact Hr].
Qed.

(** One [M] run: what it writes is what it takes from the runs. *)
Lemma m_loop_balance oro mdo runleft rdoff xs :
  ∀ oro' mdo' rdoff' xs' o,
  runs_in_range oro → o = 0 ∨ o = 1 ∨ o = 2 →
  m_loop oro mdo runleft rdoff xs = Ok (oro', mdo', rdoff', xs') →
  runs_in_range oro'
  ∧ Z.of_nat (count_char (md_char o) xs') + md_total o (drop mdo' oro')
    = Z.of_nat (count_char (md_char o) xs) + md_total o (drop mdo oro).
Proof.
  funelim (m_loop oro mdo runleft rdoff xs).
  - intros ? ? ? ? o Hr Ho [= <- <- <- <-]. split; [exact Hr | reflexivity].
  - intros ? ? ? ? o Hr Ho [= <- <- <- <-]. split; [exact Hr | reflexivity].
  - discriminate.
  - intros oro' mdo' rdoff' xs'' o Hr Ho HH.
    destruct (op e =? 0) eqn:Eop; [|discriminate].
    apply Z.eqb_eq in Eop.
    pose proof (proj1 (Z.ltb_lt _ _) Hlt) as Hlt'.
    pose proof (proj1 (Z.ltb_lt _ _) Hrl) as Hrl'.
    assert (Hre : 0 ≤ run e < 2 ^ 63).
    { unfold runs_in_range in Hr. rewrite Forall_forall in Hr.
      apply Hr. eapply list_elem_of_lookup_2. exact He. }
    unfold m_loop_push in Heq. rewrite Eop in Heq.
    cbn [Z.eqb orb assert mbind result_bind] in Heq. injection Heq as <-.
    destruct (H oro' mdo' rdoff' xs'' o) as [Hr' Hbal]; [|exact Ho|exact HH|].
    { apply runs_in_range_insert; [exact Hr | lia]. }
    split; [exact Hr'|]. rewrite Hbal.
    rewrite (md_total_drop_insert o oro mdo e _ He),
      (md_total_drop_S o oro mdo e He), Eop.
    rewrite count_char_app, count_char_repeat.
    rewrite size_t_iters_small by lia.
    unfold md_char.
    destruct Ho as [-> | [-> | ->]]; cbn [Z.eqb Pos.eqb];
      replace (ch_eqb "=" "=") with true by reflexivity;
      replace (ch_eqb "=" "X") with false by reflexivity;
      replace (ch_eqb "=" "D") with false by reflexivity; lia.
  - intros oro' mdo' rdoff' xs'' o Hr Ho HH.
    pose proof (proj1 (Z.ltb_lt _ _) Hrl) as Hrl'.
    assert (Hge : run e ≤ runleft `min` run e).
    { destruct (runleft `min` run e <? run e) eqn:E; [discriminate|].
      apply Z.ltb_ge in E. exact E. }
    assert (Hre : 0 ≤ run e < 2 ^ 63).
    { unfold runs_in_range in Hr. rewrite Forall_forall in Hr.
      apply Hr. eapply list_elem_of_lookup_2. exact He. }
    destruct (H oro' mdo' rdoff' xs'' o Hr Ho HH) as [Hr' Hbal].
    split; [exact Hr'|]. rewrite Hbal.
    rewrite (md_total_drop_S o oro mdo e He).
    unfold m_loop_push in Heq.
    binv Heq as [] Hop. apply assert_Ok_inv in Hop.
    apply orb_true_iff in Hop.
    replace (runleft `min` run e) with (run e) in * by lia.
    destruct (op e =? 0) eqn:E0.
    + injection Heq as <-. apply Z.eqb_eq in E0.
      rewrite count_char_app, count_char_repeat, E0.
      rewrite size_t_iters_small by lia. unfold md_char.
      destruct Ho as [-> | [-> | ->]]; cbn [Z.eqb Pos.eqb];
        replace (ch_eqb "=" "=") with true by reflexivity;
        replace (ch_eqb "=" "X") with false by reflexivity;
        replace (ch_eqb "=" "D") with false by reflexivity; lia.
    + destruct Hop as [Hop | Hop]; [discriminate|]. apply Z.eqb_eq in Hop.
      binv Heq as [] Hrun. injection Heq as <-.
      rewrite count_char_app, count_char_repeat, Hop.
      rewrite size_t_iters_small by lia. unfold md_char.
      destruct Ho as [-> | [-> | ->]]; cbn [Z.eqb Pos.eqb];
        replace (ch_eqb "X" "=") with false by reflexivity;
        replace (ch_eqb "X" "X") with true by reflexivity;
        replace (ch_eqb "X" "D") with false by reflexivity; lia.
Qed.

Lemma cigar_and_mdz_loop_balance ops :
  ∀ runs oro mdo rdoff xs oro' mdo' rdoff' xs' o,
  runs_in_range oro → o = 0 ∨ o = 1 ∨ o = 2 →
  cigar_and_mdz_loop ops runs oro mdo rdoff xs = Ok (oro', mdo', rdoff', xs') →
  runs_in_range oro'
  ∧ Z.of_nat (count_char (md_char o) xs') + md_total o (drop mdo' oro')
    = Z.of_nat (count_char (md_char o) xs) + md_total o (drop mdo oro).
Proof.
  assert (Hother : ∀ o c xs n, o = 0 ∨ o = 1 ∨ o = 2 →
            c = "I"%char ∨ c = "N"%char ∨ c = "S"%char →
            count_char (md_char o) (xs ++ repeat c n)
            = count_char (md_char o) xs).
  { intros o c xs n Ho Hc. rewrite count_char_app, count_char_repeat.
    unfold md_char.
    destruct Ho as [-> | [-> | ->]], Hc as [-> | [-> | ->]];
      cbn [Z.eqb Pos.eqb];
      match goal with |- context [ch_eqb ?a ?b] =>
        replace (ch_eqb a b) with false by reflexivity end; lia. }
  induction ops as [|cop ops IH];
    intros runs oro mdo rdoff xs oro' mdo' rdoff' xs' o Hr Ho H;
    destruct runs as [|crun runs]; cbn [cigar_and_mdz_loop] in H;
    try discriminate;
    try (injection H as <- <- <- <-; split; [exact Hr | reflexivity]).
  binv H as [] Ha.
  destruct (ch_eqb cop "M").
  { binv H as [[[o1 m1] r1] x1] Hm.
    destruct (m_loop_balance _ _ _ _ _ _ _ _ _ o Hr Ho Hm) as [Hr1 Hb1].
    destruct (IH _ _ _ _ _ _ _ _ _ o Hr1 Ho H) as [Hr2 Hb2].
    split; [exact Hr2 | lia]. }
  destruct (ch_eqb cop "I").
  { destruct (IH _ _ _ _ _ _ _ _ _ o Hr Ho H) as [Hr2 Hb2].
    split; [exact Hr2|]. rewrite Hb2, Hother by auto. reflexivity. }
  destruct (ch_eqb cop "D").
  { destruct (oro !! mdo) as [e|] eqn:He; [|discriminate].
    binv H as [] H1. apply assert_Ok_inv, Z.eqb_eq in H1.
    binv H as [] H2. binv H as [] H3.
    destruct (IH _ _ _ _ _ _ _ _ _ o Hr Ho H) as [Hr2 Hb2].
    split; [exact Hr2|]. rewrite Hb2.
    assert (Hre : 0 ≤ run e < 2 ^ 63).
    { unfold runs_in_range in Hr. rewrite Forall_forall in Hr.
      apply Hr. eapply list_elem_of_lookup_2. exact He. }
    rewrite (md_total_drop_S o oro mdo e He), H1.
    rewrite count_char_app, count_char_repeat.
    rewrite size_t_iters_small by lia. unfold md_char.
    destruct Ho as [-> | [-> | ->]]; cbn [Z.eqb Pos.eqb];
      replace (ch_eqb "D" "=") with false by reflexivity;
      replace (ch_eqb "D" "X") with false by reflexivity;
      replace (ch_eqb "D" "D") with true by reflexivity; lia. }
  destruct (ch_eqb cop "N").
  { destruct (IH _ _ _ _ _ _ _ _ _ o Hr Ho H) as [Hr2 Hb2].
    split; [exact Hr2|]. rewrite Hb2, Hother by auto. reflexivity. }
  destruct (ch_eqb cop "S").
  { destruct (IH _ _ _ _ _ _ _ _ _ o Hr Ho H) as [Hr2 Hb2].
    split; [exact Hr2|]. rewrite Hb2, Hother by auto. reflexivity. }
  destruct (ch_eqb cop "H"); [|discriminate].
  exact (IH _ _ _ _ _ _ _ _ _ o Hr Ho H).
Qed.

(** X5.  When the reconciliation path returns, its transcript spends every
    MD:Z run exactly once, whatever the CIGAR runs are: it has as many [=]
    as the match runs are long together, as many [X] as the mismatch runs
    and as many [D] as the deletion runs. *)
Theorem reconciled_transcript_spends_every_run al b :
  runs_in_range (mdz_oro al) →
  cigar_and_mdz_to_edit_xscript al = Ok b →
  Z.of_nat (count_char "=" (edit_xscript b)) = md_total 0 (mdz_oro al)
  ∧ Z.of_nat (count_char "X" (edit_xscript b)) = md_total 1 (mdz_oro al)
  ∧ Z.of_nat (count_char "D" (edit_xscript b)) = md_total 2 (mdz_oro al).
Proof.
  intros Hr H. unfold cigar_and_mdz_to_edit_xscript in H.
  binv H as [] Hx. binv H as [] Hn.
  binv H as [[[oro mdo] rdoff] xs] Hloop.
  binv H as [] Hend. injection H as <-.
  apply assert_Ok_inv, Nat.eqb_eq in Hend. subst mdo.
  destruct (edit_xscript al) eqn:Ex; [|discriminate].
  assert (Hall : ∀ o, o = 0 ∨ o = 1 ∨ o = 2 →
            Z.of_nat (count_char (md_char o) (xs ++ [NUL]))
            = md_total o (mdz_oro al)).
  { intros o Ho.
    destruct (cigar_and_mdz_loop_balance _ _ _ _ _ _ _ _ _ _ o Hr Ho Hloop)
      as [_ Hb].
    rewrite drop_all in Hb. unfold md_total at 1 in Hb.
    cbn [fold_right] in Hb.
    rewrite count_char_app.
    replace (count_char (md_char o) [NUL]) with 0%nat
      by (destruct Ho as [-> | [-> | ->]]; reflexivity).
    replace (count_char (md_char o) []) with 0%nat in Hb by reflexivity.
    rewrite drop_0 in Hb. lia. }
  destruct al; cbn in *.
  split; [exact (Hall 0 ltac:(auto))|].
  split; [exact (Hall 1 ltac:(auto)) | exact (Hall 2 ltac:(auto))].
Qed.

(** X5 for the example record with the CIGAR "2S3M1I3M2D4M". *)
Lemma reconciled_transcript_spends_every_run_witness :
  match cigar_and_mdz_to_edit_xscript example_plain_input with
  | Ok b =>
      Z.of_nat (count_char "=" (edit_xscript b))
      = md_total 0 (mdz_oro example_plain_input)
      ∧ Z.of_nat (count_char "X" (edit_xscript b))
        = md_total 1 (mdz_oro example_plain_input)
      ∧ Z.of_nat (count_char "D" (edit_xscript b))
        = md_total 2 (mdz_oro example_plain_input)
  | Err _ => False
  end.
Proof.
  assert (Hb : ∃ b, cigar_and_mdz_to_edit_xscript example_plain_input = Ok b)
    by (vm_compute; eexists; reflexivity).
  destruct Hb as [b Hb]. rewrite Hb.
  apply (reconciled_transcript_spends_every_run example_plain_input b);
    [|exact Hb].
  repeat constructor; cbn; lia.
Defined.

Lemma m_loop_exhausted oro mdo runleft rdoff xs :
  oro !! mdo = None →
  m_loop oro mdo runleft rdoff xs = Ok (oro, mdo, rdoff, xs).
Proof.
  intros Hnone. funelim (m_loop oro mdo runleft rdoff xs);
    try reflexivity; congruence.
Qed.

(** X6.  An [M] run that is longer than the MD:Z runs is cut short without
    an error: for a CIGAR of one [M] run of length [n] and a single MD:Z
    match run of length [m] below [n], the reconciliation path returns a
    transcript of [m] characters. *)
Theorem short_mdz_cuts_the_M_run al e n :
  cigar_equal_x al = false → edit_xscript al = [] →
  cigar_ops al = ["M"%char] → cigar_run al = [n] → mdz_oro al = [e] →
  op e = 0 → 0 < run e → run e < n → n < 2 ^ 63 →
  ∃ b, cigar_and_mdz_to_edit_xscript al = Ok b
    ∧ edit_xscript b = repeat "="%char (Z.to_nat (run e)) ++ [NUL].
Proof.
  intros Hx Hn Hops Hruns Horo Hop Hpos Hlt Hmax.
  unfold cigar_and_mdz_to_edit_xscript.
  rewrite Hx, Hn, Hops, Hruns, Horo.
  cbn [negb is_nil assert mbind result_bind cigar_and_mdz_loop].
  replace (ch_eqb "M" "X") with false by reflexivity.
  replace (ch_eqb "M" "=") with false by reflexivity.
  replace (ch_eqb "M" "M") with true by reflexivity.
  cbn [negb andb assert mbind result_bind].
  rewrite (m_loop_take_all [e] 0 n 0 [] e eq_refl) by (auto; lia).
  rewrite m_loop_exhausted by reflexivity.
  rewrite Hop. cbn [Z.eqb mbind result_bind length Nat.eqb assert app].
  rewrite size_t_iters_small by lia.
  eexists. split; [reflexivity|]. reflexivity.
Qed.

(** X6 for the CIGAR "10M" with the MD:Z string "5". *)
Lemma short_mdz_cuts_the_M_run_witness :
  ∃ b, cigar_and_mdz_to_edit_xscript short_mdz_input = Ok b
    ∧ edit_xscript b = repeat "="%char (Z.to_nat 5) ++ [NUL].
Proof.
  apply (short_mdz_cuts_the_M_run short_mdz_input (oro_init 0 5 (-1)) 10);
    reflexivity.
Defined.

(** ** The reference span *)

(** X7.  [rpos] fails its assertion on an alignment of a single base: when
    the transcript has one character behind its leading soft clip, the
    pointer has stepped over that character and stands on the terminator. *)
Theorem rpos_fails_on_single_base al (k : nat) c :
  edit_xscript al = repeat "S"%char k ++ [c; NUL] → c ≠ "S"%char →
  rpos al = Err AssertFailed.
Proof.
  intros Hx Hc. unfold rpos. rewrite Hx.
  replace (is_nil (repeat "S"%char k ++ [c; NUL])) with false
    by (destruct k; reflexivity).
  cbn [negb assert mbind result_bind].
  rewrite (rpos_skip_clip k c [NUL] Hc). reflexivity.
Qed.

(** X7 for the transcript "SS=". *)
Lemma rpos_fails_on_single_base_witness :
  rpos one_base_at_100 = Err AssertFailed.
Proof.
  apply (rpos_fails_on_single_base one_base_at_100 2 "="%char).
  - reflexivity.
  - discriminate.
Defined.

(** ** Quality strings *)

Lemma calc_qual_loop_short n : ∀ i q al tc ta,
  (length q < n)%nat → calc_qual_loop n i q al tc ta = Err AssertFailed.
Proof.
  induction n as [|n IH]; intros i q al tc ta Hlt; [lia|].
  cbn [calc_qual_loop].
  destruct q as [|c q]; [reflexivity|]. cbn [hd tl length] in *.
  destruct (33 <=? char_to_int c); cbn [assert mbind result_bind];
    [|reflexivity].
  destruct ((i <? wrap64 (left_clip al))
            || (wrap64 (len al - 1 - right_clip al) <=? i)); apply IH; lia.
Qed.

(** X8.  [calc_qual_averages] fails an assertion whenever the quality
    string is shorter than the read, as it is for the "*" of a record that
    carries no qualities: the loop runs over the length of the read and
    meets the terminator of the quality string. *)
Theorem short_quality_string_fails al :
  Z.of_nat (length (qual al)) < len al →
  calc_qual_averages al = Err AssertFailed.
Proof.
  intros Hlt. unfold calc_qual_averages.
  destruct (0 <? len al); cbn [assert mbind result_bind]; [|reflexivity].
  destruct (wrap64 (left_clip al + right_clip al) <? len al);
    cbn [assert mbind result_bind]; [|reflexivity].
  rewrite calc_qual_loop_short by lia. reflexivity.
Qed.

(** X8 for a read of five bases with the quality string "*". *)
Lemma short_quality_string_fails_witness :
  calc_qual_averages no_quality_input = Err AssertFailed.
Proof.
  apply (short_quality_string_fails no_quality_input). reflexivity.
Defined.

(** ** The optional fields *)

Lemma parse_extra_loop_no_ztz toks : ∀ fz fm ztz al z' al',
  Forall (fun t => is_ztz_field t = false) toks →
  parse_extra_loop toks fz fm ztz al = Ok (z', al') → z' = ztz.
Proof.
  induction toks as [|t toks IH]; intros fz fm ztz al z' al' Hno H;
    cbn [parse_extra_loop] in H.
  - injection H as <- _. reflexivity.
  - inversion Hno as [|? ? Ht Hno']; subst. unfold is_ztz_field in Ht.
    destruct (is_nil t); [exact (IH _ _ _ _ _ _ Hno' H)|].
    destruct (fm && fz); [injection H as <- _; reflexivity|].
    rewrite Ht in H. cbn [orb] in H.
    destruct (starts_with (chars "MD:Z:") t).
    + binv H as [] Ha. binv H as al1 Hm. exact (IH _ _ _ _ _ _ Hno' H).
    + exact (IH _ _ _ _ _ _ Hno' H).
Qed.

(** X9.  [parse_extra] never returns for a record without a ZT:Z field:
    whatever else the optional fields hold, the call ends in a fault (the
    [throw] of the missing field, unless the MD:Z field has failed
    before). *)
Theorem parse_extra_needs_ztz al extra :
  Forall (fun t => is_ztz_field t = false) extra →
  ∃ f, parse_extra al extra = Err f.
Proof.
  intros Hno. unfold parse_extra.
  destruct (parse_extra_loop extra false false None al) as [[z al']|f] eqn:E;
    [|eauto].
  apply (parse_extra_loop_no_ztz _ _ _ _ _ _ _ Hno) in E as ->.
  cbn [mbind result_bind].
  destruct (is_some (cigar al') && is_some (mdz al')
            && negb (cigar_equal_x al'));
    [destruct (cigar_and_mdz_to_edit_xscript al') as [al2|f]|];
    cbn [mbind result_bind]; eauto.
Qed.

(** X9 for a record with the fields NM:i:0 and MD:Z:3 only. *)
Lemma parse_extra_needs_ztz_witness :
  ∃ f, parse_extra (new_Alignment 0 0)
         (sam_fields ["NM:i:0"; "MD:Z:3"]%string) = Err f.
Proof.
  apply parse_extra_needs_ztz. repeat constructor.
Defined.

(** ** ZT:Z values *)

Lemma digit_not_end c :
  isdigit c = true →
  ch_eqb c NUL || ch_eqb c "013" || ch_eqb c "010" = false
  ∧ ch_eqb c "." = false ∧ ch_eqb c "N" = false ∧ ch_eqb c "-" = false.
Proof.
  intros H.
  repeat split; try (apply orb_false_iff; split);
    try (apply orb_false_iff; split);
    apply ch_eqb_neq; intros ->; discriminate.
Qed.

Lemma ztz_int_loop_digits ds : ∀ rest v,
  all_digits ds →
  ztz_int_loop (ds ++ rest) v = ztz_int_loop rest (ztz_digits v ds).
Proof.
  induction ds as [|d ds IH]; intros rest v Hds; [reflexivity|].
  inversion Hds as [|? ? Hd Hds']; subst.
  destruct (digit_not_end d Hd) as (He & Hdot & _ & _).
  cbn [app ztz_int_loop]. rewrite He, Hd, Hdot.
  cbn [orb assert mbind result_bind negb]. rewrite IH by exact Hds'.
  reflexivity.
Qed.

Lemma digits_val_ge ds : ∀ v, all_digits ds → 0 ≤ v → v ≤ digits_val v ds.
Proof.
  unfold digits_val.
  induction ds as [|d ds IH]; intros v Hds Hv; cbn [fold_left]; [lia|].
  inversion Hds as [|? ? Hd Hds']; subst.
  pose proof (digit_val_nonneg d Hd).
  pose proof (IH (v * 10 + digit_val d) Hds' ltac:(lia)). lia.
Qed.

(** Below 2^31 the digits give the number. *)
Lemma ztz_digits_fits ds : ∀ v,
  all_digits ds → 0 ≤ v → digits_val v ds < 2 ^ 31 →
  ztz_digits v ds = digits_val v ds.
Proof.
  unfold ztz_digits, digits_val.
  induction ds as [|d ds IH]; intros v Hds Hv Hlt; cbn [fold_left] in *;
    [reflexivity|].
  inversion Hds as [|? ? Hd Hds']; subst.
  pose proof (digit_val_nonneg d Hd) as Hdv.
  pose proof (digits_val_ge ds (v * 10 + digit_val d) Hds' ltac:(lia)) as Hge.
  unfold digits_val in Hge.
  assert (E : int32 (int_of_double (v * 10) + digit_val d)
              = v * 10 + digit_val d).
  { unfold int_of_double.
    replace (- 2 ^ 31 <=? v * 10) with true by (symmetry; apply Z.leb_le; lia).
    replace (v * 10 <? 2 ^ 31) with true by (symmetry; apply Z.ltb_lt; lia).
    cbn [andb]. apply int32_fits. lia. }
  rewrite E. apply IH; [exact Hds' | lia | exact Hlt].
Qed.

(** X10.  How [print_unpaired] and [print_paired_helper] read one ZT:Z
    value.  A number below 2^31 that is written with digits only is taken
    as it stands, also with a leading [-] and with the end of the line
    attached, and "NA" is read as not-a-number; a number whose digits are
    followed by anything but a digit, a [.] or the end of the line, such as
    the exponent of "1e5", fails an assertion. *)
Theorem ztz_value_of_digits ds :
  all_digits ds → ds ≠ [] → digits_val 0 ds < 2 ^ 31 →
  ztz_value ds = Ok (DInt (digits_val 0 ds))
  ∧ ztz_value ("-"%char :: ds) = Ok (DInt (- digits_val 0 ds))
  ∧ ztz_value (ds ++ ["010"%char]) = Ok (DInt (digits_val 0 ds))
  ∧ (∀ rest, ztz_value ("N"%char :: "A"%char :: rest) = Ok DNaN)
  ∧ (∀ c rest,
       isdigit c = false → c ≠ "."%char →
       c ≠ NUL → c ≠ "013"%char → c ≠ "010"%char →
       ztz_value (ds ++ c :: rest) = Err AssertFailed).
Proof.
  intros Hds Hne Hfit.
  pose proof (digits_val_nonneg ds 0 Hds ltac:(lia)) as Hpos.
  pose proof (ztz_digits_fits ds 0 Hds ltac:(lia) Hfit) as Efit.
  destruct ds as [|d ds']; [congruence|].
  inversion Hds as [|? ? Hd Hds']; subst.
  destruct (digit_not_end d Hd) as (_ & _ & HN & Hm).
  assert (Hhd : ∀ rest, ztz_value ((d :: ds') ++ rest)
                = (r ← ztz_int_loop rest (digits_val 0 (d :: ds'));
                   match r with
                   | None => Ok (DScan ((d :: ds') ++ rest))
                   | Some z => Ok (DInt z)
                   end)).
  { intros rest. unfold ztz_value. cbn [app hd]. rewrite HN, Hm.
    change (d :: ds' ++ rest) with ((d :: ds') ++ rest).
    rewrite (ztz_int_loop_digits (d :: ds') rest 0 Hds), Efit.
    destruct (ztz_int_loop rest (digits_val 0 (d :: ds'))) as [[z|]|f];
      reflexivity. }
  split; [|split; [|split; [|split]]].
  - rewrite <- (app_nil_r (d :: ds')) at 1. rewrite Hhd. reflexivity.
  - unfold ztz_value. cbn [hd tl].
    replace (ch_eqb "-" "N") with false by reflexivity.
    replace (ch_eqb "-" "-") with true by reflexivity.
    rewrite <- (app_nil_r (d :: ds')) at 1.
    rewrite (ztz_int_loop_digits (d :: ds') [] 0 Hds), Efit.
    cbn [ztz_int_loop mbind result_bind]. rewrite int32_fits by lia.
    reflexivity.
  - rewrite Hhd. reflexivity.
  - intros rest. reflexivity.
  - intros c rest Hc Hdot H0 Hcr Hlf. rewrite Hhd.
    cbn [ztz_int_loop].
    rewrite (proj2 (ch_eqb_neq c NUL) H0), (proj2 (ch_eqb_neq c "013") Hcr),
      (proj2 (ch_eqb_neq c "010") Hlf), Hc, (proj2 (ch_eqb_neq c ".") Hdot).
    reflexivity.
Qed.

(** X10 for the number 42; the number 99999999999, which does not fit an
    [int], is read as -2147483639. *)
Lemma ztz_value_of_digits_witness :
  ztz_value (chars "42") = Ok (DInt 42)
  ∧ ztz_value (chars "42e5") = Err AssertFailed
  ∧ ztz_value (chars "99999999999") = Ok (DInt (-2147483639)).
Proof.
  destruct (ztz_value_of_digits (chars "42")) as (H1 & _ & _ & _ & H5).
  - repeat constructor.
  - discriminate.
  - reflexivity.
  - split; [exact H1|]. split; [|reflexivity].
    apply (H5 "e"%char (chars "5")); try reflexivity; discriminate.
Defined.

(** ** The counters of the pairing loop *)









(** ** A record that waits for its mate *)

Lemma al_cur_of_next_state st x y c u b cc d :
  al_cur_of (next_state st x y c u b cc d) = y.
Proof. unfold al_cur_of, next_state. cbn. destruct (st_al_cur1 st); reflexivity. Qed.

Lemma sam_pass1_classify_unpaired_keeps_prev cfg st cur prev mated cnt st' :
  sam_pass1_classify cfg st cur prev mated cnt = Ok st' →
  ch_eqb (mate_flag cur) "0" = true →
  al_cur_of st' = prev.
Proof.
  unfold sam_pass1_classify. intros H E0. rewrite E0 in H.
  destruct (negb (is_aligned cur)).
  { injection H as <-. apply al_cur_of_next_state. }
  destruct (typ_null cur || typ_is cur 0 "u").
  - binv H as [] Hhead. binv H as [cur' out] Hp. injection H as <-. apply al_cur_of_next_state.
  - injection H as <-. apply al_cur_of_next_state.
Qed.

Lemma sam_pass1_line_primary_unfold cfg st q f rest :
  primary_line q f →
  sam_pass1_line cfg st (q :: f :: rest)
  = sam_pass1_mate cfg st q (atoi f) rest (inc_nline (st_cnt st))
      ≫= (λ '(al_cur, al_prev, mated, cnt),
            sam_pass1_classify cfg st al_cur al_prev mated cnt).
Proof.
  intros (Hq & Hf & Hhd & H256 & H2048).
  unfold sam_pass1_line. cbn [hd].
  apply ch_eqb_neq in Hhd. rewrite Hhd.
  unfold strtok_some. rewrite (strtok_cons _ _ Hq).
  cbn [mbind result_bind].
  destruct q as [|q0 q]; [congruence|]. cbn [is_nil negb assert].
  rewrite (strtok_cons _ _ Hf). cbn [mbind result_bind].
  rewrite H256, H2048. cbn [Z.eqb negb]. reflexivity.
Qed.

(** X12.  An unpaired record that comes between the two mates of a pair
    strands the first mate: the record is processed, but the mate then waits
    in the slot that the next record is read into, and the next primary
    record, whatever it is, fails the assertion that this slot is free. *)
Theorem unpaired_record_strands_the_waiting_mate
    cfg st q1 f1 rest1 st1 q2 f2 rest2 more :
  valid (al_prev_of st) = true →
  primary_line q1 f1 →
  mate_flag_of (atoi f1) = "0"%char →
  sam_pass1_line cfg st (q1 :: f1 :: rest1) = Ok st1 →
  primary_line q2 f2 →
  sam_pass1_from cfg st ((q1 :: f1 :: rest1) :: (q2 :: f2 :: rest2) :: more)
  = Err AssertFailed.
Proof.
  intros Hv P1 Hunp H1 P2.
  cbn [sam_pass1_from]. rewrite H1. cbn [mbind result_bind].
  rewrite (sam_pass1_line_primary_unfold _ _ _ _ _ P1) in H1.
  binv H1 as [[[cur prev] mated] cnt] Hmate.
  apply sam_pass1_mate_inv in Hmate.
  destruct Hmate as (_ & _ & Hfl & _ & _ & Hprev & _ & Hm & _).
  assert (E0 : ch_eqb (mate_flag cur) "0" = true).
  { unfold mate_flag. rewrite Hfl, Hunp. reflexivity. }
  pose proof (sam_pass1_classify_unpaired_keeps_prev _ _ _ _ _ _ _ H1 E0) as Hc.
  assert (Hmf : mated = false).
  { rewrite Hm, Hunp. reflexivity. }
  rewrite Hmf in Hprev. subst prev.
  rewrite (sam_pass1_line_primary_unfold _ _ _ _ _ P2).
  unfold sam_pass1_mate. rewrite Hc, Hv. reflexivity.
Qed.

(** X12 at a concrete stream: a first mate, an unpaired record, then the
    second mate. *)
Lemma unpaired_record_strands_the_waiting_mate_witness :
  sam_pass1_from example_cfg (state_after example_cfg [line_mate1])
    [sam_fields stray_unpaired_line; sam_fields line_conc2]
  = Err AssertFailed.
Proof.
  assert (Hs : ∃ st1, sam_pass1_line example_cfg
                        (state_after example_cfg [line_mate1])
                        (sam_fields stray_unpaired_line) = Ok st1)
    by (vm_compute; eexists; reflexivity).
  destruct Hs as [st1 Hs].
  apply (unpaired_record_strands_the_waiting_mate example_cfg
           (state_after example_cfg [line_mate1])
           (chars "r9") (chars "0") (with_newline (map chars (drop 2 stray_unpaired_line))) st1
           (chars "r2") (chars "131") (with_newline (map chars (drop 2 line_conc2))) []).
  - vm_compute. reflexivity.
  - unfold primary_line. repeat split; vm_compute; congruence.
  - vm_compute. reflexivity.
  - exact Hs.
  - unfold primary_line. repeat split; vm_compute; congruence.
Defined.

(** ** The number of ZT:Z columns *)

Lemma infer_num_ztzs_loop_mono rounds : ∀ cur n res rounds',
  infer_num_ztzs_loop rounds cur n = res →
  res ≠ Err Diverges →
  (rounds ≤ rounds')%nat →
  infer_num_ztzs_loop rounds' cur n = res.
Proof.
  induction rounds as [|rounds IH]; intros cur n res rounds' H Hres Hle;
    [cbn in H; congruence|].
  destruct rounds' as [|rounds']; [lia|].
  assert (Hle' : (rounds ≤ rounds')%nat) by lia.
  cbn [infer_num_ztzs_loop] in *.
  destruct (rd cur) as [c|e]; cbn [mbind result_bind] in *; [|exact H].
  destruct (ch_eqb c NUL); [exact H|].
  destruct (ch_eqb c "009"); [|eauto].
  destruct (rd (tl cur)) as [c1|e]; cbn [mbind result_bind] in *;
    [|exact H].
  destruct (ch_eqb c1 "Z"); [|eauto].
  destruct (rd (tl (tl cur))) as [c2|e]; cbn [mbind result_bind] in *;
    [|exact H].
  destruct (ch_eqb c2 "T"); [|eauto].
  destruct (mem_strncmp (tl (tl (tl cur))) (chars ":Z:") 3) as [[|]|e];
    cbn [mbind result_bind] in *; [|eauto|exact H].
  destruct (count_to_newline (tl (tl (tl cur))) n) as [[n' cur']|e];
    cbn [mbind result_bind] in *; [eauto|exact H].
Qed.

Lemma ch_eqb_sym (a b : ascii) : ch_eqb a b = ch_eqb b a.
Proof. unfold ch_eqb. apply Ascii.eqb_sym. Qed.

Lemma text_char_cons c s :
  forallb text_char (c :: s) = true →
  ch_eqb c "009" = false ∧ ch_eqb c NUL = false ∧ forallb text_char s = true.
Proof.
  cbn [forallb]. intros H. apply andb_prop in H as [Hc Hs].
  unfold text_char in Hc. apply andb_prop in Hc as [Ht Hn].
  apply negb_true_iff in Ht, Hn. auto.
Qed.

(** Bytes that are neither a tab nor the terminator are stepped over one
    round at a time. *)
Lemma infer_num_ztzs_loop_text s : ∀ t n rounds,
  forallb text_char s = true →
  infer_num_ztzs_loop (length s + rounds) (s ++ t) n
  = infer_num_ztzs_loop rounds t n.
Proof.
  induction s as [|c s IH]; intros t n rounds Hs; [reflexivity|].
  apply text_char_cons in Hs as (Ht & Hn & Hs).
  cbn [length Nat.add app infer_num_ztzs_loop rd mbind result_bind tl].
  rewrite Hn, Ht. apply IH; assumption.
Qed.

Lemma mem_strncmp_no_tag f t :
  is_prefix (chars ":Z:") f = false →
  forallb text_char f = true →
  mem_strncmp (f ++ "009"%char :: t) (chars ":Z:") 3 = Ok false.
Proof.
  intros Hp Hf.
  destruct f as [|a f]; [reflexivity|].
  apply text_char_cons in Hf as (_ & Ha & Hf).
  cbn [is_prefix chars list_ascii_of_string] in Hp.
  cbn [app mem_strncmp chars list_ascii_of_string hd tl].
  rewrite (ch_eqb_sym a ":").
  destruct (ch_eqb ":" a); cbn [negb andb] in *; [|reflexivity].
  rewrite Ha.
  destruct f as [|b f]; [reflexivity|].
  apply text_char_cons in Hf as (_ & Hb & Hf).
  cbn [app mem_strncmp hd tl is_prefix] in *.
  rewrite (ch_eqb_sym b "Z").
  destruct (ch_eqb "Z" b); cbn [negb andb] in *; [|reflexivity].
  rewrite Hb.
  destruct f as [|c f]; [reflexivity|].
  cbn [app mem_strncmp hd tl is_prefix] in *.
  rewrite (ch_eqb_sym c ":").
  destruct (ch_eqb ":" c); cbn [negb andb] in *;
    [discriminate|reflexivity].
Qed.

(** A whole column behind its tab is passed over. *)
Lemma infer_num_ztzs_loop_column f t n res rounds :
  plain_column f = true →
  infer_num_ztzs_loop rounds ("009"%char :: t) n = res →
  res ≠ Err Diverges →
  infer_num_ztzs_loop (S (length f) + rounds)
    ("009"%char :: f ++ "009"%char :: t) n = res.
Proof.
  unfold plain_column. intros Hp H Hres.
  apply andb_prop in Hp as [Hp Htag]. apply andb_prop in Hp as [Hp HZ].
  apply andb_prop in Hp as [Hne Htxt]. apply negb_true_iff in Htag.
  destruct f as [|c1 f]; [discriminate|].
  pose proof Htxt as Htxt0.
  apply text_char_cons in Htxt as (_ & _ & Htxt).
  cbn [Nat.add infer_num_ztzs_loop rd mbind result_bind tl app].
  change (ch_eqb "009" NUL) with false. change (ch_eqb "009" "009") with true.
  cbv iota.
  destruct (ch_eqb c1 "Z") eqn:E1.
  2:{ apply (infer_num_ztzs_loop_mono (length f + rounds));
        [|exact Hres|cbn; lia].
      rewrite infer_num_ztzs_loop_text; assumption. }
  apply ch_eqb_eq in E1. subst c1.
  destruct f as [|c2 f]; [discriminate|].
  apply text_char_cons in Htxt as (_ & _ & Htxt).
  cbn [rd mbind result_bind tl app].
  assert (Hrest : infer_num_ztzs_loop (length ("Z"%char :: c2 :: f) + rounds)
                    (f ++ "009"%char :: t) n = res).
  { apply (infer_num_ztzs_loop_mono (length f + rounds));
      [|exact Hres|cbn; lia].
    rewrite infer_num_ztzs_loop_text; assumption. }
  destruct (ch_eqb c2 "T") eqn:E2; [|exact Hrest].
  apply ch_eqb_eq in E2. subst c2.
  rewrite mem_strncmp_no_tag; [exact Hrest| |exact Htxt].
  exact Htag.
Qed.

Lemma infer_num_ztzs_loop_columns fs : ∀ t n res rounds,
  forallb plain_column fs = true →
  infer_num_ztzs_loop rounds ("009"%char :: t) n = res →
  res ≠ Err Diverges →
  infer_num_ztzs_loop (length (flat_map (cons "009"%char) fs) + rounds)
    (flat_map (cons "009"%char) fs ++ "009"%char :: t) n = res.
Proof.
  induction fs as [|f fs IH]; intros t n res rounds Hfs H Hres; [exact H|].
  cbn [forallb] in Hfs. apply andb_prop in Hfs as [Hf Hfs].
  specialize (IH t n res rounds Hfs H Hres).
  cbn [flat_map]. rewrite length_app, <- app_assoc. cbn [length app].
  assert (Ht : ∃ t', flat_map (cons "009"%char) fs ++ "009"%char :: t
                     = "009"%char :: t').
  { destruct fs as [|g fs]; cbn [flat_map app]; eauto. }
  destruct Ht as [t' Ht]. rewrite Ht in *.
  rewrite <- Nat.add_assoc.
  apply infer_num_ztzs_loop_column; assumption.
Qed.

Lemma tab_joined_cons f fs :
  tab_joined (f :: fs) = f ++ flat_map (cons "009"%char) fs.
Proof.
  revert f. induction fs as [|g fs IH]; intros f.
  - cbn. rewrite app_nil_r. reflexivity.
  - change (tab_joined (f :: g :: fs))
      with (f ++ "009"%char :: tab_joined (g :: fs)).
    rewrite (IH g). reflexivity.
Qed.

(** The scan of a line up to the tab of its first ZT:Z tag. *)
Lemma infer_num_ztzs_reaches_tag pre t res :
  pre ≠ [] →
  forallb plain_column pre = true →
  infer_num_ztzs_loop 2 ("009"%char :: t) 1 = res →
  res ≠ Err Diverges →
  infer_num_ztzs (tab_joined pre ++ "009"%char :: t) = res.
Proof.
  intros Hne Hpre H Hres.
  destruct pre as [|f fs]; [congruence|].
  cbn [forallb] in Hpre. apply andb_prop in Hpre as [Hf Hfs].
  unfold plain_column in Hf.
  apply andb_prop in Hf as [Hf _]. apply andb_prop in Hf as [Hf _].
  apply andb_prop in Hf as [_ Hf].
  rewrite tab_joined_cons, <- app_assoc.
  unfold infer_num_ztzs.
  apply (infer_num_ztzs_loop_mono
           (length f + (length (flat_map (cons "009"%char) fs) + 2)));
    [|exact Hres|rewrite !length_app; cbn [length]; lia].
  rewrite infer_num_ztzs_loop_text by exact Hf.
  apply infer_num_ztzs_loop_columns; assumption.
Qed.

(** The inner loop looks at every byte behind the first one, up to and
    including the newline. *)
Lemma count_to_newline_step c cur n :
  ch_eqb c "010" = false →
  count_to_newline (c :: cur) n
  = rd cur ≫= (λ c', count_to_newline cur (if ch_eqb c' "," then n + 1 else n)).
Proof. intros Hc. cbn [count_to_newline]. rewrite Hc. reflexivity. Qed.

Lemma count_to_newline_counts s : ∀ c t n,
  ch_eqb c "010" = false →
  "010"%char ∉ s →
  count_to_newline (c :: s ++ "010"%char :: t) n
  = Ok (n + Z.of_nat (count_char "," s), t).
Proof.
  induction s as [|c' s IH]; intros c t n Hc Hs;
    rewrite (count_to_newline_step _ _ _ Hc).
  - cbn [app rd mbind result_bind].
    change (ch_eqb "010" ",") with false. cbv iota.
    cbn [count_to_newline]. change (ch_eqb "010" "010") with true. cbv iota.
    unfold count_char. cbn [List.filter length]. f_equal. f_equal. lia.
  - apply not_elem_of_cons in Hs as [Hne Hs].
    rewrite <- app_comm_cons. cbn [rd mbind result_bind].
    rewrite IH; [| apply ch_eqb_neq; congruence | exact Hs].
    rewrite count_char_cons. destruct (ch_eqb c' ","); f_equal; f_equal; lia.
Qed.

Lemma count_to_newline_runs_off s : ∀ n,
  "010"%char ∉ s → count_to_newline s n = Err OutOfBounds.
Proof.
  induction s as [|c s IH]; intros n Hs; [reflexivity|].
  apply not_elem_of_cons in Hs as [Hne Hs].
  cbn [count_to_newline].
  assert (Hc : ch_eqb c "010" = false) by (apply ch_eqb_neq; congruence).
  rewrite Hc. destruct s as [|c' s]; [reflexivity|].
  cbn [rd mbind result_bind]. apply IH. exact Hs.
Qed.

(** The round that meets the tag. *)
Lemma infer_num_ztzs_loop_tag rounds t n :
  infer_num_ztzs_loop (S rounds)
    ("009"%char :: "Z"%char :: "T"%char :: ":"%char :: t) n
  = mem_strncmp (":"%char :: t) (chars ":Z:") 3
    ≫= (λ found : bool,
          if found then
            count_to_newline (":"%char :: t) n
            ≫= (λ '(n, cur), infer_num_ztzs_loop rounds cur n)
          else infer_num_ztzs_loop rounds (":"%char :: t) n).
Proof. reflexivity. Qed.

(** The count taken at the first ZT:Z tag of a line. *)
Lemma infer_num_ztzs_at_tag pre v :
  pre ≠ [] →
  forallb plain_column pre = true →
  "010"%char ∉ v →
  infer_num_ztzs
    (tab_joined pre ++ "009"%char :: chars "ZT:Z:" ++ v ++ ["010"%char; NUL])
  = Ok (1 + Z.of_nat (count_char "," v)).
Proof.
  intros Hne Hpre Hv.
  apply infer_num_ztzs_reaches_tag; [assumption|assumption| |discriminate].
  change ("009"%char :: chars "ZT:Z:" ++ v ++ ["010"%char; NUL])
    with ("009"%char :: "Z"%char :: "T"%char :: ":"%char
          :: ("Z"%char :: ":"%char :: v) ++ "010"%char :: [NUL]).
  rewrite infer_num_ztzs_loop_tag.
  rewrite count_to_newline_counts.
  - cbn [mbind result_bind infer_num_ztzs_loop rd].
    change (ch_eqb NUL NUL) with true. cbv iota.
    rewrite !count_char_cons.
    change (ch_eqb "Z" ",") with false. change (ch_eqb ":" ",") with false.
    reflexivity.
  - reflexivity.
  - intros Hin. apply elem_of_cons in Hin as [Hin|Hin]; [discriminate|].
    apply elem_of_cons in Hin as [Hin|Hin]; [discriminate|]. exact (Hv Hin).
Qed.

(** X13.  [infer_num_ztzs] on a line whose first ZT:Z tag follows ordinary
    columns: the result is one more than the number of commas between the tag
    and the newline.  The count does not stop at the end of the ZT:Z column:
    the commas of every later column of the line are counted as well. *)
Theorem infer_num_ztzs_counts_commas_to_end_of_line pre v :
  pre ≠ [] →
  forallb plain_column pre = true →
  "010"%char ∉ v →
  infer_num_ztzs
    (tab_joined pre ++ "009"%char :: chars "ZT:Z:" ++ v ++ ["010"%char; NUL])
  = Ok (1 + Z.of_nat (count_char "," v)).
Proof. exact (infer_num_ztzs_at_tag pre v). Qed.

(** X13 at a record whose ZT:Z column holds two values and is followed by a
    column with three commas. *)
Lemma infer_num_ztzs_counts_commas_to_end_of_line_witness :
  infer_num_ztzs
    (tab_joined columns_example ++ "009"%char :: chars "ZT:Z:"
       ++ (chars "5,1" ++ "009"%char :: chars "XA:Z:chr2,+7,4M,0;")
       ++ ["010"%char; NUL])
  = Ok 5.
Proof.
  apply (infer_num_ztzs_counts_commas_to_end_of_line columns_example
           (chars "5,1" ++ "009"%char :: chars "XA:Z:chr2,+7,4M,0;")).
  - discriminate.
  - vm_compute. reflexivity.
  - intros Hin. repeat (apply elem_of_cons in Hin as [Hin|Hin];
                        [discriminate|]).
    inversion Hin.
Defined.

(** X14.  [infer_num_ztzs] relies on the newline that ends the line: when
    the line with the ZT:Z tag is not closed by a newline (the last line of
    a file cut short), the inner loop walks over the terminator and reads
    past the end of the text. *)
Theorem infer_num_ztzs_needs_the_newline pre v :
  pre ≠ [] →
  forallb plain_column pre = true →
  "010"%char ∉ v →
  infer_num_ztzs (tab_joined pre ++ "009"%char :: chars "ZT:Z:" ++ v ++ [NUL])
  = Err OutOfBounds.
Proof.
  intros Hne Hpre Hv.
  apply infer_num_ztzs_reaches_tag; [assumption|assumption| |discriminate].
  change ("009"%char :: chars "ZT:Z:" ++ v ++ [NUL])
    with ("009"%char :: "Z"%char :: "T"%char :: ":"%char
          :: ("Z"%char :: ":"%char :: v ++ [NUL])).
  rewrite infer_num_ztzs_loop_tag.
  rewrite count_to_newline_runs_off; [reflexivity|].
  intros Hin. apply elem_of_cons in Hin as [Hin|Hin]; [discriminate|].
  apply elem_of_cons in Hin as [Hin|Hin]; [discriminate|].
  apply elem_of_cons in Hin as [Hin|Hin]; [discriminate|].
  apply elem_of_app in Hin as [Hin|Hin]; [exact (Hv Hin)|].
  apply elem_of_cons in Hin as [Hin|Hin]; [discriminate|]. inversion Hin.
Qed.

(** X14 at a record with two ZT:Z values and no newline. *)
Lemma infer_num_ztzs_needs_the_newline_witness :
  infer_num_ztzs
    (tab_joined columns_example ++ "009"%char :: chars "ZT:Z:"
       ++ chars "5,1" ++ [NUL])
  = Err OutOfBounds.
Proof.
  apply (infer_num_ztzs_needs_the_newline columns_example (chars "5,1")).
  - discriminate.
  - vm_compute. reflexivity.
  - intros Hin. repeat (apply elem_of_cons in Hin as [Hin|Hin];
                        [discriminate|]).
    inversion Hin.
Defined.

(** ** The header of a record file and the width of its records *)

Lemma count_char_uint d :
  count_char "," (chars (NilEmpty.string_of_uint d)) = O.
Proof. induction d; cbn; try reflexivity; exact IHd. Qed.

Lemma count_char_print_int i : count_char "," (print_int i) = O.
Proof.
  unfold print_int. destruct (Z.to_int i) as [d|d]; cbn [NilZero.string_of_int].
  - destruct d; try apply count_char_uint; reflexivity.
  - unfold chars. cbn [list_ascii_of_string]. rewrite count_char_cons.
    change (ch_eqb "-" ",") with false.
    destruct d; try apply count_char_uint; reflexivity.
Qed.

Lemma count_char_print_ull n : count_char "," (print_ull n) = O.
Proof.
  unfold print_ull. destruct (N.to_uint (Z.to_N (wrap64 n)));
    try apply count_char_uint; reflexivity.
Qed.

Lemma count_char_print_ztz_columns name k : ∀ i,
  count_char "," (print_ztz_columns name i k)
  = (k * count_char "," (chars name))%nat.
Proof.
  induction k as [|k IH]; intros i; [reflexivity|].
  cbn [print_ztz_columns]. rewrite !count_char_app, count_char_print_int, IH.
  lia.
Qed.

Lemma print_unpaired_header_columns n nrow :
  count_char "," (print_unpaired_header n nrow) = (8 + Z.to_nat n)%nat.
Proof.
  unfold print_unpaired_header.
  rewrite !count_char_app, count_char_print_ztz_columns, count_char_print_ull.
  change (count_char "," (chars "id,len,clip,alqual,clipqual,olen")) with 5%nat.
  change (count_char "," (chars ",ztz")) with 1%nat.
  change (count_char "," (chars ",mapq,correct,")) with 3%nat.
  change (count_char "," ["010"%char]) with 0%nat. lia.
Qed.

Lemma print_paired_header_columns n nrow :
  count_char "," (print_paired_header n nrow) = (12 + 2 * Z.to_nat n)%nat.
Proof.
  unfold print_paired_header.
  rewrite !count_char_app, !count_char_print_ztz_columns, count_char_print_ull.
  change (count_char "," (chars "id,len,clip,alqual,clipqual")) with 4%nat.
  change (count_char "," (chars ",ztz_")) with 1%nat.
  change (count_char "," (chars ",oztz_")) with 1%nat.
  change (count_char "," (chars ",olen,oclip,oalqual,oclipqual,fraglen"))
    with 5%nat.
  change (count_char "," (chars ",mapq,correct,")) with 3%nat.
  change (count_char "," ["010"%char]) with 0%nat. lia.
Qed.

Lemma length_split_on d s : length (split_on d s) = S (count_char d s).
Proof.
  induction s as [|c s IH]; [reflexivity|].
  cbn [split_on]. rewrite count_char_cons.
  destruct (split_on d s) as [|p ps]; [discriminate|].
  cbn [length] in IH. destruct (ch_eqb c d); cbn [length]; lia.
Qed.

Lemma filter_forallb {A} (p : A → bool) l :
  forallb p l = true → List.filter p l = l.
Proof.
  induction l as [|x l IH]; [reflexivity|].
  cbn [forallb List.filter]. intros H. apply andb_prop in H as [Hx Hl].
  rewrite Hx, (IH Hl). reflexivity.
Qed.

Lemma length_tokens s :
  no_empty_value s = true →
  length (tokens "," s) = S (count_char "," s).
Proof.
  unfold no_empty_value, tokens. intros H.
  rewrite (filter_forallb _ _ H). apply length_split_on.
Qed.

Lemma length_ztz_values toks : ∀ vs,
  ztz_values toks = Ok vs → length vs = length toks.
Proof.
  induction toks as [|t toks IH]; intros vs H; cbn [ztz_values] in H.
  - injection H as <-. reflexivity.
  - binv H as v Hv. binv H as vs' Hvs. injection H as <-.
    cbn [length]. rewrite (IH _ Hvs). reflexivity.
Qed.

Lemma strncmp_eq_is_prefix p : ∀ s,
  NUL ∉ p → strncmp_eq s p (length p) = is_prefix p s.
Proof.
  induction p as [|a p IH]; intros s Hp; [reflexivity|].
  apply not_elem_of_cons in Hp as [Ha Hp].
  cbn [length strncmp_eq is_prefix hd tl].
  destruct s as [|b s]; cbn [hd tl].
  - assert (E : ch_eqb NUL a = false) by (apply ch_eqb_neq; exact Ha).
    rewrite E. reflexivity.
  - rewrite (ch_eqb_sym a b).
    destruct (ch_eqb b a) eqn:E; cbn [negb andb]; [|reflexivity].
    apply ch_eqb_eq in E. subst b.
    assert (E : ch_eqb a NUL = false) by (apply ch_eqb_neq; congruence).
    rewrite E. apply IH. exact Hp.
Qed.

Lemma plain_column_not_ztz f : plain_column f = true → is_ztz_field f = false.
Proof.
  unfold plain_column, is_ztz_field, starts_with. intros H.
  apply andb_prop in H as [_ H]. apply negb_true_iff in H.
  rewrite strncmp_eq_is_prefix; [exact H|].
  intros Hin. repeat (apply elem_of_cons in Hin as [Hin|Hin]; [discriminate|]).
  inversion Hin.
Qed.

Lemma plain_column_not_nil f : plain_column f = true → f ≠ [].
Proof. destruct f; [discriminate|congruence]. Qed.

(** The value that [parse_extra] hands back when the only ZT:Z tag is the
    last column. *)
Lemma parse_extra_loop_last_ztz tags v : ∀ fm al z' al',
  forallb plain_column tags = true →
  parse_extra_loop (tags ++ [chars "ZT:Z:" ++ v]) false fm None al
  = Ok (z', al') →
  z' = Some v.
Proof.
  induction tags as [|t tags IH]; intros fm al z' al' Hp H.
  - cbn [app parse_extra_loop chars list_ascii_of_string is_nil] in H.
    rewrite andb_false_r in H.
    change (starts_with ["Z"; "T"; ":"; "Z"; ":"]%char
              ("Z"%char :: "T"%char :: ":"%char :: "Z"%char :: ":"%char :: v))
      with true in H.
    change (starts_with ["M"; "D"; ":"; "Z"; ":"]%char
              ("Z"%char :: "T"%char :: ":"%char :: "Z"%char :: ":"%char :: v))
      with false in H.
    cbv iota in H. cbn [orb drop] in H. injection H as <- _. reflexivity.
  - cbn [forallb] in Hp. apply andb_prop in Hp as [Ht Hp].
    pose proof (plain_column_not_ztz _ Ht) as Hz. unfold is_ztz_field in Hz.
    pose proof (plain_column_not_nil _ Ht) as Hn.
    rewrite <- app_comm_cons in H. cbn [parse_extra_loop] in H.
    destruct t as [|c t]; [congruence|]. cbn [is_nil] in H.
    rewrite andb_false_r, Hz in H. cbn [orb] in H.
    destruct (starts_with (chars "MD:Z:") (c :: t)).
    + binv H as [] Ha. binv H as al1 Hm. exact (IH _ _ _ _ Hp H).
    + exact (IH _ _ _ _ Hp H).
Qed.

Lemma parse_from_rname_on_extra al cols rest alp extra :
  rest_of_line al = Some (cols ++ rest) →
  length cols = 9%nat →
  forallb plain_column cols = true →
  parse_from_rname_on al = Ok (alp, extra) →
  extra = rest.
Proof.
  intros Hr Hlen Hp H.
  do 9 (destruct cols as [|? cols]; [discriminate|]).
  destruct cols; [|discriminate].
  cbn [forallb] in Hp.
  repeat (apply andb_prop in Hp as [?%plain_column_not_nil Hp]).
  unfold parse_from_rname_on in H. rewrite Hr in H.
  cbn [app in_line is_nil mbind result_bind] in H.
  unfold strtok_some in H.
  repeat (rewrite strtok_cons in H by assumption; cbn [mbind result_bind] in H).
  binv H as [] Hm. binv H as al1 Hc. binv H as al2 Hq.
  injection H as _ <-. reflexivity.
Qed.

Lemma tab_joined_snoc fs f :
  fs ≠ [] → tab_joined (fs ++ [f]) = tab_joined fs ++ "009"%char :: f.
Proof.
  induction fs as [|g fs IH]; intros Hne; [congruence|].
  destruct fs as [|h fs]; [reflexivity|].
  change (tab_joined ((g :: h :: fs) ++ [f]))
    with (g ++ "009"%char :: tab_joined ((h :: fs) ++ [f])).
  rewrite IH by discriminate.
  change (tab_joined (g :: h :: fs))
    with (g ++ "009"%char :: tab_joined (h :: fs)).
  rewrite <- app_assoc. reflexivity.
Qed.

(** X15.  The header that [sam_pass1] writes for the unpaired lanes agrees
    with the records of [print_unpaired]: for a record whose only ZT:Z tag is
    the last column of its line, with no empty value in it, the header made
    from the count of [infer_num_ztzs] names exactly as many columns as the
    record holds doubles. *)
Theorem unpaired_header_matches_record
    cfg al ordlen al' out cols tags v nrow :
  do_features cfg = true →
  length cols = 9%nat →
  forallb plain_column (cols ++ tags) = true →
  forallb text_char v = true →
  "010"%char ∉ v →
  no_empty_value (v ++ ["010"%char]) = true →
  rest_of_line al
  = Some (cols ++ tags ++ [chars "ZT:Z:" ++ v ++ ["010"%char]]) →
  print_unpaired cfg al ordlen = Ok (al', out) →
  ∃ n,
    infer_num_ztzs
      (tab_joined (cols ++ tags ++ [chars "ZT:Z:" ++ v ++ ["010"%char]])
       ++ [NUL]) = Ok n
    ∧ length out = count_char "," (print_unpaired_header n nrow).
Proof.
  intros Hfeat Hlen Hplain Hv Hnl Hval Hrest H.
  exists (1 + Z.of_nat (count_char "," v)).
  assert (Hne : cols ++ tags ≠ []).
  { destruct cols; [discriminate|]. discriminate. }
  split.
  - rewrite app_assoc, tab_joined_snoc by exact Hne.
    replace ((tab_joined (cols ++ tags)
              ++ "009"%char :: chars "ZT:Z:" ++ v ++ ["010"%char]) ++ [NUL])
      with (tab_joined (cols ++ tags)
            ++ "009"%char :: chars "ZT:Z:" ++ v ++ ["010"%char; NUL])
      by (rewrite <- !app_assoc; cbn [app]; rewrite <- !app_assoc;
          reflexivity).
    apply infer_num_ztzs_at_tag; assumption.
  - rewrite print_unpaired_header_columns.
    apply print_unpaired_inv in H.
    destruct H as (alp & extra & alc & ztz & ale & tok & toks
                   & _ & H1 & _ & H3 & _ & Htok & _ & Hout).
    rewrite Hfeat in Hout. destruct Hout as (vs & Hvs & ->).
    rewrite forallb_app in Hplain. apply andb_prop in Hplain as [Hcols Htags].
    apply (parse_from_rname_on_extra _ _ _ _ _ Hrest Hlen Hcols) in H1.
    subst extra.
    apply parse_extra_Ok_unfold in H3. binv H3 as [z a1] Hloop.
    rewrite app_assoc in Hloop.
    apply (parse_extra_loop_last_ztz _ _ _ _ _ _ Htags) in Hloop. subst z.
    binv H3 as a2 Hx. injection H3 as <- _.
    change (tokens "," (v ++ ["010"%char]) = tok :: toks) in Htok.
    apply length_ztz_values in Hvs. rewrite <- Htok in Hvs.
    rewrite (length_tokens _ Hval), count_char_app in Hvs.
    rewrite !length_app, Hvs. unfold count_char at 2. cbn [List.filter length].
    change (ch_eqb "010" ",") with false. cbn [length]. lia.
Qed.

(** X15 at a record with three ZT:Z values: eleven doubles, and eleven
    column names. *)
Lemma unpaired_header_matches_record_witness :
  ∃ al' out n,
    print_unpaired example_cfg three_values_record 0 = Ok (al', out)
    ∧ infer_num_ztzs
        (tab_joined (columns_example
                     ++ [chars "ZT:Z:" ++ chars "5,1,-3" ++ ["010"%char]])
         ++ [NUL]) = Ok n
    ∧ length out = count_char "," (print_unpaired_header n 1).
Proof.
  assert (Hp : ∃ al' out,
             print_unpaired example_cfg three_values_record 0 = Ok (al', out))
    by (vm_compute; eexists; eexists; reflexivity).
  destruct Hp as (al' & out & Hp).
  destruct (unpaired_header_matches_record example_cfg three_values_record 0
              al' out (take 9 columns_example) (drop 9 columns_example)
              (chars "5,1,-3") 1) as (n & Hn & Hw).
  - reflexivity.
  - reflexivity.
  - vm_compute. reflexivity.
  - vm_compute. reflexivity.
  - intros Hin. repeat (apply elem_of_cons in Hin as [Hin|Hin];
                        [discriminate|]).
    inversion Hin.
  - vm_compute. reflexivity.
  - reflexivity.
  - exact Hp.
  - exists al', out, n. split; [exact Hp|]. split; [exact Hn | exact Hw].
Defined.

Lemma raw_rest_count cols tags v :
  length cols = 9%nat →
  forallb plain_column (cols ++ tags) = true →
  "010"%char ∉ v →
  infer_num_ztzs (raw_rest cols tags v)
  = Ok (1 + Z.of_nat (count_char "," v)).
Proof.
  intros Hlen Hplain Hnl. unfold raw_rest.
  assert (Hne : cols ++ tags ≠ []).
  { destruct cols; [discriminate|]. discriminate. }
  rewrite app_assoc, tab_joined_snoc by exact Hne.
  replace ((tab_joined (cols ++ tags)
            ++ "009"%char :: chars "ZT:Z:" ++ v ++ ["010"%char]) ++ [NUL])
    with (tab_joined (cols ++ tags)
          ++ "009"%char :: chars "ZT:Z:" ++ v ++ ["010"%char; NUL])
    by (rewrite <- !app_assoc; cbn [app]; rewrite <- !app_assoc;
        reflexivity).
  apply infer_num_ztzs_at_tag; assumption.
Qed.

(** The number of values that the printers read from the ZT:Z tag. *)
Lemma ztz_values_of_closing_tag al cols tags v alp extra alc ztz ale tok toks vs :
  ztz_closes_line al cols tags v →
  parse_from_rname_on al = Ok (alp, extra) →
  parse_extra alc extra = Ok (ztz, ale) →
  tokens "," ztz = tok :: toks →
  ztz_values (tok :: toks) = Ok vs →
  length vs = S (count_char "," v).
Proof.
  intros (Hlen & Hplain & Hv & Hnl & Hval & Hrest) H1 H3 Htok Hvs.
  rewrite forallb_app in Hplain. apply andb_prop in Hplain as [Hcols Htags].
  apply (parse_from_rname_on_extra _ _ _ _ _ Hrest Hlen Hcols) in H1.
  subst extra.
  apply parse_extra_Ok_unfold in H3. binv H3 as [z a1] Hloop.
  rewrite app_assoc in Hloop.
  apply (parse_extra_loop_last_ztz _ _ _ _ _ _ Htags) in Hloop. subst z.
  binv H3 as a2 Hx. injection H3 as <- _.
  change (tokens "," (v ++ ["010"%char]) = tok :: toks) in Htok.
  apply length_ztz_values in Hvs. rewrite <- Htok in Hvs.
  rewrite (length_tokens _ Hval), count_char_app in Hvs.
  rewrite Hvs. unfold count_char at 2. cbn [List.filter length].
  change (ch_eqb "010" ",") with false. cbn [length]. lia.
Qed.

Lemma length_paired_layout own other fraglen vs1 vs2 :
  length (paired_layout own other fraglen vs1 vs2)
  = (12 + length vs1 + length vs2)%nat.
Proof. unfold paired_layout. rewrite !length_app. cbn [length]. lia. Qed.

Lemma print_paired_helper_width cfg al1 al2 al1' al2' out
    cols1 tags1 v1 cols2 tags2 v2 :
  do_features cfg = true →
  ztz_closes_line al1 cols1 tags1 v1 →
  ztz_closes_line al2 cols2 tags2 v2 →
  print_paired_helper cfg al1 al2 = Ok (al1', al2', out) →
  length out
  = (2 * (12 + S (count_char "," v1) + S (count_char "," v2)))%nat.
Proof.
  intros Hfeat Hz1 Hz2 H.
  apply print_paired_helper_inv in H.
  destruct H as (alp1 & extra1 & alp2 & extra2 & alc1 & alc2 & ztz1 & ale1
                 & ztz2 & ale2 & fl & tok1 & toks1 & tok2 & toks2
                 & H1 & H2 & _ & _ & H5 & H6 & _ & Ht1 & Ht2 & _ & _ & Hout).
  rewrite Hfeat in Hout. destruct Hout as (vs1 & vs2 & Hv1 & Hv2 & ->).
  pose proof (ztz_values_of_closing_tag _ _ _ _ _ _ _ _ _ _ _ _
                Hz1 H1 H5 Ht1 Hv1) as L1.
  pose proof (ztz_values_of_closing_tag _ _ _ _ _ _ _ _ _ _ _ _
                Hz2 H2 H6 Ht2 Hv2) as L2.
  rewrite length_app, !length_paired_layout, L1, L2. lia.
Qed.

(** X16.  The header of the paired lanes agrees with the records of
    [print_paired] when the two mates carry the same number of ZT:Z values:
    each of the two records written for a pair then holds exactly as many
    doubles as the header, made from the count that [infer_num_ztzs] takes on
    the line of the first argument, names columns. *)
Theorem paired_header_matches_records
    cfg al1 al2 al1' al2' out cols1 tags1 v1 cols2 tags2 v2 nrow :
  do_features cfg = true →
  ztz_closes_line al1 cols1 tags1 v1 →
  ztz_closes_line al2 cols2 tags2 v2 →
  count_char "," v1 = count_char "," v2 →
  print_paired cfg al1 al2 = Ok (al1', al2', out) →
  ∃ n,
    infer_num_ztzs (raw_rest cols1 tags1 v1) = Ok n
    ∧ length out = (2 * count_char "," (print_paired_header n nrow))%nat.
Proof.
  intros Hfeat Hz1 Hz2 Hsame H.
  exists (1 + Z.of_nat (count_char "," v1)). split.
  - destruct Hz1 as (Hlen & Hplain & _ & Hnl & _).
    apply raw_rest_count; assumption.
  - rewrite print_paired_header_columns.
    unfold print_paired in H.
    destruct (line al1 <? line al2).
    + rewrite (print_paired_helper_width _ _ _ _ _ _ _ _ _ _ _ _
                 Hfeat Hz1 Hz2 H). lia.
    + binv H as [[a2 a1] o] Hh. injection H as _ _ <-.
      rewrite (print_paired_helper_width _ _ _ _ _ _ _ _ _ _ _ _
                 Hfeat Hz2 Hz1 Hh). lia.
Qed.

(** X16 at a concordant pair with two ZT:Z values for each mate: two records
    of sixteen doubles, and sixteen column names. *)
Lemma paired_header_matches_records_witness :
  ∃ al1' al2' out n,
    print_paired example_cfg pair_mate1 pair_mate2 = Ok (al1', al2', out)
    ∧ infer_num_ztzs (raw_rest (take 9 pair_columns1) (drop 9 pair_columns1)
                        (chars "5,1")) = Ok n
    ∧ length out = (2 * count_char "," (print_paired_header n 2))%nat.
Proof.
  assert (Hp : ∃ al1' al2' out,
             print_paired example_cfg pair_mate1 pair_mate2
             = Ok (al1', al2', out))
    by (vm_compute; do 3 eexists; reflexivity).
  destruct Hp as (al1' & al2' & out & Hp).
  destruct (paired_header_matches_records example_cfg pair_mate1 pair_mate2
              al1' al2' out
              (take 9 pair_columns1) (drop 9 pair_columns1) (chars "5,1")
              pair_columns2 [] (chars "7,2") 2) as (n & Hn & Hw).
  - reflexivity.
  - unfold ztz_closes_line.
    repeat split; try (vm_compute; reflexivity).
    intros Hin. repeat (apply elem_of_cons in Hin as [Hin|Hin];
                        [discriminate|]).
    inversion Hin.
  - unfold ztz_closes_line.
    repeat split; try (vm_compute; reflexivity).
    intros Hin. repeat (apply elem_of_cons in Hin as [Hin|Hin];
                        [discriminate|]).
    inversion Hin.
  - reflexivity.
  - exact Hp.
  - exists al1', al2', out, n.
    split; [exact Hp|]. split; [exact Hn | exact Hw].
Defined.

(** ** Records without a transcript *)

Lemma parse_cigar_loop_no_eq_x s : ∀ run al al',
  parse_cigar_loop s run al = Ok al' →
  Forall (fun c => is_eq_x c = false) s →
  cigar_equal_x al' = cigar_equal_x al ∧ edit_xscript al' = edit_xscript al.
Proof.
  induction s as [|c s IH]; intros run al al' H Hs;
    cbn [parse_cigar_loop] in H.
  - destruct run; [discriminate|]. injection H as <-. auto.
  - inversion Hs as [|? ? Hc Hs']; subst.
    destruct run as [r|].
    + destruct (isdigit c); [exact (IH _ _ _ H Hs')|].
      binv H as [] Ha.
      unfold is_eq_x in Hc. apply orb_false_elim in Hc as [Heq HX].
      rewrite HX, Heq in H. cbn [orb] in H.
      destruct (IH _ _ _ H Hs') as [E1 E2]. rewrite E1, E2.
      destruct (is_nil (cigar_ops al) && ch_eqb c "S");
        [split; reflexivity|].
      destruct (is_nil s && ch_eqb c "S"); split; reflexivity.
    + binv H as [] Ha. exact (IH _ _ _ H Hs').
Qed.

Lemma strtok_Forall (P : list ascii → Prop) fs : ∀ t r,
  strtok fs = Some (t, r) → Forall P fs → Forall P r.
Proof.
  induction fs as [|f fs IH]; intros t r H HP; [discriminate|].
  inversion HP as [|? ? Hf HP']; subst. cbn [strtok] in H.
  destruct (is_nil f); [exact (IH _ _ H HP')|].
  injection H as _ <-. exact HP'.
Qed.

Lemma strtok_some_Forall (P : list ascii → Prop) fs t r :
  strtok_some fs = Ok (t, r) → Forall P fs → Forall P r.
Proof.
  unfold strtok_some. destruct (strtok fs) as [[t' r']|] eqn:E; [|discriminate].
  intros H. injection H as _ <-. exact (strtok_Forall P _ _ _ E).
Qed.

Lemma parse_extra_loop_no_mdz toks : ∀ fz fm ztz al z' al',
  Forall (fun t => is_mdz_field t = false) toks →
  parse_extra_loop toks fz fm ztz al = Ok (z', al') → al' = al.
Proof.
  induction toks as [|t toks IH]; intros fz fm ztz al z' al' Hno H;
    cbn [parse_extra_loop] in H.
  - injection H as _ <-. reflexivity.
  - inversion Hno as [|? ? Ht Hno']; subst. unfold is_mdz_field in Ht.
    destruct (is_nil t); [exact (IH _ _ _ _ _ _ Hno' H)|].
    destruct (fm && fz); [injection H as _ <-; reflexivity|].
    rewrite Ht in H. exact (IH _ _ _ _ _ _ Hno' H).
Qed.

(** What [parse_from_rname_on] leaves of a record whose CIGAR string has no
    [=] and no [X]: no transcript, and the tags that follow the CIGAR
    column. *)
Lemma parse_from_rname_on_plain_cigar al c1 c2 c3 cig rest alp extra
    (P : list ascii → Prop) :
  rest_of_line al = Some (c1 :: c2 :: c3 :: cig :: rest) →
  c1 ≠ [] → c2 ≠ [] → c3 ≠ [] → cig ≠ [] →
  Forall (fun c => is_eq_x c = false) cig →
  Forall P rest →
  cigar_equal_x al = false →
  parse_from_rname_on al = Ok (alp, extra) →
  edit_xscript alp = edit_xscript al ∧ Forall P extra.
Proof.
  intros Hrest H1 H2 H3 H4 Hcig HP Hx H.
  unfold parse_from_rname_on in H. rewrite Hrest in H.
  cbn [in_line is_nil mbind result_bind] in H.
  unfold strtok_some in H.
  repeat (rewrite strtok_cons in H by assumption; cbn [mbind result_bind] in H).
  binv H as [] Hm. binv H as alq Hq.
  binv H as [t5 fs5] Ht5. binv H as [t6 fs6] Ht6.
  binv H as [t8 fs8] Ht8. binv H as [t9 fs9] Ht9.
  binv H as alc Hc. injection H as <- <-.
  split.
  - apply (calc_qual_averages_frame edit_xscript) in Hc; try reflexivity.
    change (edit_xscript alc = edit_xscript al). rewrite Hc.
    change (edit_xscript alq = edit_xscript al).
    unfold parse_cigar in Hq.
    binv Hq as [] Ha1. binv Hq as [] Ha2.
    change (cigar (set_cigar (Some cig) _)) with (Some cig) in Hq.
    binv Hq as al0 Hloop.
    apply parse_cigar_loop_no_eq_x in Hloop as [E1 E2].
    2:{ apply Forall_take. exact Hcig. }
    change (cigar_equal_x al0 = cigar_equal_x al) in E1.
    change (edit_xscript al0 = edit_xscript al) in E2.
    rewrite Hx in E1. rewrite E1 in Hq.
    injection Hq as <-. exact E2.
  - apply (strtok_some_Forall P) in Ht5; [|exact HP].
    apply (strtok_some_Forall P) in Ht6; [|exact Ht5].
    assert (H7 : Forall P (match strtok fs6 with
                           | Some (_, r) => r | None => [] end)).
    { destruct (strtok fs6) as [[t7 fs7]|] eqn:E7; [|constructor].
      exact (strtok_Forall P _ _ _ E7 Ht6). }
    apply (strtok_some_Forall P) in Ht8; [|exact H7].
    apply (strtok_some_Forall P) in Ht9; [|exact Ht8]. exact Ht9.
Qed.

(** The columns that [parse_from_rname_on] hands on to [parse_extra]: those
    behind the nine columns from RNAME to QUAL. *)
Lemma parse_from_rname_on_tags al c1 c2 c3 c4 c5 c6 c7 c8 c9 tags alp extra :
  rest_of_line al
  = Some (c1 :: c2 :: c3 :: c4 :: c5 :: c6 :: c7 :: c8 :: c9 :: tags) →
  c1 ≠ [] → c2 ≠ [] → c3 ≠ [] → c4 ≠ [] → c5 ≠ [] → c6 ≠ [] → c7 ≠ [] →
  c8 ≠ [] → c9 ≠ [] →
  parse_from_rname_on al = Ok (alp, extra) →
  extra = tags.
Proof.
  intros Hr H1 H2 H3 H4 H5 H6 H7 H8 H9 H.
  unfold parse_from_rname_on in H. rewrite Hr in H.
  cbn [in_line is_nil mbind result_bind] in H.
  unfold strtok_some in H.
  repeat (rewrite strtok_cons in H by assumption; cbn [mbind result_bind] in H).
  binv H as [] Hm. binv H as al1 Hc. binv H as al2 Hq.
  injection H as _ <-. reflexivity.
Qed.

(** X17.  A record with at least one column behind QUAL, whose CIGAR string
    has neither [=] nor [X] and whose line has no MD:Z tag, is never written
    by [print_unpaired]: no edit transcript can be built for it, and the
    call ends in a fault whatever the rest of the record holds. *)
Theorem record_without_transcript_is_never_written
    cfg al ordlen c1 c2 c3 cig c5 c6 c7 c8 c9 tags :
  rest_of_line al
  = Some (c1 :: c2 :: c3 :: cig :: c5 :: c6 :: c7 :: c8 :: c9 :: tags) →
  c1 ≠ [] → c2 ≠ [] → c3 ≠ [] → cig ≠ [] → c5 ≠ [] → c6 ≠ [] → c7 ≠ [] →
  c8 ≠ [] → c9 ≠ [] →
  tags ≠ [] →
  Forall (fun c => is_eq_x c = false) cig →
  Forall (fun t => is_mdz_field t = false) tags →
  edit_xscript al = [] → mdz al = None → cigar_equal_x al = false →
  ∃ f, print_unpaired cfg al ordlen = Err f.
Proof.
  intros Hrest H1 H2 H3 H4 H5 H6 H7 H8 H9 Htags Hcig Hmd Hxs Hmdz Hx.
  destruct (print_unpaired cfg al ordlen) as [[al' out]|f] eqn:E; [|eauto].
  exfalso.
  apply print_unpaired_inv in E.
  destruct E as (alp & extra & alc & ztz & ale & tok & toks
                 & _ & Hp & Hc & He & Hnil & _).
  pose proof (parse_from_rname_on_plain_cigar _ _ _ _ _ _ _ _ (fun _ => True)
                Hrest H1 H2 H3 H4 Hcig
                ltac:(apply Forall_forall; intros; exact I) Hx Hp)
    as [Exs _].
  pose proof (parse_from_rname_on_tags _ _ _ _ _ _ _ _ _ _ _ _ _
                Hrest H1 H2 H3 H4 H5 H6 H7 H8 H9 Hp) as Hextra.
  subst extra.
  pose proof (parse_from_rname_on_frame mdz) as Fm.
  specialize (Fm ltac:(reflexivity) ltac:(reflexivity) ltac:(reflexivity)
                 ltac:(reflexivity) ltac:(reflexivity) ltac:(reflexivity)
                 ltac:(reflexivity) ltac:(reflexivity) ltac:(reflexivity)
                 ltac:(reflexivity) ltac:(reflexivity) ltac:(reflexivity)
                 ltac:(reflexivity) ltac:(reflexivity) ltac:(reflexivity)
                 ltac:(reflexivity) ltac:(reflexivity) ltac:(reflexivity)
                 ltac:(reflexivity) ltac:(reflexivity) _ _ _ Hp).
  pose proof (set_correctness_frame mdz ltac:(reflexivity) _ _ _ _ _ Hc) as Fc.
  pose proof (set_correctness_frame edit_xscript ltac:(reflexivity)
                _ _ _ _ _ Hc) as Fx.
  apply parse_extra_Ok_unfold in He. binv He as [z a1] Hloop.
  apply (parse_extra_loop_no_mdz _ _ _ _ _ _ _ Hmd) in Hloop. subst a1.
  rewrite Fc, Fm, Hmdz in He. cbn [is_some] in He.
  rewrite andb_false_r in He. cbn [andb mbind result_bind] in He.
  destruct z as [z|]; [|discriminate]. injection He as _ <-.
  rewrite Fx, Exs, Hxs in Hnil. discriminate.
Qed.

(** X17 at a record with the CIGAR string 10M and a ZT:Z tag only. *)
Lemma record_without_transcript_is_never_written_witness :
  ∃ f, print_unpaired example_cfg plain_cigar_no_mdz_record 0 = Err f.
Proof.
  apply (record_without_transcript_is_never_written example_cfg
           plain_cigar_no_mdz_record 0
           (chars "chr1") (chars "100") (chars "60") (chars "10M")
           (chars "=") (chars "0") (chars "0") (chars "ACGTACGTAC")
           (chars "IIIIIIIIII") [chars "ZT:Z:5"]);
    try reflexivity; try discriminate.
  - repeat (constructor; [reflexivity|]). constructor.
  - repeat (constructor; [reflexivity|]). constructor.
Defined.

(** ** The quality totals before they are computed *)

Lemma same_but_totals_refl a : same_but_totals a a.
Proof. reflexivity. Qed.

Lemma same_but_totals_with tc ta al : same_but_totals al (with_totals tc ta al).
Proof. reflexivity. Qed.

Lemma same_but_totals_inv a b :
  same_but_totals a b →
  b = with_totals (tot_clipped_qual b) (tot_aligned_qual b) a.
Proof.
  unfold same_but_totals, with_totals. destruct a, b. cbn.
  intros H. injection H as ?; subst. reflexivity.
Qed.

Lemma cigar_push_totals tc ta al r c last :
  cigar_push (with_totals tc ta al) r c last
  = with_totals tc ta (cigar_push al r c last).
Proof.
  unfold cigar_push.
  change (cigar_ops (with_totals tc ta al)) with (cigar_ops al).
  destruct (is_nil (cigar_ops al) && ch_eqb c "S");
    destruct (last && ch_eqb c "S");
    destruct (ch_eqb c "X" || ch_eqb c "="); reflexivity.
Qed.

Lemma parse_cigar_loop_totals tc ta s : ∀ run al,
  parse_cigar_loop s run (with_totals tc ta al)
  = parse_cigar_loop s run al ≫= (λ x, Ok (with_totals tc ta x)).
Proof.
  induction s as [|c s IH]; intros run al; cbn [parse_cigar_loop].
  - destruct run; reflexivity.
  - destruct run as [r|].
    + destruct (isdigit c); [apply IH|].
      destruct (isalpha c || ch_eqb c "="); cbn [assert mbind result_bind];
        [|reflexivity].
      change (parse_cigar_loop s None
                (cigar_push (with_totals tc ta al) r c (is_nil s))
              = parse_cigar_loop s None (cigar_push al r c (is_nil s))
                ≫= (λ x, Ok (with_totals tc ta x))).
      rewrite cigar_push_totals. apply IH.
    + destruct (isdigit c); cbn [assert mbind result_bind];
        [apply IH|reflexivity].
Qed.

Lemma cigar_to_edit_xscript_totals tc ta al :
  cigar_to_edit_xscript (with_totals tc ta al)
  = cigar_to_edit_xscript al ≫= (λ x, Ok (with_totals tc ta x)).
Proof.
  unfold cigar_to_edit_xscript.
  change (cigar_equal_x (with_totals tc ta al)) with (cigar_equal_x al).
  change (edit_xscript (with_totals tc ta al)) with (edit_xscript al).
  change (cigar_ops (with_totals tc ta al)) with (cigar_ops al).
  change (cigar_run (with_totals tc ta al)) with (cigar_run al).
  destruct (cigar_equal_x al); cbn [assert mbind result_bind]; [|reflexivity].
  destruct (is_nil (edit_xscript al)); cbn [assert mbind result_bind];
    [|reflexivity].
  destruct (cigar_to_edit_xscript_loop (cigar_ops al) (cigar_run al)
              (edit_xscript al)); reflexivity.
Qed.

Lemma parse_cigar_totals tc ta al :
  parse_cigar (with_totals tc ta al)
  = parse_cigar al ≫= (λ x, Ok (with_totals tc ta x)).
Proof.
  unfold parse_cigar.
  change (cigar_ops (with_totals tc ta al)) with (cigar_ops al).
  change (cigar_run (with_totals tc ta al)) with (cigar_run al).
  change (cigar (with_totals tc ta al)) with (cigar al).
  destruct (is_nil (cigar_ops al)); cbn [assert mbind result_bind];
    [|reflexivity].
  destruct (is_nil (cigar_run al)); cbn [assert mbind result_bind];
    [|reflexivity].
  destruct (cigar al) as [s|]; [|reflexivity].
  rewrite parse_cigar_loop_totals.
  destruct (parse_cigar_loop (take (strlen s) s) None al) as [al0|f];
    cbn [mbind result_bind]; [|reflexivity].
  change (cigar_equal_x (with_totals tc ta al0)) with (cigar_equal_x al0).
  destruct (cigar_equal_x al0); [apply cigar_to_edit_xscript_totals|].
  reflexivity.
Qed.

Lemma calc_qual_loop_totals a b n : ∀ i q al tc ta,
  calc_qual_loop n i q (with_totals a b al) tc ta
  = calc_qual_loop n i q al tc ta.
Proof.
  induction n as [|n IH]; intros i q al tc ta; [reflexivity|].
  cbn [calc_qual_loop].
  change (left_clip (with_totals a b al)) with (left_clip al).
  change (right_clip (with_totals a b al)) with (right_clip al).
  change (len (with_totals a b al)) with (len al).
  rewrite !IH. reflexivity.
Qed.

(** [calc_qual_averages] starts its two sums from zero. *)
Lemma calc_qual_averages_totals a b al :
  calc_qual_averages (with_totals a b al) = calc_qual_averages al.
Proof.
  unfold calc_qual_averages.
  change (left_clip (with_totals a b al)) with (left_clip al).
  change (right_clip (with_totals a b al)) with (right_clip al).
  change (len (with_totals a b al)) with (len al).
  change (qual (with_totals a b al)) with (qual al).
  rewrite calc_qual_loop_totals.
  destruct (0 <? len al); cbn [assert mbind result_bind]; [|reflexivity].
  destruct (wrap64 (left_clip al + right_clip al) <? len al);
    cbn [assert mbind result_bind]; [|reflexivity].
  destruct (calc_qual_loop (Z.to_nat (len al)) 0 (qual al) al 0 0)
    as [[tc ta]|f]; cbn [mbind result_bind]; [|reflexivity].
  destruct (1 <? wrap64 (left_clip al + right_clip al)); reflexivity.
Qed.

Lemma parse_from_rname_on_totals a b al :
  parse_from_rname_on (with_totals a b al) = parse_from_rname_on al.
Proof.
  unfold parse_from_rname_on.
  change (rest_of_line (with_totals a b al)) with (rest_of_line al).
  destruct (rest_of_line al) as [fs|]; [|reflexivity].
  destruct (in_line fs) as [[]|f]; cbn [mbind result_bind]; [|reflexivity].
  destruct (strtok_some fs) as [[t1 fs1]|f]; cbn [mbind result_bind];
    [|reflexivity].
  destruct (strtok_some fs1) as [[t2 fs2]|f]; cbn [mbind result_bind];
    [|reflexivity].
  destruct (strtok_some fs2) as [[t3 fs3]|f]; cbn [mbind result_bind];
    [|reflexivity].
  match goal with
  | |- assert ?c ≫= _ = assert ?d ≫= _ =>
      change c with d; destruct d; cbn [assert mbind result_bind];
        [|reflexivity]
  end.
  destruct (strtok_some fs3) as [[t4 fs4]|f]; cbn [mbind result_bind];
    [|reflexivity].
  match goal with
  | |- parse_cigar ?x ≫= _ = parse_cigar ?y ≫= _ =>
      change x with (with_totals a b y); rewrite parse_cigar_totals;
        destruct (parse_cigar y) as [alq|f]; cbn [mbind result_bind];
        [|reflexivity]
  end.
  destruct (strtok_some fs4) as [[t5 fs5]|f]; cbn [mbind result_bind];
    [|reflexivity].
  destruct (strtok_some fs5) as [[t6 fs6]|f]; cbn [mbind result_bind];
    [|reflexivity].
  destruct (strtok_some (match strtok fs6 with
                         | Some (_, r) => r | None => [] end))
    as [[t8 fs8]|f]; cbn [mbind result_bind]; [|reflexivity].
  destruct (strtok_some fs8) as [[t9 fs9]|f]; cbn [mbind result_bind];
    [|reflexivity].
  match goal with
  | |- calc_qual_averages ?x ≫= _ = calc_qual_averages ?y ≫= _ =>
      change x with (with_totals a b y); rewrite calc_qual_averages_totals
  end.
  reflexivity.
Qed.

Lemma print_unpaired_totals cfg a b al ordlen :
  print_unpaired cfg (with_totals a b al) ordlen = print_unpaired cfg al ordlen.
Proof.
  unfold print_unpaired. rewrite parse_from_rname_on_totals. reflexivity.
Qed.

Lemma print_paired_helper_totals cfg a1 b1 a2 b2 al1 al2 :
  print_paired_helper cfg (with_totals a1 b1 al1) (with_totals a2 b2 al2)
  = print_paired_helper cfg al1 al2.
Proof.
  unfold print_paired_helper. rewrite !parse_from_rname_on_totals.
  reflexivity.
Qed.

Lemma print_paired_totals cfg a1 b1 a2 b2 al1 al2 :
  print_paired cfg (with_totals a1 b1 al1) (with_totals a2 b2 al2)
  = print_paired cfg al1 al2.
Proof.
  unfold print_paired. rewrite !print_paired_helper_totals. reflexivity.
Qed.

Lemma alike_bind {A B} (R : B → B → Prop) (m m' : result A)
    (k k' : A → result B) :
  m = m' → (∀ x, alike R (k x) (k' x)) → alike R (m ≫= k) (m' ≫= k').
Proof. intros <- H. destruct m; cbn; [apply H | reflexivity]. Qed.

Lemma alike_bind_rel {A B} (RA : A → A → Prop) (R : B → B → Prop)
    (m m' : result A) (k k' : A → result B) :
  alike RA m m' → (∀ x x', RA x x' → alike R (k x) (k' x')) →
  alike R (m ≫= k) (m' ≫= k').
Proof.
  intros Hm H. destruct m as [x|f], m' as [x'|f']; cbn in *;
    try contradiction; [apply H; exact Hm | exact Hm].
Qed.

Lemma same_pass_slots st st' :
  same_pass st st' →
  same_but_totals (al_cur_of st) (al_cur_of st')
  ∧ same_but_totals (al_prev_of st) (al_prev_of st').
Proof.
  intros (H1 & H2 & Hc & _). unfold al_cur_of, al_prev_of. rewrite <- Hc.
  destruct (st_al_cur1 st); auto.
Qed.

Lemma same_pass_next_state st st' x x' y y' c u b cc d :
  same_pass st st' → same_but_totals x x' → same_but_totals y y' →
  same_pass (next_state st x y c u b cc d) (next_state st' x' y' c u b cc d).
Proof.
  intros (_ & _ & Hc & _) Hx Hy. unfold same_pass, next_state. cbn.
  rewrite <- Hc. destruct (st_al_cur1 st); repeat split; assumption.
Qed.

(** The first half of the loop body on two states that differ in the totals
    only. *)
Lemma sam_pass1_mate_totals cfg st st' q fl fs cnt :
  same_pass st st' →
  alike same_mating (sam_pass1_mate cfg st q fl fs cnt)
                    (sam_pass1_mate cfg st' q fl fs cnt).
Proof.
  intros Hst. apply same_pass_slots in Hst as [Hc Hp].
  apply same_but_totals_inv in Hc, Hp.
  unfold sam_pass1_mate. rewrite Hc, Hp.
  generalize (tot_clipped_qual (al_cur_of st')) (tot_aligned_qual (al_cur_of st'))
             (tot_clipped_qual (al_prev_of st')) (tot_aligned_qual (al_prev_of st')).
  intros a b a' b'.
  generalize (al_cur_of st) (al_prev_of st). intros c0 p0.
  cbv zeta.
  apply alike_bind; [reflexivity|intros []].
  apply alike_bind; [reflexivity|intros mated].
  destruct mated.
  - apply alike_bind; [reflexivity|intros pfx].
    apply (alike_bind_rel same_but_totals).
    + destruct pfx; [|reflexivity].
      apply alike_bind; [reflexivity|intros []].
      apply alike_bind; [reflexivity|intros t].
      apply alike_bind; [reflexivity|intros []].
      reflexivity.
    + intros x x' Hx. cbn. repeat split; try assumption; reflexivity.
  - apply alike_bind; [reflexivity|intros pfx].
    apply (alike_bind_rel same_but_totals).
    + destruct pfx; [|reflexivity].
      apply alike_bind; [reflexivity|intros []].
      apply alike_bind; [reflexivity|intros t].
      apply alike_bind; [reflexivity|intros []].
      reflexivity.
    + intros x x' Hx. cbn. repeat split; try assumption; reflexivity.
Qed.

Ltac drop_totals :=
  repeat match goal with
         | |- context [is_aligned (with_totals ?a ?b ?x)] =>
             change (is_aligned (with_totals a b x)) with (is_aligned x)
         | |- context [is_concordant (with_totals ?a ?b ?x)] =>
             change (is_concordant (with_totals a b x)) with (is_concordant x)
         | |- context [mate_flag (with_totals ?a ?b ?x)] =>
             change (mate_flag (with_totals a b x)) with (mate_flag x)
         | |- context [typ_null (with_totals ?a ?b ?x)] =>
             change (typ_null (with_totals a b x)) with (typ_null x)
         | |- context [typ_is (with_totals ?a ?b ?x) ?i ?c] =>
             change (typ_is (with_totals a b x) i c) with (typ_is x i c)
         | |- context [rest_of_line (with_totals ?a ?b ?x)] =>
             change (rest_of_line (with_totals a b x)) with (rest_of_line x)
         | |- context [first_of_lane ?cfg ?n (with_totals ?a ?b ?x)] =>
             change (first_of_lane cfg n (with_totals a b x))
               with (first_of_lane cfg n x)
         end.

Ltac alike_leaf Hst :=
  cbn [alike]; apply same_pass_next_state; [exact Hst | reflexivity ..].

(** The second half of the loop body on records and states that differ in
    the totals only. *)
Lemma sam_pass1_classify_totals cfg st st' cur cur' prev prev' mated cnt :
  same_pass st st' → same_but_totals cur cur' → same_but_totals prev prev' →
  alike same_pass (sam_pass1_classify cfg st cur prev mated cnt)
                  (sam_pass1_classify cfg st' cur' prev' mated cnt).
Proof.
  intros Hst Hc Hp.
  pose proof Hst as (_ & _ & _ & _ & Eu & Eb & Ec & Ed).
  apply same_but_totals_inv in Hc, Hp.
  unfold sam_pass1_classify. rewrite <- Eu, <- Eb, <- Ec, <- Ed, Hc, Hp.
  generalize (tot_clipped_qual cur') (tot_aligned_qual cur')
             (tot_clipped_qual prev') (tot_aligned_qual prev').
  intros a b a' b'. clear Hc Hp Eu Eb Ec Ed.
  cbv zeta. drop_totals.
  destruct (ch_eqb (mate_flag cur) "0").
  { destruct (negb (is_aligned cur)); [alike_leaf Hst|].
    destruct (typ_null cur || typ_is cur 0 "u"); [|alike_leaf Hst].
    apply alike_bind; [reflexivity|intros []].
    rewrite print_unpaired_totals.
    apply alike_bind; [reflexivity|intros [c out]]. alike_leaf Hst. }
  destruct mated.
  2:{ apply alike_bind; [reflexivity|intros []]. alike_leaf Hst. }
  destruct (ch_eqb (mate_flag cur) "1"); cbv iota; drop_totals.
  - destruct (negb (is_aligned cur) && negb (is_aligned prev));
      [alike_leaf Hst|].
    destruct (negb (Bool.eqb (is_aligned cur) (is_aligned prev))).
    + destruct (is_aligned cur); cbv iota; drop_totals.
      * destruct (typ_null cur
                  || typ_is cur 0 "b" && typ_is cur 1 (mate_flag cur));
          [|alike_leaf Hst].
        apply alike_bind; [reflexivity|intros []].
        apply alike_bind; [reflexivity|intros ordlen].
        rewrite print_unpaired_totals.
        apply alike_bind; [reflexivity|intros [c out]]. alike_leaf Hst.
      * destruct (typ_null prev
                  || typ_is prev 0 "b" && typ_is prev 1 (mate_flag prev));
          [|alike_leaf Hst].
        apply alike_bind; [reflexivity|intros []].
        apply alike_bind; [reflexivity|intros ordlen].
        rewrite print_unpaired_totals.
        apply alike_bind; [reflexivity|intros [c out]]. alike_leaf Hst.
    + apply alike_bind; [reflexivity|intros []].
      destruct (is_concordant cur).
      * destruct (typ_null cur || typ_is cur 0 "c"); [|alike_leaf Hst].
        apply alike_bind; [reflexivity|intros []].
        rewrite print_paired_totals.
        apply alike_bind; [reflexivity|intros [[m1 m2] out]]. alike_leaf Hst.
      * destruct (typ_null cur || typ_is cur 0 "d"); [|alike_leaf Hst].
        apply alike_bind; [reflexivity|intros []].
        rewrite print_paired_totals.
        apply alike_bind; [reflexivity|intros [[m1 m2] out]]. alike_leaf Hst.
  - destruct (negb (is_aligned prev) && negb (is_aligned cur));
      [alike_leaf Hst|].
    destruct (negb (Bool.eqb (is_aligned prev) (is_aligned cur))).
    + destruct (is_aligned prev); cbv iota; drop_totals.
      * destruct (typ_null prev
                  || typ_is prev 0 "b" && typ_is prev 1 (mate_flag prev));
          [|alike_leaf Hst].
        apply alike_bind; [reflexivity|intros []].
        apply alike_bind; [reflexivity|intros ordlen].
        rewrite print_unpaired_totals.
        apply alike_bind; [reflexivity|intros [c out]]. alike_leaf Hst.
      * destruct (typ_null cur
                  || typ_is cur 0 "b" && typ_is cur 1 (mate_flag cur));
          [|alike_leaf Hst].
        apply alike_bind; [reflexivity|intros []].
        apply alike_bind; [reflexivity|intros ordlen].
        rewrite print_unpaired_totals.
        apply alike_bind; [reflexivity|intros [c out]]. alike_leaf Hst.
    + apply alike_bind; [reflexivity|intros []].
      destruct (is_concordant prev).
      * destruct (typ_null prev || typ_is prev 0 "c"); [|alike_leaf Hst].
        apply alike_bind; [reflexivity|intros []].
        rewrite print_paired_totals.
        apply alike_bind; [reflexivity|intros [[m1 m2] out]]. alike_leaf Hst.
      * destruct (typ_null prev || typ_is prev 0 "d"); [|alike_leaf Hst].
        apply alike_bind; [reflexivity|intros []].
        rewrite print_paired_totals.
        apply alike_bind; [reflexivity|intros [[m1 m2] out]]. alike_leaf Hst.
Qed.

Lemma sam_pass1_line_totals cfg st st' l :
  same_pass st st' →
  same_outcome (sam_pass1_line cfg st l) (sam_pass1_line cfg st' l).
Proof.
  intros Hst. pose proof Hst as (H1 & H2 & Hc & Hn & Eu & Eb & Ec & Ed).
  unfold same_outcome, sam_pass1_line.
  rewrite <- Hc, <- Hn, <- Eu, <- Eb, <- Ec, <- Ed. cbv zeta.
  assert (Hskip : ∀ c,
            same_pass
              (mkPassState (st_al1 st) (st_al2 st) (st_al_cur1 st) c
                 (st_orec_u st) (st_orec_b st) (st_orec_c st) (st_orec_d st))
              (mkPassState (st_al1 st') (st_al2 st') (st_al_cur1 st) c
                 (st_orec_u st) (st_orec_b st) (st_orec_c st) (st_orec_d st))).
  { intros c. repeat split; assumption. }
  destruct (ch_eqb (hd NUL (hd [] l)) "@"); [apply Hskip|].
  apply alike_bind; [reflexivity|intros [q fs]].
  apply alike_bind; [reflexivity|intros []].
  apply alike_bind; [reflexivity|intros [flag_str fs']].
  destruct (negb (Z.land (atoi flag_str) 256 =? 0)); [apply Hskip|].
  destruct (negb (Z.land (atoi flag_str) 2048 =? 0)); [apply Hskip|].
  apply (alike_bind_rel same_mating).
  - apply sam_pass1_mate_totals. exact Hst.
  - intros [[[cur prev] mated] cnt] [[[cur' prev'] mated'] cnt']
           (Rc & Rp & <- & <-).
    apply sam_pass1_classify_totals; assumption.
Qed.

Lemma sam_pass1_from_totals cfg lines : ∀ st st',
  same_pass st st' →
  same_outcome (sam_pass1_from cfg st lines) (sam_pass1_from cfg st' lines).
Proof.
  induction lines as [|l lines IH]; intros st st' Hst; cbn [sam_pass1_from].
  - exact Hst.
  - apply (alike_bind_rel same_pass).
    + apply sam_pass1_line_totals. exact Hst.
    + intros x x' Hx. apply IH. exact Hx.
Qed.

(** X18.  The constructor of [Alignment] and [clear] leave the two quality
    totals uninitialised.  Whatever values they hold at the start, a run of
    [sam_pass1] ends the same way: with the same fault, or with the same
    counters and the same doubles in the four record files, the final
    states differing at most in the totals kept in the two record slots. *)
Theorem uninitialised_totals_never_reach_the_output
    cfg tc1 ta1 tc2 ta2 tc1' ta1' tc2' ta2' lines :
  same_outcome (sam_pass1 cfg tc1 ta1 tc2 ta2 lines)
               (sam_pass1 cfg tc1' ta1' tc2' ta2' lines).
Proof.
  unfold sam_pass1. apply sam_pass1_from_totals.
  repeat split; reflexivity.
Qed.

(** ** The sections of the command line *)

Lemma set_modes_files cs : ∀ o, files_of (set_modes cs o) = files_of o.
Proof.
  induction cs as [|c cs IH]; intros o; [reflexivity|].
  cbn [set_modes]. rewrite IH.
  destruct (ch_eqb c "s"); [reflexivity|].
  destruct (ch_eqb c "i"); [reflexivity|].
  destruct (ch_eqb c "f"); reflexivity.
Qed.

Lemma set_modes_flags cs : ∀ o,
  modes_of (set_modes cs o)
  = (o_do_simulation o || existsb (fun x => ch_eqb x "s") cs,
     o_do_input_model o || existsb (fun x => ch_eqb x "i") cs,
     o_do_features o || existsb (fun x => ch_eqb x "f") cs).
Proof.
  induction cs as [|c cs IH]; intros o.
  - unfold modes_of. cbn. rewrite !orb_false_r. reflexivity.
  - cbn [set_modes existsb]. rewrite IH.
    destruct (ch_eqb c "s") eqn:Es.
    { apply ch_eqb_eq in Es. subst c.
      change (ch_eqb "s" "i") with false. change (ch_eqb "s" "f") with false.
      cbn [o_do_simulation o_do_input_model o_do_features orb].
      rewrite orb_true_r. reflexivity. }
    destruct (ch_eqb c "i") eqn:Ei.
    { apply ch_eqb_eq in Ei. subst c. change (ch_eqb "i" "f") with false.
      cbn [o_do_simulation o_do_input_model o_do_features orb].
      rewrite orb_true_r. reflexivity. }
    destruct (ch_eqb c "f") eqn:Ef.
    { cbn [o_do_simulation o_do_input_model o_do_features orb].
      rewrite orb_true_r. reflexivity. }
    reflexivity.
Qed.

Lemma args_loop_modes modes : ∀ rest o,
  "--"%string ∉ modes →
  ∃ o', args_loop 0 (modes ++ "--"%string :: rest) o = args_loop 1 rest o'
        ∧ files_of o' = files_of o
        ∧ modes_of o'
          = (o_do_simulation o || has_mode "s" modes,
             o_do_input_model o || has_mode "i" modes,
             o_do_features o || has_mode "f" modes).
Proof.
  induction modes as [|a modes IH]; intros rest o Hno.
  - exists o. split; [reflexivity|]. split; [reflexivity|].
    unfold modes_of, has_mode. cbn. rewrite !orb_false_r. reflexivity.
  - apply not_elem_of_cons in Hno as [Ha Hno].
    cbn [app args_loop].
    assert (E : String.eqb a "--" = false) by (apply String.eqb_neq; congruence).
    rewrite E. cbn [Z.eqb].
    destruct (IH rest (set_modes (chars a) o) Hno) as (o' & Hrun & Hf & Hm).
    exists o'. split; [exact Hrun|]. split.
    + rewrite Hf. apply set_modes_files.
    + rewrite Hm. pose proof (set_modes_flags (chars a) o) as Hs.
      unfold modes_of in Hs. injection Hs as -> -> ->.
      unfold has_mode. cbn [existsb]. rewrite !orb_assoc. reflexivity.
Qed.

Lemma set_parameter_frame name value o o' :
  set_parameter name value o = Some (Parsed o') →
  files_of o' = files_of o ∧ modes_of o' = modes_of o.
Proof.
  unfold set_parameter. intros H.
  repeat match type of H with
         | (if ?c then _ else _) = _ => destruct c
         end;
    try discriminate; injection H as <-; split; reflexivity.
Qed.

Lemma set_parameter_accepted name value o :
  accepted_pair (name, value) = true →
  ∃ o', set_parameter name value o = Some (Parsed o').
Proof.
  unfold accepted_pair, set_parameter. cbn [fst snd].
  repeat match goal with
         | |- context [if ?c then _ else _] => destruct c
         end; intros H; try discriminate; eauto.
Qed.

Lemma set_parameter_unknown name value o :
  known_parameter name = false → set_parameter name value o = None.
Proof.
  unfold known_parameter, parameter_names, set_parameter. cbn [existsb].
  intros H.
  repeat (apply orb_false_elim in H as [E H]; rewrite E; clear E).
  reflexivity.
Qed.

Lemma set_parameter_takes_separator name o :
  known_parameter name = true →
  name ≠ "sim-function"%string →
  ∃ o', set_parameter name "--" o = Some (Parsed o')
        ∧ files_of o' = files_of o ∧ modes_of o' = modes_of o.
Proof.
  intros Hk Hne.
  assert (H : ∃ o', set_parameter name "--" o = Some (Parsed o')).
  { unfold known_parameter, parameter_names in Hk. cbn [existsb] in Hk.
    repeat (apply orb_prop in Hk as [Hk|Hk];
            [apply String.eqb_eq in Hk; subst name;
             first [congruence | eexists; reflexivity]|]).
    discriminate. }
  destruct H as [o' H]. exists o'. split; [exact H|].
  exact (set_parameter_frame _ _ _ _ H).
Qed.

Lemma args_loop_parameters kvs : ∀ rest o,
  forallb accepted_pair kvs = true →
  ∃ o', args_loop 1 (pair_args kvs ++ rest) o = args_loop 1 rest o'
        ∧ files_of o' = files_of o ∧ modes_of o' = modes_of o.
Proof.
  induction kvs as [|[k v] kvs IH]; intros rest o Hacc.
  - exists o. auto.
  - cbn [forallb] in Hacc. apply andb_prop in Hacc as [Hkv Hacc].
    assert (E : String.eqb k "--" = false).
    { destruct (String.eqb k "--") eqn:E; [|reflexivity].
      apply String.eqb_eq in E. subst k. discriminate. }
    destruct (set_parameter_accepted k v o Hkv) as [o1 H1].
    destruct (set_parameter_frame _ _ _ _ H1) as [F1 M1].
    destruct (IH rest o1 Hacc) as (o' & Hrun & Hf & Hm).
    exists o'. split; [|split; congruence].
    unfold pair_args. cbn [flat_map fst snd app args_loop].
    rewrite E. cbn [Z.eqb]. rewrite H1. exact Hrun.
Qed.

(** Names that no comparison matches are passed over one by one. *)
Lemma args_loop_unknown xs : ∀ rest o,
  "--"%string ∉ xs →
  forallb (fun a => negb (known_parameter a)) xs = true →
  args_loop 1 (xs ++ "--"%string :: rest) o = args_loop 2 rest o.
Proof.
  induction xs as [|a xs IH]; intros rest o Hno Hun; [reflexivity|].
  apply not_elem_of_cons in Hno as [Ha Hno].
  cbn [forallb] in Hun. apply andb_prop in Hun as [Hu Hun].
  apply negb_true_iff in Hu.
  assert (E : String.eqb a "--" = false) by (apply String.eqb_neq; congruence).
  cbn [app args_loop]. rewrite E. cbn [Z.eqb].
  destruct (xs ++ "--"%string :: rest) as [|value rest'] eqn:Ex.
  { destruct xs; discriminate. }
  rewrite set_parameter_unknown by exact Hu.
  rewrite <- Ex. apply IH; assumption.
Qed.

(** The files of one section, in their order. *)
Lemma args_loop_files section files : ∀ o,
  2 ≤ section →
  "--"%string ∉ files →
  (∀ rest, args_loop section (files ++ "--"%string :: rest) o
           = args_loop (section + 1) rest
               (fold_left (fun o a => add_file section a o) files o))
  ∧ args_loop section files o
    = Ok (Parsed (fold_left (fun o a => add_file section a o) files o)).
Proof.
  induction files as [|a files IH]; intros o Hs Hno.
  - split; reflexivity.
  - apply not_elem_of_cons in Hno as [Ha Hno].
    assert (E : String.eqb a "--" = false) by (apply String.eqb_neq; congruence).
    assert (E0 : (section =? 0) = false) by lia.
    assert (E1 : (section =? 1) = false) by lia.
    destruct (IH (add_file section a o) Hs Hno) as [IH1 IH2].
    split; [intros rest|]; cbn [app args_loop fold_left];
      rewrite E, E0, E1; [apply IH1 | apply IH2].
Qed.

Lemma fold_add_sams files : ∀ o,
  files_of (fold_left (fun o a => add_file 2 a o) files o)
  = (o_sams o ++ files, o_fastas o, o_prefix o, o_prefix_set o,
     o_mod_prefix o, o_mod_prefix_set o)
  ∧ modes_of (fold_left (fun o a => add_file 2 a o) files o) = modes_of o.
Proof.
  induction files as [|a files IH]; intros o; cbn [fold_left].
  - unfold files_of. rewrite app_nil_r. auto.
  - destruct (IH (add_file 2 a o)) as [-> ->].
    unfold files_of, modes_of. cbn. rewrite <- app_assoc. auto.
Qed.

Lemma fold_add_fastas files : ∀ o,
  files_of (fold_left (fun o a => add_file 3 a o) files o)
  = (o_sams o, o_fastas o ++ files, o_prefix o, o_prefix_set o,
     o_mod_prefix o, o_mod_prefix_set o)
  ∧ modes_of (fold_left (fun o a => add_file 3 a o) files o) = modes_of o.
Proof.
  induction files as [|a files IH]; intros o; cbn [fold_left].
  - unfold files_of. rewrite app_nil_r. auto.
  - destruct (IH (add_file 3 a o)) as [-> ->].
    unfold files_of, modes_of. cbn. rewrite <- app_assoc. auto.
Qed.

Ltac files_chain :=
  repeat match goal with
         | H : files_of _ = _ |- _ =>
             unfold files_of in H; cbn in H; injection H as ? ? ? ? ? ?
         end;
  unfold files_of; cbn;
  repeat match goal with
         | H : ?l = _ |- context [?l] => rewrite H
         end;
  cbn; reflexivity.

Lemma main_args_parsed args o :
  args_loop 0 args options_init = Ok (Parsed o) →
  args ≠ [] →
  o_do_simulation o = false →
  main_args args = Ok (Parsed o).
Proof.
  intros H Hne Hs. unfold main_args.
  destruct args; [congruence|]. cbn [is_nil]. rewrite H.
  cbn [mbind result_bind]. rewrite Hs. reflexivity.
Qed.

(** X19.  A command line that follows the layout of the usage message is
    read section by section: mode arguments, parameter names with their
    values, SAM files, FASTA files and the record prefix, each section closed
    by [--].  The file lists are taken in their order, the prefix is set
    once, and a mode flag is on exactly when one of the mode arguments holds
    its letter. *)
Theorem command_line_sections modes kvs sams fastas prefix :
  "--"%string ∉ modes →
  forallb accepted_pair kvs = true →
  "--"%string ∉ sams →
  "--"%string ∉ fastas →
  prefix ≠ "--"%string →
  has_mode "s" modes = false →
  ∃ o,
    main_args (modes ++ "--"%string :: pair_args kvs ++ "--"%string :: sams
               ++ "--"%string :: fastas ++ ["--"%string; prefix])
    = Ok (Parsed o)
    ∧ files_of o = (sams, fastas, prefix, 1, EmptyString, 0)
    ∧ modes_of o = (false, has_mode "i" modes, has_mode "f" modes).
Proof.
  intros Hm Hk Hs Hf Hp Hsim.
  destruct (args_loop_modes modes
              (pair_args kvs ++ "--"%string :: sams ++ "--"%string :: fastas
               ++ ["--"%string; prefix]) options_init Hm)
    as (o1 & R1 & F1 & M1).
  destruct (args_loop_parameters kvs
              ("--"%string :: sams ++ "--"%string :: fastas
               ++ ["--"%string; prefix]) o1 Hk)
    as (o2 & R2 & F2 & M2).
  destruct (args_loop_files 2 sams o2 ltac:(lia) Hs) as [R3 _].
  destruct (fold_add_sams sams o2) as [F3 M3].
  set (o3 := fold_left (fun o a => add_file 2 a o) sams o2) in *.
  destruct (args_loop_files 3 fastas o3 ltac:(lia) Hf) as [R4 _].
  destruct (fold_add_fastas fastas o3) as [F4 M4].
  set (o4 := fold_left (fun o a => add_file 3 a o) fastas o3) in *.
  assert (Hp' : "--"%string ∉ [prefix]).
  { intros Hin. apply elem_of_cons in Hin as [Hin|Hin]; [congruence|].
    inversion Hin. }
  destruct (args_loop_files 4 [prefix] o4 ltac:(lia) Hp') as [_ R5].
  cbn [fold_left] in R5.
  exists (add_file 4 prefix o4).
  assert (Hfiles : files_of (add_file 4 prefix o4)
                   = (sams, fastas, prefix, 1, EmptyString, 0)).
  { clear - F1 F2 F3 F4. files_chain. }
  assert (Hmodes : modes_of (add_file 4 prefix o4)
                   = (false, has_mode "i" modes, has_mode "f" modes)).
  { change (modes_of (add_file 4 prefix o4)) with (modes_of o4).
    rewrite M4, M3, M2, M1, Hsim. reflexivity. }
  split; [|split; assumption].
  apply main_args_parsed.
  - rewrite R1, R2. cbn [args_loop String.eqb Ascii.eqb Bool.eqb].
    change (1 + 1) with 2. rewrite R3.
    change (2 + 1) with 3.
    change (fastas ++ ["--"%string; prefix])
      with (fastas ++ "--"%string :: [prefix]).
    rewrite R4. exact R5.
  - destruct modes; discriminate.
  - unfold modes_of in Hmodes. congruence.
Qed.

(** X19 for feature output on one SAM file with a wiggle of 20. *)
Lemma command_line_sections_witness :
  ∃ o,
    main_args ["f"; "--"; "wiggle"; "20"; "--"; "in.sam"; "--"; "ref.fa";
               "--"; "out"]%string
    = Ok (Parsed o)
    ∧ files_of o
      = (["in.sam"%string], ["ref.fa"%string], "out"%string, 1,
         EmptyString, 0)
    ∧ modes_of o = (false, false, true).
Proof.
  apply (command_line_sections ["f"%string] [("wiggle", "20")%string]
           ["in.sam"%string] ["ref.fa"%string] "out"%string);
    try reflexivity; try discriminate;
    intros Hin; repeat (apply elem_of_cons in Hin as [Hin|Hin];
                        [discriminate|]); inversion Hin.
Defined.

(** X20.  The check for an odd number of arguments in the parameter section
    looks at the end of the command line only.  A parameter name that stands
    without its value right before the closing [--] takes the [--] as its
    value, and the sections that follow move up by one: the SAM files are
    passed over as names that nothing matches, the FASTA files are taken as
    the SAM files, the record prefix as the only FASTA file, and no prefix is
    set. *)
Theorem parameter_without_value_shifts_the_sections
    modes kvs name sams fastas prefix :
  "--"%string ∉ modes →
  forallb accepted_pair kvs = true →
  known_parameter name = true →
  name ≠ "sim-function"%string →
  "--"%string ∉ sams →
  forallb (fun a => negb (known_parameter a)) sams = true →
  "--"%string ∉ fastas →
  prefix ≠ "--"%string →
  has_mode "s" modes = false →
  ∃ o,
    main_args (modes ++ "--"%string :: pair_args kvs
               ++ name :: "--"%string :: sams
               ++ "--"%string :: fastas ++ ["--"%string; prefix])
    = Ok (Parsed o)
    ∧ files_of o = (fastas, [prefix], EmptyString, 0, EmptyString, 0).
Proof.
  intros Hm Hk Hn Hne Hs Hu Hf Hp Hsim.
  destruct (args_loop_modes modes
              (pair_args kvs ++ name :: "--"%string :: sams
               ++ "--"%string :: fastas ++ ["--"%string; prefix])
              options_init Hm)
    as (o1 & R1 & F1 & M1).
  destruct (args_loop_parameters kvs
              (name :: "--"%string :: sams ++ "--"%string :: fastas
               ++ ["--"%string; prefix]) o1 Hk)
    as (o2 & R2 & F2 & M2).
  destruct (set_parameter_takes_separator name o2 Hn Hne)
    as (o3 & Hset & F3 & M3).
  assert (En : String.eqb name "--" = false).
  { destruct (String.eqb name "--") eqn:E; [|reflexivity].
    apply String.eqb_eq in E. subst name. discriminate. }
  destruct (args_loop_files 2 fastas o3 ltac:(lia) Hf) as [R4 _].
  destruct (fold_add_sams fastas o3) as [F4 M4].
  set (o4 := fold_left (fun o a => add_file 2 a o) fastas o3) in *.
  assert (Hp' : "--"%string ∉ [prefix]).
  { intros Hin. apply elem_of_cons in Hin as [Hin|Hin]; [congruence|].
    inversion Hin. }
  destruct (args_loop_files 3 [prefix] o4 ltac:(lia) Hp') as [_ R5].
  destruct (fold_add_fastas [prefix] o4) as [F5 M5].
  set (o5 := fold_left (fun o a => add_file 3 a o) [prefix] o4) in *.
  exists o5.
  assert (Hfiles : files_of o5
                   = (fastas, [prefix], EmptyString, 0, EmptyString, 0)).
  { clear - F1 F2 F3 F4 F5. files_chain. }
  split; [|exact Hfiles].
  apply main_args_parsed.
  - rewrite R1, R2. cbn [args_loop]. rewrite En. cbn [Z.eqb]. rewrite Hset.
    rewrite args_loop_unknown by assumption.
    change (fastas ++ ["--"%string; prefix])
      with (fastas ++ "--"%string :: [prefix]).
    rewrite R4. change (2 + 1) with 3. exact R5.
  - destruct modes; discriminate.
  - assert (Hmo : modes_of o5 = modes_of o1).
    { rewrite M5, M4, M3, M2. reflexivity. }
    rewrite M1, Hsim in Hmo. unfold modes_of in Hmo. cbn in Hmo.
    unfold o5. cbn. congruence.
Qed.

(** X20 for the command line of X19 with the value of [wiggle] left out. *)
Lemma parameter_without_value_shifts_the_sections_witness :
  ∃ o,
    main_args ["f"; "--"; "wiggle"; "--"; "in.sam"; "--"; "ref.fa";
               "--"; "out"]%string
    = Ok (Parsed o)
    ∧ files_of o
      = (["ref.fa"%string], ["out"%string], EmptyString, 0, EmptyString, 0).
Proof.
  apply (parameter_without_value_shifts_the_sections ["f"%string] []
           "wiggle"%string ["in.sam"%string] ["ref.fa"%string] "out"%string);
    try reflexivity; try discriminate;
    intros Hin; repeat (apply elem_of_cons in Hin as [Hin|Hin];
                        [discriminate|]); inversion Hin.
Defined.

(** ** The id of a record *)











(** ** Names of simulated reads *)

Lemma find_typ_no_sep sep q : ∀ junk,
  sep ∉ q → NUL ∉ q → find_typ sep (q ++ NUL :: junk) None = Ok None.
Proof.
  induction q as [|c q IH]; intros junk Hs Hn; [reflexivity|].
  apply not_elem_of_cons in Hs as [Hs1 Hs]. apply not_elem_of_cons in Hn as [Hn1 Hn].
  cbn [app find_typ].
  assert (E1 : ch_eqb c NUL = false) by (apply ch_eqb_neq; congruence).
  assert (E2 : ch_eqb c sep = false) by (apply ch_eqb_neq; congruence).
  rewrite E1, E2. apply IH; assumption.
Qed.

(** X22.  A primary record whose name passes the prefix test for simulated
    reads but holds no separator character stops the run: the loop that
    looks for the simulated type finds none, and the assertion on [typ]
    fails, before anything else of the line is read. *)
Theorem prefixed_name_without_separator_is_fatal cfg st q f rest more :
  primary_line q f →
  valid (al_cur_of st) = false →
  mate_flag_of (atoi f) = "0"%char ∨ valid (al_prev_of st) = false →
  mem_strncmp (q ++ [NUL]) (sim_startswith cfg) (strlen (sim_startswith cfg))
  = Ok true →
  sim_sep cfg ∉ q →
  NUL ∉ q →
  sam_pass1_from cfg st ((q :: f :: rest) :: more) = Err AssertFailed.
Proof.
  intros Hp Hfree Hmate Hpfx Hsep Hnul.
  cbn [sam_pass1_from]. rewrite (sam_pass1_line_primary _ _ _ _ _ Hp).
  unfold sam_pass1_mate. rewrite Hfree. cbn [negb assert mbind result_bind].
  unfold mate_flag at 1. cbn [flag set_line set_flag].
  assert (Hm : negb (ch_eqb (mate_flag_of (atoi f)) "0")
               && valid (al_prev_of st) = false).
  { destruct Hmate as [-> | ->]; [reflexivity | apply andb_false_r]. }
  rewrite Hm. cbn [mbind result_bind].
  cbn [qname set_line set_flag set_qname].
  rewrite Hpfx. cbn [mbind result_bind].
  change (typ_null _) with true. cbn [assert mbind result_bind].
  rewrite find_typ_no_sep by assumption. reflexivity.
Qed.

(** X22 for a read named [qsimread7] under the prefix [qsim] and the
    separator [!]. *)
Lemma prefixed_name_without_separator_is_fatal_witness :
  sam_pass1_from example_cfg (pass_init 0 0 0 0)
    [sam_fields prefixed_name_line] = Err AssertFailed.
Proof.
  apply (prefixed_name_without_separator_is_fatal example_cfg
           (pass_init 0 0 0 0) (chars "qsimread7") (chars "0")
           (with_newline (map chars (drop 2 prefixed_name_line))) []).
  - unfold primary_line. repeat split; vm_compute; congruence.
  - reflexivity.
  - left. vm_compute. reflexivity.
  - vm_compute. reflexivity.
  - intros Hin. repeat (apply elem_of_cons in Hin as [Hin|Hin];
                        [discriminate|]).
    inversion Hin.
  - intros Hin. repeat (apply elem_of_cons in Hin as [Hin|Hin];
                        [discriminate|]).
    inversion Hin.
Defined.

(** ** The rows of the stacked alignment *)

Lemma for_range_lengths (a b : nat) body n : ∀ j r r',
  (∀ j r r', body j r = Ok r' →
     length (fst r') = (a + length (fst r))%nat
     ∧ length (snd r') = (b + length (snd r))%nat) →
  for_range n j body r = Ok r' →
  length (fst r') = (n * a + length (fst r))%nat
  ∧ length (snd r') = (n * b + length (snd r))%nat.
Proof.
  induction n as [|n IH]; intros j r r' Hb H; cbn [for_range] in H.
  - injection H as <-. cbn. auto.
  - binv H as r1 H1. destruct (Hb _ _ _ H1) as [E1 E2].
    destruct (IH _ _ _ Hb H) as [E3 E4]. rewrite E3, E4, E1, E2. lia.
Qed.

Lemma push_rd_seq_lengths s j r r' :
  push_rd_seq s j r = Ok r' →
  length (fst r') = (1 + length (fst r))%nat
  ∧ length (snd r') = (0 + length (snd r))%nat.
Proof.
  unfold push_rd_seq. intros H. binv H as c Hc. injection H as <-.
  cbn [fst snd]. rewrite length_app. cbn. lia.
Qed.

Lemma push_rf_seq_lengths s j r r' :
  push_rf_seq s j r = Ok r' →
  length (fst r') = (0 + length (fst r))%nat
  ∧ length (snd r') = (1 + length (snd r))%nat.
Proof.
  unfold push_rf_seq. intros H. binv H as c Hc. injection H as <-.
  cbn [fst snd]. rewrite length_app. cbn. lia.
Qed.

Lemma push_rf_mdz_lengths mc j r r' :
  push_rf_mdz mc j r = Ok r' →
  length (fst r') = (0 + length (fst r))%nat
  ∧ length (snd r') = (1 + length (snd r))%nat.
Proof.
  unfold push_rf_mdz. intros H. binv H as c Hc. injection H as <-.
  cbn [fst snd]. rewrite length_app. cbn. lia.
Qed.

Lemma push_insertion_lengths s j r r' :
  push_insertion s j r = Ok r' →
  length (fst r') = (1 + length (fst r))%nat
  ∧ length (snd r') = (1 + length (snd r))%nat.
Proof.
  unfold push_insertion. intros H. binv H as c Hc. injection H as <-.
  cbn [fst snd]. rewrite !length_app. cbn. lia.
Qed.

Lemma push_deletion_lengths mc j r r' :
  push_deletion mc j r = Ok r' →
  length (fst r') = (1 + length (fst r))%nat
  ∧ length (snd r') = (1 + length (snd r))%nat.
Proof.
  unfold push_deletion. intros H. binv H as c Hc. injection H as <-.
  cbn [fst snd]. rewrite !length_app. cbn. lia.
Qed.

Lemma push_skip_lengths j r r' :
  push_skip j r = Ok r' →
  length (fst r') = (1 + length (fst r))%nat
  ∧ length (snd r') = (1 + length (snd r))%nat.
Proof.
  unfold push_skip. intros H. injection H as <-.
  cbn [fst snd]. rewrite !length_app. cbn. lia.
Qed.

Lemma for_range_joint body n j r r' :
  (∀ j r r', body j r = Ok r' →
     length (fst r') = (1 + length (fst r))%nat
     ∧ length (snd r') = (1 + length (snd r))%nat) →
  for_range n j body r = Ok r' → rows_gap r' = rows_gap r.
Proof.
  intros Hb H. destruct (for_range_lengths 1 1 _ _ _ _ _ Hb H) as [E1 E2].
  unfold rows_gap. lia.
Qed.

Lemma int_entries_lookup oro mdo e :
  int_entries oro → oro !! mdo = Some e →
  0 ≤ run e < 2 ^ 31 ∧ (op e = 0 ∨ 0 ≤ offset e < 2 ^ 31).
Proof.
  unfold int_entries. rewrite Forall_forall. intros H He.
  apply H. eapply list_elem_of_lookup_2. exact He.
Qed.

Lemma int_entries_insert oro mdo e r :
  int_entries oro → oro !! mdo = Some e → 0 ≤ r < 2 ^ 31 →
  int_entries (<[mdo := set_run r e]> oro).
Proof.
  intros H He Hr. pose proof (int_entries_lookup _ _ _ H He) as [_ Ho].
  unfold int_entries in *. apply Forall_insert; [exact H|].
  cbn [run op offset set_run]. split; assumption.
Qed.

(** One round of the [M] loop pushes as much onto one row as onto the
    other. *)
Lemma stacked_push_gap s mc e runleft rdoff r r' :
  stacked_push s mc e runleft rdoff r = Ok r' →
  0 < runleft →
  0 ≤ run e < 2 ^ 31 → op e = 0 ∨ 0 ≤ offset e < 2 ^ 31 →
  0 ≤ rdoff → rdoff + runleft < 2 ^ 63 →
  rows_gap r' = rows_gap r.
Proof.
  unfold stacked_push. intros H Hrl Hrun Hoff Hrd Hb.
  binv H as [] Ha. binv H as r1 H1.
  destruct (for_range_lengths 1 0 _ _ _ _ _ (push_rd_seq_lengths s) H1)
    as [A1 A2].
  destruct (op e =? 0) eqn:E0.
  - destruct (for_range_lengths 0 1 _ _ _ _ _ (push_rf_seq_lengths s) H)
      as [B1 B2].
    unfold rows_gap. lia.
  - binv H as [] Hr. apply assert_Ok_inv in Hr. apply Z.eqb_eq in Hr.
    destruct (for_range_lengths 0 1 _ _ _ _ _ (push_rf_mdz_lengths mc) H)
      as [B1 B2].
    apply Z.eqb_neq in E0. destruct Hoff as [Hoff|Hoff]; [congruence|].
    assert (W1 : wrap64 (rdoff + Z.min runleft (run e))
                 = rdoff + Z.min runleft (run e))
      by (unfold wrap64; apply Z.mod_small; lia).
    assert (W2 : wrap64 (offset e) = offset e)
      by (unfold wrap64; apply Z.mod_small; lia).
    assert (W3 : wrap64 (offset e + run e) = offset e + run e)
      by (unfold wrap64; apply Z.mod_small; lia).
    rewrite W1 in A1, A2. rewrite W2, W3 in B1, B2.
    unfold range_iters in *. unfold rows_gap.
    replace (rdoff + Z.min runleft (run e) - rdoff) with (run e) in * by lia.
    replace (offset e + run e - offset e) with (run e) in * by lia.
    lia.
Qed.

Lemma stacked_m_loop_gap s mc oro mdo runleft rdoff r :
  ∀ oro' mdo' rdoff' r',
  stacked_m_loop s mc oro mdo runleft rdoff r = Ok (oro', mdo', rdoff', r') →
  int_entries oro → 0 ≤ rdoff → rdoff + Z.max 0 runleft < 2 ^ 63 →
  int_entries oro' ∧ 0 ≤ rdoff' ≤ rdoff + Z.max 0 runleft
  ∧ rows_gap r' = rows_gap r.
Proof.
  funelim (stacked_m_loop s mc oro mdo runleft rdoff r).
  - intros ? ? ? ? [= <- <- <- <-] Hi Hrd Hb. repeat split; [exact Hi|lia..].
  - intros ? ? ? ? [= <- <- <- <-] Hi Hrd Hb. repeat split; [exact Hi|lia..].
  - discriminate.
  - intros oro' mdo' rdoff' r'' HH Hi Hrd Hb.
    destruct (op e =? 0) eqn:Eop; [|discriminate].
    pose proof (proj1 (Z.ltb_lt _ _) Hlt) as Hlt'.
    pose proof (proj1 (Z.ltb_lt _ _) Hrl) as Hrl'.
    pose proof (int_entries_lookup _ _ _ Hi He) as [Hrun Hoff].
    assert (W : wrap64 (rdoff + Z.min runleft (run e))
                = rdoff + Z.min runleft (run e))
      by (unfold wrap64; apply Z.mod_small; lia).
    destruct (H oro' mdo' rdoff' r'' HH) as (Hi' & Hrd' & Hg);
      [| rewrite W; lia | rewrite W; lia |].
    { apply int_entries_insert; [exact Hi | exact He | lia]. }
    rewrite W in Hrd'.
    split; [exact Hi'|]. split; [lia|].
    rewrite Hg. apply (stacked_push_gap _ _ _ _ _ _ _ Heq); try assumption; lia.
  - intros oro' mdo' rdoff' r'' HH Hi Hrd Hb.
    pose proof (proj1 (Z.ltb_lt _ _) Hrl) as Hrl'.
    pose proof (int_entries_lookup _ _ _ Hi He) as [Hrun Hoff].
    assert (W : wrap64 (rdoff + Z.min runleft (run e))
                = rdoff + Z.min runleft (run e))
      by (unfold wrap64; apply Z.mod_small; lia).
    destruct (H oro' mdo' rdoff' r'' HH) as (Hi' & Hrd' & Hg);
      [exact Hi | rewrite W; lia | rewrite W; lia |].
    rewrite W in Hrd'.
    split; [exact Hi'|]. split; [lia|].
    rewrite Hg. apply (stacked_push_gap _ _ _ _ _ _ _ Heq); try assumption; lia.
Qed.

Lemma stacked_loop_gap s mc runs : ∀ ops oro mdo rdoff r oro' mdo' rdoff' r',
  stacked_loop s mc ops runs oro mdo rdoff r = Ok (oro', mdo', rdoff', r') →
  int_entries oro → Forall (fun c => 0 ≤ c) runs →
  0 ≤ rdoff → rdoff + runs_total runs < 2 ^ 63 →
  rows_gap r' = rows_gap r.
Proof.
  induction runs as [|crun runs IH];
    intros ops oro mdo rdoff r oro' mdo' rdoff' r' H Hi Hruns Hrd Hb;
    cbn [stacked_loop] in H.
  - injection H as _ _ _ <-. reflexivity.
  - inversion Hruns as [|? ? Hc Hruns']; subst.
    unfold runs_total in Hb. cbn [fold_right] in Hb.
    fold (runs_total runs) in Hb.
    assert (Ht : 0 ≤ runs_total runs).
    { clear - Hruns'. induction Hruns' as [|c l Hc Hl IHl]; [cbn; lia|].
      unfold runs_total in *. cbn [fold_right]. lia. }
    assert (W : wrap64 (rdoff + crun) = rdoff + crun)
      by (unfold wrap64; apply Z.mod_small; lia).
    destruct ops as [|cop ops]; [discriminate|].
    destruct (ch_eqb cop "M").
    { binv H as [[[oro1 mdo1] rdoff1] r1] Hm.
      destruct (stacked_m_loop_gap _ _ _ _ _ _ _ _ _ _ _ Hm Hi Hrd)
        as (Hi1 & Hrd1 & Hg1); [lia|].
      rewrite (IH _ _ _ _ _ _ _ _ _ H Hi1 Hruns'); [exact Hg1 | lia | lia]. }
    destruct (ch_eqb cop "I").
    { binv H as r1 H1. rewrite W in H.
      rewrite (IH _ _ _ _ _ _ _ _ _ H Hi Hruns'); [| lia | lia].
      exact (for_range_joint _ _ _ _ _ (push_insertion_lengths s) H1). }
    destruct (ch_eqb cop "D").
    { destruct (oro !! mdo) as [e|]; [|discriminate].
      binv H as [] A1. binv H as [] A2. binv H as [] A3. binv H as r1 H1.
      rewrite (IH _ _ _ _ _ _ _ _ _ H Hi Hruns'); [| lia | lia].
      exact (for_range_joint _ _ _ _ _ (push_deletion_lengths mc) H1). }
    destruct (ch_eqb cop "N").
    { binv H as r1 H1.
      rewrite (IH _ _ _ _ _ _ _ _ _ H Hi Hruns'); [| lia | lia].
      exact (for_range_joint _ _ _ _ _ push_skip_lengths H1). }
    destruct (ch_eqb cop "S").
    { rewrite W in H. apply (IH _ _ _ _ _ _ _ _ _ H Hi Hruns'); lia. }
    destruct (ch_eqb cop "H"); [|discriminate].
    apply (IH _ _ _ _ _ _ _ _ _ H Hi Hruns'); lia.
Qed.

(** X23.  The two rows of a stacked alignment end with the same length:
    whenever [cigar_and_mdz_to_stacked] returns on a record whose CIGAR runs
    are not negative and whose MD:Z entries hold [int]s with valid offsets,
    it has pushed exactly as many characters onto the read row as onto the
    reference row, so rows of equal length on entry (both are empty after
    [clear]) are of equal length on return. *)
Theorem stacked_rows_have_equal_length al r al' r' :
  cigar_and_mdz_to_stacked al r = Ok (al', r') →
  int_entries (mdz_oro al) →
  Forall (fun c => 0 ≤ c) (cigar_run al) →
  runs_total (cigar_run al) < 2 ^ 63 →
  length (fst r) = length (snd r) →
  length (fst r') = length (snd r').
Proof.
  unfold cigar_and_mdz_to_stacked. intros H Hi Hruns Hb Hlen.
  binv H as [[[oro mdo] rdoff] r1] Hloop. binv H as [] Ha.
  injection H as _ <-. cbn [fst snd]. rewrite !length_app. cbn [length].
  apply stacked_loop_gap in Hloop; [| exact Hi | exact Hruns | lia | lia].
  unfold rows_gap in Hloop. lia.
Qed.

(** X23 for the read ACGTAC with 2S3M1D1M and MD:Z 1G1^T1: the rows GTA-C and
    GGATC. *)
Lemma stacked_rows_have_equal_length_witness :
  ∃ al' r',
    cigar_and_mdz_to_stacked stacked_input ([], []) = Ok (al', r')
    ∧ length (fst r') = length (snd r').
Proof.
  assert (Hs : ∃ al' r',
             cigar_and_mdz_to_stacked stacked_input ([], []) = Ok (al', r'))
    by (vm_compute; do 2 eexists; reflexivity).
  destruct Hs as (al' & r' & Hs). exists al', r'. split; [exact Hs|].
  apply (stacked_rows_have_equal_length stacked_input ([], []) al' r' Hs).
  - repeat (constructor; [cbn; split; [lia | first [left; reflexivity
                                                    | right; lia]]|]).
    constructor.
  - repeat (constructor; [lia|]). constructor.
  - vm_compute. reflexivity.
  - reflexivity.
Defined.

(** ** The length of the other mate *)

Lemma count_to_tab_text f : ∀ rest len,
  tab_free f = true →
  count_to_tab (f ++ rest) len
  = count_to_tab rest (len + Z.of_nat (length f)).
Proof.
  induction f as [|c f IH]; intros rest len Hf.
  - cbn. f_equal. lia.
  - cbn [tab_free forallb] in Hf. apply andb_prop in Hf as [Hc Hf].
    cbn [app count_to_tab length]. rewrite Hc, (IH _ _ Hf). f_equal. lia.
Qed.

Lemma count_to_tab_runs_off f len :
  tab_free f = true → count_to_tab f len = Err OutOfBounds.
Proof.
  intros Hf. rewrite <- (app_nil_r f), count_to_tab_text by exact Hf.
  reflexivity.
Qed.

Lemma infer_read_length_text_skip f : ∀ rest tabs,
  tab_free f = true →
  infer_read_length_text (f ++ rest) tabs = infer_read_length_text rest tabs.
Proof.
  induction f as [|c f IH]; intros rest tabs Hf; [reflexivity|].
  cbn [tab_free forallb] in Hf. apply andb_prop in Hf as [Hc Hf].
  apply negb_true_iff in Hc.
  cbn [app infer_read_length_text]. rewrite Hc. apply IH. exact Hf.
Qed.

Lemma tab_free_NUL : tab_free [NUL] = true.
Proof. reflexivity. Qed.

Lemma tab_joined_cons2 f g fs :
  tab_joined (f :: g :: fs) = f ++ "009"%char :: tab_joined (g :: fs).
Proof. reflexivity. Qed.

(** The scan from a column on, [k] tabs short of the seventh. *)
Lemma infer_read_length_text_columns k : ∀ fs tabs,
  forallb tab_free fs = true →
  tabs + Z.of_nat k = 6 →
  fs ≠ [] →
  infer_read_length_text (tab_joined fs ++ [NUL]) tabs
  = match drop (S k) fs with
    | f :: _ :: _ => Ok (Z.of_nat (length f))
    | _ => Err OutOfBounds
    end.
Proof.
  induction k as [|k IH]; intros fs tabs Hfs Ht Hne.
  - destruct fs as [|f0 fs]; [congruence|].
    cbn [forallb] in Hfs. apply andb_prop in Hfs as [Hf0 Hfs].
    cbn [drop]. rewrite drop_0.
    destruct fs as [|f fs].
    { cbn [tab_joined]. rewrite infer_read_length_text_skip by exact Hf0.
      reflexivity. }
    rewrite tab_joined_cons2, <- app_assoc.
    rewrite infer_read_length_text_skip by exact Hf0.
    cbn [app infer_read_length_text].
    change (ch_eqb "009" "009") with true. cbv iota.
    replace (tabs + 1 =? 7) with true by (symmetry; apply Z.eqb_eq; lia).
    cbn [forallb] in Hfs. apply andb_prop in Hfs as [Hf Hfs].
    destruct fs as [|g fs].
    + cbn [tab_joined]. rewrite count_to_tab_text by exact Hf.
      cbn. reflexivity.
    + rewrite tab_joined_cons2, <- app_assoc.
      rewrite count_to_tab_text by exact Hf.
      cbn [app count_to_tab]. change (ch_eqb "009" "009") with true.
      cbn [negb]. reflexivity.
  - destruct fs as [|f0 fs]; [congruence|].
    cbn [forallb] in Hfs. apply andb_prop in Hfs as [Hf0 Hfs].
    destruct fs as [|f fs].
    { cbn [tab_joined drop]. rewrite infer_read_length_text_skip by exact Hf0.
      reflexivity. }
    rewrite tab_joined_cons2, <- app_assoc.
    rewrite infer_read_length_text_skip by exact Hf0.
    cbn [app infer_read_length_text].
    change (ch_eqb "009" "009") with true. cbv iota.
    replace (tabs + 1 =? 7) with false by (symmetry; apply Z.eqb_neq; lia).
    rewrite (IH (f :: fs) (tabs + 1) Hfs); [reflexivity | lia | discriminate].
Qed.

(** X24.  The scan of [infer_read_length] over the text of a line gives what
    the columns say: on the tab-separated text of columns, it returns the
    length of the eighth column (SEQ, counted from RNAME) when a ninth
    column follows, and it runs off the end of the text otherwise — so the
    length of the other mate written to a bad-end record is the length of
    that mate's SEQ column. *)
Theorem infer_read_length_reads_the_seq_column fs :
  fs ≠ [] →
  forallb tab_free fs = true →
  infer_read_length_text (tab_joined fs ++ [NUL]) 0
  = infer_read_length (Some fs).
Proof.
  intros Hne Hfs. unfold infer_read_length.
  exact (infer_read_length_text_columns 6 fs 0 Hfs eq_refl Hne).
Qed.

(** X24 for an unaligned mate of seven bases. *)
Lemma infer_read_length_reads_the_seq_column_witness :
  infer_read_length_text (tab_joined unaligned_columns ++ [NUL]) 0 = Ok 7.
Proof.
  rewrite (infer_read_length_reads_the_seq_column unaligned_columns).
  - reflexivity.
  - discriminate.
  - reflexivity.
Defined.
